(** * Texas Hold'em poker engine: hand evaluator, game state machine, decision agent

    A shallow embedding of [src/hand-evaluator.js], [src/poker-engine.js] and
    the decision agent ([class PokerAI]), followed by the properties of the
    specification that were checked against them.

    Conventions of the embedding.
    - JavaScript numbers that hold card ranks, chip counts and bets are
      modelled by [Z].  The stacks, the blinds and the raise of the human
      seat (twice the big blind) are integers, and on integers up to 2^53 the
      arithmetic of the engine is exact.  The raise amount of an agent is a
      fraction, which [processAIDecision] hands to [executePlayerAction]
      unrounded: from then on the stacks, the bets and the pot are binary
      fractions that round at every step.  The statements about sums of chips
      are made for integers in the exact range and carry it as a hypothesis
      ([exactTable], [exactHand]).  A rank is read back from an object key by
      [parseInt], which returns the rank for integers below 10^21, the range
      the model of the count-based checks covers.
    - The decision agent computes with fractions (thresholds, pot odds, bet
      sizes); it is modelled over exact rationals [Q].
    - [Array.prototype.sort] is stable; with a comparator that is a total
      preorder its result is determined, so it is modelled by a stable
      insertion sort driven by the same comparator.
    - A JavaScript object used as a dictionary is an association list kept in
      property enumeration order (integer-like keys ascending, then the other
      keys in insertion order).
    - [null]/[undefined] results are [option] values; a statement that throws
      is an [Outcome] other than [Normal]. *)

From Stdlib Require Import ZArith List Bool Lia String QArith Permutation Sorted SetoidList.
Import ListNotations.
Open Scope Z_scope.

(** ** Generic JavaScript array helpers *)

Section ArrayHelpers.
Context {A : Type}.

(** Insertion of [x] in front of the first element it does not have to
    follow: [cmp x y <= 0] keeps [x] before [y]. *)
Fixpoint insertBy (cmp : A -> A -> Z) (x : A) (l : list A) : list A :=
  match l with
  | [] => [x]
  | y :: t => if cmp x y <=? 0 then x :: y :: t else y :: insertBy cmp x t
  end.

(** [arr.sort(cmp)]: stable sort by the comparator. *)
Definition sortBy (cmp : A -> A -> Z) (l : list A) : list A :=
  fold_right (insertBy cmp) [] l.

(** [arr.slice(0, n)] *)
Definition slice0 (n : nat) (l : list A) : list A := firstn n l.

(** [arr.filter(Boolean)] on an array whose holes are [undefined]. *)
Definition filterBoolean (l : list (option A)) : list A :=
  flat_map (fun o => match o with Some a => [a] | None => [] end) l.
End ArrayHelpers.

(** [(a, b) => b - a] on numbers. *)
Definition descZ (a b : Z) : Z := b - a.

(** [[...new Set(xs)]]: first occurrences, in order. *)
Fixpoint uniqueZ (seen : list Z) (xs : list Z) : list Z :=
  match xs with
  | [] => []
  | x :: t => if existsb (Z.eqb x) seen then uniqueZ seen t
              else x :: uniqueZ (x :: seen) t
  end.

(** [xs.includes(v)] *)
Definition includes (v : Z) (xs : list Z) : bool := existsb (Z.eqb v) xs.

(** [Math.min] and [Math.max] on fractions. *)
Definition minQ (a b : Q) : Q := if Qle_bool a b then a else b.
Definition maxQ (a b : Q) : Q := if Qle_bool a b then b else a.

(** [x || 0] for a possibly missing number. *)
Definition orZero (o : option Z) : Z :=
  match o with Some v => v | None => 0 end.

(** ** Completion of a JavaScript call *)

(** The runtime errors the modelled code can raise. *)
Inductive Error :=
| TypeError      (* property read on [null] or [undefined] *)
| RangeError.    (* call stack exhausted by unbounded recursion *)

Inductive Outcome (A : Type) :=
| Normal (a : A)
| Throws (e : Error).
Arguments Normal {A} a.
Arguments Throws {A} e.

Definition bindO {A B} (m : Outcome A) (f : A -> Outcome B) : Outcome B :=
  match m with
  | Normal a => f a
  | Throws e => Throws e
  end.

Notation "x <- m ;; k" := (bindO m (fun x => k))
  (at level 61, m at next level, right associativity).

(** ** Cards *)

Inductive Suit := hearts | diamonds | clubs | spades.

Definition Suit_eqb (a b : Suit) : bool :=
  match a, b with
  | hearts, hearts | diamonds, diamonds | clubs, clubs | spades, spades => true
  | _, _ => false
  end.

(** A card of the deck built by [createDeck].  Only [value] and [suit] are
    read by the evaluator; the rank character, the id and the unicode glyph
    are display data derived from them and are left out. *)
Record Card := mkCard { value : Z; suit : Suit }.

(** The evaluation format built at the head of [evaluateHand]:
    [{rank: card.value, suit: card.suit, ...}]. *)
Record EvalCard := mkEval { rank : Z; esuit : Suit }.

Definition descRank (a b : EvalCard) : Z := rank b - rank a.

(** ** hand-evaluator.js *)

Module HandEvaluator.

(** [HAND_RANKS] *)
Definition HIGH_CARD : Z := 1.
Definition PAIR : Z := 2.
Definition TWO_PAIR : Z := 3.
Definition THREE_OF_A_KIND : Z := 4.
Definition STRAIGHT : Z := 5.
Definition FLUSH : Z := 6.
Definition FULL_HOUSE : Z := 7.
Definition FOUR_OF_A_KIND : Z := 8.
Definition STRAIGHT_FLUSH : Z := 9.
Definition ROYAL_FLUSH : Z := 10.

(** [HAND_NAMES] *)
Definition HAND_NAMES (r : Z) : string :=
  if r =? 1 then "High Card"
  else if r =? 2 then "Pair"
  else if r =? 3 then "Two Pair"
  else if r =? 4 then "Three of a Kind"
  else if r =? 5 then "Straight"
  else if r =? 6 then "Flush"
  else if r =? 7 then "Full House"
  else if r =? 8 then "Four of a Kind"
  else if r =? 9 then "Straight Flush"
  else if r =? 10 then "Royal Flush"
  else "".

Record HandResult := mkHand {
  hrank : Z;
  name : string;
  kickers : list Z;
  cards : list EvalCard
}.

(** *** Helper objects *)

(** Keys that JavaScript enumerates first and in ascending order. *)
Definition isArrayIndex (k : Z) : bool := (0 <=? k) && (k <? 4294967295).

(** [counts[k]] *)
Definition countsGet (k : Z) (o : list (Z * Z)) : option Z :=
  match find (fun e => fst e =? k) o with
  | Some e => Some (snd e)
  | None => None
  end.

(** Position of a new key in the enumeration order. *)
Fixpoint countsInsertNew (k v : Z) (o : list (Z * Z)) : list (Z * Z) :=
  match o with
  | [] => [(k, v)]
  | (k', v') :: t =>
      if isArrayIndex k && (negb (isArrayIndex k') || (k <? k'))
      then (k, v) :: (k', v') :: t
      else (k', v') :: countsInsertNew k v t
  end.

(** [counts[k] = v] *)
Definition countsSet (k v : Z) (o : list (Z * Z)) : list (Z * Z) :=
  if existsb (fun e => fst e =? k) o
  then map (fun e => if fst e =? k then (k, v) else e) o
  else countsInsertNew k v o.

(** [getRankCounts]; the result is [Object.entries] of the counts object. *)
Definition getRankCounts (cs : list EvalCard) : list (Z * Z) :=
  fold_left
    (fun counts card =>
       countsSet (rank card) (orZero (countsGet (rank card) counts) + 1) counts)
    cs [].

(** [suitGroups[s].push(card)], creating the group on first use.  Suit keys
    are strings, so groups stay in insertion order. *)
Fixpoint groupsPush (card : EvalCard) (g : list (Suit * list EvalCard))
  : list (Suit * list EvalCard) :=
  match g with
  | [] => [(esuit card, [card])]
  | (s, l) :: t =>
      if Suit_eqb s (esuit card) then (s, l ++ [card]) :: t
      else (s, l) :: groupsPush card t
  end.

(** [getFlushCards]; the result is [Object.values] of the groups object,
    every group sorted by rank descending. *)
Definition getFlushCards (cs : list EvalCard) : list (list EvalCard) :=
  map (fun g => sortBy descRank (snd g))
      (fold_left (fun g card => groupsPush card g) cs []).

(** [cards.find(c => c.rank === r)] for each rank of [rs].  Every rank of
    [rs] is taken from [cards] in [findStraight], so no entry is missing. *)
Definition cardsOfRanks (rs : list Z) (cs : list EvalCard) : list EvalCard :=
  filterBoolean (map (fun r => find (fun c => rank c =? r) cs) rs).

(** The loop over windows of five unique ranks: the list is the window
    start and everything after it. *)
Fixpoint regularStraight (uniq : list Z) (cs : list EvalCard)
  : option (Z * list EvalCard) :=
  match uniq with
  | [] => None
  | r0 :: t =>
      match nth_error uniq 4 with
      | None => None
      | Some r4 =>
          if r0 - r4 =? 4
          then Some (r0, cardsOfRanks (firstn 5 uniq) cs)
          else regularStraight t cs
      end
  end.

(** [findStraight]: [Some (high, cards)] or [null]. *)
Definition findStraight (cs : list EvalCard) : option (Z * list EvalCard) :=
  let uniqueRanks := sortBy descZ (uniqueZ [] (map rank cs)) in
  if includes 14 uniqueRanks && includes 5 uniqueRanks &&
     includes 4 uniqueRanks && includes 3 uniqueRanks && includes 2 uniqueRanks
  then Some (5, cardsOfRanks [2; 3; 4; 5; 14] cs)
  else regularStraight uniqueRanks cs.

(** *** The ten category checks *)

(** [ranks[i] === v] *)
Definition rankIs (ranks : list Z) (i : nat) (v : Z) : bool :=
  match nth_error ranks i with Some r => r =? v | None => false end.

(** The guard [flushCards.length < 5] reads a property an object does not
    have; [undefined < 5] is false and the guard never fires. *)
Fixpoint royalLoop (groups : list (list EvalCard)) : option HandResult :=
  match groups with
  | [] => None
  | suitCards :: rest =>
      if (5 <=? Z.of_nat (length suitCards)) then
        let ranks := sortBy descZ (map rank suitCards) in
        if rankIs ranks 0 14 && rankIs ranks 1 13 && rankIs ranks 2 12 &&
           rankIs ranks 3 11 && rankIs ranks 4 10
        then Some (mkHand ROYAL_FLUSH (HAND_NAMES ROYAL_FLUSH) [14]
                          (slice0 5 suitCards))
        else royalLoop rest
      else royalLoop rest
  end.

Definition checkRoyalFlush (cs : list EvalCard) : option HandResult :=
  royalLoop (getFlushCards cs).

Fixpoint straightFlushLoop (groups : list (list EvalCard)) : option HandResult :=
  match groups with
  | [] => None
  | suitCards :: rest =>
      if (5 <=? Z.of_nat (length suitCards)) then
        match findStraight suitCards with
        | Some (high, sc) =>
            Some (mkHand STRAIGHT_FLUSH (HAND_NAMES STRAIGHT_FLUSH) [high] sc)
        | None => straightFlushLoop rest
        end
      else straightFlushLoop rest
  end.

Definition checkStraightFlush (cs : list EvalCard) : option HandResult :=
  straightFlushLoop (getFlushCards cs).

(** [checkFourOfAKind].  The rank of a count entry is read back from its key
    by [parseInt(rank)], here and in the other checks that go through
    [getRankCounts].  For an integer rank below 10^21 that is the rank itself,
    which is what the model takes; from 10^21 on the key is written with an
    exponent and [parseInt] reads its leading digits only. *)
Definition checkFourOfAKind (cs : list EvalCard) : option HandResult :=
  match find (fun e => 4 <=? snd e) (getRankCounts cs) with
  | None => None
  | Some (r, _) =>
      let fourCards := filter (fun c => rank c =? r) cs in
      let kicker := find (fun c => negb (rank c =? r)) cs in
      Some (mkHand FOUR_OF_A_KIND (HAND_NAMES FOUR_OF_A_KIND)
              [r; match kicker with Some c => rank c | None => 0 end]
              (filterBoolean (map Some (slice0 4 fourCards) ++ [kicker])))
  end.

(** [!x] for a rank variable that is [null] or a number. *)
Definition falsy (o : option Z) : bool :=
  match o with None => true | Some v => v =? 0 end.

Definition checkFullHouse (cs : list EvalCard) : option HandResult :=
  let rankCounts := getRankCounts cs in
  let threeRank := option_map fst (find (fun e => 3 <=? snd e) rankCounts) in
  if falsy threeRank then None else
  let three := orZero threeRank in
  let pairRank :=
    option_map fst
      (find (fun e => negb (fst e =? three) && (2 <=? snd e)) rankCounts) in
  if falsy pairRank then None else
  let pair := orZero pairRank in
  let threeCards := slice0 3 (filter (fun c => rank c =? three) cs) in
  let pairCards := slice0 2 (filter (fun c => rank c =? pair) cs) in
  Some (mkHand FULL_HOUSE (HAND_NAMES FULL_HOUSE) [three; pair]
               (threeCards ++ pairCards)).

Fixpoint flushLoop (groups : list (list EvalCard)) : option HandResult :=
  match groups with
  | [] => None
  | suitCards :: rest =>
      if (5 <=? Z.of_nat (length suitCards)) then
        let flushHand := slice0 5 suitCards in
        Some (mkHand FLUSH (HAND_NAMES FLUSH) (map rank flushHand) flushHand)
      else flushLoop rest
  end.

Definition checkFlush (cs : list EvalCard) : option HandResult :=
  flushLoop (getFlushCards cs).

Definition checkStraight (cs : list EvalCard) : option HandResult :=
  match findStraight cs with
  | Some (high, sc) => Some (mkHand STRAIGHT (HAND_NAMES STRAIGHT) [high] sc)
  | None => None
  end.

Definition checkThreeOfAKind (cs : list EvalCard) : option HandResult :=
  match find (fun e => 3 <=? snd e) (getRankCounts cs) with
  | None => None
  | Some (r, _) =>
      let threeCards := slice0 3 (filter (fun c => rank c =? r) cs) in
      let ks := slice0 2 (sortBy descRank
                            (filter (fun c => negb (rank c =? r)) cs)) in
      Some (mkHand THREE_OF_A_KIND (HAND_NAMES THREE_OF_A_KIND)
                   (r :: map rank ks) (threeCards ++ ks))
  end.

(** [checkTwoPair]; [pairs.push(parseInt(rank))] is the rank, as above. *)
Definition checkTwoPair (cs : list EvalCard) : option HandResult :=
  let pairs :=
    sortBy descZ (map fst (filter (fun e => 2 <=? snd e) (getRankCounts cs))) in
  match pairs with
  | highPair :: lowPair :: _ =>
      let highPairCards := slice0 2 (filter (fun c => rank c =? highPair) cs) in
      let lowPairCards := slice0 2 (filter (fun c => rank c =? lowPair) cs) in
      let kicker :=
        find (fun c => negb (rank c =? highPair) && negb (rank c =? lowPair)) cs in
      Some (mkHand TWO_PAIR (HAND_NAMES TWO_PAIR)
              [highPair; lowPair;
               match kicker with Some c => rank c | None => 0 end]
              (filterBoolean
                 (map Some highPairCards ++ map Some lowPairCards ++ [kicker])))
  | _ => None
  end.

Definition checkPair (cs : list EvalCard) : option HandResult :=
  match find (fun e => 2 <=? snd e) (getRankCounts cs) with
  | None => None
  | Some (r, _) =>
      let pairCards := slice0 2 (filter (fun c => rank c =? r) cs) in
      let ks := slice0 3 (sortBy descRank
                            (filter (fun c => negb (rank c =? r)) cs)) in
      Some (mkHand PAIR (HAND_NAMES PAIR) (r :: map rank ks) (pairCards ++ ks))
  end.

Definition checkHighCard (cs : list EvalCard) : HandResult :=
  let sortedCards := slice0 5 (sortBy descRank cs) in
  mkHand HIGH_CARD (HAND_NAMES HIGH_CARD) (map rank sortedCards) sortedCards.

(** [x ? x : y] chains of [evaluateHand]. *)
Definition orElse {A} (o : option A) (k : A) : A :=
  match o with Some a => a | None => k end.

Definition toEvalCards (cs : list Card) : list EvalCard :=
  sortBy descRank (map (fun c => mkEval (value c) (suit c)) cs).

Definition evaluateHand (cs : list Card) : HandResult :=
  let evalCards := toEvalCards cs in
  orElse (checkRoyalFlush evalCards)
 (orElse (checkStraightFlush evalCards)
 (orElse (checkFourOfAKind evalCards)
 (orElse (checkFullHouse evalCards)
 (orElse (checkFlush evalCards)
 (orElse (checkStraight evalCards)
 (orElse (checkThreeOfAKind evalCards)
 (orElse (checkTwoPair evalCards)
 (orElse (checkPair evalCards)
         (checkHighCard evalCards))))))))).

(** *** Comparison *)

(** [hand.kickers[i] || 0] *)
Definition kickerAt (ks : list Z) (i : nat) : Z := orZero (nth_error ks i).

(** The loop of [compareKickers]: [n] iterations left, index [i]. *)
Fixpoint kickerLoop (n i : nat) (k1 k2 : list Z) : Z :=
  match n with
  | O => 0
  | S n' =>
      let kicker1 := kickerAt k1 i in
      let kicker2 := kickerAt k2 i in
      if negb (kicker1 =? kicker2) then kicker1 - kicker2
      else kickerLoop n' (S i) k1 k2
  end.

Definition compareKickers (hand1 hand2 : HandResult) : Z :=
  kickerLoop (Nat.max (length (kickers hand1)) (length (kickers hand2))) 0
             (kickers hand1) (kickers hand2).

Definition compareHands (hand1 hand2 : HandResult) : Z :=
  if negb (hrank hand1 =? hrank hand2) then hrank hand1 - hrank hand2
  else compareKickers hand1 hand2.

(** *** Best five of seven *)

(** The [for] loop of [generateCombinations]: the argument is
    [cards.slice(i)], [rec] is the recursive call for [k - 1], and
    [i <= cards.length - k] says that the slice still has [k] cards. *)
Fixpoint comboLoop {A} (rec : list A -> list (list A)) (k : nat) (l : list A)
  : list (list A) :=
  match l with
  | [] => []
  | head :: tl =>
      if Nat.leb k (length l)
      then map (cons head) (rec tl) ++ comboLoop rec k tl
      else []
  end.

(** [generateCombinations(cards, k)] for [k >= 1], the only way it is
    called ([k = 5] on at least five cards, then [k - 1] on a slice). *)
Fixpoint generateCombinations {A} (k : nat) (cs : list A) : list (list A) :=
  match k with
  | O => []
  | S k' =>
      if Nat.eqb k 1 then map (fun card => [card]) cs
      else if Nat.eqb k (length cs) then [cs]
      else comboLoop (generateCombinations k') k cs
  end.

(** One iteration of the selection loop; the state is
    [(bestHand, bestRank)].  [compareKickers] on a [null] best hand throws. *)
Definition bestStep (st : Outcome (option HandResult * Z)) (combo : list Card)
  : Outcome (option HandResult * Z) :=
  s <- st ;;
  let '(bestHand, bestRank) := s in
  let handResult := evaluateHand combo in
  if bestRank <? hrank handResult then
    Normal (Some handResult, hrank handResult)
  else if hrank handResult =? bestRank then
    match bestHand with
    | None => Throws TypeError
    | Some best =>
        if 0 <? compareKickers handResult best
        then Normal (Some handResult, hrank handResult)
        else Normal s
    end
  else Normal s.

(** [getBestFiveCardHand]; [None] is the initial [null] of [bestHand]. *)
Definition getBestFiveCardHand (playerCards communityCards : list Card)
  : Outcome (option HandResult) :=
  let allCards := playerCards ++ communityCards in
  if Nat.ltb (length allCards) 5 then Normal (Some (evaluateHand allCards))
  else
    s <- fold_left bestStep (generateCombinations 5 allCards)
                   (Normal (None, 0)) ;;
    Normal (fst s).

(** *** Scalar strength (exact rationals in place of doubles) *)

Definition baseStrength (r : Z) : Q :=
  if r =? 1 then 0
  else if r =? 2 then 2 # 10
  else if r =? 3 then 4 # 10
  else if r =? 4 then 55 # 100
  else if r =? 5 then 65 # 100
  else if r =? 6 then 72 # 100
  else if r =? 7 then 82 # 100
  else if r =? 8 then 91 # 100
  else if r =? 9 then 97 # 100
  else 1.

(** The strength computed from the best hand in [getHandStrength]. *)
Definition handStrengthOf (hand : HandResult) : Q :=
  let strength := baseStrength (hrank hand) in
  let strength :=
    match kickers hand with
    | [] => strength
    | k0 :: _ => (strength + (inject_Z k0 / 14) * (5 # 100))%Q
    end in
  minQ strength 1.

(** [getHandStrength].  A [null] hand cannot be read ([hand.rank]). *)
Definition getHandStrength (playerCards communityCards : list Card) : Outcome Q :=
  h <- getBestFiveCardHand playerCards communityCards ;;
  match h with
  | None => Throws TypeError
  | Some hand => Normal (handStrengthOf hand)
  end.

End HandEvaluator.

(** ** poker-engine.js *)

(** [arr[i] = f(arr[i])] for an index inside the array. *)
Fixpoint updateAt {A} (i : nat) (f : A -> A) (l : list A) : list A :=
  match l, i with
  | [], _ => []
  | x :: t, O => f x :: t
  | x :: t, S i' => x :: updateAt i' f t
  end.

(** [arr.pop()]: the last element, if any, and the array without it. *)
Fixpoint pop {A} (l : list A) : option A * list A :=
  match l with
  | [] => (None, [])
  | [x] => (Some x, [])
  | x :: t => let '(o, t') := pop t in (o, x :: t')
  end.

Module PokerEngine.
Import HandEvaluator.

Inductive Phase := preflop | flop | turn | river | showdownPhase.

Inductive Action := fold | check | call | raise.

(** A seat.  The display name and the table position are left out; the
    personality name of an agent seat is an argument of its agent. *)
Record Player := mkPlayer {
  id : nat;
  chips : Z;
  pcards : list Card;
  currentBet : Z;
  totalInvested : Z;
  isAI : bool;
  isActive : bool;
  isAllIn : bool;
  isFolded : bool
}.

Definition setChips (v : Z) (p : Player) : Player :=
  mkPlayer (id p) v (pcards p) (currentBet p) (totalInvested p)
           (isAI p) (isActive p) (isAllIn p) (isFolded p).
Definition setCards (v : list Card) (p : Player) : Player :=
  mkPlayer (id p) (chips p) v (currentBet p) (totalInvested p)
           (isAI p) (isActive p) (isAllIn p) (isFolded p).
Definition setCurrentBet (v : Z) (p : Player) : Player :=
  mkPlayer (id p) (chips p) (pcards p) v (totalInvested p)
           (isAI p) (isActive p) (isAllIn p) (isFolded p).
Definition setTotalInvested (v : Z) (p : Player) : Player :=
  mkPlayer (id p) (chips p) (pcards p) (currentBet p) v
           (isAI p) (isActive p) (isAllIn p) (isFolded p).
Definition setIsActive (v : bool) (p : Player) : Player :=
  mkPlayer (id p) (chips p) (pcards p) (currentBet p) (totalInvested p)
           (isAI p) v (isAllIn p) (isFolded p).
Definition setIsAllIn (v : bool) (p : Player) : Player :=
  mkPlayer (id p) (chips p) (pcards p) (currentBet p) (totalInvested p)
           (isAI p) (isActive p) v (isFolded p).
Definition setIsFolded (v : bool) (p : Player) : Player :=
  mkPlayer (id p) (chips p) (pcards p) (currentBet p) (totalInvested p)
           (isAI p) (isActive p) (isAllIn p) v.

Record Blinds := mkBlinds { small : Z; big : Z }.

(** The fields of the engine object that the game logic reads or writes.
    An entry of [communityCards] is [None] when [dealCard] returned [null]
    and the caller pushed it.  Statistics, settings and the DOM are left
    out. *)
Record State := mkState {
  deck : list Card;
  communityCards : list (option Card);
  players : list Player;
  currentPlayerIndex : nat;
  dealerPosition : nat;
  blinds : Blinds;
  pot : Z;
  gamePhase : Phase;
  gameStarted : bool;
  handNumber : nat
}.

Definition setDeck v s := mkState v (communityCards s) (players s)
  (currentPlayerIndex s) (dealerPosition s) (blinds s) (pot s) (gamePhase s)
  (gameStarted s) (handNumber s).
Definition setCommunityCards v s := mkState (deck s) v (players s)
  (currentPlayerIndex s) (dealerPosition s) (blinds s) (pot s) (gamePhase s)
  (gameStarted s) (handNumber s).
Definition setPlayers v s := mkState (deck s) (communityCards s) v
  (currentPlayerIndex s) (dealerPosition s) (blinds s) (pot s) (gamePhase s)
  (gameStarted s) (handNumber s).
Definition setCurrentPlayerIndex v s := mkState (deck s) (communityCards s)
  (players s) v (dealerPosition s) (blinds s) (pot s) (gamePhase s)
  (gameStarted s) (handNumber s).
Definition setPot v s := mkState (deck s) (communityCards s) (players s)
  (currentPlayerIndex s) (dealerPosition s) (blinds s) v (gamePhase s)
  (gameStarted s) (handNumber s).
Definition setGamePhase v s := mkState (deck s) (communityCards s) (players s)
  (currentPlayerIndex s) (dealerPosition s) (blinds s) (pot s) v
  (gameStarted s) (handNumber s).
Definition setGameStarted v s := mkState (deck s) (communityCards s)
  (players s) (currentPlayerIndex s) (dealerPosition s) (blinds s) (pot s)
  (gamePhase s) v (handNumber s).
Definition setHandNumber v s := mkState (deck s) (communityCards s)
  (players s) (currentPlayerIndex s) (dealerPosition s) (blinds s) (pot s)
  (gamePhase s) (gameStarted s) v.

(** How a method of the engine ends.  An exception leaves the mutations
    made before it in place, so the state is kept.  [OutOfFuel] is the
    model running out of its recursion budget. *)
Inductive Run :=
| Returned (s : State)
| Raised (e : Error) (s : State)
| OutOfFuel.

Definition bindR (r : Run) (k : State -> Run) : Run :=
  match r with
  | Returned s => k s
  | other => other
  end.

(** *** Construction *)

(** [createDeck]: suit by suit, ranks 2 to A with the values of
    [getCardValue]. *)
Definition createDeck : list Card :=
  flat_map (fun s => map (fun v => mkCard v s)
                         [2; 3; 4; 5; 6; 7; 8; 9; 10; 11; 12; 13; 14])
           [hearts; diamonds; clubs; spades].

(** [setupPlayers]: the human seat and two agents, 1000 chips each. *)
Definition setupPlayers : list Player :=
  [mkPlayer 0 1000 [] 0 0 false true false false;
   mkPlayer 1 1000 [] 0 0 true true false false;
   mkPlayer 2 1000 [] 0 0 true true false false].

(** The engine as its constructor and [initializeGame] leave it. *)
Definition newEngine : State :=
  mkState createDeck [] setupPlayers 0 0 (mkBlinds 5 10) 0 preflop false 0.

(** *** Deck *)

(** [dealCard]: on an empty deck it logs and returns [null]. *)
Definition dealCard (s : State) : Outcome (option Card) * State :=
  match deck s with
  | [] => (Normal None, s)
  | _ => let '(c, d) := pop (deck s) in (Normal c, setDeck d s)
  end.

(** The card handed back by a completed [dealCard]. *)
Definition dealt (r : Outcome (option Card) * State) : option Card :=
  match fst r with Normal c => c | Throws _ => None end.






(** *** Blinds *)

(** The body of each [if (blindPlayer.isActive)] block. *)
Definition postBlind (amount : Z) (i : nat) (s : State) : State :=
  match nth_error (players s) i with
  | None => s
  | Some blindPlayer =>
      if isActive blindPlayer then
        let amt := Z.min amount (chips blindPlayer) in
        setPot (pot s + amt)
          (setPlayers
             (updateAt i
                (fun p => setTotalInvested amt
                            (setCurrentBet amt (setChips (chips p - amt) p)))
                (players s)) s)
      else s
  end.

(** [postBlinds].  With two active players the array has two entries, so
    the three indices are inside it. *)
Definition postBlinds (s : State) : State :=
  let activePlayers := filter isActive (players s) in
  if Nat.ltb (length activePlayers) 2 then s
  else
    let n := length (players s) in
    let sbIndex := Nat.modulo (dealerPosition s + 1) n in
    let s := postBlind (small (blinds s)) sbIndex s in
    let bbIndex := Nat.modulo (dealerPosition s + 2) n in
    let s := postBlind (big (blinds s)) bbIndex s in
    setCurrentPlayerIndex (Nat.modulo (dealerPosition s + 3) n) s.

(** *** Betting *)

(** [getCurrentBet]: [Math.max] over every seat.  On an empty table
    JavaScript yields [-Infinity]; no caller reads it there, the model
    returns [0]. *)
Definition getCurrentBet (s : State) : Z :=
  match map currentBet (players s) with
  | [] => 0
  | b :: bs => fold_left Z.max bs b
  end.

Definition contesting (p : Player) : bool := isActive p && negb (isFolded p).

Definition isBettingRoundComplete (s : State) : bool :=
  let activePlayers := filter contesting (players s) in
  if Nat.leb (length activePlayers) 1 then true
  else
    let currentBet_ := getCurrentBet s in
    forallb (fun p => (currentBet p =? currentBet_) || isAllIn p) activePlayers.

(** Moving [amt] chips of a seat into its bets and the pot, as the [call]
    and [raise] cases do. *)
Definition commit (amt : Z) (p : Player) : Player :=
  let p := setChips (chips p - amt) p in
  let p := setCurrentBet (currentBet p + amt) p in
  let p := setTotalInvested (totalInvested p + amt) p in
  if chips p =? 0 then setIsAllIn true p else p.

(** The [switch] of [executePlayerAction] for the seat at index [i], on
    integer stacks, bets and amounts.  These are what the blinds and the
    human seat produce; [processAIDecision] passes the amount of an agent's
    raise, a fraction, and the sums below then round in binary floating
    point, which the model does not follow. *)
Definition applyAction (i : nat) (player : Player) (action : Action)
           (amount : Z) (s : State) : State :=
  match action with
  | fold => setPlayers (updateAt i (setIsFolded true) (players s)) s
  | check => s
  | call =>
      let callAmount := getCurrentBet s - currentBet player in
      let actualCall := Z.min callAmount (chips player) in
      setPot (pot s + actualCall)
             (setPlayers (updateAt i (commit actualCall) (players s)) s)
  | raise =>
      let currentBet_ := getCurrentBet s in
      let raiseCallAmount := currentBet_ - currentBet player in
      let totalRaise := raiseCallAmount + amount in
      let actualRaise := Z.min totalRaise (chips player) in
      setPot (pot s + actualRaise)
             (setPlayers (updateAt i (commit actualRaise) (players s)) s)
  end.

(** *** Dealing community cards *)

(** [this.communityCards.push(this.dealCard())] *)
Definition pushCommunity (s : State) : State :=
  let r := dealCard s in
  setCommunityCards (communityCards (snd r) ++ [dealt r]) (snd r).

Definition isCard (o : option Card) : bool :=
  match o with Some _ => true | None => false end.

(** [dealFlop]: the log line reads [c.unicode] of the first three entries. *)
Definition dealFlop (s : State) : Run :=
  let s := snd (dealCard s) in
  let s := pushCommunity (pushCommunity (pushCommunity s)) in
  if forallb isCard (firstn 3 (communityCards s)) then Returned s
  else Raised TypeError s.

(** [dealTurn] and [dealRiver]: the log line reads
    [this.communityCards[k].unicode] with [k] 3 and 4. *)
Definition dealOne (k : nat) (s : State) : Run :=
  let s := snd (dealCard s) in
  let s := pushCommunity s in
  match nth_error (communityCards s) k with
  | Some (Some _) => Returned s
  | _ => Raised TypeError s
  end.

Definition dealTurn : State -> Run := dealOne 3.
Definition dealRiver : State -> Run := dealOne 4.

(** *** Showdown *)

(** The seats with their index in [this.players]; a player object is
    identified by its index. *)
Definition seats (s : State) : list (nat * Player) :=
  combine (seq 0 (length (players s))) (players s).

Definition addChips (amt : Z) (p : Player) : Player :=
  setChips (chips p + amt) p.

(** [awardPot] (the statistics of the human seat are left out). *)
Definition awardPot (winner : nat) (s : State) : State :=
  setPot 0 (setPlayers (updateAt winner (addChips (pot s)) (players s)) s).

(** Reading [card.value] of every entry throws on a [null] entry. *)
Fixpoint readCards (l : list (option Card)) : Outcome (list Card) :=
  match l with
  | [] => Normal []
  | None :: _ => Throws TypeError
  | Some c :: t => cs <- readCards t ;; Normal (c :: cs)
  end.

(** [HandEvaluator.getBestFiveCardHand(player.cards, this.communityCards)]
    as [evaluateWinner] uses it; a [null] hand cannot be compared. *)
Definition handOf (s : State) (p : Player) : Outcome HandResult :=
  cc <- readCards (communityCards s) ;;
  h <- getBestFiveCardHand (pcards p) cc ;;
  match h with
  | Some hand => Normal hand
  | None => Throws TypeError
  end.

Fixpoint mapO {A B} (f : A -> Outcome B) (l : list A) : Outcome (list B) :=
  match l with
  | [] => Normal []
  | a :: t => b <- f a ;; bs <- mapO f t ;; Normal (b :: bs)
  end.

(** [evaluateWinner(players)] *)
Definition evaluateWinner (contestants : list (nat * Player)) (s : State) : Run :=
  match mapO (fun ip => h <- handOf s (snd ip) ;; Normal (fst ip, h)) contestants with
  | Throws e => Raised e s
  | Normal playerHands =>
      let sorted :=
        sortBy (fun a b => compareHands (snd b) (snd a)) playerHands in
      match sorted with
      | [] => Raised TypeError s
      | (_, bestHand) :: _ =>
          let winners :=
            filter (fun ph => compareHands (snd ph) bestHand =? 0) sorted in
          match winners with
          | [w] => Returned (awardPot (fst w) s)
          | _ =>
              let splitAmount := pot s / Z.of_nat (length winners) in
              Returned
                (setPot 0
                   (setPlayers
                      (fold_left
                         (fun ps w => updateAt (fst w) (addChips splitAmount) ps)
                         winners (players s)) s))
          end
      end
  end.

Definition endHand (s : State) : Run := Returned (setGameStarted false s).

(** [showdown] *)
Definition showdown (s : State) : Run :=
  let s := setGamePhase showdownPhase s in
  let activePlayers := filter (fun ip => contesting (snd ip)) (seats s) in
  bindR (match activePlayers with
         | [w] => Returned (awardPot (fst w) s)
         | _ => evaluateWinner activePlayers s
         end) endHand.

(** *** Turn order and phase advancement *)

(** The [do ... while] of [moveToNextPlayer], at most [k] turns of it.
    [None] when a seat cannot be read or no seat qualifies in [k] turns. *)
Fixpoint nextSeat (k : nat) (idx : nat) (ps : list Player) : option nat :=
  match k with
  | O => None
  | S k' =>
      let idx' := Nat.modulo (idx + 1) (length ps) in
      match nth_error ps idx' with
      | None => None
      | Some p => if contesting p then Some idx' else nextSeat k' idx' ps
      end
  end.

Section Flow.
(** The recursive call back into [moveToNextPlayer]. *)
Variable moveToNextPlayer : State -> Run.

(** [processNextPlayer]: a seat that can act is handed the turn (a timer
    for an agent, enabled buttons for the human) and the call returns. *)
Definition processNextPlayerWith (s : State) : Run :=
  match nth_error (players s) (currentPlayerIndex s) with
  | None => moveToNextPlayer s
  | Some currentPlayer =>
      if contesting currentPlayer then Returned s else moveToNextPlayer s
  end.

Definition startBettingRoundWith (s : State) : Run :=
  let n := length (players s) in
  let startIndex :=
    match gamePhase s with
    | preflop => Nat.modulo (dealerPosition s + 3) n
    | _ => Nat.modulo (dealerPosition s + 1) n
    end in
  processNextPlayerWith (setCurrentPlayerIndex startIndex s).

Definition advanceGamePhaseWith (s : State) : Run :=
  match gamePhase s with
  | preflop =>
      bindR (dealFlop s) (fun s => startBettingRoundWith (setGamePhase flop s))
  | flop =>
      bindR (dealTurn s) (fun s => startBettingRoundWith (setGamePhase turn s))
  | turn =>
      bindR (dealRiver s) (fun s => startBettingRoundWith (setGamePhase river s))
  | river => showdown s
  | showdownPhase => startBettingRoundWith s
  end.

Definition completeBettingRoundWith (s : State) : Run :=
  advanceGamePhaseWith
    (setPlayers (map (setCurrentBet 0) (players s)) s).
End Flow.

(** [moveToNextPlayer], with a budget for the calls that come back to it.
    [OutOfFuel] says that the budget was too small for the model to follow
    the call to its end; what the program does when the calls nest without
    end is in [moveToNextPlayerOnStack] below. *)
Fixpoint moveToNextPlayer (fuel : nat) (s : State) : Run :=
  match fuel with
  | O => OutOfFuel
  | S fuel' =>
      if isBettingRoundComplete s
      then completeBettingRoundWith (moveToNextPlayer fuel') s
      else
        match nextSeat (length (players s)) (currentPlayerIndex s) (players s) with
        | None => OutOfFuel
        | Some idx =>
            processNextPlayerWith (moveToNextPlayer fuel')
                                  (setCurrentPlayerIndex idx s)
        end
  end.

Definition processNextPlayer (fuel : nat) : State -> Run :=
  processNextPlayerWith (moveToNextPlayer fuel).
Definition startBettingRound (fuel : nat) : State -> Run :=
  startBettingRoundWith (moveToNextPlayer fuel).
Definition completeBettingRound (fuel : nat) : State -> Run :=
  completeBettingRoundWith (moveToNextPlayer fuel).

(** [executePlayerAction(player, action, amount)] for the seat at index
    [i]; reading [player.name] of a missing seat throws. *)
Definition executePlayerAction (fuel : nat) (i : nat) (action : Action)
           (amount : Z) (s : State) : Run :=
  match nth_error (players s) i with
  | None => Raised TypeError s
  | Some player => moveToNextPlayer fuel (applyAction i player action amount s)
  end.

(** *** Starting a hand *)

Definition resetPlayer (p : Player) : Player :=
  setIsActive (0 <? chips p)
    (setIsAllIn false
       (setIsFolded false
          (setTotalInvested 0 (setCurrentBet 0 (setCards [] p))))).

(** One pass of [dealPocketCards] over the seats from index [i] on. *)
Fixpoint dealPass (n : nat) (i : nat) (s : State) : State :=
  match n with
  | O => s
  | S n' =>
      let s :=
        match nth_error (players s) i with
        | Some player =>
            if isActive player then
              let r := dealCard s in
              match dealt r with
              | Some card =>
                  setPlayers
                    (updateAt i (fun p => setCards (pcards p ++ [card]) p)
                              (players (snd r))) (snd r)
              | None => snd r
              end
            else s
        | None => s
        end in
      dealPass n' (S i) s
  end.

Definition dealPocketCards (s : State) : State :=
  let n := length (players s) in
  dealPass n 0 (dealPass n 0 s).

(** [startNewHand]; [shuffled] is the deck after [createDeck] and
    [shuffleDeck]. *)
Definition startNewHand (fuel : nat) (shuffled : list Card) (s : State) : Run :=
  let s := setDeck shuffled s in
  let s := setCommunityCards [] s in
  let s := setPot 0 s in
  let s := setGamePhase preflop s in
  let s := setHandNumber (S (handNumber s)) s in
  let s := setPlayers (map resetPlayer (players s)) s in
  let s := postBlinds s in
  let s := dealPocketCards s in
  let s := setGameStarted true s in
  startBettingRound fuel s.

(** *** The call stack *)

(** [moveToNextPlayer] on a call stack that has room for [stack] nested
    calls of it.  The call that does not fit throws a [RangeError], which,
    like every exception, leaves the mutations made before it in place.
    Between two nested calls the engine only resets the bets, deals a street
    and sets the turn; the model raises the error on entry to
    [moveToNextPlayer], with the state these steps have left.  The limit is
    a property of the JavaScript engine, so the statements about this
    function are made for every limit.  While the round is open the
    [do ... while] finds a seat; [OutOfFuel] stands for a loop that would not
    end. *)
Fixpoint moveToNextPlayerOnStack (stack : nat) (s : State) : Run :=
  match stack with
  | O => Raised RangeError s
  | S stack' =>
      if isBettingRoundComplete s
      then completeBettingRoundWith (moveToNextPlayerOnStack stack') s
      else
        match nextSeat (length (players s)) (currentPlayerIndex s) (players s) with
        | None => OutOfFuel
        | Some idx =>
            processNextPlayerWith (moveToNextPlayerOnStack stack')
                                  (setCurrentPlayerIndex idx s)
        end
  end.

(** [executePlayerAction] and [startNewHand] as an event handler runs them,
    on that call stack. *)
Definition executePlayerActionOnStack (stack : nat) (i : nat) (action : Action)
           (amount : Z) (s : State) : Run :=
  match nth_error (players s) i with
  | None => Raised TypeError s
  | Some player =>
      moveToNextPlayerOnStack stack (applyAction i player action amount s)
  end.

Definition startNewHandOnStack (stack : nat) (shuffled : list Card) (s : State)
  : Run :=
  let s := setDeck shuffled s in
  let s := setCommunityCards [] s in
  let s := setPot 0 s in
  let s := setGamePhase preflop s in
  let s := setHandNumber (S (handNumber s)) s in
  let s := setPlayers (map resetPlayer (players s)) s in
  let s := postBlinds s in
  let s := dealPocketCards s in
  let s := setGameStarted true s in
  startBettingRoundWith (moveToNextPlayerOnStack stack) s.

End PokerEngine.

(** ** The decision agent ([class PokerAI]) *)

Module PokerAI.
Import HandEvaluator PokerEngine.
Local Open Scope Q_scope.

Record Personality := mkPersonality {
  vpip : Q;
  pfr : Q;
  aggression : Q;
  bluffFreq : Q;
  callThreshold : Q;
  raiseThreshold : Q
}.

(** [PERSONALITIES] *)
Definition tight := mkPersonality (15#100) (12#100) (3#10) (5#100) (6#10) (8#10).
Definition loose := mkPersonality (35#100) (18#100) (4#10) (15#100) (3#10) (6#10).
Definition passive := mkPersonality (28#100) (8#100) (2#10) (3#100) (35#100) (85#100).
Definition maniac := mkPersonality (45#100) (35#100) (9#10) (4#10) (25#100) (3#10).

Record Difficulty := mkDifficulty {
  skillMod : Q;
  errorRate : Q;
  bluffDetection : Q
}.

(** [DIFFICULTY_MODIFIERS]; levels outside 1..5 have no entry. *)
Definition DIFFICULTY_MODIFIERS (level : Z) : option Difficulty :=
  if (level =? 1)%Z then Some (mkDifficulty (3#10) (3#10) (2#10))
  else if (level =? 2)%Z then Some (mkDifficulty (5#10) (2#10) (4#10))
  else if (level =? 3)%Z then Some (mkDifficulty (7#10) (15#100) (6#10))
  else if (level =? 4)%Z then Some (mkDifficulty (85#100) (1#10) (8#10))
  else if (level =? 5)%Z then Some (mkDifficulty 1 (5#100) (9#10))
  else None.

(** The snapshot built by [calculateAIDecision]. *)
Record GameState := mkGameState {
  gsCommunityCards : list Card;
  gsPot : Z;
  gsCurrentBet : Z;
  gsPlayers : list Player;
  gsGamePhase : Phase
}.

Record Decision := mkDecision {
  action : Action;
  amount : option Q;
  isBluff : bool
}.

Definition plain (a : Action) : Decision := mkDecision a None false.
Definition raiseOf (amt : Q) : Decision := mkDecision raise (Some amt) false.

Definition isAction (a b : Action) : bool :=
  match a, b with
  | fold, fold | check, check | call, call | raise, raise => true
  | _, _ => false
  end.

(** *** Randomness: [Math.random()] reads the next draw of a stream *)

Definition Rand (A : Type) : Type := (nat -> Q) -> nat -> A * nat.
Definition ret {A} (a : A) : Rand A := fun _ n => (a, n).
Definition bindRand {A B} (m : Rand A) (k : A -> Rand B) : Rand B :=
  fun rng n => let '(a, n') := m rng n in k a rng n'.
Definition random : Rand Q := fun rng n => (rng n, S n).

Notation "x <~ m ;; k" := (bindRand m (fun x => k))
  (at level 61, m at next level, right associativity).

Definition Qlt_b (a b : Q) : bool := negb (Qle_bool b a).

Section Agent.
(** [this.personality] and [this.difficulty] *)
Variable personality : Personality.
Variable difficulty : Difficulty.

Definition calculateRaiseSize (handStrength : Q) (gamePhase : Phase) : Q :=
  let multiplier :=
    match gamePhase with
    | preflop => 3
    | flop => 7#10
    | turn => 8#10
    | river => 9#10
    | showdownPhase => 7#10
    end in
  let sizeMultiplier := 1 + handStrength * multiplier in
  sizeMultiplier * (1 + aggression personality * (3#10)).

Definition evaluatePocketPairs (handStrength : Q) : Q :=
  if Qlt_b (8#10) handStrength then 1#10
  else if Qlt_b (6#10) handStrength then 5#100
  else if Qlt_b (4#10) handStrength then 2#100
  else 0.

Definition evaluateSuitedConnectors (handStrength : Q) : Q :=
  if Qlt_b (3#10) handStrength && Qlt_b handStrength (7#10) then 5#100 else 0.

(** [callAmount === 0 ? {action: 'check'} : {action: 'call'}] *)
Definition checkOrCall (callAmount : Z) : Decision :=
  if (callAmount =? 0)%Z then plain check else plain call.

Definition getPreflopDecision (handStrength : Q) (callAmount playerChips : Z)
  : Rand Decision :=
  let pocketPairStrength := evaluatePocketPairs handStrength in
  let suitedConnectorStrength := evaluateSuitedConnectors handStrength in
  let adjustedStrength := handStrength in
  let adjustedStrength :=
    if Qlt_b 0 pocketPairStrength then adjustedStrength + pocketPairStrength
    else adjustedStrength in
  let adjustedStrength :=
    if Qlt_b (3#10) (vpip personality) && Qlt_b 0 suitedConnectorStrength
    then adjustedStrength + suitedConnectorStrength * (1#10)
    else adjustedStrength in
  if Qle_bool (8#10) adjustedStrength then
    ret (raiseOf (minQ (inject_Z callAmount * 3)
                       (inject_Z playerChips * (1#10))))
  else if Qle_bool (6#10) adjustedStrength then ret (checkOrCall callAmount)
  else if Qle_bool (4#10) adjustedStrength then
    r <~ random ;;
    if Qlt_b r (vpip personality) then ret (checkOrCall callAmount)
    else ret (plain fold)
  else ret (plain fold).

Definition isPreflop (p : Phase) : bool :=
  match p with preflop => true | _ => false end.

Definition getBaseDecision (handStrength potOdds : Q) (gamePhase : Phase)
           (callAmount playerChips : Z) : Rand Decision :=
  if isPreflop gamePhase then
    getPreflopDecision handStrength callAmount playerChips
  else if Qle_bool (raiseThreshold personality) handStrength then
    ret (raiseOf (calculateRaiseSize handStrength gamePhase))
  else if Qle_bool (callThreshold personality) handStrength
          || (Qlt_b 0 potOdds && Qlt_b (1 - handStrength) (potOdds * 2))
  then ret (checkOrCall callAmount)
  else ret (plain fold).

Definition applyPersonalityAdjustments (decision : Decision)
           (handStrength : Q) (gameState : GameState) : Rand Decision :=
  r <~ random ;;
  let decision :=
    if Qlt_b r (aggression personality) && isAction (action decision) call
    then if Qlt_b (5#10) handStrength
         then raiseOf (calculateRaiseSize handStrength (gsGamePhase gameState))
         else decision
    else decision in
  let decision :=
    if Qlt_b (aggression personality) (3#10) && isAction (action decision) raise
    then if Qlt_b handStrength (9#10) then plain call else decision
    else decision in
  let decision :=
    if Qlt_b (5#10) (callThreshold personality) && Qlt_b handStrength (6#10)
    then if negb (isAction (action decision) fold)
            && Qlt_b (inject_Z (gsPot gameState) * (3#10))
                     (inject_Z (gsCurrentBet gameState))
         then plain fold else decision
    else decision in
  ret decision.

(** [if (decision.amount) decision.amount *= ...]: a missing or zero
    amount is left alone. *)
Definition scaleAmount (decision : Decision) : Decision :=
  match amount decision with
  | Some a =>
      if Qeq_bool a 0 then decision
      else mkDecision (action decision)
                      (Some (a * ((5#10) + skillMod difficulty * (5#10))))
                      (isBluff decision)
  | None => decision
  end.

Definition applyDifficultyAdjustments (decision : Decision) (handStrength : Q)
  : Rand Decision :=
  r <~ random ;;
  if Qlt_b r (errorRate difficulty) then
    if isAction (action decision) fold && Qlt_b (6#10) handStrength
    then ret (plain call)
    else if isAction (action decision) raise && Qlt_b handStrength (4#10)
    then ret (plain fold)
    else if isAction (action decision) call && Qlt_b handStrength (3#10)
    then ret (plain fold)
    else ret (scaleAmount decision)
  else ret (scaleAmount decision).

(** [checkStraightDraws]: the window loop over the ascending unique ranks. *)
Fixpoint drawWindow (uniq : list Z) : bool :=
  match uniq with
  | a :: ((_ :: c :: _) as t) => if (c - a <=? 4)%Z then true else drawWindow t
  | _ => false
  end.

Definition ascZ (a b : Z) : Z := (a - b)%Z.

Definition checkStraightDraws (ranks : list Z) : bool :=
  if Nat.ltb (length ranks) 3 then false
  else
    let uniqueRanks := sortBy ascZ (uniqueZ [] ranks) in
    if drawWindow uniqueRanks then true
    else includes 14 uniqueRanks && existsb (fun r => (r <=? 5)%Z) uniqueRanks.

(** Occurrences of each distinct element, for the two count tables of
    [analyzeBoardTexture] (only the values of the tables are read). *)
Definition tally {A} (eqb : A -> A -> bool) (xs : list A) : list Z :=
  map (fun x => Z.of_nat (length (filter (eqb x) xs)))
      (fold_left (fun seen x => if existsb (eqb x) seen then seen
                                else seen ++ [x]) xs []).

(** The [scary] field of [analyzeBoardTexture]. *)
Definition scaryBoard (communityCards : list Card) : bool :=
  if Nat.ltb (length communityCards) 3 then false
  else
    let suits := map suit communityCards in
    let ranks := sortBy ascZ (map value communityCards) in
    let maxSuitCount :=
      match tally Suit_eqb suits with
      | [] => 0%Z
      | c :: cs => fold_left Z.max cs c
      end in
    let hasGaps := checkStraightDraws ranks in
    let pairs :=
      Z.of_nat (length (filter (fun c => (2 <=? c)%Z) (tally Z.eqb ranks))) in
    (3 <=? maxSuitCount)%Z || hasGaps || (0 <? pairs)%Z.

Definition shouldBluff (gameState : GameState) (handStrength : Q) : Rand bool :=
  if Qlt_b (7#10) handStrength then ret false
  else
    r <~ random ;;
    if Qlt_b (bluffFreq personality) r then ret false
    else
      let activeOpponents :=
        (Z.of_nat (length (filter contesting (gsPlayers gameState))) - 1)%Z in
      if (2 <? activeOpponents)%Z then ret false
      else ret (scaryBoard (gsCommunityCards gameState)
                && negb (isPreflop (gsGamePhase gameState))).

Definition generateBluff (gameState : GameState) (player : Player)
  : Rand Decision :=
  r <~ random ;;
  let bluffSize := inject_Z (gsPot gameState) * ((6#10) + r * (4#10)) in
  ret (mkDecision raise
         (Some (minQ bluffSize (inject_Z (chips player) * (3#10)))) true).

(** [makeDecision].  The opponent analysis and the position strength are
    computed by the source and never read; the rolling history only
    records the decision.  None of them is modelled. *)
Definition makeDecision (gameState : GameState) (player : Player)
  : Rand (Outcome Decision) :=
  match getHandStrength (pcards player) (gsCommunityCards gameState) with
  | Throws e => ret (Throws e)
  | Normal handStrength =>
      let callAmount := (gsCurrentBet gameState - currentBet player)%Z in
      (* pot + callAmount is positive for a pot that is not negative *)
      let potOdds :=
        if (0 <? callAmount)%Z
        then inject_Z callAmount / inject_Z (gsPot gameState + callAmount)
        else 0 in
      decision <~ getBaseDecision handStrength potOdds (gsGamePhase gameState)
                                  callAmount (chips player) ;;
      decision <~ applyPersonalityAdjustments decision handStrength gameState ;;
      decision <~ applyDifficultyAdjustments decision handStrength ;;
      bluff <~ shouldBluff gameState handStrength ;;
      if bluff then
        decision <~ generateBluff gameState player ;;
        ret (Normal decision)
      else ret (Normal decision)
  end.
End Agent.

(** [calculateAIDecision] of the engine: the snapshot handed to the agent of
    a seat, built from the engine state.  The agent is created from the
    personality of the seat and the difficulty of the engine. *)
Definition calculateAIDecision (personality : Personality)
           (difficulty : Difficulty) (s : State) (player : Player)
  : Rand (Outcome Decision) :=
  match readCards (communityCards s) with
  | Throws e => ret (Throws e)
  | Normal cc =>
      makeDecision personality difficulty
        (mkGameState cc (pot s) (getCurrentBet s) (players s) (gamePhase s))
        player
  end.


End PokerAI.

(** ** Vocabulary of the statements *)

(** [subseq s l]: [s] picks some entries of [l], in their order.  The
    five-card subsets of a seven-card hand are its subsequences of length
    five. *)
Inductive subseq {A} : list A -> list A -> Prop :=
| subseq_nil : subseq [] []
| subseq_skip x s l : subseq s l -> subseq s (x :: l)
| subseq_take x s l : subseq s l -> subseq (x :: s) (x :: l).

(** All cards of one suit. *)
Definition sameSuit (cs : list Card) : bool :=
  match cs with
  | [] => true
  | c :: t => forallb (fun d => Suit_eqb (suit d) (suit c)) t
  end.

(** The chips in the stacks of the seats, and all the chips on the table. *)
Definition sumChips (ps : list PokerEngine.Player) : Z :=
  fold_right (fun p acc => PokerEngine.chips p + acc) 0 ps.

Definition totalChips (s : PokerEngine.State) : Z :=
  sumChips (PokerEngine.players s) + PokerEngine.pot s.

(** A session fragment: the given seats act one after the other. *)
Fixpoint playActions (fuel : nat)
         (acts : list (nat * PokerEngine.Action * Z)) (s : PokerEngine.State)
  : PokerEngine.Run :=
  match acts with
  | [] => PokerEngine.Returned s
  | (i, a, amt) :: rest =>
      PokerEngine.bindR (PokerEngine.executePlayerAction fuel i a amt s)
                        (playActions fuel rest)
  end.

(** The engine after a call, however the call ended. *)
Definition stateOf (r : PokerEngine.Run) : PokerEngine.State :=
  match r with
  | PokerEngine.Returned s => s
  | PokerEngine.Raised _ s => s
  | PokerEngine.OutOfFuel => PokerEngine.newEngine
  end.

(** The best hand of a seat on the community cards [cc]. *)
Definition bestHandOf (cc : list Card) (p : PokerEngine.Player)
  : HandEvaluator.HandResult :=
  match HandEvaluator.getBestFiveCardHand (PokerEngine.pcards p) cc with
  | Normal (Some h) => h
  | _ => HandEvaluator.evaluateHand (PokerEngine.pcards p ++ cc)
  end.

(** The contesting seats, and whether a seat holds a hand that no contesting
    seat beats. *)
Definition contestants (s : PokerEngine.State) : list (nat * PokerEngine.Player) :=
  filter (fun ip => PokerEngine.contesting (snd ip)) (PokerEngine.seats s).

Definition holdsBest (cc : list Card) (s : PokerEngine.State)
           (p : PokerEngine.Player) : bool :=
  forallb (fun jq => 0 <=? HandEvaluator.compareHands (bestHandOf cc p)
                                                      (bestHandOf cc (snd jq)))
          (contestants s).

Definition winnersOf (cc : list Card) (s : PokerEngine.State)
  : list (nat * PokerEngine.Player) :=
  filter (fun ip => holdsBest cc s (snd ip)) (contestants s).

Section Vocabulary.
Import HandEvaluator PokerEngine.

(** [evaluateHand] returns the result of the first check that succeeds. *)
Inductive evaluated (e : list EvalCard) (h : HandResult) : Prop :=
| ev_royal : checkRoyalFlush e = Some h -> evaluated e h
| ev_straight_flush :
    checkRoyalFlush e = None -> checkStraightFlush e = Some h -> evaluated e h
| ev_four :
    checkRoyalFlush e = None -> checkStraightFlush e = None ->
    checkFourOfAKind e = Some h -> evaluated e h
| ev_full :
    checkRoyalFlush e = None -> checkStraightFlush e = None ->
    checkFourOfAKind e = None -> checkFullHouse e = Some h -> evaluated e h
| ev_flush :
    checkRoyalFlush e = None -> checkStraightFlush e = None ->
    checkFourOfAKind e = None -> checkFullHouse e = None ->
    checkFlush e = Some h -> evaluated e h
| ev_straight :
    checkRoyalFlush e = None -> checkStraightFlush e = None ->
    checkFourOfAKind e = None -> checkFullHouse e = None ->
    checkFlush e = None -> checkStraight e = Some h -> evaluated e h
| ev_three :
    checkRoyalFlush e = None -> checkStraightFlush e = None ->
    checkFourOfAKind e = None -> checkFullHouse e = None ->
    checkFlush e = None -> checkStraight e = None ->
    checkThreeOfAKind e = Some h -> evaluated e h
| ev_two_pair :
    checkRoyalFlush e = None -> checkStraightFlush e = None ->
    checkFourOfAKind e = None -> checkFullHouse e = None ->
    checkFlush e = None -> checkStraight e = None ->
    checkThreeOfAKind e = None -> checkTwoPair e = Some h -> evaluated e h
| ev_pair :
    checkRoyalFlush e = None -> checkStraightFlush e = None ->
    checkFourOfAKind e = None -> checkFullHouse e = None ->
    checkFlush e = None -> checkStraight e = None ->
    checkThreeOfAKind e = None -> checkTwoPair e = None ->
    checkPair e = Some h -> evaluated e h
| ev_high :
    checkRoyalFlush e = None -> checkStraightFlush e = None ->
    checkFourOfAKind e = None -> checkFullHouse e = None ->
    checkFlush e = None -> checkStraight e = None ->
    checkThreeOfAKind e = None -> checkTwoPair e = None ->
    checkPair e = None -> h = checkHighCard e -> evaluated e h.

(** Number of cards of rank [k]. *)
Definition cnt (k : Z) (p : list EvalCard) : Z :=
  Z.of_nat (length (filter (fun c => rank c =? k) p)).

(** What the table holds after the cards [p] have been counted. *)
Definition countsOf (p : list EvalCard) (o : list (Z * Z)) : Prop :=
  (forall k v, In (k, v) o -> v = cnt k p /\ 0 < v) /\
  (forall c, In c p -> In (rank c) (map fst o)) /\
  NoDup (map fst o).

(** Every group is a subsequence of the cards seen so far, all of one suit. *)
Definition groupsOf (p : list EvalCard) (g : list (Suit * list EvalCard)) : Prop :=
  forall s l, In (s, l) g -> subseq l p /\ forall c, In c l -> esuit c = s.

(** The [high] of [findStraight]. *)
Definition straightHigh (cs : list EvalCard) : option Z :=
  option_map fst (findStraight cs).

Definition toEval (c : Card) : EvalCard := mkEval (value c) (suit c).

(** A table whose deck has run out. *)
Definition emptyDeckState : PokerEngine.State :=
  PokerEngine.mkState [] [] [] 0 0 (PokerEngine.mkBlinds 5 10) 0
                      PokerEngine.preflop true 1.

(** A table where the big blind seat holds 3 chips against a big blind of
    10: dealer at seat 0, small blind seat 1, big blind seat 2. *)
Definition shortStackTable : PokerEngine.State :=
  PokerEngine.mkState [] []
    [PokerEngine.mkPlayer 0 1000 [] 0 0 false true false false;
     PokerEngine.mkPlayer 1 1000 [] 0 0 true true false false;
     PokerEngine.mkPlayer 2 3 [] 0 0 true true false false]
    0 0 (PokerEngine.mkBlinds 5 10) 0 PokerEngine.preflop false 1.

(** A step that moves no chips. *)
Definition quiet (s s' : State) : Prop :=
  sumChips (players s') = sumChips (players s) /\ pot s' = pot s.

Definition Card_eqb (a b : Card) : bool :=
  (value a =? value b) && Suit_eqb (suit a) (suit b).

(** The cards in the order they leave the deck: one hole card to each of the
    seats 0, 1, 2, a second one, then burn, flop, burn, turn, burn, river.
    The board is the ace-high straight; no seat improves on it. *)
Definition dealtFirst : list Card :=
  [mkCard 2 clubs; mkCard 7 hearts; mkCard 2 diamonds;
   mkCard 3 diamonds; mkCard 8 clubs; mkCard 3 clubs;
   mkCard 4 hearts;
   mkCard 14 spades; mkCard 13 hearts; mkCard 12 diamonds;
   mkCard 4 clubs;
   mkCard 11 clubs;
   mkCard 4 diamonds;
   mkCard 10 spades].

(** A shuffle that leaves those cards on top (the top is the end of the
    array). *)
Definition stackedDeck : list Card :=
  filter (fun c => negb (existsb (Card_eqb c) dealtFirst)) PokerEngine.createDeck
  ++ rev dealtFirst.

Fixpoint distinctCards (l : list Card) : bool :=
  match l with
  | [] => true
  | c :: t => negb (existsb (Card_eqb c) t) && distinctCards t
  end.

(** The table of a long session: seat 2 has lost its stack. *)
Definition seatTwoBusted : PokerEngine.State :=
  PokerEngine.setPlayers
    [PokerEngine.mkPlayer 0 2000 [] 0 0 false true false false;
     PokerEngine.mkPlayer 1 1000 [] 0 0 true true false false;
     PokerEngine.mkPlayer 2 0 [] 0 0 true true false false]
    PokerEngine.newEngine.

(** A seat with 20 chips holding sevens full of threes on the flop, facing a
    bet of 50. *)
Definition shortStackedSeat : PokerEngine.Player :=
  PokerEngine.mkPlayer 2 20 [mkCard 7 clubs; mkCard 7 diamonds] 0 10
                       true true false false.

Definition facingABet : PokerAI.GameState :=
  PokerAI.mkGameState
    [mkCard 7 hearts; mkCard 3 spades; mkCard 3 diamonds] 80 50
    [PokerEngine.mkPlayer 0 940 [] 50 60 false true false false;
     PokerEngine.mkPlayer 1 990 [] 0 10 true true false true;
     shortStackedSeat]
    PokerEngine.flop.

(** The seat of a hand and the hand itself, as [evaluateWinner] pairs them. *)
Definition seatHand (cc : list Card) (ip : nat * Player) : nat * HandResult :=
  (fst ip, bestHandOf cc (snd ip)).

(** Phases left before the showdown. *)
Definition phaseRank (p : Phase) : nat :=
  match p with
  | preflop => 4 | flop => 3 | turn => 2 | river => 1 | showdownPhase => 0
  end.

(** Five consecutive ranks with top [h] among [rs]. *)
Definition hasRun (rs : list Z) (h : Z) : Prop :=
  forall d, 0 <= d <= 4 -> In (h - d) rs.

(** The ranks of the wheel among [rs]. *)
Definition hasWheel (rs : list Z) : Prop :=
  In 14 rs /\ In 5 rs /\ In 4 rs /\ In 3 rs /\ In 2 rs.
(** The cards of suit [s], in their order in [cs]. *)
Definition cardsOfSuit (s : Suit) (cs : list EvalCard) : list EvalCard :=
  filter (fun c => Suit_eqb s (esuit c)) cs.

(** The groups object after the cards [p], as a function of the suits met. *)
Definition groupsFor (suits : list Suit) (p : list EvalCard)
  : list (Suit * list EvalCard) :=
  map (fun s => (s, cardsOfSuit s p)) suits.

(** What a result owes to the cards it was read from: every kicker is the
    rank of one of them, or [0] where a side card is missing; its cards are
    among them; and there are at most five. *)
Definition fromHand (e : list EvalCard) (h : HandResult) : Prop :=
  (forall k, In k (kickers h) -> k = 0 \/ In k (map rank e)) /\
  (forall c, In c (cards h) -> In c e) /\
  (length (cards h) <= 5)%nat.
(** The engine as a call leaves it, whether it returned or threw. *)
Definition endState (r : Run) : option State :=
  match r with
  | Returned s => Some s
  | Raised _ s => Some s
  | OutOfFuel => None
  end.

(** A hand from the deal on: [startNewHand], then the seats act. *)
Definition playHand (fuel : nat) (shuffled : list Card)
           (acts : list (nat * Action * Z)) (s : State) : Run :=
  bindR (startNewHand fuel shuffled s) (playActions fuel acts).

(** No negative stack and no negative pot. *)
Definition solvent (s : State) : Prop :=
  0 <= pot s /\ forall p, In p (players s) -> 0 <= chips p.

(** What the seats have put in during the hand. *)
Definition sumInvested (ps : list Player) : Z :=
  fold_right (fun p acc => totalInvested p + acc) 0 ps.

(** Until the showdown the pot holds what the seats have put in. *)
Definition potIsInvested (s : State) : Prop :=
  gamePhase s <> showdownPhase -> pot s = sumInvested (players s).
(** The hole cards of all seats, seat by seat. *)
Definition holeCards (s : State) : list Card :=
  concat (map pcards (players s)).

(** The seats of [ps] that are dealt in. *)
Definition activeSeats (ps : list Player) : nat :=
  length (filter isActive ps).

(** One pass of [dealPocketCards] over the seats [ps] with the deck [d]:
    the seats after the pass and the deck that is left. *)
Fixpoint dealRow (ps : list Player) (d : list Card) : list Player * list Card :=
  match ps with
  | [] => ([], d)
  | p :: t =>
      if isActive p then
        match pop d with
        | (Some c, d') =>
            let r := dealRow t d' in
            (setCards (pcards p ++ [c]) p :: fst r, snd r)
        | (None, _) => let r := dealRow t d in (p :: fst r, snd r)
        end
      else let r := dealRow t d in (p :: fst r, snd r)
  end.

(** What dealing does to a seat: [k] cards are added to its hand, nothing
    else changes. *)
Definition dealtIn (k : nat) (p p' : Player) : Prop :=
  exists add, p' = setCards (pcards p ++ add) p /\ length add = k.

(** A table at the river: the board is the ace-high straight, seat 1 has
    folded, seats 0 and 2 play the board. *)
Definition riverTable : State :=
  mkState [] 
    [Some (mkCard 14 spades); Some (mkCard 13 hearts); Some (mkCard 12 diamonds);
     Some (mkCard 11 clubs); Some (mkCard 10 spades)]
    [mkPlayer 0 900 [mkCard 2 clubs; mkCard 3 diamonds] 0 100 false true false false;
     mkPlayer 1 990 [mkCard 7 hearts; mkCard 8 clubs] 0 10 true true false true;
     mkPlayer 2 900 [mkCard 2 diamonds; mkCard 3 clubs] 0 101 true true false false]
    1 0 (mkBlinds 5 10) 211 river true 1.
(** The decision of a completed call of the agent. *)
Definition decisionOf (r : Outcome PokerAI.Decision * nat) : PokerAI.Decision :=
  match fst r with
  | Normal d => d
  | Throws _ => PokerAI.plain fold
  end.

(** A flop with a pair on the board and nothing to call: seat 0 holds nine
    high, seat 2 sevens full of threes. *)
Definition quietFlop : PokerAI.GameState :=
  PokerAI.mkGameState
    [mkCard 7 hearts; mkCard 3 spades; mkCard 3 diamonds] 80 0
    [mkPlayer 0 940 [mkCard 2 clubs; mkCard 9 diamonds] 0 60 false true false false;
     mkPlayer 1 990 [mkCard 5 hearts; mkCard 6 clubs] 0 10 true true false false;
     shortStackedSeat]
    flop.

(** Three different ranks among [rs] that fit in a window of five. *)
Definition threeClose (rs : list Z) : Prop :=
  exists a b c, In a rs /\ In b rs /\ In c rs /\ a < b /\ b < c /\ c - a <= 4.

(** The cards on the board (a missing card leaves no card). *)
Definition boardCards (s : State) : list Card :=
  flat_map (fun o => match o with Some c => [c] | None => [] end)
           (communityCards s).

(** The cards the engine holds: deck, board and hole cards. *)
Definition cardsOf (s : State) : list Card :=
  deck s ++ boardCards s ++ holeCards s.

(** Every card of [D] is in the deck, on the board, in a hand or burned,
    and in one place only. *)
Definition tracked (D : list Card) (s : State) : Prop :=
  exists burned, Permutation (burned ++ cardsOf s) D.

(** A session fragment and a hand on a call stack of [stack] nested calls:
    every action is a call of its own from an event handler. *)
Fixpoint playActionsOnStack (stack : nat) (acts : list (nat * Action * Z))
         (s : State) : Run :=
  match acts with
  | [] => Returned s
  | (i, a, amt) :: rest =>
      bindR (executePlayerActionOnStack stack i a amt s)
            (playActionsOnStack stack rest)
  end.

Definition playHandOnStack (stack : nat) (shuffled : list Card)
           (acts : list (nat * Action * Z)) (s : State) : Run :=
  bindR (startNewHandOnStack stack shuffled s) (playActionsOnStack stack acts).

(** The state in which the cascade is left when it goes round after the
    showdown: the bets are reset and the turn is at the seat after the
    dealer. *)
Definition idleRound (s : State) : State :=
  setCurrentPlayerIndex
    (Nat.modulo (dealerPosition s + 1) (length (players s)))
    (setPlayers (map (setCurrentBet 0) (players s)) s).

(** The number of seats paid at a showdown: the contesting seats whose best
    hand on the board no contesting seat beats. *)
Definition paidSeats (s : State) : nat :=
  length (winnersOf (boardCards s) s).

(** Every action of [acts] is taken before the showdown. *)
Fixpoint beforeShowdown (fuel : nat) (acts : list (nat * Action * Z))
         (s : State) : bool :=
  match acts with
  | [] => true
  | (i, a, amt) :: rest =>
      match gamePhase s with
      | showdownPhase => false
      | _ =>
          match executePlayerAction fuel i a amt s with
          | Returned s1 => beforeShowdown fuel rest s1
          | _ => true
          end
      end
  end.

(** The integers on which the engine computes exactly: JavaScript numbers
    hold every integer up to 2^53, so a sum or a difference of two integers
    of magnitude at most 2^52 is the exact one. *)
Definition exactAmount (z : Z) : Prop :=
  - 4503599627370496 <= z <= 4503599627370496.

(** A table whose blinds, pot, stacks, bets and investments are such
    integers. *)
Definition exactTable (s : State) : Prop :=
  exactAmount (small (blinds s)) /\ exactAmount (big (blinds s)) /\
  exactAmount (pot s) /\
  forall p, In p (players s) ->
    exactAmount (chips p) /\ exactAmount (currentBet p) /\
    exactAmount (totalInvested p).

(** A hand played with such integers: the stacks and the blinds are not
    negative, the stacks add up to at most 2^52, and the seats raise by
    amounts from 0 to 2^52.  Stacks, bets and pot then stay between 0 and
    the sum of the stacks, and what a seat has put in is at most twice that
    sum, so every sum the engine forms is exact. *)
Definition exactHand (acts : list (nat * Action * Z)) (s : State) : Prop :=
  0 <= small (blinds s) /\ 0 <= big (blinds s) /\
  (forall p, In p (players s) -> 0 <= chips p) /\
  sumChips (players s) <= 4503599627370496 /\
  (forall i amt, In (i, raise, amt) acts -> 0 <= amt <= 4503599627370496).

(** The chips of a hand against the stacks [T] at its start.  Before the
    showdown all of them are on the table and the pot holds what the seats
    have put in.  After it the pot is empty and the stacks are short of [T]
    by the remainder of the division of the pot among the seats paid. *)
Definition chipsAccounted (T : Z) (s : State) : Prop :=
  (gamePhase s <> showdownPhase ->
   totalChips s = T /\ pot s = sumInvested (players s)) /\
  (gamePhase s = showdownPhase ->
   pot s = 0 /\
   sumChips (players s)
   = T - sumInvested (players s) mod Z.of_nat (paidSeats s)).
End Vocabulary.

(** * Properties *)

(** ** Kicker comparison *)

Section KickerOrder.
Import HandEvaluator.

Lemma kickerAt_beyond ks i : (length ks <= i)%nat -> kickerAt ks i = 0.
Proof.
  intros H. unfold kickerAt.
  now rewrite (proj2 (nth_error_None ks i) H).
Qed.

Lemma kickerLoop_zero_iff n : forall i k1 k2,
  kickerLoop n i k1 k2 = 0 <->
  (forall j, (i <= j < i + n)%nat -> kickerAt k1 j = kickerAt k2 j).
Proof.
  induction n as [|n IH]; intros i k1 k2; simpl.
  - split; [intros _ j Hj; lia | reflexivity].
  - destruct (Z.eqb_spec (kickerAt k1 i) (kickerAt k2 i)) as [E|E]; simpl.
    + rewrite IH. split; intros H j Hj.
      * destruct (Nat.eq_dec j i) as [->|Hne]; [exact E | apply H; lia].
      * apply H; lia.
    + split; [lia | intros H; exfalso; apply E, H; lia].
Qed.

Lemma kickerLoop_first_difference n : forall i d k1 k2,
  (d < n)%nat ->
  (forall j, (i <= j < i + d)%nat -> kickerAt k1 j = kickerAt k2 j) ->
  kickerAt k1 (i + d) <> kickerAt k2 (i + d) ->
  kickerLoop n i k1 k2 = kickerAt k1 (i + d) - kickerAt k2 (i + d).
Proof.
  induction n as [|n IH]; intros i d k1 k2 Hd Heq Hne; [lia|].
  simpl. destruct d as [|d].
  - rewrite Nat.add_0_r in *.
    destruct (Z.eqb_spec (kickerAt k1 i) (kickerAt k2 i)); [contradiction|reflexivity].
  - destruct (Z.eqb_spec (kickerAt k1 i) (kickerAt k2 i)) as [E|E]; simpl.
    + replace (i + S d)%nat with (S i + d)%nat in * by lia.
      apply IH; [lia | intros j Hj; apply Heq; lia | exact Hne].
    + exfalso. apply E, Heq. lia.
Qed.

(** Iterations past both sequences compare [0] with [0]. *)
Lemma kickerLoop_extend m : forall n i k1 k2,
  (length k1 <= i + n)%nat -> (length k2 <= i + n)%nat ->
  kickerLoop (n + m) i k1 k2 = kickerLoop n i k1 k2.
Proof.
  intros n; induction n as [|n IH]; intros i k1 k2 H1 H2.
  - simpl. apply kickerLoop_zero_iff. intros j Hj.
    rewrite !kickerAt_beyond by lia. reflexivity.
  - simpl. destruct (negb _); [reflexivity|]. apply IH; lia.
Qed.

Lemma kickerLoop_antisym n : forall i k1 k2,
  kickerLoop n i k1 k2 = - kickerLoop n i k2 k1.
Proof.
  induction n as [|n IH]; intros i k1 k2; simpl; [reflexivity|].
  destruct (Z.eqb_spec (kickerAt k1 i) (kickerAt k2 i)) as [E|E];
    destruct (Z.eqb_spec (kickerAt k2 i) (kickerAt k1 i)) as [E'|E'];
    simpl; try lia. apply IH.
Qed.

Lemma kickerLoop_trans n : forall i k1 k2 k3,
  0 <= kickerLoop n i k1 k2 -> 0 <= kickerLoop n i k2 k3 ->
  0 <= kickerLoop n i k1 k3.
Proof.
  induction n as [|n IH]; intros i k1 k2 k3; simpl; [lia|].
  destruct (Z.eqb_spec (kickerAt k1 i) (kickerAt k2 i)) as [E12|E12];
    destruct (Z.eqb_spec (kickerAt k2 i) (kickerAt k3 i)) as [E23|E23];
    destruct (Z.eqb_spec (kickerAt k1 i) (kickerAt k3 i)) as [E13|E13];
    simpl; try lia.
  apply IH.
Qed.

(** [compareKickers] with any bound past both sequences. *)
Lemma compareKickers_bound h1 h2 N :
  (length (kickers h1) <= N)%nat -> (length (kickers h2) <= N)%nat ->
  compareKickers h1 h2 = kickerLoop N 0 (kickers h1) (kickers h2).
Proof.
  intros H1 H2. unfold compareKickers.
  set (n := Nat.max _ _).
  replace N with (n + (N - n))%nat by lia.
  symmetry. apply kickerLoop_extend; lia.
Qed.

Lemma compareKickers_antisym h1 h2 :
  compareKickers h1 h2 = - compareKickers h2 h1.
Proof.
  unfold compareKickers. rewrite Nat.max_comm. apply kickerLoop_antisym.
Qed.

Lemma compareKickers_trans h1 h2 h3 :
  0 <= compareKickers h1 h2 -> 0 <= compareKickers h2 h3 ->
  0 <= compareKickers h1 h3.
Proof.
  set (N := Nat.max (length (kickers h1))
              (Nat.max (length (kickers h2)) (length (kickers h3)))).
  rewrite (compareKickers_bound h1 h2 N), (compareKickers_bound h2 h3 N),
          (compareKickers_bound h1 h3 N) by lia.
  apply kickerLoop_trans.
Qed.

Lemma compareKickers_zero_iff h1 h2 :
  compareKickers h1 h2 = 0 <->
  (forall j, kickerAt (kickers h1) j = kickerAt (kickers h2) j).
Proof.
  unfold compareKickers. rewrite kickerLoop_zero_iff. split; intros H j.
  - destruct (Nat.lt_ge_cases j
                (Nat.max (length (kickers h1)) (length (kickers h2)))).
    + apply H; lia.
    + rewrite !kickerAt_beyond by lia. reflexivity.
  - intros _. apply H.
Qed.

Lemma compareKickers_refl h : compareKickers h h = 0.
Proof. apply compareKickers_zero_iff. reflexivity. Qed.

Lemma compareHands_antisym h1 h2 : compareHands h1 h2 = - compareHands h2 h1.
Proof.
  unfold compareHands.
  destruct (Z.eqb_spec (hrank h1) (hrank h2)) as [E|E];
    destruct (Z.eqb_spec (hrank h2) (hrank h1)) as [E'|E']; simpl; try lia.
  apply compareKickers_antisym.
Qed.

Lemma compareHands_trans h1 h2 h3 :
  0 <= compareHands h1 h2 -> 0 <= compareHands h2 h3 -> 0 <= compareHands h1 h3.
Proof.
  unfold compareHands.
  destruct (Z.eqb_spec (hrank h1) (hrank h2)) as [E12|E12];
    destruct (Z.eqb_spec (hrank h2) (hrank h3)) as [E23|E23];
    destruct (Z.eqb_spec (hrank h1) (hrank h3)) as [E13|E13];
    simpl; try lia.
  apply compareKickers_trans.
Qed.

Lemma compareHands_refl h : compareHands h h = 0.
Proof.
  unfold compareHands. rewrite Z.eqb_refl. simpl. apply compareKickers_refl.
Qed.

Lemma compareHands_zero_iff h1 h2 :
  compareHands h1 h2 = 0 <->
  hrank h1 = hrank h2 /\
  (forall j, kickerAt (kickers h1) j = kickerAt (kickers h2) j).
Proof.
  unfold compareHands.
  destruct (Z.eqb_spec (hrank h1) (hrank h2)) as [E|E]; simpl.
  - rewrite compareKickers_zero_iff. tauto.
  - split; [lia | tauto].
Qed.
End KickerOrder.

(** C2. [compareHands] orders hand results totally: it decides by category
    when the categories differ; on equal categories the first index at which
    the kicker sequences differ decides, and sequences without a difference
    tie; every hand ties with itself; hands equal in category and kickers
    tie; the comparison is antisymmetric (swapping the arguments negates the
    result, so any two hands are comparable), transitive, and a tie means
    equal category and equal kickers. *)
Theorem compareHands_total_order :
  (forall h1 h2, HandEvaluator.hrank h1 <> HandEvaluator.hrank h2 ->
     HandEvaluator.compareHands h1 h2
     = HandEvaluator.hrank h1 - HandEvaluator.hrank h2) /\
  (forall h1 h2 i, HandEvaluator.hrank h1 = HandEvaluator.hrank h2 ->
     (forall j, (j < i)%nat ->
        HandEvaluator.kickerAt (HandEvaluator.kickers h1) j
        = HandEvaluator.kickerAt (HandEvaluator.kickers h2) j) ->
     HandEvaluator.kickerAt (HandEvaluator.kickers h1) i
     <> HandEvaluator.kickerAt (HandEvaluator.kickers h2) i ->
     HandEvaluator.compareHands h1 h2
     = HandEvaluator.kickerAt (HandEvaluator.kickers h1) i
       - HandEvaluator.kickerAt (HandEvaluator.kickers h2) i) /\
  (forall h, HandEvaluator.compareHands h h = 0) /\
  (forall h1 h2, HandEvaluator.hrank h1 = HandEvaluator.hrank h2 ->
     HandEvaluator.kickers h1 = HandEvaluator.kickers h2 ->
     HandEvaluator.compareHands h1 h2 = 0) /\
  (forall h1 h2, HandEvaluator.compareHands h1 h2
                 = - HandEvaluator.compareHands h2 h1) /\
  (forall h1 h2 h3, 0 <= HandEvaluator.compareHands h1 h2 ->
     0 <= HandEvaluator.compareHands h2 h3 ->
     0 <= HandEvaluator.compareHands h1 h3) /\
  (forall h1 h2, HandEvaluator.compareHands h1 h2 = 0 <->
     HandEvaluator.hrank h1 = HandEvaluator.hrank h2 /\
     forall j, HandEvaluator.kickerAt (HandEvaluator.kickers h1) j
               = HandEvaluator.kickerAt (HandEvaluator.kickers h2) j).
Proof.
  refine (conj _ (conj _ (conj _ (conj _ (conj _ (conj _ _)))))).
  - intros h1 h2 Hne. unfold HandEvaluator.compareHands.
    destruct (Z.eqb_spec (HandEvaluator.hrank h1) (HandEvaluator.hrank h2));
      [contradiction | reflexivity].
  - intros h1 h2 i Heq Hpre Hdiff. unfold HandEvaluator.compareHands.
    rewrite Heq, Z.eqb_refl. simpl.
    assert (Hlt : (i < Nat.max (length (HandEvaluator.kickers h1))
                             (length (HandEvaluator.kickers h2)))%nat).
    { destruct (Nat.lt_ge_cases i
                  (Nat.max (length (HandEvaluator.kickers h1))
                           (length (HandEvaluator.kickers h2)))) as [L|L];
        [exact L|].
      exfalso. apply Hdiff. rewrite !kickerAt_beyond by lia. reflexivity. }
    unfold HandEvaluator.compareKickers.
    apply (kickerLoop_first_difference _ 0 i); [exact Hlt | | exact Hdiff].
    intros j Hj. apply Hpre. lia.
  - apply compareHands_refl.
  - intros h1 h2 Hr Hk. apply compareHands_zero_iff. split; [exact Hr|].
    intros j. now rewrite Hk.
  - apply compareHands_antisym.
  - apply compareHands_trans.
  - apply compareHands_zero_iff.
Qed.

(** The comparison at work on a pair of aces with kickers K-9-3 against a
    pair of aces with kickers K-8-7: the third kicker decides. *)
Lemma compareHands_total_order_witness :
  HandEvaluator.compareHands
    (HandEvaluator.mkHand 2 "Pair" [14; 13; 9; 3] [])
    (HandEvaluator.mkHand 2 "Pair" [14; 13; 8; 7] []) = 1.
Proof.
  apply (proj1 (proj2 compareHands_total_order)
           (HandEvaluator.mkHand 2 "Pair" [14; 13; 9; 3] [])
           (HandEvaluator.mkHand 2 "Pair" [14; 13; 8; 7] []) 2%nat).
  - reflexivity.
  - intros j Hj. destruct j as [|[|j]]; [reflexivity | reflexivity | lia].
  - vm_compute. discriminate.
Defined.

(** ** Five-card subsets *)

Section Combinations.
Import HandEvaluator.
Context {A : Type}.

Lemma subseq_length (s l : list A) : subseq s l -> (length s <= length l)%nat.
Proof. induction 1; simpl; lia. Qed.

Lemma subseq_full (s l : list A) :
  subseq s l -> length s = length l -> s = l.
Proof.
  induction 1 as [|x s l H IH|x s l H IH]; simpl; intros E.
  - reflexivity.
  - apply subseq_length in H. lia.
  - f_equal. apply IH. lia.
Qed.

Lemma subseq_refl (l : list A) : subseq l l.
Proof. induction l; constructor; assumption. Qed.

Lemma subseq_nil_l (l : list A) : subseq [] l.
Proof. induction l; constructor; assumption. Qed.

Lemma subseq_app_l (a b : list A) : subseq a (a ++ b).
Proof.
  induction a; simpl; [apply subseq_nil_l | apply subseq_take; assumption].
Qed.

Lemma subseq_cons_inv (s : list A) x l :
  subseq s (x :: l) ->
  subseq s l \/ exists s', s = x :: s' /\ subseq s' l.
Proof. inversion 1; subst; eauto. Qed.

Lemma subseq_singleton (s l : list A) :
  In s (map (fun c => [c]) l) <-> subseq s l /\ length s = 1%nat.
Proof.
  induction l as [|x l IH]; simpl.
  - split; [tauto|]. intros [H E]. inversion H; subst. discriminate.
  - rewrite IH. split.
    + intros [<-|[H E]].
      * split; [constructor; apply subseq_nil_l | reflexivity].
      * split; [constructor; assumption | assumption].
    + intros [H E]. apply subseq_cons_inv in H as [H|[s' [-> H]]].
      * right. tauto.
      * left. destruct s'; [reflexivity | discriminate].
Qed.

Lemma comboLoop_spec (rec : list A -> list (list A)) k' :
  (forall s l, In s (rec l) <-> subseq s l /\ length s = k') ->
  forall s l, In s (comboLoop rec (S k') l) <-> subseq s l /\ length s = S k'.
Proof.
  intros Hrec s l. induction l as [|x l IH].
  - simpl. split; [tauto|]. intros [H E]. inversion H; subst. discriminate.
  - cbn [comboLoop]. destruct (Nat.leb_spec (S k') (length (x :: l))) as [L|L].
    + rewrite in_app_iff, in_map_iff, IH. split.
      * intros [[s' [<- Hs']]|[H E]].
        -- apply Hrec in Hs' as [H E]. split; [constructor; assumption|].
           simpl. congruence.
        -- split; [constructor; assumption | assumption].
      * intros [H E]. apply subseq_cons_inv in H as [H|[s' [-> H]]].
        -- right. tauto.
        -- left. exists s'. split; [reflexivity|]. apply Hrec.
           split; [assumption|]. simpl in E. congruence.
    + split; [intros []|]. intros [H E]. apply subseq_length in H. lia.
Qed.

(** [generateCombinations k l] lists exactly the subsequences of length [k]. *)
Lemma generateCombinations_spec k : forall (s l : list A),
  (1 <= k)%nat ->
  In s (generateCombinations k l) <-> subseq s l /\ length s = k.
Proof.
  induction k as [|k IH]; intros s l Hk; [lia|].
  cbn [generateCombinations].
  destruct (Nat.eqb_spec (S k) 1) as [E1|E1].
  - rewrite E1. apply subseq_singleton.
  - destruct (Nat.eqb_spec (S k) (length l)) as [E2|E2].
    + simpl. split.
      * intros [<-|[]]. split; [apply subseq_refl | congruence].
      * intros [H E]. left. symmetry. apply subseq_full; congruence.
    + apply comboLoop_spec. intros s' l'. apply IH. lia.
Qed.

Lemma generateCombinations_7_5 (l : list A) :
  length l = 7%nat -> length (generateCombinations 5 l) = 21%nat.
Proof.
  intros H.
  do 7 (destruct l as [|? l]; [discriminate|]).
  destruct l; [reflexivity | discriminate].
Qed.
End Combinations.

(** ** The category of an evaluated hand *)

Section Categories.
Import HandEvaluator.

Lemma royalLoop_rank gs h : royalLoop gs = Some h -> hrank h = ROYAL_FLUSH.
Proof.
  induction gs as [|g gs IH]; simpl; [discriminate|].
  repeat match goal with
         | |- context [if ?b then _ else _] => destruct b
         end; try exact IH.
  intros [= <-]. reflexivity.
Qed.

Lemma straightFlushLoop_rank gs h :
  straightFlushLoop gs = Some h -> hrank h = STRAIGHT_FLUSH.
Proof.
  induction gs as [|g gs IH]; simpl; [discriminate|].
  destruct (5 <=? Z.of_nat (length g)); [|exact IH].
  destruct (findStraight g) as [[high sc]|]; [|exact IH].
  intros [= <-]. reflexivity.
Qed.

Lemma flushLoop_rank gs h : flushLoop gs = Some h -> hrank h = FLUSH.
Proof.
  induction gs as [|g gs IH]; simpl; [discriminate|].
  destruct (5 <=? Z.of_nat (length g)); [|exact IH].
  intros [= <-]. reflexivity.
Qed.

Lemma checkFourOfAKind_rank cs h :
  checkFourOfAKind cs = Some h -> hrank h = FOUR_OF_A_KIND.
Proof.
  unfold checkFourOfAKind.
  destruct (find _ _) as [[r c]|]; [|discriminate].
  intros [= <-]. reflexivity.
Qed.

Lemma checkFullHouse_rank cs h :
  checkFullHouse cs = Some h -> hrank h = FULL_HOUSE.
Proof.
  unfold checkFullHouse.
  destruct (falsy _); [discriminate|].
  destruct (falsy _); [discriminate|].
  intros [= <-]. reflexivity.
Qed.

Lemma checkStraight_rank cs h : checkStraight cs = Some h -> hrank h = STRAIGHT.
Proof.
  unfold checkStraight.
  destruct (findStraight cs) as [[high sc]|]; [|discriminate].
  intros [= <-]. reflexivity.
Qed.

Lemma checkThreeOfAKind_rank cs h :
  checkThreeOfAKind cs = Some h -> hrank h = THREE_OF_A_KIND.
Proof.
  unfold checkThreeOfAKind.
  destruct (find _ _) as [[r c]|]; [|discriminate].
  intros [= <-]. reflexivity.
Qed.

Lemma checkTwoPair_rank cs h : checkTwoPair cs = Some h -> hrank h = TWO_PAIR.
Proof.
  unfold checkTwoPair.
  destruct (sortBy _ _) as [|hp [|lp t]]; try discriminate.
  intros [= <-]. reflexivity.
Qed.

Lemma checkPair_rank cs h : checkPair cs = Some h -> hrank h = PAIR.
Proof.
  unfold checkPair.
  destruct (find _ _) as [[r c]|]; [|discriminate].
  intros [= <-]. reflexivity.
Qed.

Lemma evaluateHand_cases cs :
  evaluated (toEvalCards cs) (evaluateHand cs).
Proof.
  unfold evaluateHand. set (e := toEvalCards cs).
  destruct (checkRoyalFlush e) eqn:E1; [now apply ev_royal|].
  destruct (checkStraightFlush e) eqn:E2; [now apply ev_straight_flush|].
  destruct (checkFourOfAKind e) eqn:E3; [now apply ev_four|].
  destruct (checkFullHouse e) eqn:E4; [now apply ev_full|].
  destruct (checkFlush e) eqn:E5; [now apply ev_flush|].
  destruct (checkStraight e) eqn:E6; [now apply ev_straight|].
  destruct (checkThreeOfAKind e) eqn:E7; [now apply ev_three|].
  destruct (checkTwoPair e) eqn:E8; [now apply ev_two_pair|].
  destruct (checkPair e) eqn:E9; [now apply ev_pair|].
  now apply ev_high.
Qed.

(** Totality with a category in [1, 10]. *)
Lemma evaluateHand_rank_range cs : 1 <= hrank (evaluateHand cs) <= 10.
Proof.
  destruct (evaluateHand_cases cs) as
    [H|_ H|_ _ H|_ _ _ H|_ _ _ _ H|_ _ _ _ _ H|_ _ _ _ _ _ H
     |_ _ _ _ _ _ _ H|_ _ _ _ _ _ _ _ H|_ _ _ _ _ _ _ _ _ H].
  - apply royalLoop_rank in H. rewrite H. unfold ROYAL_FLUSH. lia.
  - apply straightFlushLoop_rank in H. rewrite H. unfold STRAIGHT_FLUSH. lia.
  - apply checkFourOfAKind_rank in H. rewrite H. unfold FOUR_OF_A_KIND. lia.
  - apply checkFullHouse_rank in H. rewrite H. unfold FULL_HOUSE. lia.
  - apply flushLoop_rank in H. rewrite H. unfold FLUSH. lia.
  - apply checkStraight_rank in H. rewrite H. unfold STRAIGHT. lia.
  - apply checkThreeOfAKind_rank in H. rewrite H. unfold THREE_OF_A_KIND. lia.
  - apply checkTwoPair_rank in H. rewrite H. unfold TWO_PAIR. lia.
  - apply checkPair_rank in H. rewrite H. unfold PAIR. lia.
  - rewrite H. simpl. unfold HIGH_CARD. lia.
Qed.
End Categories.

(** ** Best five of seven *)

Section BestHand.
Import HandEvaluator.

(** One step of the selection loop from a defined best hand: the new best
    hand is the old one or the hand just evaluated, and it is not below
    either of them. *)
Lemma bestStep_invariant best combo :
  exists best',
    bestStep (Normal (Some best, hrank best)) combo
    = Normal (Some best', hrank best') /\
    (best' = best \/ best' = evaluateHand combo) /\
    0 <= compareHands best' best /\
    0 <= compareHands best' (evaluateHand combo).
Proof.
  unfold bestStep, bindO. set (h := evaluateHand combo).
  destruct (Z.ltb_spec (hrank best) (hrank h)) as [L|L].
  - exists h. repeat split; [now right | | rewrite compareHands_refl; lia].
    unfold compareHands.
    destruct (Z.eqb_spec (hrank h) (hrank best)); simpl; lia.
  - destruct (Z.eqb_spec (hrank h) (hrank best)) as [E|E].
    + destruct (Z.ltb_spec 0 (compareKickers h best)) as [K|K].
      * exists h. repeat split; [now right | | rewrite compareHands_refl; lia].
        unfold compareHands. rewrite E, Z.eqb_refl. simpl. lia.
      * exists best. repeat split; [now left | rewrite compareHands_refl; lia |].
        rewrite compareHands_antisym. unfold compareHands.
        rewrite E, Z.eqb_refl. simpl. lia.
    + exists best. repeat split; [now left | rewrite compareHands_refl; lia |].
      unfold compareHands.
      destruct (Z.eqb_spec (hrank best) (hrank h)); simpl; lia.
Qed.

Lemma bestLoop_invariant combos : forall best,
  exists best',
    fold_left bestStep combos (Normal (Some best, hrank best))
    = Normal (Some best', hrank best') /\
    (best' = best \/ In best' (map evaluateHand combos)) /\
    0 <= compareHands best' best /\
    (forall c, In c combos -> 0 <= compareHands best' (evaluateHand c)).
Proof.
  induction combos as [|c combos IH]; intros best.
  - exists best. simpl. repeat split; [now left | rewrite compareHands_refl; lia |].
    intros c [].
  - cbn [fold_left].
    destruct (bestStep_invariant best c) as [b1 [E1 [O1 [G1 C1]]]].
    rewrite E1.
    destruct (IH b1) as [b2 [E2 [O2 [G2 C2]]]].
    exists b2. split; [exact E2|]. split; [|split].
    + simpl. destruct O2 as [->|O2]; [|tauto].
      destruct O1 as [->| ->]; tauto.
    + eapply compareHands_trans; eassumption.
    + intros c' [<-|Hc']; [|now apply C2].
      eapply compareHands_trans; eassumption.
Qed.

(** The first iteration replaces the initial [null]: every category is
    above the initial [bestRank] of [0]. *)
Lemma bestStep_first combo :
  bestStep (Normal (None, 0)) combo
  = Normal (Some (evaluateHand combo), hrank (evaluateHand combo)).
Proof.
  unfold bestStep, bindO.
  pose proof (evaluateHand_rank_range combo) as R.
  destruct (Z.ltb_spec 0 (hrank (evaluateHand combo))); [reflexivity | lia].
Qed.

Lemma getBestFiveCardHand_select playerCards communityCards :
  (5 <= length (playerCards ++ communityCards))%nat ->
  exists best,
    getBestFiveCardHand playerCards communityCards = Normal (Some best) /\
    (forall s, subseq s (playerCards ++ communityCards) -> length s = 5%nat ->
               0 <= compareHands best (evaluateHand s)) /\
    (exists s, subseq s (playerCards ++ communityCards) /\ length s = 5%nat /\
               best = evaluateHand s).
Proof.
  intros Hlen. unfold getBestFiveCardHand.
  set (allCards := playerCards ++ communityCards) in *.
  destruct (Nat.ltb_spec (length allCards) 5) as [L|_]; [lia|].
  assert (Spec : forall s, In s (generateCombinations 5 allCards) <->
                           subseq s allCards /\ length s = 5%nat)
    by (intros s; apply generateCombinations_spec; lia).
  destruct (generateCombinations 5 allCards) as [|c combos] eqn:EC.
  - exfalso.
    enough (Hin : In (firstn 5 allCards) []) by destruct Hin.
    apply Spec. split; [|apply firstn_length_le; lia].
    rewrite <- (firstn_skipn 5 allCards) at 2. apply subseq_app_l.
  - cbn [fold_left]. rewrite bestStep_first.
    destruct (bestLoop_invariant combos (evaluateHand c)) as [b [E [O [G C]]]].
    rewrite E. simpl. exists b. split; [reflexivity|]. split.
    + intros s Hs Hl.
      assert (Hin : In s (c :: combos)) by (apply Spec; tauto).
      destruct Hin as [<-|Hin]; [exact G | now apply C].
    + destruct O as [->|O].
      * exists c. assert (Hc : In c (c :: combos)) by now left.
        apply Spec in Hc. tauto.
      * apply in_map_iff in O as [s [<- Hs]].
        exists s. assert (Hc : In s (c :: combos)) by now right.
        apply Spec in Hc. tauto.
Qed.
End BestHand.

(** C1. On a seven-card input [getBestFiveCardHand] returns a hand result
    that is not below, under [compareHands], the evaluation of any of the 21
    five-card subsets of the input, and that is the evaluation of one of
    them. *)
Theorem getBestFiveCardHand_maximal playerCards communityCards :
  length (playerCards ++ communityCards) = 7%nat ->
  length (HandEvaluator.generateCombinations 5 (playerCards ++ communityCards))
  = 21%nat /\
  exists best,
    HandEvaluator.getBestFiveCardHand playerCards communityCards
    = Normal (Some best) /\
    (forall s, subseq s (playerCards ++ communityCards) -> length s = 5%nat ->
       0 <= HandEvaluator.compareHands best (HandEvaluator.evaluateHand s)) /\
    (exists s, subseq s (playerCards ++ communityCards) /\ length s = 5%nat /\
       best = HandEvaluator.evaluateHand s).
Proof.
  intros H. split.
  - now apply generateCombinations_7_5.
  - apply getBestFiveCardHand_select. lia.
Qed.

(** Hole cards 7c 7d on the board 7h 3s 3d 2h Ah. *)
Lemma getBestFiveCardHand_maximal_witness :
  let hole := [mkCard 7 clubs; mkCard 7 diamonds] in
  let board := [mkCard 7 hearts; mkCard 3 spades; mkCard 3 diamonds;
                mkCard 2 hearts; mkCard 14 hearts] in
  length (HandEvaluator.generateCombinations 5 (hole ++ board)) = 21%nat /\
  exists best,
    HandEvaluator.getBestFiveCardHand hole board = Normal (Some best) /\
    (forall s, subseq s (hole ++ board) -> length s = 5%nat ->
       0 <= HandEvaluator.compareHands best (HandEvaluator.evaluateHand s)) /\
    (exists s, subseq s (hole ++ board) /\ length s = 5%nat /\
       best = HandEvaluator.evaluateHand s).
Proof.
  intros hole board.
  apply (getBestFiveCardHand_maximal hole board). reflexivity.
Defined.

(** ** Sorting and duplicate removal *)

Section SortFacts.
Context {A : Type}.

Lemma insertBy_perm (cmp : A -> A -> Z) x l : Permutation (insertBy cmp x l) (x :: l).
Proof.
  induction l as [|y l IH]; simpl; [reflexivity|].
  destruct (cmp x y <=? 0); [reflexivity|].
  rewrite IH. apply perm_swap.
Qed.

Lemma sortBy_perm (cmp : A -> A -> Z) l : Permutation (sortBy cmp l) l.
Proof.
  induction l as [|x l IH]; simpl; [reflexivity|].
  rewrite insertBy_perm. now constructor.
Qed.

Lemma sortBy_length (cmp : A -> A -> Z) l : length (sortBy cmp l) = length l.
Proof. apply Permutation_length, sortBy_perm. Qed.

Lemma sortBy_In (cmp : A -> A -> Z) l x : In x (sortBy cmp l) <-> In x l.
Proof.
  split; apply Permutation_in; [|symmetry]; apply sortBy_perm.
Qed.

Lemma sortBy_map_perm {B} (f : A -> B) (cmp : A -> A -> Z) l :
  Permutation (map f (sortBy cmp l)) (map f l).
Proof. apply Permutation_map, sortBy_perm. Qed.

Lemma filter_length_le (f : A -> bool) l : (length (filter f l) <= length l)%nat.
Proof. induction l; simpl; [lia|]. destruct (f a); simpl; lia. Qed.

Lemma filter_full (f : A -> bool) l :
  length (filter f l) = length l -> filter f l = l.
Proof.
  induction l as [|x l IH]; simpl; [reflexivity|].
  destruct (f x); simpl; intros E.
  - f_equal. apply IH. lia.
  - pose proof (filter_length_le f l). lia.
Qed.

Lemma filter_perm (f : A -> bool) l l' :
  Permutation l l' -> Permutation (filter f l) (filter f l').
Proof.
  induction 1; simpl.
  - reflexivity.
  - destruct (f x); [constructor|]; assumption.
  - destruct (f x), (f y); try reflexivity. apply perm_swap.
  - etransitivity; eassumption.
Qed.
End SortFacts.

Section RankSorting.

(** Descending order of the result of [sort((a, b) => b - a)]. *)
Lemma insertBy_descZ_sorted x l :
  Sorted Z.ge l -> Sorted Z.ge (insertBy descZ x l).
Proof.
  induction 1 as [|y l Hs IH Hhd]; simpl.
  - repeat constructor.
  - unfold descZ at 1. destruct (Z.leb_spec (y - x) 0) as [L|L].
    + constructor; [constructor; assumption|]. constructor. lia.
    + constructor; [exact IH|].
      destruct l as [|z l]; simpl.
      * constructor. lia.
      * unfold descZ. destruct (Z.leb_spec (z - x) 0); constructor; [lia|].
        now inversion Hhd.
Qed.

Lemma sortBy_descZ_sorted l : Sorted Z.ge (sortBy descZ l).
Proof.
  induction l as [|x l IH]; simpl; [constructor|].
  now apply insertBy_descZ_sorted.
Qed.

Lemma uniqueZ_In seen xs v :
  In v (uniqueZ seen xs) <-> In v xs /\ ~ In v seen.
Proof.
  revert seen. induction xs as [|x xs IH]; intros seen; simpl; [tauto|].
  destruct (existsb (Z.eqb x) seen) eqn:E.
  - apply existsb_exists in E as [y [Hy Exy]]. apply Z.eqb_eq in Exy. subst y.
    rewrite IH. split; [tauto|]. intros [[->|H] Hn]; tauto.
  - assert (Hx : ~ In x seen).
    { intros Hin. apply Bool.not_true_iff_false in E. apply E.
      apply existsb_exists. exists x. split; [assumption | apply Z.eqb_refl]. }
    simpl. rewrite IH. simpl. split.
    + intros [<-|[H Hn]]; [tauto|]. split; [tauto|]. intros Hs. apply Hn. tauto.
    + intros [[->|H] Hn]; [tauto|].
      destruct (Z.eq_dec x v) as [->|Hne]; [tauto|]. right. split; [assumption|].
      intros [?|?]; tauto.
Qed.

Lemma uniqueZ_NoDup seen xs : NoDup (uniqueZ seen xs).
Proof.
  revert seen. induction xs as [|x xs IH]; intros seen; simpl; [constructor|].
  destruct (existsb (Z.eqb x) seen); [apply IH|].
  constructor; [|apply IH].
  rewrite uniqueZ_In. simpl. tauto.
Qed.

Lemma includes_In v xs : includes v xs = true <-> In v xs.
Proof.
  unfold includes. rewrite existsb_exists. split.
  - intros [y [Hy E]]. apply Z.eqb_eq in E. now subst.
  - intros H. exists v. split; [assumption | apply Z.eqb_refl].
Qed.

(** [uniqueRanks] of [findStraight] holds exactly the ranks of the cards. *)
Lemma uniqueRanks_In v (rs : list Z) :
  In v (sortBy descZ (uniqueZ [] rs)) <-> In v rs.
Proof. rewrite sortBy_In, uniqueZ_In. simpl. tauto. Qed.

Lemma uniqueRanks_NoDup (rs : list Z) : NoDup (sortBy descZ (uniqueZ [] rs)).
Proof.
  eapply Permutation_NoDup; [symmetry; apply sortBy_perm | apply uniqueZ_NoDup].
Qed.

(** A descending list without repetition is determined by its elements. *)
Lemma desc_unique (l l' : list Z) :
  Sorted Z.ge l -> NoDup l -> Sorted Z.ge l' -> NoDup l' ->
  (forall v, In v l <-> In v l') -> l = l'.
Proof.
  intros S1 N1 S2 N2.
  apply Sorted_StronglySorted in S1; [|intros x y z; lia].
  apply Sorted_StronglySorted in S2; [|intros x y z; lia].
  revert l' S2 N2. induction l as [|x l IH]; intros l' S2 N2 E.
  - destruct l' as [|y l']; [reflexivity|]. exfalso. apply (E y). now left.
  - destruct l' as [|y l'].
    + exfalso. apply (E x). now left.
    + inversion S1 as [|? ? S1' F1]; inversion S2 as [|? ? S2' F2]; subst.
      inversion N1 as [|? ? Nx N1']; inversion N2 as [|? ? Ny N2']; subst.
      rewrite Forall_forall in F1, F2.
      assert (x = y).
      { destruct (proj1 (E x) (or_introl eq_refl)) as [->|Hx]; [reflexivity|].
        destruct (proj2 (E y) (or_introl eq_refl)) as [->|Hy]; [reflexivity|].
        specialize (F1 _ Hy). specialize (F2 _ Hx). lia. }
      subst y. f_equal. apply IH; try assumption.
      intros v. split; intros Hv.
      * destruct (proj1 (E v) (or_intror Hv)) as [->|]; [contradiction|assumption].
      * destruct (proj2 (E v) (or_intror Hv)) as [->|]; [contradiction|assumption].
Qed.
End RankSorting.

(** ** The rank-count table *)

Section RankCounts.
Import HandEvaluator.

Lemma cnt_app k p q : cnt k (p ++ q) = cnt k p + cnt k q.
Proof. unfold cnt. rewrite filter_app, length_app. lia. Qed.

Lemma cnt_nonneg k p : 0 <= cnt k p.
Proof. unfold cnt. lia. Qed.

Lemma cnt_pos_In k p : 0 < cnt k p <-> In k (map rank p).
Proof.
  unfold cnt. induction p as [|c p IH]; simpl; [split; [lia|tauto]|].
  destruct (Z.eqb_spec (rank c) k) as [E|E]; simpl.
  - split; [tauto | lia].
  - rewrite IH. split; [tauto|]. intros [?|?]; [contradiction|assumption].
Qed.

Lemma cnt_le_length k p : cnt k p <= Z.of_nat (length p).
Proof. unfold cnt. pose proof (filter_length_le (fun c => rank c =? k) p). lia. Qed.

Lemma cnt_two_le_length k1 k2 p :
  k1 <> k2 -> cnt k1 p + cnt k2 p <= Z.of_nat (length p).
Proof.
  intros Hne. unfold cnt. induction p as [|c p IH]; [simpl; lia|].
  cbn -[Z.of_nat].
  destruct (Z.eqb_spec (rank c) k1), (Z.eqb_spec (rank c) k2);
    cbn -[Z.of_nat]; lia.
Qed.

Lemma cnt_NoDup k p : NoDup (map rank p) -> cnt k p <= 1.
Proof.
  unfold cnt. induction p as [|c p IH]; simpl; intros N; [lia|].
  inversion N as [|? ? Hn N']; subst.
  destruct (Z.eqb_spec (rank c) k) as [E|E]; simpl; [|now apply IH].
  assert (Hz : cnt k p = 0).
  { destruct (Z.eq_dec (cnt k p) 0) as [|Hnz]; [assumption|].
    exfalso. apply Hn. rewrite E. apply cnt_pos_In.
    pose proof (cnt_nonneg k p). lia. }
  unfold cnt in Hz. lia.
Qed.

Lemma countsInsertNew_In k v o e :
  In e (countsInsertNew k v o) <-> e = (k, v) \/ In e o.
Proof.
  induction o as [|[k' v'] o IH]; simpl; [intuition congruence|].
  destruct (isArrayIndex k && _); simpl; [intuition congruence|].
  rewrite IH. intuition congruence.
Qed.

Lemma countsInsertNew_keys k v o :
  Permutation (map fst (countsInsertNew k v o)) (k :: map fst o).
Proof.
  induction o as [|[k' v'] o IH]; simpl; [reflexivity|].
  destruct (isArrayIndex k && _); simpl; [reflexivity|].
  rewrite IH. apply perm_swap.
Qed.

Lemma key_exists_iff k (o : list (Z * Z)) :
  existsb (fun e => fst e =? k) o = true <-> In k (map fst o).
Proof.
  rewrite existsb_exists, in_map_iff. split.
  - intros [e [He E]]. apply Z.eqb_eq in E. eauto.
  - intros [e [E He]]. exists e. split; [assumption | now apply Z.eqb_eq].
Qed.

Lemma countsSet_step p o c :
  countsOf p o ->
  countsOf (p ++ [c])
           (countsSet (rank c) (orZero (countsGet (rank c) o) + 1) o).
Proof.
  intros [Hv [Hc Hn]]. unfold countsSet.
  assert (Hone : cnt (rank c) [c] = 1)
    by (unfold cnt; simpl; now rewrite Z.eqb_refl).
  assert (Hother : forall k, k <> rank c -> cnt k [c] = 0).
  { intros k Hk. unfold cnt. simpl.
    destruct (Z.eqb_spec (rank c) k); [congruence | reflexivity]. }
  destruct (existsb _ o) eqn:E.
  - assert (Hget : orZero (countsGet (rank c) o) = cnt (rank c) p).
    { unfold countsGet. destruct (find _ o) as [[k0 v0]|] eqn:F.
      - apply find_some in F as [Hin Hk]. simpl in Hk. apply Z.eqb_eq in Hk.
        subst k0. simpl. now apply Hv.
      - apply existsb_exists in E as [e [He Hk]].
        now rewrite (find_none _ _ F e He) in Hk. }
    rewrite Hget. split; [|split].
    + intros k v Hin. apply in_map_iff in Hin as [[k0 v0] [Eq Hin]]. simpl in Eq.
      rewrite cnt_app. destruct (Z.eqb_spec k0 (rank c)) as [->|Hne].
      * inversion Eq; subst. rewrite Hone. pose proof (cnt_nonneg (rank c) p). lia.
      * inversion Eq; subst. rewrite (Hother k Hne).
        destruct (Hv _ _ Hin). lia.
    + assert (Hk : map fst (map (fun e => if fst e =? rank c
                                          then (rank c, cnt (rank c) p + 1)
                                          else e) o) = map fst o).
      { rewrite map_map. apply map_ext. intros [k0 v0]. simpl.
        destruct (Z.eqb_spec k0 (rank c)); simpl; congruence. }
      rewrite Hk. intros c' Hin. apply in_app_iff in Hin as [Hin|[<-|[]]].
      * now apply Hc.
      * now apply key_exists_iff.
    + rewrite map_map. erewrite map_ext; [exact Hn|].
      intros [k0 v0]. simpl. destruct (Z.eqb_spec k0 (rank c)); simpl; congruence.
  - assert (Hnew : ~ In (rank c) (map fst o)).
    { intros Hin. apply key_exists_iff in Hin. congruence. }
    assert (Hget : orZero (countsGet (rank c) o) = 0).
    { unfold countsGet. destruct (find _ o) as [[k0 v0]|] eqn:F; [|reflexivity].
      apply find_some in F as [Hin Hk]. simpl in Hk. apply Z.eqb_eq in Hk.
      subst k0. exfalso. apply Hnew. apply in_map_iff. now exists (rank c, v0). }
    assert (Hzero : cnt (rank c) p = 0).
    { destruct (Z.eq_dec (cnt (rank c) p) 0) as [|Hnz]; [assumption|].
      exfalso. apply Hnew.
      assert (Hin : In (rank c) (map rank p))
        by (apply cnt_pos_In; pose proof (cnt_nonneg (rank c) p); lia).
      apply in_map_iff in Hin as [c' [Hr Hin]]. rewrite <- Hr. now apply Hc. }
    rewrite Hget. split; [|split].
    + intros k v Hin. apply countsInsertNew_In in Hin as [Eq|Hin].
      * inversion Eq; subst. rewrite cnt_app, Hone, Hzero. lia.
      * destruct (Hv _ _ Hin) as [-> Hp]. rewrite cnt_app.
        rewrite Hother; [lia|]. intros ->. apply Hnew.
        apply in_map_iff. now exists (rank c, cnt (rank c) p).
    + intros c' Hin.
      eapply Permutation_in; [symmetry; apply countsInsertNew_keys|].
      apply in_app_iff in Hin as [Hin|[<-|[]]]; [right; now apply Hc | now left].
    + eapply Permutation_NoDup; [symmetry; apply countsInsertNew_keys|].
      now constructor.
Qed.

Lemma getRankCounts_countsOf cs : countsOf cs (getRankCounts cs).
Proof.
  unfold getRankCounts.
  assert (G : forall p o, countsOf p o ->
    countsOf (p ++ cs)
      (fold_left (fun counts card =>
         countsSet (rank card) (orZero (countsGet (rank card) counts) + 1) counts)
         cs o)).
  { induction cs as [|c cs IH]; intros p o H; simpl.
    - now rewrite app_nil_r.
    - replace (p ++ c :: cs) with ((p ++ [c]) ++ cs)
        by (now rewrite <- app_assoc).
      apply IH. now apply countsSet_step. }
  apply (G [] []). split; [|split].
  - intros k v [].
  - intros c [].
  - constructor.
Qed.

Lemma getRankCounts_entry cs k v :
  In (k, v) (getRankCounts cs) -> v = cnt k cs /\ 0 < v.
Proof. apply getRankCounts_countsOf. Qed.

Lemma getRankCounts_keys_NoDup cs : NoDup (map fst (getRankCounts cs)).
Proof. apply getRankCounts_countsOf. Qed.
End RankCounts.

(** ** Suit groups *)

Section SuitGroups.
Import HandEvaluator.

Lemma subseq_app_r {A} (s l : list A) x : subseq s l -> subseq s (l ++ [x]).
Proof.
  induction 1; simpl.
  - apply subseq_skip, subseq_nil.
  - now apply subseq_skip.
  - now apply subseq_take.
Qed.

Lemma subseq_snoc {A} (s l : list A) x : subseq s l -> subseq (s ++ [x]) (l ++ [x]).
Proof.
  induction 1; simpl.
  - apply subseq_take, subseq_nil.
  - now apply subseq_skip.
  - now apply subseq_take.
Qed.

Lemma Suit_eqb_eq a b : Suit_eqb a b = true <-> a = b.
Proof. destruct a, b; simpl; split; congruence. Qed.

Lemma groupsPush_step p g c : groupsOf p g -> groupsOf (p ++ [c]) (groupsPush c g).
Proof.
  unfold groupsOf. induction g as [|[s0 l0] g IH]; intros H s l Hin; simpl in Hin.
  - destruct Hin as [Eq|[]]. inversion Eq; subst. split.
    + replace [c] with ([] ++ [c]) by reflexivity.
      apply subseq_snoc, subseq_nil_l.
    + intros c' [<-|[]]. reflexivity.
  - destruct (Suit_eqb s0 (esuit c)) eqn:E.
    + destruct Hin as [Eq|Hin].
      * inversion Eq; subst. destruct (H s l0 (or_introl eq_refl)) as [Hs Hc].
        split; [now apply subseq_snoc|].
        intros c' Hc'. apply in_app_iff in Hc' as [Hc'|[<-|[]]]; [now apply Hc|].
        symmetry. now apply Suit_eqb_eq.
      * destruct (H s l (or_intror Hin)) as [Hs Hc].
        split; [now apply subseq_app_r | assumption].
    + destruct Hin as [Eq|Hin].
      * inversion Eq; subst. destruct (H s l (or_introl eq_refl)) as [Hs Hc].
        split; [now apply subseq_app_r | assumption].
      * apply IH; [|assumption]. intros s' l' Hin'. apply H. now right.
Qed.

Lemma groups_groupsOf cs :
  groupsOf cs (fold_left (fun g card => groupsPush card g) cs []).
Proof.
  assert (G : forall p g, groupsOf p g ->
    groupsOf (p ++ cs) (fold_left (fun g card => groupsPush card g) cs g)).
  { induction cs as [|c cs IH]; intros p g H; simpl.
    - now rewrite app_nil_r.
    - replace (p ++ c :: cs) with ((p ++ [c]) ++ cs)
        by (now rewrite <- app_assoc).
      apply IH. now apply groupsPush_step. }
  apply (G [] []). intros s l [].
Qed.

(** A group of [getFlushCards]: cards of one suit, taken from the hand. *)
Lemma getFlushCards_group cs g :
  In g (getFlushCards cs) ->
  exists s l, g = sortBy descRank l /\ subseq l cs /\
              forall c, In c l -> esuit c = s.
Proof.
  unfold getFlushCards. intros Hin.
  apply in_map_iff in Hin as [[s l] [<- Hin]].
  destruct (groups_groupsOf cs s l Hin) as [Hs Hc].
  exists s, l. simpl. auto.
Qed.

Lemma getFlushCards_group_length cs g :
  In g (getFlushCards cs) -> (length g <= length cs)%nat.
Proof.
  intros Hin. apply getFlushCards_group in Hin as [s [l [-> [Hs _]]]].
  rewrite sortBy_length. now apply subseq_length.
Qed.

(** Cards of a single suit form a single group. *)
Lemma groups_one_suit s cs l0 :
  (forall c, In c cs -> esuit c = s) ->
  fold_left (fun g card => groupsPush card g) cs [(s, l0)] = [(s, l0 ++ cs)].
Proof.
  revert l0. induction cs as [|c cs IH]; intros l0 H; simpl.
  - now rewrite app_nil_r.
  - rewrite (H c (or_introl eq_refl)).
    replace (Suit_eqb s s) with true by (now destruct s).
    rewrite IH by (intros c' Hc'; apply H; now right).
    now rewrite <- app_assoc.
Qed.

Lemma getFlushCards_one_suit s c cs :
  (forall c', In c' (c :: cs) -> esuit c' = s) ->
  getFlushCards (c :: cs) = [sortBy descRank (c :: cs)].
Proof.
  intros H. unfold getFlushCards. simpl fold_left.
  rewrite (H c (or_introl eq_refl)).
  rewrite groups_one_suit by (intros c' Hc'; apply H; now right).
  reflexivity.
Qed.

(** Without a group of five cards none of the three suit loops fires. *)
Lemma suit_loops_short gs :
  (forall g, In g gs -> (length g < 5)%nat) ->
  royalLoop gs = None /\ straightFlushLoop gs = None /\ flushLoop gs = None.
Proof.
  induction gs as [|g gs IH]; intros H; simpl; [auto|].
  assert (L : (length g < 5)%nat) by (apply H; now left).
  destruct (Z.leb_spec 5 (Z.of_nat (length g))); [lia|].
  apply IH. intros g' Hg'. apply H. now right.
Qed.
End SuitGroups.

(** ** Straights *)

Section Straights.
Import HandEvaluator.

Lemma regularStraight_high u cs cs' :
  option_map fst (regularStraight u cs) = option_map fst (regularStraight u cs').
Proof.
  induction u as [|r0 u IH]; [reflexivity|].
  cbn [regularStraight].
  destruct (nth_error (r0 :: u) 4) as [r4|]; [|reflexivity].
  destruct (r0 - r4 =? 4); [reflexivity | exact IH].
Qed.

(** The high card of a straight depends on the set of ranks only. *)
Lemma straightHigh_ranks a b :
  (forall v, In v (map rank a) <-> In v (map rank b)) ->
  straightHigh a = straightHigh b.
Proof.
  intros H. unfold straightHigh, findStraight.
  assert (E : sortBy descZ (uniqueZ [] (map rank a))
              = sortBy descZ (uniqueZ [] (map rank b))).
  { apply desc_unique; try apply sortBy_descZ_sorted; try apply uniqueRanks_NoDup.
    intros v. rewrite !uniqueRanks_In. apply H. }
  rewrite E.
  destruct (includes 14 _ && includes 5 _ && includes 4 _ && includes 3 _
            && includes 2 _); [reflexivity|].
  apply regularStraight_high.
Qed.

Lemma findStraight_wheel cs :
  In 14 (map rank cs) -> In 5 (map rank cs) -> In 4 (map rank cs) ->
  In 3 (map rank cs) -> In 2 (map rank cs) ->
  findStraight cs = Some (5, cardsOfRanks [2; 3; 4; 5; 14] cs).
Proof.
  intros H14 H5 H4 H3 H2. unfold findStraight.
  rewrite !(proj2 (includes_In _ _)) by (now apply uniqueRanks_In).
  reflexivity.
Qed.

Lemma findStraight_six_high cs :
  (forall v, In v (map rank cs) <-> In v [6; 5; 4; 3; 2]) ->
  straightHigh cs = Some 6.
Proof.
  intros H. unfold straightHigh, findStraight.
  assert (E : sortBy descZ (uniqueZ [] (map rank cs)) = [6; 5; 4; 3; 2]).
  { apply desc_unique.
    - apply sortBy_descZ_sorted.
    - apply uniqueRanks_NoDup.
    - repeat constructor; lia.
    - repeat constructor; simpl; lia.
    - intros v. rewrite uniqueRanks_In. apply H. }
  rewrite E. reflexivity.
Qed.

Lemma regularStraight_short u cs :
  (length u < 5)%nat -> regularStraight u cs = None.
Proof.
  intros L. destruct u as [|r0 u]; [reflexivity|]. cbn [regularStraight].
  now rewrite (proj2 (nth_error_None (r0 :: u) 4)) by lia.
Qed.

(** Fewer than five cards hold no straight. *)
Lemma findStraight_short cs : (length cs < 5)%nat -> findStraight cs = None.
Proof.
  intros L. unfold findStraight.
  set (u := sortBy descZ (uniqueZ [] (map rank cs))).
  assert (Lu : (length u <= length cs)%nat).
  { unfold u. rewrite sortBy_length, <- (length_map rank cs).
    apply NoDup_incl_length; [apply uniqueZ_NoDup|].
    intros v Hv. now apply uniqueZ_In in Hv. }
  destruct (includes 14 u && includes 5 u && includes 4 u && includes 3 u
            && includes 2 u) eqn:E.
  - exfalso. repeat (apply andb_prop in E as [E ?]).
    rewrite includes_In in *.
    assert (I : incl [14; 5; 4; 3; 2] u).
    { intros v Hv. simpl in Hv. intuition (subst; assumption). }
    apply NoDup_incl_length in I; [simpl in I; lia|].
    repeat constructor; simpl; lia.
  - apply regularStraight_short. lia.
Qed.
End Straights.

(** ** Hands of five distinct ranks that hold a straight *)

Section StraightHands.
Import HandEvaluator.

Lemma toEvalCards_perm cs : Permutation (toEvalCards cs) (map toEval cs).
Proof. apply sortBy_perm. Qed.

Lemma toEvalCards_length cs : length (toEvalCards cs) = length cs.
Proof.
  rewrite (Permutation_length (toEvalCards_perm cs)). apply length_map.
Qed.

Lemma toEvalCards_ranks cs : Permutation (map rank (toEvalCards cs)) (map value cs).
Proof.
  rewrite (Permutation_map rank (toEvalCards_perm cs)), map_map. reflexivity.
Qed.

Lemma toEvalCards_rank_In cs v :
  In v (map rank (toEvalCards cs)) <-> In v (map value cs).
Proof.
  split; apply Permutation_in; [|symmetry]; apply toEvalCards_ranks.
Qed.

Lemma toEvalCards_suits cs : Permutation (map esuit (toEvalCards cs)) (map suit cs).
Proof.
  rewrite (Permutation_map esuit (toEvalCards_perm cs)), map_map. reflexivity.
Qed.

Lemma sameSuit_true cs :
  sameSuit cs = true <-> exists s, forall c, In c cs -> suit c = s.
Proof.
  destruct cs as [|c0 cs]; simpl.
  - split; [intros _; exists hearts; intros c [] | reflexivity].
  - rewrite forallb_forall. split.
    + intros H. exists (suit c0). intros c [<-|Hc]; [reflexivity|].
      now apply Suit_eqb_eq, H.
    + intros [s H] c Hc. apply Suit_eqb_eq.
      rewrite (H c0 (or_introl eq_refl)). apply H. now right.
Qed.

(** The suits of the evaluation cards are those of the hand. *)
Lemma toEvalCards_one_suit cs s :
  (forall c, In c cs -> suit c = s) <->
  (forall c, In c (toEvalCards cs) -> esuit c = s).
Proof.
  split; intros H c Hc.
  - assert (Hin : In (esuit c) (map suit cs)).
    { eapply Permutation_in; [apply toEvalCards_suits|]. now apply in_map. }
    apply in_map_iff in Hin as [c' [<- Hc']]. now apply H.
  - assert (Hin : In (suit c) (map esuit (toEvalCards cs))).
    { eapply Permutation_in; [symmetry; apply toEvalCards_suits|].
      now apply in_map. }
    apply in_map_iff in Hin as [c' [<- Hc']]. now apply H.
Qed.

Lemma rankIs_In ranks i v : rankIs ranks i v = true -> In v ranks.
Proof.
  unfold rankIs. destruct (nth_error ranks i) as [r|] eqn:E; [|discriminate].
  intros Hr. apply Z.eqb_eq in Hr. subst. eapply nth_error_In; eassumption.
Qed.

(** No king, no royal flush. *)
Lemma royalLoop_no_king gs :
  (forall g, In g gs -> ~ In 13 (map rank g)) -> royalLoop gs = None.
Proof.
  induction gs as [|g gs IH]; intros H; simpl; [reflexivity|].
  assert (K : rankIs (sortBy descZ (map rank g)) 1 13 = false).
  { destruct (rankIs _ 1 13) eqn:E; [|reflexivity].
    exfalso. apply (H g (or_introl eq_refl)).
    apply rankIs_In in E. now apply sortBy_In in E. }
  rewrite K, andb_false_r. simpl.
  assert (R : royalLoop gs = None) by (apply IH; intros g' Hg'; apply H; now right).
  rewrite R. now destruct (5 <=? Z.of_nat (length g)).
Qed.

Lemma no_count_above cs n :
  NoDup (map rank cs) -> 1 < n ->
  find (fun e : Z * Z => n <=? snd e) (getRankCounts cs) = None.
Proof.
  intros N Hn. destruct (find _ _) as [[k v]|] eqn:F; [|reflexivity].
  apply find_some in F as [Hin Hv]. simpl in Hv. apply Z.leb_le in Hv.
  apply getRankCounts_entry in Hin as [-> _].
  pose proof (cnt_NoDup k cs N). lia.
Qed.

Lemma straight_hand_eval cs high :
  length cs = 5%nat -> NoDup (map value cs) -> ~ In 13 (map value cs) ->
  straightHigh (toEvalCards cs) = Some high ->
  hrank (evaluateHand cs) = (if sameSuit cs then STRAIGHT_FLUSH else STRAIGHT) /\
  kickers (evaluateHand cs) = [high].
Proof.
  intros L N K S. unfold evaluateHand. set (e := toEvalCards cs) in *.
  assert (Le : length e = 5%nat) by (unfold e; now rewrite toEvalCards_length).
  assert (Ne : NoDup (map rank e)).
  { eapply Permutation_NoDup; [symmetry; apply toEvalCards_ranks | exact N]. }
  assert (Ke : forall g, (forall c, In c g -> In c e) -> ~ In 13 (map rank g)).
  { intros g Hg Hin. apply K, toEvalCards_rank_In.
    apply in_map_iff in Hin as [c [Hr Hc]]. apply in_map_iff. eauto. }
  destruct (sameSuit cs) eqn:SS.
  - apply sameSuit_true in SS as [s Hs].
    pose proof (proj1 (toEvalCards_one_suit cs s) Hs) as He. fold e in He.
    clear Hs. rename He into Hs.
    destruct e as [|c0 e'] eqn:Ee; [discriminate|]. rewrite <- Ee in *.
    assert (G : getFlushCards e = [sortBy descRank e])
      by (rewrite Ee; apply (getFlushCards_one_suit s); now rewrite <- Ee).
    unfold checkRoyalFlush, checkStraightFlush. rewrite G.
    rewrite royalLoop_no_king.
    2:{ intros g [<-|[]]. apply Ke. intros c Hc. now apply sortBy_In in Hc. }
    cbn [straightFlushLoop orElse]. rewrite sortBy_length, Le. simpl (5 <=? _).
    assert (S' : straightHigh (sortBy descRank e) = Some high).
    { rewrite <- S. apply straightHigh_ranks. intros v.
      split; apply Permutation_in; [|symmetry]; apply sortBy_map_perm. }
    unfold straightHigh in S'.
    destruct (findStraight (sortBy descRank e)) as [[h sc]|]; [|discriminate].
    simpl in S'. inversion S'; subst. split; reflexivity.
  - assert (Short : forall g, In g (getFlushCards e) -> (length g < 5)%nat).
    { intros g Hg.
      destruct (Nat.lt_ge_cases (length g) 5) as [|Hge]; [assumption|].
      exfalso. apply getFlushCards_group in Hg as [s [l [-> [Hs Hc]]]].
      rewrite sortBy_length in Hge.
      assert (l = e) by (apply subseq_full; [assumption|];
                         apply subseq_length in Hs; lia).
      subst l. pose proof (proj2 (toEvalCards_one_suit cs s) Hc) as Hcs.
      assert (T : sameSuit cs = true) by (apply sameSuit_true; eauto).
      congruence. }
    destruct (suit_loops_short _ Short) as [R [SF F]].
    unfold checkRoyalFlush, checkStraightFlush, checkFlush.
    rewrite R, SF, F.
    unfold checkFourOfAKind, checkFullHouse.
    rewrite !no_count_above by (assumption || lia).
    cbn [orElse option_map falsy].
    unfold checkStraight. unfold straightHigh in S.
    destruct (findStraight e) as [[h sc]|]; [|discriminate].
    simpl in S. inversion S; subst. split; reflexivity.
Qed.
End StraightHands.

Section Wheel.
Import HandEvaluator.

Lemma five_ranks_NoDup (cs : list Card) (rs : list Z) :
  NoDup rs -> length rs = 5%nat -> length cs = 5%nat ->
  (forall v, In v (map value cs) <-> In v rs) -> NoDup (map value cs).
Proof.
  intros N Lr L H. apply (@NoDup_incl_NoDup _ rs); [assumption | |].
  - rewrite length_map. lia.
  - intros v Hv. now apply H.
Qed.

Lemma wheel_eval cs :
  length cs = 5%nat -> (forall v, In v (map value cs) <-> In v [14; 2; 3; 4; 5]) ->
  (exists sc, findStraight (toEvalCards cs) = Some (5, sc)) /\
  hrank (evaluateHand cs) = (if sameSuit cs then STRAIGHT_FLUSH else STRAIGHT) /\
  kickers (evaluateHand cs) = [5].
Proof.
  intros L H.
  assert (W : findStraight (toEvalCards cs)
              = Some (5, cardsOfRanks [2; 3; 4; 5; 14] (toEvalCards cs))).
  { apply findStraight_wheel; apply toEvalCards_rank_In, H; simpl; tauto. }
  split; [eauto|].
  apply straight_hand_eval; [assumption | | |].
  - apply (five_ranks_NoDup cs [14; 2; 3; 4; 5]); try assumption; try reflexivity.
    repeat constructor; simpl; lia.
  - intros Hin. apply H in Hin. simpl in Hin. lia.
  - unfold straightHigh. now rewrite W.
Qed.

Lemma six_high_eval cs :
  length cs = 5%nat -> (forall v, In v (map value cs) <-> In v [6; 5; 4; 3; 2]) ->
  hrank (evaluateHand cs) = (if sameSuit cs then STRAIGHT_FLUSH else STRAIGHT) /\
  kickers (evaluateHand cs) = [6].
Proof.
  intros L H. apply straight_hand_eval; [assumption | | |].
  - apply (five_ranks_NoDup cs [6; 5; 4; 3; 2]); try assumption; try reflexivity.
    repeat constructor; simpl; lia.
  - intros Hin. apply H in Hin. simpl in Hin. lia.
  - apply findStraight_six_high. intros v. rewrite toEvalCards_rank_In. apply H.
Qed.
End Wheel.

(** C3. A five-card hand whose ranks are A-2-3-4-5 is a straight (a straight
    flush when suited) whose high card for comparison is 5, not 14; it
    compares below every six-high straight of its category (and below every
    six-high straight flush); the hearts wheel evaluates to Straight Flush
    with top kicker 5. *)
Theorem wheel_is_five_high :
  (forall cs,
     length cs = 5%nat ->
     (forall v, In v (map value cs) <-> In v [14; 2; 3; 4; 5]) ->
     (exists sc, HandEvaluator.findStraight (HandEvaluator.toEvalCards cs)
                 = Some (5, sc)) /\
     HandEvaluator.hrank (HandEvaluator.evaluateHand cs)
     = (if sameSuit cs then HandEvaluator.STRAIGHT_FLUSH
        else HandEvaluator.STRAIGHT) /\
     HandEvaluator.kickers (HandEvaluator.evaluateHand cs) = [5] /\
     forall six,
       length six = 5%nat ->
       (forall v, In v (map value six) <-> In v [6; 5; 4; 3; 2]) ->
       (sameSuit cs = true -> sameSuit six = true) ->
       HandEvaluator.compareHands (HandEvaluator.evaluateHand cs)
                                  (HandEvaluator.evaluateHand six) < 0) /\
  (let h := HandEvaluator.evaluateHand
              [mkCard 2 hearts; mkCard 3 hearts; mkCard 4 hearts;
               mkCard 5 hearts; mkCard 14 hearts] in
   HandEvaluator.hrank h = HandEvaluator.STRAIGHT_FLUSH /\
   HandEvaluator.name h = "Straight Flush"%string /\
   HandEvaluator.kickers h = [5]).
Proof.
  split; [|vm_compute; auto].
  intros cs L H.
  destruct (wheel_eval cs L H) as [F [R K]].
  repeat (split; [assumption|]).
  intros six L6 H6 HS.
  destruct (six_high_eval six L6 H6) as [R6 K6].
  unfold HandEvaluator.compareHands, HandEvaluator.compareKickers.
  rewrite R, R6, K, K6.
  destruct (sameSuit cs), (sameSuit six); try reflexivity.
  discriminate (HS eq_refl).
Qed.

(** The clubs-and-diamonds wheel 5c 4d 3c 2d Ac against 6s 5s 4h 3h 2h. *)
Lemma wheel_is_five_high_witness :
  HandEvaluator.compareHands
    (HandEvaluator.evaluateHand
       [mkCard 5 clubs; mkCard 4 diamonds; mkCard 3 clubs; mkCard 2 diamonds;
        mkCard 14 clubs])
    (HandEvaluator.evaluateHand
       [mkCard 6 spades; mkCard 5 spades; mkCard 4 hearts; mkCard 3 hearts;
        mkCard 2 hearts]) < 0.
Proof.
  refine (proj2 (proj2 (proj2
    (proj1 wheel_is_five_high
       [mkCard 5 clubs; mkCard 4 diamonds; mkCard 3 clubs; mkCard 2 diamonds;
        mkCard 14 clubs] eq_refl _)))
    [mkCard 6 spades; mkCard 5 spades; mkCard 4 hearts; mkCard 3 hearts;
     mkCard 2 hearts] eq_refl _ _).
  - intros v. simpl. intuition lia.
  - intros v. simpl. intuition lia.
  - simpl. discriminate.
Defined.

(** ** Hands of fewer than five cards *)

Section ShortHands.
Import HandEvaluator.

Lemma Some_eq {A} (a b : A) : Some a = Some b -> a = b.
Proof. congruence. Qed.

Lemma filter_split_length {A} (f : A -> bool) l :
  (length (filter f l) + length (filter (fun x => negb (f x)) l) = length l)%nat.
Proof.
  induction l as [|x l IH]; simpl; [reflexivity|].
  destruct (f x); simpl; lia.
Qed.

Lemma filter_keys_NoDup (f : Z * Z -> bool) o :
  NoDup (map fst o) -> NoDup (map fst (filter f o)).
Proof.
  induction o as [|e o IH]; simpl; intros N; [constructor|].
  inversion N as [|? ? Hn N']; subst.
  destruct (f e); simpl; [|now apply IH].
  constructor; [|now apply IH].
  intros Hin. apply Hn. apply in_map_iff in Hin as [e' [E Hin]].
  apply filter_In in Hin as [Hin _]. apply in_map_iff. eauto.
Qed.

(** A rank that reaches a count of [n] needs [n] cards. *)
Lemma counted_needs_cards cs n r v :
  find (fun e : Z * Z => n <=? snd e) (getRankCounts cs) = Some (r, v) ->
  n <= cnt r cs /\ n <= Z.of_nat (length cs).
Proof.
  intros F. apply find_some in F as [Hin Hv]. simpl in Hv. apply Z.leb_le in Hv.
  apply getRankCounts_entry in Hin as [-> _].
  pose proof (cnt_le_length r cs). lia.
Qed.

(** Two pairs need four cards. *)
Lemma two_pairs_need_cards cs hp lp t :
  sortBy descZ (map fst (filter (fun e => 2 <=? snd e) (getRankCounts cs)))
  = hp :: lp :: t ->
  (4 <= length cs)%nat.
Proof.
  intros E.
  pose proof (filter_keys_NoDup (fun e => 2 <=? snd e) _
                (getRankCounts_keys_NoDup cs)) as N.
  assert (P : Permutation (hp :: lp :: t)
                (map fst (filter (fun e => 2 <=? snd e) (getRankCounts cs))))
    by (rewrite <- E; apply sortBy_perm).
  apply (Permutation_NoDup (Permutation_sym P)) in N.
  assert (Hne : hp <> lp).
  { inversion N as [|? ? Hn _]; subst. intros ->. apply Hn. now left. }
  assert (C : forall k, In k (hp :: lp :: t) -> 2 <= cnt k cs).
  { intros k Hk. apply (Permutation_in _ P) in Hk.
    apply in_map_iff in Hk as [[k' v] [<- Hin]].
    apply filter_In in Hin as [Hin Hv]. simpl in Hv. apply Z.leb_le in Hv.
    apply getRankCounts_entry in Hin as [-> _]. exact Hv. }
  pose proof (C hp (or_introl eq_refl)).
  pose proof (C lp (or_intror (or_introl eq_refl))).
  pose proof (cnt_two_le_length hp lp cs Hne). lia.
Qed.

Lemma short_hand_kickers cs :
  (length cs < 5)%nat ->
  (length (kickers (evaluateHand cs)) <= length cs)%nat /\
  (hrank (evaluateHand cs) = HIGH_CARD ->
   length (kickers (evaluateHand cs)) = length cs).
Proof.
  intros L.
  pose proof (toEvalCards_length cs) as Le.
  set (e := toEvalCards cs) in *.
  assert (Short : forall g, In g (getFlushCards e) -> (length g < 5)%nat).
  { intros g Hg. apply getFlushCards_group_length in Hg. lia. }
  destruct (suit_loops_short _ Short) as [R [SF F]].
  destruct (evaluateHand_cases cs) as
    [H|_ H|_ _ H|_ _ _ H|_ _ _ _ H|_ _ _ _ _ H|_ _ _ _ _ _ H
     |_ _ _ _ _ _ _ H|_ _ _ _ _ _ H3 _ H|_ _ _ _ _ _ _ _ _ H];
    fold e in H; try fold e in H3.
  - unfold checkRoyalFlush in H. congruence.
  - unfold checkStraightFlush in H. congruence.
  - pose proof (checkFourOfAKind_rank _ _ H) as Hr.
    unfold checkFourOfAKind in H.
    destruct (find _ _) as [[r v]|] eqn:Fd; [|discriminate].
    apply counted_needs_cards in Fd as [_ Fd].
    apply Some_eq in H; rewrite <- H. cbn [kickers hrank length]. split; [lia | discriminate].
  - pose proof (checkFullHouse_rank _ _ H) as Hr.
    unfold checkFullHouse in H.
    destruct (find (fun e0 : Z * Z => 3 <=? snd e0) _) as [[r v]|] eqn:Fd;
      [|discriminate].
    apply counted_needs_cards in Fd as [_ Fd].
    destruct (falsy _); [discriminate|]. destruct (falsy _); [discriminate|].
    apply Some_eq in H; rewrite <- H. cbn [kickers hrank length]. split; [lia | discriminate].
  - unfold checkFlush in H. congruence.
  - unfold checkStraight in H. rewrite findStraight_short in H by lia.
    discriminate.
  - pose proof (checkThreeOfAKind_rank _ _ H) as Hr.
    unfold checkThreeOfAKind in H.
    destruct (find _ _) as [[r v]|] eqn:Fd; [|discriminate].
    apply counted_needs_cards in Fd as [_ Fd].
    apply Some_eq in H; rewrite <- H. cbn [kickers hrank length].
    rewrite length_map. unfold slice0.
    rewrite length_firstn. split; [lia | discriminate].
  - pose proof (checkTwoPair_rank _ _ H) as Hr.
    unfold checkTwoPair in H.
    destruct (sortBy descZ _) as [|hp [|lp t]] eqn:Ep; try discriminate.
    apply two_pairs_need_cards in Ep.
    apply Some_eq in H; rewrite <- H. cbn [kickers hrank length]. split; [lia | discriminate].
  - pose proof (checkPair_rank _ _ H) as Hr.
    unfold checkPair in H.
    destruct (find _ _) as [[r v]|] eqn:Fd; [|discriminate].
    apply counted_needs_cards in Fd as [Fc _].
    apply Some_eq in H; rewrite <- H. cbn [kickers hrank length].
    rewrite length_map. unfold slice0.
    rewrite length_firstn, sortBy_length.
    pose proof (filter_split_length (fun c => rank c =? r) e) as Sp.
    unfold cnt in Fc. split; [lia | discriminate].
  - rewrite H. unfold checkHighCard. cbn [kickers hrank].
    rewrite length_map. unfold slice0.
    rewrite length_firstn, sortBy_length. split; [lia | intros _; lia].
Qed.

(** Two hole cards: High Card on both ranks, or a Pair on its rank. *)
Lemma two_cards_eval c1 c2 :
  let h := evaluateHand [c1; c2] in
  (value c1 <> value c2 /\ hrank h = HIGH_CARD /\
   kickers h = [Z.max (value c1) (value c2); Z.min (value c1) (value c2)]) \/
  (value c1 = value c2 /\ hrank h = PAIR /\ kickers h = [value c1]).
Proof.
  intros h. subst h.
  pose proof (short_hand_kickers [c1; c2] ltac:(simpl; lia)) as [Hle Hhigh].
  pose proof (toEvalCards_length [c1; c2]) as Le.
  pose proof (toEvalCards_ranks [c1; c2]) as Pr.
  set (e := toEvalCards [c1; c2]) in *. simpl in Le, Hle, Pr.
  assert (Short : forall g, In g (getFlushCards e) -> (length g < 5)%nat).
  { intros g Hg. apply getFlushCards_group_length in Hg. lia. }
  destruct (suit_loops_short _ Short) as [R [SF F]].
  assert (C : forall k, cnt k e = (if value c1 =? k then 1 else 0)
                                  + (if value c2 =? k then 1 else 0)).
  { intros k. unfold cnt.
    assert (Pf : Permutation (filter (fun c => rank c =? k) e)
                             (filter (fun c => rank c =? k)
                                     (map toEval [c1; c2])))
      by (apply filter_perm, toEvalCards_perm).
    rewrite (Permutation_length Pf). simpl.
    destruct (value c1 =? k), (value c2 =? k); reflexivity. }
  destruct (Z.eq_dec (value c1) (value c2)) as [E|E].
  - right. split; [assumption|].
    destruct (evaluateHand_cases [c1; c2]) as
      [H|_ H|_ _ H|_ _ _ H|_ _ _ _ H|_ _ _ _ _ H|_ _ _ _ _ _ H
       |_ _ _ _ _ _ _ H|_ _ _ _ _ _ _ _ H|_ _ _ _ _ _ _ _ H9 H];
      fold e in H; try fold e in H9.
    + unfold checkRoyalFlush in H. congruence.
    + unfold checkStraightFlush in H. congruence.
    + unfold checkFourOfAKind in H.
      destruct (find _ _) as [[r v]|] eqn:Fd; [|discriminate].
      apply counted_needs_cards in Fd. lia.
    + unfold checkFullHouse in H.
      destruct (find (fun e0 : Z * Z => 3 <=? snd e0) _) as [[r v]|] eqn:Fd;
        [|discriminate].
      apply counted_needs_cards in Fd. lia.
    + unfold checkFlush in H. congruence.
    + unfold checkStraight in H. rewrite findStraight_short in H by lia.
      discriminate.
    + unfold checkThreeOfAKind in H.
      destruct (find _ _) as [[r v]|] eqn:Fd; [|discriminate].
      apply counted_needs_cards in Fd. lia.
    + unfold checkTwoPair in H.
      destruct (sortBy descZ _) as [|hp [|lp t]] eqn:Ep; try discriminate.
      apply two_pairs_need_cards in Ep. lia.
    + pose proof (checkPair_rank _ _ H) as Hr. split; [assumption|].
      unfold checkPair in H.
      destruct (find _ _) as [[r v]|] eqn:Fd; [|discriminate].
      apply counted_needs_cards in Fd as [Fc _].
      rewrite C in Fc.
      assert (value c1 = r).
      { destruct (Z.eqb_spec (value c1) r); [assumption|].
        destruct (Z.eqb_spec (value c2) r); lia. }
      subst r. apply Some_eq in H. rewrite <- H. cbn [kickers].
      assert (Z0 : filter (fun c => negb (rank c =? value c1)) e = []).
      { apply length_zero_iff_nil.
        pose proof (filter_split_length (fun c => rank c =? value c1) e).
        unfold cnt in C.
        pose proof (C (value c1)) as Cv. rewrite <- E, Z.eqb_refl in Cv. lia. }
      rewrite Z0. reflexivity.
    + exfalso. unfold checkPair in H9.
      destruct (find _ _) as [[r v]|] eqn:Fd; [discriminate|].
      assert (Hk : In (value c1) (map fst (getRankCounts e))).
      { destruct (getRankCounts_countsOf e) as [_ [Hc _]].
        assert (Hin : In (value c1) (map rank e))
          by (apply (Permutation_in _ (Permutation_sym Pr)); now left).
        apply in_map_iff in Hin as [c [<- Hin]]. now apply Hc. }
      apply in_map_iff in Hk as [[k v] [Ek Hin]]. simpl in Ek. subst k.
      pose proof (find_none _ _ Fd _ Hin) as Hv. simpl in Hv.
      apply getRankCounts_entry in Hin as [-> _]. rewrite C in Hv.
      rewrite <- E, Z.eqb_refl in Hv. discriminate.
  - left. split; [assumption|].
    assert (N : NoDup (map rank e)).
    { eapply Permutation_NoDup; [symmetry; exact Pr|].
      constructor; [simpl; intros [?|[]]; congruence|].
      constructor; [intros [] | constructor]. }
    unfold evaluateHand. fold e.
    unfold checkRoyalFlush, checkStraightFlush, checkFlush.
    rewrite R, SF, F.
    unfold checkFourOfAKind, checkFullHouse, checkThreeOfAKind, checkPair.
    rewrite !no_count_above by (assumption || lia).
    unfold checkStraight. rewrite findStraight_short by lia.
    unfold checkTwoPair.
    destruct (sortBy descZ _) as [|hp [|lp t]] eqn:Ep;
      try (apply two_pairs_need_cards in Ep; lia).
    all: cbn [orElse option_map falsy]; split; [reflexivity|].
    all: unfold e, toEvalCards; simpl; unfold descRank; simpl.
    all: repeat match goal with
                | |- context [?a <=? ?b] => destruct (Z.leb_spec a b); simpl
                end.
    all: first [rewrite Z.max_l, Z.min_r by lia
               |rewrite Z.max_r, Z.min_l by lia]; try reflexivity; lia.
Qed.
End ShortHands.

(** C10. [evaluateHand] and [getBestFiveCardHand] return a hand result on
    every card list.  With fewer than five cards in total the cards are
    evaluated as they are, and the kicker sequence is no longer than the
    number of cards (for High Card exactly that long).  Preflop, with two
    hole cards and no community card, the strength is that of the two-card
    hand (High Card on both ranks or a Pair on its rank), and the decision
    agent completes with a decision. *)
Theorem short_hands_are_evaluated :
  (forall cs, 1 <= HandEvaluator.hrank (HandEvaluator.evaluateHand cs) <= 10) /\
  (forall playerCards communityCards, exists h,
     HandEvaluator.getBestFiveCardHand playerCards communityCards
     = Normal (Some h)) /\
  (forall playerCards communityCards,
     (length (playerCards ++ communityCards) < 5)%nat ->
     let h := HandEvaluator.evaluateHand (playerCards ++ communityCards) in
     HandEvaluator.getBestFiveCardHand playerCards communityCards
     = Normal (Some h) /\
     (length (HandEvaluator.kickers h)
      <= length (playerCards ++ communityCards))%nat /\
     (HandEvaluator.hrank h = HandEvaluator.HIGH_CARD ->
      length (HandEvaluator.kickers h)
      = length (playerCards ++ communityCards))) /\
  (forall c1 c2,
     let h := HandEvaluator.evaluateHand [c1; c2] in
     HandEvaluator.getHandStrength [c1; c2] []
     = Normal (HandEvaluator.handStrengthOf h) /\
     ((value c1 <> value c2 /\
       HandEvaluator.hrank h = HandEvaluator.HIGH_CARD /\
       HandEvaluator.kickers h
       = [Z.max (value c1) (value c2); Z.min (value c1) (value c2)]) \/
      (value c1 = value c2 /\
       HandEvaluator.hrank h = HandEvaluator.PAIR /\
       HandEvaluator.kickers h = [value c1]))) /\
  (forall personality difficulty gameState player rng n,
     PokerAI.gsCommunityCards gameState = [] ->
     length (PokerEngine.pcards player) = 2%nat ->
     exists decision n',
       PokerAI.makeDecision personality difficulty gameState player rng n
       = (Normal decision, n')).
Proof.
  refine (conj _ (conj _ (conj _ (conj _ _)))).
  - apply evaluateHand_rank_range.
  - intros pc cc.
    destruct (Nat.lt_ge_cases (length (pc ++ cc)) 5) as [L|L].
    + exists (HandEvaluator.evaluateHand (pc ++ cc)).
      unfold HandEvaluator.getBestFiveCardHand.
      now rewrite (proj2 (Nat.ltb_lt _ _) L).
    + destruct (getBestFiveCardHand_select pc cc L) as [b [E _]]. eauto.
  - intros pc cc L h. split.
    + unfold HandEvaluator.getBestFiveCardHand.
      now rewrite (proj2 (Nat.ltb_lt _ _) L).
    + now apply short_hand_kickers.
  - intros c1 c2 h. split; [reflexivity | apply two_cards_eval].
  - intros personality difficulty gameState player rng n Hcc Hlen.
    unfold PokerAI.makeDecision. rewrite Hcc.
    destruct (PokerEngine.pcards player) as [|c1 [|c2 [|c3 t]]]; try discriminate.
    change (HandEvaluator.getHandStrength [c1; c2] [])
      with (Normal (HandEvaluator.handStrengthOf
                      (HandEvaluator.evaluateHand [c1; c2]))).
    cbv beta iota. unfold PokerAI.bindRand.
    repeat match goal with
           | |- context [let '(a, n') := ?m in _] => destruct m
           end.
    match goal with
    | |- context [if ?b then _ else _] => destruct b
    end; unfold PokerAI.ret.
    + match goal with
      | |- context [let '(a, n') := ?m in _] => destruct m
      end. eauto.
    + eauto.
Qed.

(** The hole cards Ks 7d before the flop. *)
Lemma short_hands_are_evaluated_witness :
  HandEvaluator.getBestFiveCardHand [mkCard 13 spades; mkCard 7 diamonds] []
  = Normal (Some (HandEvaluator.evaluateHand
                    ([mkCard 13 spades; mkCard 7 diamonds] ++ []))).
Proof.
  refine (proj1 (proj1 (proj2 (proj2 short_hands_are_evaluated))
                   [mkCard 13 spades; mkCard 7 diamonds] [] _)).
  simpl. lia.
Defined.

(** ** The betting-round completion predicate *)

Section BettingRound.
Import PokerEngine.

Lemma fold_max_ge (bs : list Z) : forall b, b <= fold_left Z.max bs b.
Proof.
  induction bs as [|x bs IH]; intros b; simpl; [lia|].
  specialize (IH (Z.max b x)). lia.
Qed.

Lemma fold_max_upper (bs : list Z) : forall b x,
  In x bs -> x <= fold_left Z.max bs b.
Proof.
  induction bs as [|y bs IH]; intros b x [].
  - subst. simpl. pose proof (fold_max_ge bs (Z.max b x)). lia.
  - simpl. now apply IH.
Qed.

Lemma fold_max_attained (bs : list Z) : forall b,
  fold_left Z.max bs b = b \/ In (fold_left Z.max bs b) bs.
Proof.
  induction bs as [|y bs IH]; intros b; simpl; [now left|].
  destruct (IH (Z.max b y)) as [E|E]; [|tauto].
  rewrite E. destruct (Z.max_spec b y) as [[_ ->]|[_ ->]]; tauto.
Qed.

(** [getCurrentBet] is the largest current-round bet at the table. *)
Lemma getCurrentBet_max s :
  players s <> [] ->
  (forall p, In p (players s) -> currentBet p <= getCurrentBet s) /\
  (exists p, In p (players s) /\ currentBet p = getCurrentBet s).
Proof.
  unfold getCurrentBet. destruct (players s) as [|p0 ps]; [congruence|].
  intros _. simpl. split.
  - intros p [<-|Hp]; [apply fold_max_ge|].
    apply fold_max_upper. now apply in_map.
  - destruct (fold_max_attained (map currentBet ps) (currentBet p0)) as [E|E].
    + exists p0. split; [now left | now rewrite E].
    + apply in_map_iff in E as [p [E Hp]]. exists p. split; [now right | exact E].
Qed.
End BettingRound.

(** C6. The betting round is complete exactly when at most one active,
    non-folded seat remains, or every active non-folded seat has its
    current-round bet equal to the round's maximum bet or is all-in; the
    round's maximum bet is the largest current-round bet over the seats. *)
Theorem isBettingRoundComplete_iff :
  forall s,
    (PokerEngine.isBettingRoundComplete s = true <->
     (length (filter PokerEngine.contesting (PokerEngine.players s)) <= 1)%nat \/
     (forall p, In p (PokerEngine.players s) ->
        PokerEngine.isActive p = true -> PokerEngine.isFolded p = false ->
        PokerEngine.currentBet p = PokerEngine.getCurrentBet s \/
        PokerEngine.isAllIn p = true)) /\
    (PokerEngine.players s <> [] ->
     (forall p, In p (PokerEngine.players s) ->
        PokerEngine.currentBet p <= PokerEngine.getCurrentBet s) /\
     (exists p, In p (PokerEngine.players s) /\
        PokerEngine.currentBet p = PokerEngine.getCurrentBet s)).
Proof.
  intros s. split; [|apply getCurrentBet_max].
  unfold PokerEngine.isBettingRoundComplete.
  destruct (Nat.leb_spec
              (length (filter PokerEngine.contesting (PokerEngine.players s))) 1)
    as [L|L].
  - split; [now left | reflexivity].
  - rewrite forallb_forall. split.
    + intros H. right. intros p Hp Ha Hf.
      assert (Hc : In p (filter PokerEngine.contesting (PokerEngine.players s))).
      { apply filter_In. split; [assumption|].
        unfold PokerEngine.contesting. now rewrite Ha, Hf. }
      apply H in Hc. apply orb_true_iff in Hc as [Hc|Hc]; [left|now right].
      now apply Z.eqb_eq.
    + intros [H|H] p Hp; [lia|].
      apply filter_In in Hp as [Hp Hc].
      unfold PokerEngine.contesting in Hc. apply andb_true_iff in Hc as [Ha Hf].
      apply negb_true_iff in Hf.
      apply orb_true_iff. destruct (H p Hp Ha Hf) as [E|E]; [left|now right].
      now apply Z.eqb_eq.
Qed.

(** Three seats that have all put in 10. *)
Lemma isBettingRoundComplete_iff_witness :
  let seat i := PokerEngine.mkPlayer i 990 [] 10 10 true true false false in
  let s := PokerEngine.mkState [] [] [seat 0%nat; seat 1%nat; seat 2%nat]
             0 0 (PokerEngine.mkBlinds 5 10) 30 PokerEngine.preflop true 1 in
  exists p, In p (PokerEngine.players s) /\
    PokerEngine.currentBet p = PokerEngine.getCurrentBet s.
Proof.
  intros seat s.
  refine (proj2 (proj2 (isBettingRoundComplete_iff s) _)).
  discriminate.
Defined.

(** ** Drawing a card *)

Section Deck.
Import PokerEngine.

Lemma pop_snoc {A} (d : list A) c : pop (d ++ [c]) = (Some c, d).
Proof.
  induction d as [|x d IH]; [reflexivity|].
  change ((x :: d) ++ [c]) with (x :: (d ++ [c])).
  cbn [pop]. rewrite IH. destruct (d ++ [c]) eqn:E; [|reflexivity].
  now destruct d.
Qed.
End Deck.

(** C9, as the code has it: on an empty deck [dealCard] completes normally,
    returns [null] and leaves the engine as it was; on a deck that is not
    empty it removes the top card, the last of the array, and returns it. *)
Theorem dealCard_behaviour :
  (forall s, PokerEngine.deck s = [] ->
     PokerEngine.dealCard s = (Normal None, s)) /\
  (forall s d c, PokerEngine.deck s = d ++ [c] ->
     PokerEngine.dealCard s = (Normal (Some c), PokerEngine.setDeck d s)).
Proof.
  split.
  - intros s H. unfold PokerEngine.dealCard. now rewrite H.
  - intros s d c H. unfold PokerEngine.dealCard. rewrite H, pop_snoc.
    now destruct d.
Qed.

Lemma dealCard_behaviour_witness :
  PokerEngine.dealCard
    (PokerEngine.setDeck [mkCard 2 hearts; mkCard 14 spades] emptyDeckState)
  = (Normal (Some (mkCard 14 spades)),
     PokerEngine.setDeck [mkCard 2 hearts]
       (PokerEngine.setDeck [mkCard 2 hearts; mkCard 14 spades] emptyDeckState)).
Proof.
  apply (proj2 dealCard_behaviour
           (PokerEngine.setDeck [mkCard 2 hearts; mkCard 14 spades] emptyDeckState)
           [mkCard 2 hearts] (mkCard 14 spades)).
  reflexivity.
Defined.

(** Drawing from the empty deck does not fail. *)
Lemma dealCard_empty_completes :
  PokerEngine.deck emptyDeckState = [] /\
  fst (PokerEngine.dealCard emptyDeckState) = Normal None /\
  ~ (exists e, fst (PokerEngine.dealCard emptyDeckState) = Throws e).
Proof.
  repeat split. intros [e H]. discriminate H.
Qed.

(** ** Blinds *)

Section BlindsFacts.
Import PokerEngine.

Lemma updateAt_nth {A} (f : A -> A) (l : list A) : forall i x,
  nth_error l i = Some x -> nth_error (updateAt i f l) i = Some (f x).
Proof.
  induction l as [|y l IH]; intros [|i] x H; simpl in *; try discriminate.
  - now inversion H.
  - now apply IH.
Qed.

Lemma updateAt_other {A} (f : A -> A) (l : list A) : forall i j,
  i <> j -> nth_error (updateAt i f l) j = nth_error l j.
Proof.
  induction l as [|y l IH]; intros [|i] [|j] H; simpl; try reflexivity.
  - congruence.
  - apply IH. congruence.
Qed.

Lemma updateAt_length {A} (f : A -> A) (l : list A) : forall i,
  length (updateAt i f l) = length l.
Proof.
  induction l as [|y l IH]; intros [|i]; simpl; try reflexivity.
  now rewrite IH.
Qed.

(** What one posted blind does to its seat and to the pot.  The all-in flag
    of the seat is not touched. *)
Lemma postBlind_effect amount i s p :
  nth_error (players s) i = Some p -> isActive p = true ->
  let amt := Z.min amount (chips p) in
  let s' := postBlind amount i s in
  pot s' = pot s + amt /\
  (exists p', nth_error (players s') i = Some p' /\
     chips p' = chips p - amt /\ currentBet p' = amt /\
     totalInvested p' = amt /\ isAllIn p' = isAllIn p) /\
  (forall j, j <> i -> nth_error (players s') j = nth_error (players s) j).
Proof.
  intros Hn Ha amt s'. unfold s', postBlind. rewrite Hn, Ha. fold amt.
  simpl. split; [reflexivity|]. split.
  - eexists. split; [apply updateAt_nth; eassumption|]. simpl. auto.
  - intros j Hj. apply updateAt_other. congruence.
Qed.
Lemma postBlind_frame amount i s :
  dealerPosition (postBlind amount i s) = dealerPosition s /\
  blinds (postBlind amount i s) = blinds s /\
  length (players (postBlind amount i s)) = length (players s).
Proof.
  unfold postBlind. destruct (nth_error (players s) i) as [p|]; [|auto].
  destruct (isActive p); [|auto].
  simpl. rewrite updateAt_length. auto.
Qed.

(** With two active seats [postBlinds] posts the small blind at the seat
    after the dealer, the big blind at the next one, and gives the turn to
    the seat after that. *)
Lemma postBlinds_steps s :
  (2 <= length (filter isActive (players s)))%nat ->
  let n := length (players s) in
  postBlinds s
  = setCurrentPlayerIndex ((dealerPosition s + 3) mod n)
      (postBlind (big (blinds s)) ((dealerPosition s + 2) mod n)
         (postBlind (small (blinds s)) ((dealerPosition s + 1) mod n) s)).
Proof.
  intros H n. unfold postBlinds.
  rewrite (proj2 (Nat.ltb_ge _ _) H). cbv zeta. fold n.
  destruct (postBlind_frame (small (blinds s)) ((dealerPosition s + 1) mod n) s)
    as [Hd [Hb _]].
  destruct (postBlind_frame
              (big (blinds (postBlind (small (blinds s))
                                      ((dealerPosition s + 1) mod n) s)))
              ((dealerPosition (postBlind (small (blinds s))
                                          ((dealerPosition s + 1) mod n) s) + 2)
                 mod n)
              (postBlind (small (blinds s)) ((dealerPosition s + 1) mod n) s))
    as [Hd2 _].
  rewrite Hd2, Hd, Hb. reflexivity.
Qed.
End BlindsFacts.

(** C7, at the short stack.  The big blind is clamped to the 3 chips of the
    seat and takes all of them, yet [postBlinds] leaves the seat not all-in;
    the [call] case of [executePlayerAction], facing the same bet with the
    same stack, does set the flag. *)
Theorem postBlinds_short_stack_not_all_in :
  let s' := PokerEngine.postBlinds shortStackTable in
  PokerEngine.pot s' = 8 /\
  option_map (fun p => (PokerEngine.chips p, PokerEngine.currentBet p,
                        PokerEngine.totalInvested p, PokerEngine.isAllIn p))
             (nth_error (PokerEngine.players s') 2)
  = Some (0, 3, 3, false) /\
  option_map (fun p => (PokerEngine.chips p, PokerEngine.isAllIn p))
             (nth_error
                (PokerEngine.players
                   (PokerEngine.applyAction 2
                      (PokerEngine.mkPlayer 2 3 [] 0 0 true true false false)
                      PokerEngine.call 0
                      (PokerEngine.postBlind 5 1 shortStackTable))) 2)
  = Some (0, true).
Proof. vm_compute. auto. Qed.

(** ** Chip conservation *)

Section Conservation.
Import PokerEngine.

Lemma sumChips_updateAt (f : Player -> Player) ps : forall i p,
  nth_error ps i = Some p ->
  sumChips (updateAt i f ps) = sumChips ps - chips p + chips (f p).
Proof.
  induction ps as [|q ps IH]; intros [|i] p H; simpl in *; try discriminate.
  - inversion H; subst. lia.
  - rewrite (IH i p H). lia.
Qed.

Lemma updateAt_out {A} (f : A -> A) (l : list A) : forall i,
  nth_error l i = None -> updateAt i f l = l.
Proof.
  induction l as [|y l IH]; intros [|i] H; simpl in *; try reflexivity.
  - discriminate.
  - now rewrite IH.
Qed.

Lemma sumChips_same_chips (f : Player -> Player) ps :
  (forall p, chips (f p) = chips p) -> sumChips (map f ps) = sumChips ps.
Proof.
  intros H. induction ps as [|p ps IH]; simpl; [reflexivity|].
  now rewrite H, IH.
Qed.

Lemma postBlind_total amount i s : totalChips (postBlind amount i s) = totalChips s.
Proof.
  unfold postBlind. destruct (nth_error (players s) i) as [p|] eqn:E; [|reflexivity].
  destruct (isActive p); [|reflexivity].
  unfold totalChips. simpl. rewrite (sumChips_updateAt _ _ _ _ E). simpl. lia.
Qed.

Lemma totalChips_turn v s : totalChips (setCurrentPlayerIndex v s) = totalChips s.
Proof. reflexivity. Qed.

Lemma postBlinds_total s : totalChips (postBlinds s) = totalChips s.
Proof.
  unfold postBlinds.
  destruct (Nat.ltb _ 2); [reflexivity|].
  cbv zeta. now rewrite totalChips_turn, !postBlind_total.
Qed.

Lemma commit_chips amt p : chips (commit amt p) = chips p - amt.
Proof.
  unfold commit. simpl. now destruct (chips p - amt =? 0).
Qed.

Lemma applyAction_total i player action amount s :
  nth_error (players s) i = Some player ->
  totalChips (applyAction i player action amount s) = totalChips s.
Proof.
  intros H. unfold totalChips.
  destruct action; simpl.
  - rewrite (sumChips_updateAt _ _ _ _ H). simpl. lia.
  - reflexivity.
  - rewrite (sumChips_updateAt _ _ _ _ H), commit_chips. lia.
  - rewrite (sumChips_updateAt _ _ _ _ H), commit_chips. lia.
Qed.
End Conservation.

Section Settlement.
Import HandEvaluator PokerEngine.

Lemma quiet_refl s : quiet s s.
Proof. split; reflexivity. Qed.

Lemma dealCard_quiet s : quiet s (snd (dealCard s)).
Proof.
  unfold dealCard. destruct (deck s); [apply quiet_refl|].
  destruct (pop _). split; reflexivity.
Qed.

Lemma quiet_trans s1 s2 s3 : quiet s1 s2 -> quiet s2 s3 -> quiet s1 s3.
Proof. intros [A B] [C D]. split; congruence. Qed.

Lemma seats_nth s i p : In (i, p) (seats s) -> nth_error (players s) i = Some p.
Proof.
  unfold seats. generalize (players s) as ps. intros ps.
  change i with (0 + i)%nat at 1.
  assert (G : forall k, In (i, p) (combine (seq k (length ps)) ps) ->
                        exists j, i = (k + j)%nat /\ nth_error ps j = Some p).
  { induction ps as [|q ps IH]; intros k H; simpl in H; [contradiction|].
    destruct H as [E|H].
    - inversion E; subst. exists 0%nat. split; [lia | reflexivity].
    - apply IH in H as [j [-> Hj]]. exists (S j). split; [lia | exact Hj]. }
  intros H. apply (G 0%nat) in H as [j [-> Hj]]. exact Hj.
Qed.

Lemma Returned_eq a b : Returned a = Returned b -> a = b.
Proof. congruence. Qed.

End Settlement.

Section Cascade.
Import PokerEngine.

Lemma settled_phase s s' :
  showdown s = Returned s' -> gamePhase s' = showdownPhase.
Proof.
  unfold showdown.
  set (s0 := setGamePhase showdownPhase s).
  assert (E : forall c s1, evaluateWinner c s0 = Returned s1 ->
                           gamePhase s1 = showdownPhase).
  { intros c s1. unfold evaluateWinner.
    destruct (mapO _ c); [|discriminate].
    destruct (sortBy _ _) as [|[i b] t]; [discriminate|].
    destruct (filter _ _) as [|w [|w2 ws]]; intros H;
      apply Returned_eq in H; subst s1; reflexivity. }
  assert (G : forall r, bindR r endHand = Returned s' ->
                (forall s1, r = Returned s1 -> gamePhase s1 = showdownPhase) ->
                gamePhase s' = showdownPhase).
  { intros [s1| |] Hr Hs; try discriminate. simpl in Hr.
    apply Returned_eq in Hr. subst s'. simpl. now apply Hs. }
  intros H. apply (G _ H). clear G H. intros s1.
  destruct (filter _ (seats s0)) as [|w [|w2 ws]].
  - apply E.
  - intros H. apply Returned_eq in H. now subst s1.
  - apply E.
Qed.

End Cascade.

Section Hand.
Import PokerEngine.

Lemma sumChips_updateAt_same (f : Player -> Player) ps i :
  (forall p, chips (f p) = chips p) -> sumChips (updateAt i f ps) = sumChips ps.
Proof.
  intros H. destruct (nth_error ps i) as [p|] eqn:E.
  - rewrite (sumChips_updateAt _ _ _ _ E), H. lia.
  - now rewrite updateAt_out.
Qed.

Lemma dealPass_quiet n : forall i s, quiet s (dealPass n i s).
Proof.
  induction n as [|n IH]; intros i s; [apply quiet_refl|].
  cbn [dealPass]. eapply quiet_trans; [|apply IH].
  destruct (nth_error (players s) i) as [p|]; [|apply quiet_refl].
  destruct (isActive p); [|apply quiet_refl].
  pose proof (dealCard_quiet s) as [Qc Qp].
  destruct (dealt (dealCard s)); [|split; assumption].
  split; [|exact Qp]. simpl. now rewrite sumChips_updateAt_same.
Qed.

Lemma dealPocketCards_quiet s : quiet s (dealPocketCards s).
Proof.
  unfold dealPocketCards. eapply quiet_trans; apply dealPass_quiet.
Qed.

End Hand.

(** ** A hand that ends in a split pot *)

Section StackedDeck.

Lemma Card_eqb_eq a b : Card_eqb a b = true <-> a = b.
Proof.
  unfold Card_eqb. rewrite andb_true_iff, Z.eqb_eq, Suit_eqb_eq.
  destruct a, b; simpl. split; [intros [-> ->]; reflexivity | intros [= -> ->]; auto].
Qed.

Lemma distinctCards_NoDup l : distinctCards l = true -> NoDup l.
Proof.
  induction l as [|c l IH]; simpl; [constructor|].
  intros H. apply andb_true_iff in H as [Hc Hl].
  constructor; [|now apply IH].
  intros Hin. apply negb_true_iff in Hc.
  apply Bool.not_true_iff_false in Hc. apply Hc.
  apply existsb_exists. exists c. split; [assumption | now apply Card_eqb_eq].
Qed.

Lemma stackedDeck_is_a_shuffle : Permutation PokerEngine.createDeck stackedDeck.
Proof.
  apply NoDup_Permutation_bis.
  - apply distinctCards_NoDup. vm_compute. reflexivity.
  - vm_compute. lia.
  - intros c Hc.
    assert (H : forallb (fun c => existsb (Card_eqb c) stackedDeck)
                        PokerEngine.createDeck = true) by (vm_compute; reflexivity).
    rewrite forallb_forall in H. apply H in Hc.
    apply existsb_exists in Hc as [c' [Hin E]].
    apply Card_eqb_eq in E. now subst.
Qed.
End StackedDeck.

(** The hand: seat 0 calls the big blind, seat 1 folds its small blind; the
    round is complete and, the next seat to act having folded, the engine runs
    to the showdown.  Seats 0 and 2 tie on the board and split a pot of 25. *)
Lemma split_pot_loses_a_chip :
  exists s1 s',
    PokerEngine.startNewHand 8 stackedDeck PokerEngine.newEngine
    = PokerEngine.Returned s1 /\
    playActions 8 [(0%nat, PokerEngine.call, 0); (1%nat, PokerEngine.fold, 0)] s1
    = PokerEngine.Returned s' /\
    sumChips (PokerEngine.players PokerEngine.newEngine) = 3000 /\
    PokerEngine.gamePhase s' = PokerEngine.showdownPhase /\
    PokerEngine.pot s' = 0 /\
    map PokerEngine.chips (PokerEngine.players s') = [1002; 995; 1002] /\
    sumChips (PokerEngine.players s') = 2999 /\
    sumChips (PokerEngine.players s')
    <> sumChips (PokerEngine.players PokerEngine.newEngine)
       + PokerEngine.pot PokerEngine.newEngine.
Proof.
  eexists. eexists.
  split; [vm_compute; reflexivity|].
  split; [vm_compute; reflexivity|].
  vm_compute. repeat split; try reflexivity. discriminate.
Qed.

(** ** A showdown that nobody contests *)

(** C5, where it breaks.  Seat 1 posts the small blind, seat 0 folds, the
    engine deals the flop and hands the turn to seat 1, who is alone.  Its
    agent ([tight], difficulty 3, every draw one half) folds the weak hand.
    The engine runs to the showdown with no contesting seat: [evaluateWinner]
    reads the first entry of an empty array and throws.  The pot of 5 is
    neither awarded nor emptied and the hand is not closed. *)
Theorem showdown_without_contestants_throws :
  let s1 := stateOf (PokerEngine.startNewHand 8 stackedDeck seatTwoBusted) in
  let s2 := stateOf (PokerEngine.executePlayerAction 8 0 PokerEngine.fold 0 s1) in
  let r := PokerEngine.executePlayerAction 8 1 PokerEngine.fold 0 s2 in
  PokerEngine.startNewHand 8 stackedDeck seatTwoBusted = PokerEngine.Returned s1 /\
  PokerEngine.executePlayerAction 8 0 PokerEngine.fold 0 s1
  = PokerEngine.Returned s2 /\
  PokerEngine.gamePhase s2 = PokerEngine.flop /\
  PokerEngine.currentPlayerIndex s2 = 1%nat /\
  option_map
    (fun seat =>
       fst (PokerAI.calculateAIDecision PokerAI.tight
              (PokerAI.mkDifficulty (7 # 10) (15 # 100) (6 # 10))
              s2 seat (fun _ => 1 # 2) 0%nat))
    (nth_error (PokerEngine.players s2) 1)
  = Some (Normal (PokerAI.plain PokerEngine.fold)) /\
  r = PokerEngine.Raised TypeError (stateOf r) /\
  filter PokerEngine.contesting (PokerEngine.players (stateOf r)) = [] /\
  PokerEngine.gamePhase (stateOf r) = PokerEngine.showdownPhase /\
  PokerEngine.pot (stateOf r) = 5 /\
  PokerEngine.gameStarted (stateOf r) = true /\
  map PokerEngine.chips (PokerEngine.players (stateOf r)) = [2000; 995; 0].
Proof.
  vm_compute. repeat split; reflexivity.
Qed.

(** ** The size of the agent's raises *)

Section RaiseSize.
Import PokerEngine PokerAI.
Local Open Scope Q_scope.

Lemma minQ_le_r a b : minQ a b <= b.
Proof.
  unfold minQ. destruct (Qle_bool a b) eqn:E.
  - now apply Qle_bool_iff.
  - apply Qle_refl.
Qed.

End RaiseSize.





(** ** Who is paid at a contested showdown *)

Section Awards.
Import HandEvaluator PokerEngine.

Lemma seats_fst_aux (ps : list Player) : forall k,
  map fst (combine (seq k (length ps)) ps) = seq k (length ps).
Proof.
  induction ps as [|p ps IH]; intros k; simpl; [reflexivity|].
  now rewrite IH.
Qed.

Lemma seats_NoDup s : NoDup (map fst (seats s)).
Proof. unfold seats. rewrite seats_fst_aux. apply seq_NoDup. Qed.

Lemma nth_seats s i p : nth_error (players s) i = Some p -> In (i, p) (seats s).
Proof.
  unfold seats. generalize (players s) as ps. intros ps.
  assert (G : forall k j, nth_error ps j = Some p ->
                          In ((k + j)%nat, p) (combine (seq k (length ps)) ps)).
  { induction ps as [|q ps IH]; intros k [|j] H; simpl in *; try discriminate.
    - inversion H; subst. left. f_equal. lia.
    - right. replace (k + S j)%nat with (S k + j)%nat by lia. now apply IH. }
  intros H. apply (G 0%nat i H).
Qed.

Lemma NoDup_fst_filter {B} (f : nat * B -> bool) l :
  NoDup (map fst l) -> NoDup (map fst (filter f l)).
Proof.
  induction l as [|e l IH]; simpl; intros N; [constructor|].
  inversion N as [|? ? Hn N']; subst.
  destruct (f e); simpl; [|now apply IH].
  constructor; [|now apply IH].
  intros Hin. apply Hn. apply in_map_iff in Hin as [e' [E Hin]].
  apply filter_In in Hin as [Hin _]. apply in_map_iff. eauto.
Qed.

Lemma NoDup_fst_inj {B} (l : list (nat * B)) i b b' :
  NoDup (map fst l) -> In (i, b) l -> In (i, b') l -> b = b'.
Proof.
  induction l as [|[j c] l IH]; simpl; intros N H1 H2; [contradiction|].
  inversion N as [|? ? Hn N']; subst.
  destruct H1 as [E1|H1], H2 as [E2|H2].
  - congruence.
  - inversion E1; subst. exfalso. apply Hn. apply in_map_iff. now exists (i, b').
  - inversion E2; subst. exfalso. apply Hn. apply in_map_iff. now exists (i, b).
  - now apply IH.
Qed.

(** The head of the sorted hands is a best hand. *)
Lemma insert_head_best (x : nat * HandResult) l :
  (forall h t, l = h :: t ->
     forall y, In y l -> 0 <= compareHands (snd h) (snd y)) ->
  forall h t,
    insertBy (fun a b => compareHands (snd b) (snd a)) x l = h :: t ->
    forall y, In y (x :: l) -> 0 <= compareHands (snd h) (snd y).
Proof.
  intros Hl h t. destruct l as [|h0 l]; simpl.
  - intros [= <- <-] y [<-|[]]. rewrite compareHands_refl. lia.
  - specialize (Hl h0 l eq_refl).
    destruct (Z.leb_spec (compareHands (snd h0) (snd x)) 0) as [L|L].
    + intros [= <- <-] y [<-|Hy]; [rewrite compareHands_refl; lia|].
      apply (compareHands_trans _ (snd h0)).
      * rewrite compareHands_antisym. lia.
      * now apply Hl.
    + intros [= <- <-] y [<-|Hy]; [lia | now apply Hl].
Qed.

Lemma sorted_head_best (l : list (nat * HandResult)) : forall h t,
  sortBy (fun a b => compareHands (snd b) (snd a)) l = h :: t ->
  forall y, In y l -> 0 <= compareHands (snd h) (snd y).
Proof.
  induction l as [|x l IH]; intros h t; simpl; [discriminate|].
  intros E y Hy.
  apply (insert_head_best x _) with (y := y) in E.
  - exact E.
  - intros h' t' E' y' Hy'. apply (IH h' t' E'). now apply sortBy_In in Hy'.
  - destruct Hy as [<-|Hy]; [now left | right; now apply sortBy_In].
Qed.

Lemma mapO_total {A B} (f : A -> Outcome B) (g : A -> B) l :
  (forall a, In a l -> f a = Normal (g a)) -> mapO f l = Normal (map g l).
Proof.
  induction l as [|a l IH]; intros H; simpl; [reflexivity|].
  rewrite (H a (or_introl eq_refl)). simpl.
  rewrite IH by (intros a' Ha'; apply H; now right). reflexivity.
Qed.

Lemma getBestFiveCardHand_total p cc :
  getBestFiveCardHand (pcards p) cc = Normal (Some (bestHandOf cc p)).
Proof.
  unfold bestHandOf.
  destruct (Nat.lt_ge_cases (length (pcards p ++ cc)) 5) as [L|L].
  - unfold getBestFiveCardHand. now rewrite (proj2 (Nat.ltb_lt _ _) L).
  - destruct (getBestFiveCardHand_select (pcards p) cc L) as [b [E _]].
    now rewrite E.
Qed.

Lemma handOf_total s cc p :
  readCards (communityCards s) = Normal cc ->
  handOf s p = Normal (bestHandOf cc p).
Proof.
  intros H. unfold handOf. rewrite H. simpl.
  now rewrite getBestFiveCardHand_total.
Qed.

(** Paying [split] to every winner in turn. *)
Lemma split_chips split (ws : list (nat * HandResult)) :
  NoDup (map fst ws) ->
  forall ps j q, nth_error ps j = Some q ->
    exists q',
      nth_error (fold_left (fun ps w => updateAt (fst w) (addChips split) ps)
                           ws ps) j = Some q' /\
      chips q' = chips q + (if existsb (Nat.eqb j) (map fst ws) then split else 0).
Proof.
  induction ws as [|w ws IH]; intros N ps j q H.
  - exists q. simpl. split; [assumption | lia].
  - inversion N as [|? ? Hn N']; subst. cbn [fold_left map existsb].
    destruct (Nat.eqb_spec j (fst w)) as [E|E].
    + subst j.
      destruct (IH N' (updateAt (fst w) (addChips split) ps) (fst w)
                   (addChips split q) (updateAt_nth _ _ _ _ H)) as [q' [Hq' Hc]].
      exists q'. split; [assumption|]. rewrite Hc. simpl.
      destruct (existsb _ _) eqn:Ex; [|lia].
      exfalso. apply Hn. apply existsb_exists in Ex as [k [Hk Ek]].
      apply Nat.eqb_eq in Ek. now subst.
    + apply IH; [assumption|]. rewrite updateAt_other by congruence. exact H.
Qed.
Lemma filter_map_comm {A B} (f : A -> B) (P : B -> bool) l :
  filter P (map f l) = map f (filter (fun a => P (f a)) l).
Proof.
  induction l as [|a l IH]; simpl; [reflexivity|].
  destruct (P (f a)); simpl; now rewrite IH.
Qed.

Lemma holdsBest_iff cc s p :
  holdsBest cc s p = true <->
  forall jq, In jq (contestants s) ->
    0 <= compareHands (bestHandOf cc p) (bestHandOf cc (snd jq)).
Proof.
  unfold holdsBest. rewrite forallb_forall.
  split; intros H jq Hjq; [apply Z.leb_le | apply Z.leb_le]; now apply H.
Qed.

(** The hands that tie with the head of the sorted list are the hands that
    no contestant beats. *)
Lemma tied_with_head cc s i0 best rest :
  sortBy (fun a b => compareHands (snd b) (snd a))
         (map (seatHand cc) (contestants s)) = (i0, best) :: rest ->
  forall ip, In ip (contestants s) ->
    (compareHands (bestHandOf cc (snd ip)) best =? 0) = holdsBest cc s (snd ip).
Proof.
  intros Es ip Hip.
  pose proof (sorted_head_best _ _ _ Es) as Hbest. simpl in Hbest.
  assert (H0 : In (i0, best) (map (seatHand cc) (contestants s))).
  { apply (sortBy_In (fun a b => compareHands (snd b) (snd a))).
    rewrite Es. now left. }
  apply in_map_iff in H0 as [ip0 [E0 Hip0]].
  unfold seatHand in E0. inversion E0; subst.
  apply eq_true_iff_eq. rewrite Z.eqb_eq, holdsBest_iff. split.
  - intros E jq Hjq.
    apply (compareHands_trans _ (bestHandOf cc (snd ip0))); [lia|].
    apply (Hbest (seatHand cc jq)). now apply in_map.
  - intros H.
    pose proof (H ip0 Hip0) as G1.
    pose proof (Hbest (seatHand cc ip) (in_map _ _ _ Hip)) as G2. simpl in G2.
    rewrite compareHands_antisym in G2. lia.
Qed.
Lemma winners_perm cc s i0 best rest :
  sortBy (fun a b => compareHands (snd b) (snd a))
         (map (seatHand cc) (contestants s)) = (i0, best) :: rest ->
  Permutation
    (filter (fun ph => compareHands (snd ph) best =? 0) ((i0, best) :: rest))
    (map (seatHand cc) (winnersOf cc s)).
Proof.
  intros Es. rewrite <- Es.
  rewrite (filter_perm _ _ _ (sortBy_perm _ _)).
  rewrite filter_map_comm. unfold winnersOf.
  erewrite filter_ext_in; [reflexivity|].
  intros ip Hip. simpl. now apply (tied_with_head cc s i0 best rest).
Qed.

Lemma contestants_nth s j q :
  nth_error (players s) j = Some q ->
  (In j (map fst (contestants s)) <-> contesting q = true) /\
  (forall cc, In j (map fst (winnersOf cc s)) <->
              contesting q && holdsBest cc s q = true).
Proof.
  intros H. pose proof (nth_seats _ _ _ H) as Hs.
  assert (U : forall q', In (j, q') (seats s) -> q' = q).
  { intros q' Hq'. eapply NoDup_fst_inj; [apply seats_NoDup | eassumption
                                           | eassumption]. }
  split; [|intros cc]; rewrite in_map_iff.
  - split.
    + intros [[j' q'] [E Hin]]. simpl in E. subst j'.
      apply filter_In in Hin as [Hin Hc]. simpl in Hc.
      now rewrite <- (U q' Hin).
    + intros Hc. exists (j, q). split; [reflexivity|].
      apply filter_In. now split.
  - rewrite andb_true_iff. split.
    + intros [[j' q'] [E Hin]]. simpl in E. subst j'.
      apply filter_In in Hin as [Hin Hb]. simpl in Hb.
      apply filter_In in Hin as [Hin Hc]. simpl in Hc.
      rewrite <- (U q' Hin). now split.
    + intros [Hc Hb]. exists (j, q). split; [reflexivity|].
      apply filter_In. split; [|exact Hb]. apply filter_In. now split.
Qed.

(** With at least one contesting seat and no missing community card, the
    showdown returns with an empty pot; every contesting seat whose hand no
    contestant beats has received [pot / n], [n] the number of such seats,
    and no other stack has changed. *)
Lemma showdown_awards s cc :
  readCards (communityCards s) = Normal cc ->
  contestants s <> [] ->
  exists s',
    showdown s = Returned s' /\
    pot s' = 0 /\ gameStarted s' = false /\
    (1 <= length (winnersOf cc s))%nat /\
    forall j q, nth_error (players s) j = Some q ->
      exists q', nth_error (players s') j = Some q' /\
        chips q' = chips q
                   + (if contesting q && holdsBest cc s q
                      then pot s / Z.of_nat (length (winnersOf cc s)) else 0).
Proof.
  intros Hcc Hne.
  (* the winners as the code computes them *)
  destruct (sortBy (fun a b => compareHands (snd b) (snd a))
                   (map (seatHand cc) (contestants s)))
    as [|[i0 best] rest] eqn:Es.
  { exfalso. apply Hne.
    apply (f_equal (@length _)) in Es. rewrite sortBy_length, length_map in Es.
    now apply length_zero_iff_nil. }
  pose proof (winners_perm cc s i0 best rest Es) as P.
  set (winners := filter (fun ph : nat * HandResult =>
                            compareHands (snd ph) best =? 0)
                         ((i0, best) :: rest)) in *.
  assert (Hlen : length winners = length (winnersOf cc s))
    by (rewrite (Permutation_length P); apply length_map).
  assert (Hfst : Permutation (map fst winners) (map fst (winnersOf cc s))).
  { rewrite (Permutation_map fst P), map_map. reflexivity. }
  assert (Hnd : NoDup (map fst winners)).
  { apply (Permutation_NoDup (Permutation_sym Hfst)).
    unfold winnersOf, contestants.
    apply NoDup_fst_filter, NoDup_fst_filter, seats_NoDup. }
  assert (Hpos : (1 <= length winners)%nat).
  { unfold winners. simpl. rewrite compareHands_refl. simpl. lia. }
  (* what the fold over the winners does to a seat *)
  assert (Pay : forall split j q, nth_error (players s) j = Some q ->
            exists q',
              nth_error (fold_left
                           (fun ps w => updateAt (fst w) (addChips split) ps)
                           winners (players s)) j = Some q' /\
              chips q' = chips q
                + (if contesting q && holdsBest cc s q then split else 0)).
  { intros split j q H.
    destruct (split_chips split winners Hnd _ _ _ H) as [q' [Hq' Hc]].
    exists q'. split; [assumption|]. rewrite Hc.
    replace (existsb (Nat.eqb j) (map fst winners))
      with (contesting q && holdsBest cc s q); [reflexivity|].
    apply eq_true_iff_eq.
    rewrite <- (proj2 (contestants_nth s j q H) cc), existsb_exists. split.
    - intros Hin. exists j. split; [|apply Nat.eqb_refl].
      apply (Permutation_in _ (Permutation_sym Hfst) Hin).
    - intros [k [Hk Ek]]. apply Nat.eqb_eq in Ek. subst k.
      apply (Permutation_in _ Hfst Hk). }
  (* the code *)
  assert (Ew : evaluateWinner (contestants s) (setGamePhase showdownPhase s)
               = Returned
                   (setPot 0
                      (setPlayers
                         (fold_left
                            (fun ps w =>
                               updateAt (fst w)
                                 (addChips (pot s / Z.of_nat (length winners))) ps)
                            winners (players s))
                         (setGamePhase showdownPhase s)))).
  { unfold evaluateWinner.
    rewrite (mapO_total _ (seatHand cc))
      by (intros ip _; rewrite (handOf_total _ cc) by exact Hcc; reflexivity).
    rewrite Es. fold winners.
    destruct winners as [|w [|w2 ws]] eqn:Ewin.
    - simpl in Hpos. lia.
    - unfold awardPot. simpl. now rewrite Z.div_1_r.
    - reflexivity. }
  exists (setGameStarted false
            (setPot 0
               (setPlayers
                  (fold_left
                     (fun ps w =>
                        updateAt (fst w)
                          (addChips (pot s / Z.of_nat (length winners))) ps)
                     winners (players s))
                  (setGamePhase showdownPhase s)))).
  split; [|split; [|split; [|split]]].
  - unfold showdown. change (seats (setGamePhase showdownPhase s)) with (seats s).
    fold (contestants s).
    destruct (contestants s) as [|[i p] [|ip2 l]] eqn:Ec.
    + congruence.
    + (* a single contestant is paid without a comparison *)
      assert (E1 : evaluateWinner [(i, p)] (setGamePhase showdownPhase s)
                   = Returned (awardPot i (setGamePhase showdownPhase s))).
      { unfold evaluateWinner. simpl mapO.
        rewrite (handOf_total _ cc) by exact Hcc. simpl.
        rewrite compareHands_refl. reflexivity. }
      rewrite E1 in Ew. apply Returned_eq in Ew. simpl fst.
      rewrite Ew. reflexivity.
    + rewrite Ew. reflexivity.
  - reflexivity.
  - reflexivity.
  - lia.
  - intros j q H. simpl. rewrite Hlen. now apply Pay.
Qed.
End Awards.

(** ** The cascade comes to an end *)

Section Termination.
Import PokerEngine.

Lemma nextSeat_reaches ps k : forall cur t,
  (1 <= t <= k)%nat ->
  (exists p, nth_error ps ((cur + t) mod length ps) = Some p /\
             contesting p = true) ->
  exists idx p, nextSeat k cur ps = Some idx /\
                nth_error ps idx = Some p /\ contesting p = true.
Proof.
  induction k as [|k IH]; intros cur t Ht [p [Hp Hc]]; [lia|].
  assert (Hn : length ps <> 0%nat).
  { intros E. destruct ps; [|discriminate].
    destruct ((cur + t) mod length (@nil Player))%nat in Hp; discriminate. }
  cbn [nextSeat].
  destruct (nth_error ps ((cur + 1) mod length ps)) as [p1|] eqn:E1.
  - destruct (contesting p1) eqn:C1; [eauto|].
    assert (t <> 1%nat) by (intros ->; congruence).
    apply (IH _ (t - 1)%nat); [lia|].
    exists p. split; [|assumption].
    rewrite Nat.Div0.add_mod_idemp_l.
    now replace (cur + 1 + (t - 1))%nat with (cur + t)%nat by lia.
  - apply nth_error_None in E1.
    pose proof (Nat.mod_upper_bound (cur + 1) (length ps) Hn). lia.
Qed.

Lemma residue_reached n cur j :
  (j < n)%nat -> exists t, (1 <= t <= n)%nat /\ ((cur + t) mod n = j)%nat.
Proof.
  intros Hj. assert (Hn : n <> 0%nat) by lia.
  pose proof (Nat.div_mod_eq cur n) as D.
  pose proof (Nat.mod_upper_bound cur n Hn) as B.
  set (c := (cur mod n)%nat) in *. set (d := (cur / n)%nat) in *.
  destruct (Nat.lt_ge_cases c j) as [L|L].
  - exists (j - c)%nat. split; [lia|].
    replace (cur + (j - c))%nat with (j + d * n)%nat by nia.
    rewrite Nat.Div0.mod_add. now apply Nat.mod_small.
  - exists (j + n - c)%nat. split; [lia|].
    replace (cur + (j + n - c))%nat with (j + (d + 1) * n)%nat by nia.
    rewrite Nat.Div0.mod_add. now apply Nat.mod_small.
Qed.

(** While the round is open the [do ... while] finds a seat. *)
Lemma nextSeat_found s :
  isBettingRoundComplete s = false ->
  exists idx p,
    nextSeat (length (players s)) (currentPlayerIndex s) (players s) = Some idx /\
    nth_error (players s) idx = Some p /\ contesting p = true.
Proof.
  unfold isBettingRoundComplete. intros H.
  destruct (filter contesting (players s)) as [|p l] eqn:F;
    [simpl in H; discriminate|].
  assert (Hin : In p (filter contesting (players s))) by (rewrite F; now left).
  apply filter_In in Hin as [Hin Hc].
  apply In_nth_error in Hin as [j Hj].
  assert (Hlt : (j < length (players s))%nat)
    by (apply nth_error_Some; congruence).
  destruct (residue_reached _ (currentPlayerIndex s) j Hlt) as [t [Ht Et]].
  apply (nextSeat_reaches _ _ _ t Ht). exists p. now rewrite Et.
Qed.

Lemma showdown_ends s : showdown s <> OutOfFuel.
Proof.
  unfold showdown.
  assert (E : forall c s0, evaluateWinner c s0 <> OutOfFuel).
  { intros c s0. unfold evaluateWinner.
    destruct (mapO _ c); [|discriminate].
    destruct (sortBy _ _) as [|[i b] t]; [discriminate|].
    destruct (filter _ _) as [|w [|w2 ws]]; discriminate. }
  assert (G : forall r, r <> OutOfFuel -> bindR r endHand <> OutOfFuel).
  { intros [s1| |] H; simpl; [discriminate | discriminate | congruence]. }
  apply G. destruct (filter _ _) as [|w [|w2 ws]]; [apply E | discriminate | apply E].
Qed.

Lemma processNextPlayerWith_ends move s :
  (move s <> OutOfFuel) -> processNextPlayerWith move s <> OutOfFuel.
Proof.
  unfold processNextPlayerWith. intros H.
  destruct (nth_error _ _) as [p|]; [|exact H].
  destruct (contesting p); [discriminate | exact H].
Qed.

(** A budget of one call per phase left is enough. *)
Lemma moveToNextPlayer_ends fuel : forall s,
  (phaseRank (gamePhase s) <= fuel)%nat -> gamePhase s <> showdownPhase ->
  moveToNextPlayer fuel s <> OutOfFuel.
Proof.
  induction fuel as [|fuel IH]; intros s Hr Hp.
  - destruct (gamePhase s); simpl in Hr; try lia. congruence.
  - cbn [moveToNextPlayer].
    destruct (isBettingRoundComplete s) eqn:C.
    + unfold completeBettingRoundWith, advanceGamePhaseWith.
      cbn [gamePhase setPlayers].
      destruct (gamePhase s) eqn:Ph; try congruence.
      * destruct (dealFlop _) as [s1| |] eqn:D; try discriminate.
        -- simpl. apply processNextPlayerWith_ends, IH; simpl in *; [lia|discriminate].
        -- unfold dealFlop in D. destruct (forallb _ _); discriminate.
      * destruct (dealTurn _) as [s1| |] eqn:D; try discriminate.
        -- simpl. apply processNextPlayerWith_ends, IH; simpl in *; [lia|discriminate].
        -- unfold dealTurn, dealOne in D.
           destruct (nth_error _ 3) as [[c|]|]; discriminate.
      * destruct (dealRiver _) as [s1| |] eqn:D; try discriminate.
        -- simpl. apply processNextPlayerWith_ends, IH; simpl in *; [lia|discriminate].
        -- unfold dealRiver, dealOne in D.
           destruct (nth_error _ 4) as [[c|]|]; discriminate.
      * apply showdown_ends.
    + destruct (nextSeat_found s C) as [idx [p [E [Hn Hc]]]].
      rewrite E. unfold processNextPlayerWith. simpl.
      rewrite Hn, Hc. discriminate.
Qed.

(** An action taken during a hand always comes back or throws. *)
Lemma executePlayerAction_ends fuel i action amount s :
  (4 <= fuel)%nat -> gamePhase s <> showdownPhase ->
  executePlayerAction fuel i action amount s <> OutOfFuel.
Proof.
  intros Hf Hp. unfold executePlayerAction.
  destruct (nth_error (players s) i) as [player|]; [|discriminate].
  apply moveToNextPlayer_ends.
  - destruct action; simpl; destruct (gamePhase s); simpl; lia.
  - now destruct action.
Qed.

Lemma postBlind_phase a i s : gamePhase (postBlind a i s) = gamePhase s.
Proof.
  unfold postBlind. destruct (nth_error _ i) as [p|]; [|reflexivity].
  now destruct (isActive p).
Qed.

Lemma dealCard_phase s : gamePhase (snd (dealCard s)) = gamePhase s.
Proof.
  unfold dealCard. destruct (deck s); [reflexivity|]. now destruct (pop _).
Qed.

Lemma dealPass_phase n : forall i s, gamePhase (dealPass n i s) = gamePhase s.
Proof.
  induction n as [|n IH]; intros i s; [reflexivity|].
  cbn [dealPass]. rewrite IH.
  destruct (nth_error _ i) as [p|]; [|reflexivity].
  destruct (isActive p); [|reflexivity].
  destruct (dealt (dealCard s)); simpl; apply dealCard_phase.
Qed.

Lemma blinds_and_cards_phase s :
  gamePhase (dealPocketCards (postBlinds s)) = gamePhase s.
Proof.
  unfold dealPocketCards. rewrite !dealPass_phase. unfold postBlinds.
  destruct (Nat.ltb _ 2); [reflexivity|]. cbv zeta. simpl.
  now rewrite !postBlind_phase.
Qed.

Lemma startNewHand_ends fuel shuffled s :
  (4 <= fuel)%nat -> startNewHand fuel shuffled s <> OutOfFuel.
Proof.
  intros Hf. unfold startNewHand, startBettingRound, startBettingRoundWith.
  apply processNextPlayerWith_ends, moveToNextPlayer_ends; simpl;
    rewrite blinds_and_cards_phase; simpl; [lia | discriminate].
Qed.
End Termination.

(** * Further properties of the code *)

(** ** Combinations *)

Lemma NoDup_map_inj {A B} (f : A -> B) (l : list A) :
  (forall x y, f x = f y -> x = y) -> NoDup l -> NoDup (map f l).
Proof.
  intros Hinj. induction 1 as [|x l Hx _ IH]; simpl; constructor; [|exact IH].
  intros Hin. apply in_map_iff in Hin as [y [E Hy]].
  apply Hinj in E. now subst.
Qed.

Section CombinationsOnce.
Import HandEvaluator.
Context {A : Type}.

Lemma subseq_In (s l : list A) x : subseq s l -> In x s -> In x l.
Proof.
  induction 1 as [|y s l H IH|y s l H IH]; simpl; [tauto | tauto |].
  intros [<-|Hx]; [now left | right; now apply IH].
Qed.

Lemma comboLoop_NoDup (rec : list A -> list (list A)) k' :
  (forall s l, In s (rec l) <-> subseq s l /\ length s = k') ->
  (forall l, NoDup l -> NoDup (rec l)) ->
  forall l, NoDup l -> NoDup (comboLoop rec (S k') l).
Proof.
  intros Hspec Hrec l. induction l as [|x l IH]; intros N; [constructor|].
  cbn [comboLoop]. destruct (Nat.leb (S k') (length (x :: l))); [|constructor].
  inversion N as [|? ? Hx N']; subst.
  apply NoDup_app.
  - apply NoDup_map_inj; [intros a b E; now inversion E | now apply Hrec].
  - now apply IH.
  - intros s Hs Hs'. apply in_map_iff in Hs as [s' [<- _]].
    apply (comboLoop_spec rec k' Hspec) in Hs' as [Hsub _].
    apply Hx. apply (subseq_In _ _ _ Hsub). now left.
Qed.

Lemma generateCombinations_NoDup k : forall (l : list A),
  NoDup l -> NoDup (generateCombinations k l).
Proof.
  induction k as [|k IH]; intros l N; [constructor|].
  cbn [generateCombinations].
  destruct (Nat.eqb (S k) 1).
  - apply NoDup_map_inj; [intros a b E; now inversion E | exact N].
  - destruct (Nat.eqb (S k) (length l)); [repeat constructor; intros []|].
    destruct k as [|k]; [|apply comboLoop_NoDup; auto].
    + (* k + 1 = 1 was handled by the first test; the loop for it *)
      clear IH. induction l as [|x l IHl]; [constructor|].
      cbn [comboLoop]. destruct (Nat.leb 1 (length (x :: l))); [|constructor].
      simpl. inversion N; subst. now apply IHl.
    + intros s l'. apply generateCombinations_spec. lia.
Qed.
End CombinationsOnce.

(** X1. [generateCombinations(cards, k)], for [k >= 1], lists exactly the
    selections of [k] cards in their order in [cards]; when the cards are
    distinct no selection is listed twice. *)
Theorem generateCombinations_each_once :
  forall (A : Type) (k : nat) (cs : list A),
    (1 <= k)%nat ->
    (forall s, In s (HandEvaluator.generateCombinations k cs) <->
               subseq s cs /\ length s = k) /\
    (NoDup cs -> NoDup (HandEvaluator.generateCombinations k cs)).
Proof.
  intros A k cs Hk. split.
  - intros s. now apply generateCombinations_spec.
  - apply generateCombinations_NoDup.
Qed.

Lemma generateCombinations_each_once_witness :
  In [1; 3] (HandEvaluator.generateCombinations 2 [1; 2; 3]) <->
  subseq [1; 3] [1; 2; 3] /\ length [1; 3] = 2%nat.
Proof.
  apply (proj1 (generateCombinations_each_once Z 2 [1; 2; 3] ltac:(lia))).
Defined.

(** X2. On five or more cards in total (the flop, the turn, the river)
    [getBestFiveCardHand] returns the evaluation of one five-card selection,
    and no five-card selection evaluates higher under [compareHands]. *)
Theorem getBestFiveCardHand_best_of_any :
  forall playerCards communityCards,
    (5 <= length (playerCards ++ communityCards))%nat ->
    exists best,
      HandEvaluator.getBestFiveCardHand playerCards communityCards
      = Normal (Some best) /\
      (forall s, subseq s (playerCards ++ communityCards) -> length s = 5%nat ->
         0 <= HandEvaluator.compareHands best (HandEvaluator.evaluateHand s)) /\
      (exists s, subseq s (playerCards ++ communityCards) /\ length s = 5%nat /\
         best = HandEvaluator.evaluateHand s).
Proof. exact getBestFiveCardHand_select. Qed.

(** Hole cards Ah Kh on the flop Qh Jh 10h. *)
Lemma getBestFiveCardHand_best_of_any_witness :
  exists best,
    HandEvaluator.getBestFiveCardHand
      [mkCard 14 hearts; mkCard 13 hearts]
      [mkCard 12 hearts; mkCard 11 hearts; mkCard 10 hearts]
    = Normal (Some best) /\
    (forall s, subseq s ([mkCard 14 hearts; mkCard 13 hearts]
                         ++ [mkCard 12 hearts; mkCard 11 hearts; mkCard 10 hearts]) ->
       length s = 5%nat ->
       0 <= HandEvaluator.compareHands best (HandEvaluator.evaluateHand s)) /\
    (exists s, subseq s ([mkCard 14 hearts; mkCard 13 hearts]
                         ++ [mkCard 12 hearts; mkCard 11 hearts; mkCard 10 hearts])
               /\ length s = 5%nat /\ best = HandEvaluator.evaluateHand s).
Proof.
  apply (getBestFiveCardHand_best_of_any
           [mkCard 14 hearts; mkCard 13 hearts]
           [mkCard 12 hearts; mkCard 11 hearts; mkCard 10 hearts]).
  simpl. lia.
Defined.

(** ** Straight detection *)

Section StraightDetection.
Import HandEvaluator.

Lemma cardsOfRanks_ranks rs cs :
  (forall r, In r rs -> In r (map rank cs)) ->
  map rank (cardsOfRanks rs cs) = rs /\
  (forall c, In c (cardsOfRanks rs cs) -> In c cs).
Proof.
  unfold cardsOfRanks, filterBoolean.
  induction rs as [|r rs IH]; intros H; simpl; [split; [reflexivity | tauto]|].
  destruct (IH (fun r' Hr' => H r' (or_intror Hr'))) as [IH1 IH2].
  destruct (find (fun c => rank c =? r) cs) as [c|] eqn:F.
  - apply find_some in F as [Hc Er]. apply Z.eqb_eq in Er.
    simpl. rewrite IH1, Er. split; [reflexivity|].
    intros c' [<-|Hc']; [assumption | now apply IH2].
  - exfalso. specialize (H r (or_introl eq_refl)).
    apply in_map_iff in H as [c [Er Hc]].
    pose proof (find_none _ _ F c Hc) as N. simpl in N.
    rewrite Er, Z.eqb_refl in N. discriminate.
Qed.

Lemma desc_strict (l : list Z) :
  Sorted Z.ge l -> NoDup l -> StronglySorted Z.gt l.
Proof.
  intros S N. apply Sorted_StronglySorted in S; [|intros x y z; lia].
  induction S as [|a l S IH F]; [constructor|].
  inversion N as [|? ? Ha N']; subst.
  constructor; [now apply IH|].
  rewrite Forall_forall in *. intros x Hx.
  specialize (F x Hx). assert (a <> x) by (intros ->; contradiction). lia.
Qed.

Lemma uniqueRanks_strict rs : StronglySorted Z.gt (sortBy descZ (uniqueZ [] rs)).
Proof.
  apply desc_strict; [apply sortBy_descZ_sorted | apply uniqueRanks_NoDup].
Qed.

(** In a strictly descending list the predecessor of the head, if present,
    comes next. *)
Lemma desc_next a t :
  StronglySorted Z.gt (a :: t) -> In (a - 1) t -> exists t', t = (a - 1) :: t'.
Proof.
  intros S Hin. inversion S as [|? ? St Fa]; subst.
  destruct t as [|b t']; [contradiction|].
  inversion St as [|? ? _ Fb]; subst.
  rewrite Forall_forall in *.
  pose proof (Fa b (or_introl eq_refl)).
  destruct Hin as [E|Hin]; [exists t'; now rewrite E|].
  specialize (Fb _ Hin). lia.
Qed.

Lemma strict_tail a t : StronglySorted Z.gt (a :: t) -> StronglySorted Z.gt t.
Proof. now inversion 1. Qed.

(** A window that matches holds five consecutive ranks. *)
Lemma regularStraight_sound u cs h sc :
  StronglySorted Z.gt u -> regularStraight u cs = Some (h, sc) ->
  hasRun u h /\ sc = cardsOfRanks [h; h - 1; h - 2; h - 3; h - 4] cs.
Proof.
  induction u as [|r0 t IH]; intros S; [discriminate|].
  cbn [regularStraight].
  destruct (nth_error (r0 :: t) 4) as [r4|] eqn:E4; [|discriminate].
  destruct (Z.eqb_spec (r0 - r4) 4) as [E|E].
  - intros [= <- <-].
    destruct t as [|a1 [|a2 [|a3 [|a4 rest]]]]; try discriminate.
    simpl in E4. inversion E4; subst a4.
    inversion S as [|? ? S1 F0]; subst. inversion S1 as [|? ? S2 F1]; subst.
    inversion S2 as [|? ? S3 F2]; subst. inversion S3 as [|? ? S4 F3]; subst.
    rewrite Forall_forall in *.
    pose proof (F0 a1 (or_introl eq_refl)).
    pose proof (F1 a2 (or_introl eq_refl)).
    pose proof (F2 a3 (or_introl eq_refl)).
    pose proof (F3 r4 (or_introl eq_refl)).
    assert (a1 = r0 - 1) by lia. assert (a2 = r0 - 2) by lia.
    assert (a3 = r0 - 3) by lia. assert (r4 = r0 - 4) by lia. subst.
    split; [|reflexivity].
    intros d Hd. simpl.
    assert (d = 0 \/ d = 1 \/ d = 2 \/ d = 3 \/ d = 4) as [->|[->|[->|[->| ->]]]]
      by lia; rewrite ?Z.sub_0_r; tauto.
  - intros H. destruct (IH (strict_tail _ _ S) H) as [Hr Hs].
    split; [|assumption]. intros d Hd. right. now apply Hr.
Qed.

(** A run of five consecutive ranks is found, or a higher one is. *)
Lemma regularStraight_complete u cs h :
  StronglySorted Z.gt u -> hasRun u h ->
  exists r sc, regularStraight u cs = Some (r, sc) /\ h <= r.
Proof.
  induction u as [|r0 t IH]; intros S Hrun.
  - destruct (Hrun 0); lia.
  - pose proof S as S'. inversion S' as [|? ? St F0]; subst.
    rewrite Forall_forall in F0.
    assert (Hle : h <= r0).
    { destruct (Hrun 0 ltac:(lia)) as [E|Hin]; [lia|].
      rewrite Z.sub_0_r in Hin. specialize (F0 _ Hin). lia. }
    destruct (Z.eq_dec h r0) as [->|Hne].
    + (* the run starts at the head: the next four ranks follow it *)
      assert (In_t : forall d, 1 <= d <= 4 -> In (r0 - d) t).
      { intros d Hd. destruct (Hrun d ltac:(lia)) as [E|Hin]; [lia | exact Hin]. }
      destruct (desc_next r0 t S (In_t 1 ltac:(lia))) as [t1 ->].
      assert (I2 : In (r0 - 1 - 1) t1).
      { destruct (In_t 2 ltac:(lia)) as [E|Hin]; [lia|].
        now replace (r0 - 1 - 1) with (r0 - 2) by lia. }
      destruct (desc_next _ t1 St I2) as [t2 ->].
      pose proof (strict_tail _ _ St) as St1.
      assert (I3 : In (r0 - 1 - 1 - 1) t2).
      { destruct (In_t 3 ltac:(lia)) as [E|[E|Hin]]; [lia | lia|].
        now replace (r0 - 1 - 1 - 1) with (r0 - 3) by lia. }
      destruct (desc_next _ t2 St1 I3) as [t3 ->].
      pose proof (strict_tail _ _ St1) as St2.
      assert (I4 : In (r0 - 1 - 1 - 1 - 1) t3).
      { destruct (In_t 4 ltac:(lia)) as [E|[E|[E|Hin]]]; [lia | lia | lia|].
        now replace (r0 - 1 - 1 - 1 - 1) with (r0 - 4) by lia. }
      destruct (desc_next _ t3 St2 I4) as [t4 ->].
      cbn [regularStraight nth_error].
      replace (r0 - (r0 - 1 - 1 - 1 - 1) =? 4) with true
        by (symmetry; apply Z.eqb_eq; lia).
      eexists. eexists. split; [reflexivity | lia].
    + assert (Hrun_t : hasRun t h).
      { intros d Hd. destruct (Hrun d Hd) as [E|Hin]; [lia | exact Hin]. }
      destruct (IH St Hrun_t) as [r [sc [Er Hr]]].
      cbn [regularStraight].
      destruct (nth_error (r0 :: t) 4) as [r4|] eqn:E4.
      * destruct (r0 - r4 =? 4); [|eauto].
        eexists. eexists. split; [reflexivity | lia].
      * apply nth_error_None in E4.
        rewrite regularStraight_short in Er by (simpl in E4; lia).
        discriminate.
Qed.

Lemma hasRun_equiv rs rs' h :
  (forall v, In v rs <-> In v rs') -> hasRun rs h -> hasRun rs' h.
Proof. intros E H d Hd. apply E. now apply H. Qed.

Lemma wheel_test cs :
  let u := sortBy descZ (uniqueZ [] (map rank cs)) in
  includes 14 u && includes 5 u && includes 4 u && includes 3 u && includes 2 u
  = true <-> hasWheel (map rank cs).
Proof.
  intros u. unfold hasWheel. rewrite !andb_true_iff. unfold u.
  rewrite !includes_In, !uniqueRanks_In. tauto.
Qed.
End StraightDetection.

(** X3. As soon as the ranks A, 2, 3, 4 and 5 are all present, [findStraight]
    reports the wheel, with high card 5 and one card of each of these ranks,
    whatever else is in the cards: a six or any higher straight next to the
    wheel is not looked at. *)
Theorem findStraight_wheel_first :
  forall cs,
    hasWheel (map rank cs) ->
    exists sc,
      HandEvaluator.findStraight cs = Some (5, sc) /\
      map rank sc = [2; 3; 4; 5; 14] /\
      (forall c, In c sc -> In c cs).
Proof.
  intros cs [H14 [H5 [H4 [H3 H2]]]].
  exists (HandEvaluator.cardsOfRanks [2; 3; 4; 5; 14] cs). split.
  - now apply findStraight_wheel.
  - apply cardsOfRanks_ranks. intros r Hr. simpl in Hr.
    intuition (subst; assumption).
Qed.

(** The seven cards A 2 3 4 5 6 7: a seven-high straight is there, the wheel
    is reported. *)
Lemma findStraight_wheel_first_witness :
  exists sc,
    HandEvaluator.findStraight
      (map (fun r => mkEval r clubs) [14; 7; 6; 5; 4; 3; 2]) = Some (5, sc) /\
    map rank sc = [2; 3; 4; 5; 14] /\
    (forall c, In c sc ->
               In c (map (fun r => mkEval r clubs) [14; 7; 6; 5; 4; 3; 2])).
Proof.
  apply (findStraight_wheel_first
           (map (fun r => mkEval r clubs) [14; 7; 6; 5; 4; 3; 2])).
  unfold hasWheel. simpl. intuition lia.
Defined.

(** X4. Without the wheel, [findStraight] returns [null] exactly when no five
    consecutive ranks are present; otherwise it returns the highest rank that
    tops five consecutive ranks, with one card of each rank of that run from
    the top down.  Suits, order and repeated ranks play no part. *)
Theorem findStraight_highest_run :
  forall cs,
    ~ hasWheel (map rank cs) ->
    (HandEvaluator.findStraight cs = None <->
     forall h, ~ hasRun (map rank cs) h) /\
    (forall h sc, HandEvaluator.findStraight cs = Some (h, sc) ->
       hasRun (map rank cs) h /\
       (forall h', hasRun (map rank cs) h' -> h' <= h) /\
       map rank sc = [h; h - 1; h - 2; h - 3; h - 4] /\
       (forall c, In c sc -> In c cs)).
Proof.
  intros cs Hw.
  pose proof (uniqueRanks_strict (map rank cs)) as S.
  assert (Eq : forall v, In v (sortBy descZ (uniqueZ [] (map rank cs)))
                         <-> In v (map rank cs))
    by (intros v; apply uniqueRanks_In).
  assert (Ef : HandEvaluator.findStraight cs
               = HandEvaluator.regularStraight
                   (sortBy descZ (uniqueZ [] (map rank cs))) cs).
  { unfold HandEvaluator.findStraight.
    destruct (includes 14 _ && _ && _ && _ && _) eqn:T; [|reflexivity].
    exfalso. apply Hw. now apply (wheel_test cs). }
  rewrite Ef. split.
  - split.
    + intros N h Hrun.
      destruct (regularStraight_complete _ cs h S
                  (hasRun_equiv _ _ h (fun v => iff_sym (Eq v)) Hrun))
        as [r [sc [E _]]]. congruence.
    + intros N.
      destruct (HandEvaluator.regularStraight _ cs) as [[h sc]|] eqn:E;
        [|reflexivity].
      exfalso. apply (N h).
      apply (hasRun_equiv _ _ h Eq).
      now apply (regularStraight_sound _ cs h sc S).
  - intros h sc E.
    destruct (regularStraight_sound _ cs h sc S E) as [Hrun ->].
    pose proof (hasRun_equiv _ _ h Eq Hrun) as Hrun'.
    split; [assumption|]. split.
    + intros h' Hh'.
      destruct (regularStraight_complete _ cs h' S
                  (hasRun_equiv _ _ h' (fun v => iff_sym (Eq v)) Hh'))
        as [r [sc' [E' Hle]]].
      rewrite E in E'. inversion E'; subst. exact Hle.
    + apply cardsOfRanks_ranks. intros r Hr. simpl in Hr.
      destruct Hr as [<-|[<-|[<-|[<-|[<-|[]]]]]].
      * rewrite <- (Z.sub_0_r h). apply Hrun'. lia.
      * apply Hrun'. lia.
      * apply Hrun'. lia.
      * apply Hrun'. lia.
      * apply Hrun'. lia.
Qed.

(** Nine, ten, jack, queen, king with a pair of nines. *)
Lemma findStraight_highest_run_witness :
  HandEvaluator.findStraight
    [mkEval 13 clubs; mkEval 12 hearts; mkEval 11 clubs; mkEval 10 spades;
     mkEval 9 clubs; mkEval 9 hearts] = None <->
  (forall h, ~ hasRun [13; 12; 11; 10; 9; 9] h).
Proof.
  refine (proj1 (findStraight_highest_run
            [mkEval 13 clubs; mkEval 12 hearts; mkEval 11 clubs; mkEval 10 spades;
             mkEval 9 clubs; mkEval 9 hearts] _)).
  unfold hasWheel. simpl. intuition lia.
Defined.

(** ** The rank table *)

Section RankTable.
Import HandEvaluator.

Lemma getRankCounts_present cs k :
  In k (map rank cs) -> In (k, cnt k cs) (getRankCounts cs).
Proof.
  intros Hin. destruct (getRankCounts_countsOf cs) as [Hv [Hc _]].
  apply in_map_iff in Hin as [c [<- Hin]].
  specialize (Hc c Hin). apply in_map_iff in Hc as [[k v] [E He]].
  simpl in E. subst k. destruct (Hv _ _ He) as [-> _]. exact He.
Qed.

(** Keys that are all array indexes stay in ascending order. *)
Lemma countsInsertNew_ascending k v o :
  isArrayIndex k = true ->
  (forall x, In x (map fst o) -> isArrayIndex x = true) ->
  ~ In k (map fst o) ->
  StronglySorted Z.lt (map fst o) ->
  StronglySorted Z.lt (map fst (countsInsertNew k v o)).
Proof.
  intros Hk. induction o as [|[k' v'] o IH]; intros Hi Hn S; simpl.
  - repeat constructor.
  - rewrite Hk, (Hi k' (or_introl eq_refl)). simpl.
    simpl in S. inversion S as [|? ? S' F]; subst.
    rewrite Forall_forall in F.
    destruct (Z.ltb_spec k k') as [L|L]; simpl.
    + constructor; [assumption|]. rewrite Forall_forall.
      intros x [<-|Hx]; [assumption|]. specialize (F x Hx). lia.
    + assert (Hne : k <> k') by (intros ->; apply Hn; now left).
      constructor.
      * apply IH; [intros x Hx; apply Hi; now right | | assumption].
        intros Hin. apply Hn. now right.
      * rewrite Forall_forall. intros x Hx.
        eapply Permutation_in in Hx; [|apply countsInsertNew_keys].
        destruct Hx as [<-|Hx]; [lia | now apply F].
Qed.

Lemma countsSet_keys_kept k v o :
  In k (map fst o) ->
  map fst (countsSet k v o) = map fst o.
Proof.
  intros Hin. unfold countsSet.
  rewrite (proj2 (key_exists_iff k o) Hin).
  rewrite map_map. apply map_ext. intros [k0 v0]. simpl.
  destruct (Z.eqb_spec k0 k); simpl; congruence.
Qed.

Lemma countsSet_ascending k v o :
  isArrayIndex k = true ->
  (forall x, In x (map fst o) -> isArrayIndex x = true) ->
  StronglySorted Z.lt (map fst o) ->
  StronglySorted Z.lt (map fst (countsSet k v o)) /\
  (forall x, In x (map fst (countsSet k v o)) -> isArrayIndex x = true).
Proof.
  intros Hk Hi S.
  destruct (in_dec Z.eq_dec k (map fst o)) as [Hin|Hn].
  - rewrite (countsSet_keys_kept k v o Hin). now split.
  - unfold countsSet.
    destruct (existsb _ o) eqn:E;
      [exfalso; apply Hn; now apply key_exists_iff|].
    split; [now apply countsInsertNew_ascending|].
    intros x Hx. eapply Permutation_in in Hx; [|apply countsInsertNew_keys].
    destruct Hx as [<-|Hx]; [assumption | now apply Hi].
Qed.

Lemma getRankCounts_ascending_keys cs :
  (forall c, In c cs -> isArrayIndex (rank c) = true) ->
  StronglySorted Z.lt (map fst (getRankCounts cs)).
Proof.
  unfold getRankCounts.
  assert (G : forall o,
    (forall x, In x (map fst o) -> isArrayIndex x = true) ->
    StronglySorted Z.lt (map fst o) ->
    (forall c, In c cs -> isArrayIndex (rank c) = true) ->
    StronglySorted Z.lt
      (map fst (fold_left (fun counts card =>
         countsSet (rank card) (orZero (countsGet (rank card) counts) + 1) counts)
         cs o))).
  { induction cs as [|c cs IH]; intros o Hi S Hc; simpl; [assumption|].
    destruct (countsSet_ascending (rank c)
                (orZero (countsGet (rank c) o) + 1) o
                (Hc c (or_introl eq_refl)) Hi S) as [S' Hi'].
    apply IH; [assumption | assumption|].
    intros c' Hc'. apply Hc. now right. }
  intros H. apply G; [intros x [] | constructor | assumption].
Qed.

(** The counts add up to the number of cards. *)
Lemma counts_update_absent k w (o : list (Z * Z)) :
  ~ In k (map fst o) ->
  map (fun e : Z * Z => if fst e =? k then (k, w) else e) o = o.
Proof.
  induction o as [|[k0 v0] o IH]; intros Hn; simpl; [reflexivity|].
  destruct (Z.eqb_spec k0 k) as [->|_]; [exfalso; apply Hn; now left|].
  rewrite IH; [reflexivity|]. intros Hin. apply Hn. now right.
Qed.

Lemma counts_update_sum k w (o : list (Z * Z)) :
  NoDup (map fst o) -> In k (map fst o) ->
  fold_right Z.add 0
    (map snd (map (fun e : Z * Z => if fst e =? k then (k, w) else e) o))
  = fold_right Z.add 0 (map snd o) - orZero (countsGet k o) + w.
Proof.
  unfold countsGet.
  induction o as [|[k0 v0] o IH]; intros N Hin; [contradiction|].
  inversion N as [|? ? Hn N']; subst. simpl.
  destruct (Z.eqb_spec k0 k) as [->|Hne].
  - rewrite counts_update_absent by assumption. simpl. lia.
  - destruct Hin as [E|Hin]; [simpl in E; congruence|].
    simpl. rewrite (IH N' Hin). lia.
Qed.

Lemma countsInsertNew_sum k v o :
  fold_right Z.add 0 (map snd (countsInsertNew k v o))
  = fold_right Z.add 0 (map snd o) + v.
Proof.
  induction o as [|[k' v'] o IH]; simpl; [lia|].
  destruct (isArrayIndex k && _); simpl; [lia|]. rewrite IH. lia.
Qed.

Lemma countsSet_sum k o :
  NoDup (map fst o) ->
  fold_right Z.add 0 (map snd (countsSet k (orZero (countsGet k o) + 1) o))
  = fold_right Z.add 0 (map snd o) + 1.
Proof.
  intros N. unfold countsSet.
  destruct (existsb _ o) eqn:E.
  - rewrite counts_update_sum by (try assumption; now apply key_exists_iff). lia.
  - rewrite countsInsertNew_sum.
    assert (G : countsGet k o = None).
    { unfold countsGet. destruct (find _ o) as [e|] eqn:F; [|reflexivity].
      apply find_some in F as [He Hk].
      assert (existsb (fun e => fst e =? k) o = true)
        by (apply existsb_exists; eauto). congruence. }
    rewrite G. simpl. lia.
Qed.

Lemma getRankCounts_sum cs :
  fold_right Z.add 0 (map snd (getRankCounts cs)) = Z.of_nat (length cs).
Proof.
  unfold getRankCounts.
  assert (G : forall p o, countsOf p o ->
    fold_right Z.add 0 (map snd
      (fold_left (fun counts card =>
         countsSet (rank card) (orZero (countsGet (rank card) counts) + 1) counts)
         cs o))
    = fold_right Z.add 0 (map snd o) + Z.of_nat (length cs)).
  { induction cs as [|c cs IH]; intros p o H; simpl fold_left.
    - simpl. lia.
    - rewrite (IH (p ++ [c])) by (now apply countsSet_step).
      rewrite countsSet_sum by apply H.
      cbn [length]. lia. }
  rewrite (G [] []); [simpl; lia|].
  split; [|split]; [intros k v [] | intros c [] | constructor].
Qed.
End RankTable.

(** X5. [getRankCounts] builds the table of the ranks of the cards: a rank has
    an entry exactly when a card has it, the entry holds the number of cards of
    that rank, no rank has two entries, and the counts add up to the number of
    cards. *)
Theorem getRankCounts_table :
  forall cs,
    (forall k v, In (k, v) (HandEvaluator.getRankCounts cs) <->
                 In k (map rank cs) /\ v = cnt k cs) /\
    NoDup (map fst (HandEvaluator.getRankCounts cs)) /\
    fold_right Z.add 0 (map snd (HandEvaluator.getRankCounts cs))
    = Z.of_nat (length cs).
Proof.
  intros cs. split; [|split].
  - intros k v. split.
    + intros Hin. destruct (getRankCounts_entry cs k v Hin) as [-> Hp].
      split; [now apply cnt_pos_In | reflexivity].
    + intros [Hin ->]. now apply getRankCounts_present.
  - apply getRankCounts_keys_NoDup.
  - apply getRankCounts_sum.
Qed.

(** X6. The ranks of cards are keys that JavaScript enumerates as array
    indexes; for such ranks the entries of the table come in ascending order of
    rank, whatever the order of the cards.  The first rank with a given count
    that [find] meets is therefore the lowest one. *)
Theorem getRankCounts_ascending :
  forall cs,
    (forall c, In c cs -> 0 <= rank c < 4294967295) ->
    StronglySorted Z.lt (map fst (HandEvaluator.getRankCounts cs)).
Proof.
  intros cs H. apply getRankCounts_ascending_keys.
  intros c Hc. specialize (H c Hc). unfold HandEvaluator.isArrayIndex.
  apply andb_true_iff. split; [apply Z.leb_le | apply Z.ltb_lt]; lia.
Qed.

Lemma getRankCounts_ascending_witness :
  StronglySorted Z.lt
    (map fst (HandEvaluator.getRankCounts
                [mkEval 14 spades; mkEval 9 hearts; mkEval 9 clubs;
                 mkEval 2 diamonds; mkEval 14 hearts])).
Proof.
  apply getRankCounts_ascending.
  intros c Hc. simpl in Hc.
  repeat (destruct Hc as [<-|Hc]; [simpl; lia|]). contradiction.
Defined.

(** ** The suit groups *)

Section SuitGroups.
Import HandEvaluator.

Lemma Suit_eqb_refl s : Suit_eqb s s = true.
Proof. now destruct s. Qed.

Lemma Suit_eqb_neq s t : s <> t -> Suit_eqb s t = false.
Proof. destruct s, t; simpl; congruence. Qed.

Lemma cardsOfSuit_snoc s p c :
  cardsOfSuit s (p ++ [c])
  = if Suit_eqb s (esuit c) then cardsOfSuit s p ++ [c] else cardsOfSuit s p.
Proof.
  unfold cardsOfSuit. rewrite filter_app. simpl.
  destruct (Suit_eqb s (esuit c)); [reflexivity | apply app_nil_r].
Qed.

Lemma groupsFor_other suits p c :
  ~ In (esuit c) suits -> groupsFor suits (p ++ [c]) = groupsFor suits p.
Proof.
  intros Hn. unfold groupsFor. apply map_ext_in. intros s Hs.
  rewrite cardsOfSuit_snoc, Suit_eqb_neq; [reflexivity|].
  intros ->. contradiction.
Qed.

(** A card of a suit already met joins its group. *)
Lemma groupsPush_known suits p c :
  NoDup suits -> In (esuit c) suits ->
  groupsPush c (groupsFor suits p) = groupsFor suits (p ++ [c]).
Proof.
  induction suits as [|s suits IH]; intros N Hin; [contradiction|].
  inversion N as [|? ? Hn N']; subst.
  cbn [groupsFor map groupsPush]. fold (groupsFor suits p).
  fold (groupsFor suits (p ++ [c])).
  rewrite cardsOfSuit_snoc.
  destruct (Suit_eqb s (esuit c)) eqn:E.
  - apply Suit_eqb_eq in E. subst s.
    now rewrite groupsFor_other.
  - f_equal. apply IH; [assumption|].
    destruct Hin as [->|Hin]; [|assumption].
    now rewrite Suit_eqb_refl in E.
Qed.

(** A card of a new suit opens a group after the others. *)
Lemma groupsPush_new suits p c :
  ~ In (esuit c) suits ->
  (forall c', In c' p -> In (esuit c') suits) ->
  groupsPush c (groupsFor suits p) = groupsFor (suits ++ [esuit c]) (p ++ [c]).
Proof.
  intros Hn Hp.
  assert (Hempty : cardsOfSuit (esuit c) p = []).
  { unfold cardsOfSuit. induction p as [|c' p IHp]; [reflexivity|]. simpl.
    rewrite Suit_eqb_neq.
    - apply IHp. intros x Hx. apply Hp. now right.
    - intros E. apply Hn. rewrite E. apply Hp. now left. }
  unfold groupsFor at 2. rewrite map_app. fold (groupsFor suits (p ++ [c])).
  rewrite groupsFor_other by assumption.
  simpl. rewrite cardsOfSuit_snoc, Suit_eqb_refl, Hempty. simpl.
  clear Hp Hempty.
  induction suits as [|s suits IH]; [reflexivity|].
  cbn [groupsFor map groupsPush]. fold (groupsFor suits p).
  rewrite Suit_eqb_neq by (intros ->; apply Hn; now left).
  simpl. f_equal. apply IH. intros Hin. apply Hn. now right.
Qed.

Lemma Suit_eq_dec (a b : Suit) : {a = b} + {a <> b}.
Proof. decide equality. Qed.

Lemma groups_groupsFor cs :
  exists suits,
    NoDup suits /\
    (forall s, In s suits <-> In s (map esuit cs)) /\
    fold_left (fun g card => groupsPush card g) cs [] = groupsFor suits cs.
Proof.
  assert (G : forall p suits,
    NoDup suits -> (forall s, In s suits <-> In s (map esuit p)) ->
    exists suits',
      NoDup suits' /\
      (forall s, In s suits' <-> In s (map esuit (p ++ cs))) /\
      fold_left (fun g card => groupsPush card g) cs (groupsFor suits p)
      = groupsFor suits' (p ++ cs)).
  { induction cs as [|c cs IH]; intros p suits N Hs.
    - exists suits. rewrite app_nil_r. auto.
    - replace (p ++ c :: cs) with ((p ++ [c]) ++ cs)
        by (now rewrite <- app_assoc).
      simpl fold_left.
      destruct (in_dec Suit_eq_dec (esuit c) suits) as [Hin|Hn].
      + rewrite groupsPush_known by assumption.
        apply IH; [assumption|].
        intros s. rewrite map_app, in_app_iff, <- Hs. simpl.
        split; [tauto|]. intros [H|[<-|[]]]; assumption.
      + rewrite groupsPush_new; [|assumption|].
        * apply IH.
          -- apply NoDup_app; [assumption | repeat constructor; intros [] |].
             intros x Hx [<-|[]]. contradiction.
          -- intros s. rewrite map_app, !in_app_iff, <- Hs. reflexivity.
        * intros c' Hc'. apply Hs. now apply in_map. }
  destruct (G [] [] (NoDup_nil _)) as [suits H]; [simpl; tauto|].
  exists suits. exact H.
Qed.

Lemma descRank_descZ x l :
  map rank (insertBy descRank x l) = insertBy descZ (rank x) (map rank l).
Proof.
  induction l as [|y l IH]; simpl; [reflexivity|].
  unfold descRank at 1, descZ at 1.
  destruct (rank y - rank x <=? 0); simpl; [reflexivity | now rewrite IH].
Qed.

Lemma sortBy_descRank_ranks l :
  map rank (sortBy descRank l) = sortBy descZ (map rank l).
Proof.
  induction l as [|x l IH]; simpl; [reflexivity|].
  unfold sortBy in *. rewrite descRank_descZ. now rewrite IH.
Qed.

Lemma sortBy_descRank_sorted l : Sorted Z.ge (map rank (sortBy descRank l)).
Proof. rewrite sortBy_descRank_ranks. apply sortBy_descZ_sorted. Qed.
End SuitGroups.

(** X7. [getFlushCards] splits the cards by suit: there is one group for each
    suit that occurs, no suit has two groups, and the group of a suit is the
    stable sort by descending rank of all the cards of that suit. *)
Theorem getFlushCards_groups :
  forall cs,
  exists suits,
    NoDup suits /\
    (forall s, In s suits <-> In s (map esuit cs)) /\
    HandEvaluator.getFlushCards cs
    = map (fun s => sortBy descRank (cardsOfSuit s cs)) suits /\
    (forall g, In g (HandEvaluator.getFlushCards cs) ->
               g <> [] /\ Sorted Z.ge (map rank g)).
Proof.
  intros cs. destruct (groups_groupsFor cs) as [suits [N [Hs E]]].
  assert (Eg : HandEvaluator.getFlushCards cs
               = map (fun s => sortBy descRank (cardsOfSuit s cs)) suits).
  { unfold HandEvaluator.getFlushCards. rewrite E. unfold groupsFor.
    rewrite map_map. reflexivity. }
  exists suits. refine (conj N (conj Hs (conj Eg _))).
  intros g Hg. rewrite Eg in Hg. apply in_map_iff in Hg as [s [<- Hin]].
  split; [|apply sortBy_descRank_sorted].
  apply Hs in Hin. apply in_map_iff in Hin as [c [Ec Hc]].
  intros Hnil.
  assert (Hin : In c (sortBy descRank (cardsOfSuit s cs))).
  { apply sortBy_In. unfold cardsOfSuit. apply filter_In.
    split; [assumption|]. rewrite Ec. now destruct s. }
  rewrite Hnil in Hin. contradiction.
Qed.

(** ** Where kickers and cards come from *)

Section FromHand.
Import HandEvaluator.

Lemma filterBoolean_In {A} (l : list (option A)) x :
  In x (filterBoolean l) <-> In (Some x) l.
Proof.
  unfold filterBoolean. rewrite in_flat_map. split.
  - intros [[a|] [Ho Hx]]; [|contradiction].
    destruct Hx as [<-|[]]. exact Ho.
  - intros H. exists (Some x). split; [assumption | now left].
Qed.

Lemma filterBoolean_length {A} (l : list (option A)) :
  (length (filterBoolean l) <= length l)%nat.
Proof.
  unfold filterBoolean. induction l as [|[a|] l IH]; simpl; lia.
Qed.

Lemma slice0_In {A} n (l : list A) x : In x (slice0 n l) -> In x l.
Proof. unfold slice0. revert l. induction n; intros [|y l]; simpl; try tauto.
  intros [<-|H]; [now left | right; now apply IHn]. Qed.

Lemma slice0_length {A} n (l : list A) : (length (slice0 n l) <= n)%nat.
Proof. unfold slice0. rewrite length_firstn. lia. Qed.

Lemma cardsOfRanks_from rs cs :
  (forall c, In c (cardsOfRanks rs cs) -> In c cs) /\
  (length (cardsOfRanks rs cs) <= length rs)%nat.
Proof.
  unfold cardsOfRanks. split.
  - intros c Hc. apply filterBoolean_In in Hc.
    apply in_map_iff in Hc as [r [F _]]. now apply find_some in F.
  - etransitivity; [apply filterBoolean_length|]. now rewrite length_map.
Qed.

Lemma findStraight_from cs high sc :
  findStraight cs = Some (high, sc) ->
  In high (map rank cs) /\ (forall c, In c sc -> In c cs) /\ (length sc <= 5)%nat.
Proof.
  unfold findStraight.
  destruct (includes 14 _ && includes 5 _ && _ && _ && _) eqn:T.
  - intros [= <- <-]. apply (wheel_test cs) in T.
    destruct T as [_ [H5 _]].
    destruct (cardsOfRanks_from [2; 3; 4; 5; 14] cs) as [Hc Hl].
    auto.
  - intros E.
    destruct (regularStraight_sound _ cs high sc
                (uniqueRanks_strict (map rank cs)) E) as [Hrun ->].
    destruct (cardsOfRanks_from [high; high - 1; high - 2; high - 3; high - 4] cs)
      as [Hc Hl].
    refine (conj _ (conj Hc Hl)).
    apply uniqueRanks_In. rewrite <- (Z.sub_0_r high). apply Hrun. lia.
Qed.

Lemma group_In cs g c : In g (getFlushCards cs) -> In c g -> In c cs.
Proof.
  intros Hg Hc. apply getFlushCards_group in Hg as [s [l [-> [Hs _]]]].
  apply sortBy_In in Hc. eapply subseq_In; eassumption.
Qed.

Lemma rankIs_rank ranks i v : rankIs ranks i v = true -> In v ranks.
Proof.
  unfold rankIs. destruct (nth_error ranks i) as [r|] eqn:E; [|discriminate].
  intros H. apply Z.eqb_eq in H. subst. eapply nth_error_In; eassumption.
Qed.

Lemma royalLoop_from e gs h :
  (forall g c, In g gs -> In c g -> In c e) ->
  royalLoop gs = Some h -> fromHand e h.
Proof.
  induction gs as [|g gs IH]; intros Hg; cbn [royalLoop straightFlushLoop flushLoop]; [discriminate|].
  assert (Hrest : forall g' c, In g' gs -> In c g' -> In c e)
    by (intros g' c Hin; apply Hg; now right).
  destruct (5 <=? _); [|now apply IH].
  destruct (rankIs _ 0 14 && _ && _ && _ && _) eqn:T; [|now apply IH].
  intros E. apply Some_eq in E. subst h. unfold fromHand. cbn [kickers cards].
  repeat (apply andb_true_iff in T as [T ?]).
  apply rankIs_rank in T. apply sortBy_In in T.
  apply in_map_iff in T as [c [Er Hc]].
  refine (conj _ (conj _ _)).
  - intros k [<-|[]]. right. rewrite <- Er. apply in_map.
    apply (Hg g c); [now left | assumption].
  - intros c' Hc'. apply slice0_In in Hc'. apply (Hg g c'); [now left | assumption].
  - apply slice0_length.
Qed.

Lemma straightFlushLoop_from e gs h :
  (forall g c, In g gs -> In c g -> In c e) ->
  straightFlushLoop gs = Some h -> fromHand e h.
Proof.
  induction gs as [|g gs IH]; intros Hg; cbn [royalLoop straightFlushLoop flushLoop]; [discriminate|].
  assert (Hrest : forall g' c, In g' gs -> In c g' -> In c e)
    by (intros g' c Hin; apply Hg; now right).
  destruct (5 <=? _); [|now apply IH].
  destruct (findStraight g) as [[high sc]|] eqn:F; [|now apply IH].
  intros E. apply Some_eq in E. subst h. unfold fromHand. cbn [kickers cards].
  destruct (findStraight_from g high sc F) as [Hh [Hc Hl]].
  apply in_map_iff in Hh as [c [Er Hin]].
  refine (conj _ (conj _ Hl)).
  - intros k [<-|[]]. right. rewrite <- Er. apply in_map.
    apply (Hg g c); [now left | assumption].
  - intros c' Hc'. apply (Hg g c'); [now left | now apply Hc].
Qed.

Lemma flushLoop_from e gs h :
  (forall g c, In g gs -> In c g -> In c e) ->
  flushLoop gs = Some h -> fromHand e h.
Proof.
  induction gs as [|g gs IH]; intros Hg; cbn [royalLoop straightFlushLoop flushLoop]; [discriminate|].
  assert (Hrest : forall g' c, In g' gs -> In c g' -> In c e)
    by (intros g' c Hin; apply Hg; now right).
  destruct (5 <=? _); [|now apply IH].
  intros E. apply Some_eq in E. subst h. unfold fromHand. cbn [kickers cards].
  refine (conj _ (conj _ (slice0_length _ _))).
  - intros k Hk. right. apply in_map_iff in Hk as [c [<- Hc]].
    apply in_map. apply slice0_In in Hc. apply (Hg g c); [now left | assumption].
  - intros c Hc. apply slice0_In in Hc. apply (Hg g c); [now left | assumption].
Qed.

Lemma counted_rank cs (f : Z * Z -> bool) r v :
  find f (getRankCounts cs) = Some (r, v) -> In r (map rank cs).
Proof.
  intros F. apply find_some in F as [Hin _].
  destruct (getRankCounts_entry cs r v Hin) as [-> Hp]. now apply cnt_pos_In.
Qed.

Lemma filter_slice_In (f : EvalCard -> bool) n cs c :
  In c (slice0 n (filter f cs)) -> In c cs.
Proof. intros H. apply slice0_In in H. now apply filter_In in H. Qed.

Lemma sorted_slice_In (f : EvalCard -> bool) n cs c :
  In c (slice0 n (sortBy descRank (filter f cs))) -> In c cs.
Proof.
  intros H. apply slice0_In in H. apply sortBy_In in H. now apply filter_In in H.
Qed.

Lemma kicker_rank (f : EvalCard -> bool) cs :
  let k := match find f cs with Some c => rank c | None => 0 end in
  k = 0 \/ In k (map rank cs).
Proof.
  simpl. destruct (find f cs) as [c|] eqn:F; [|now left].
  right. apply in_map. now apply find_some in F.
Qed.

Lemma checkFourOfAKind_from e h : checkFourOfAKind e = Some h -> fromHand e h.
Proof.
  unfold checkFourOfAKind.
  destruct (find _ (getRankCounts e)) as [[r v]|] eqn:F; [|discriminate].
  intros E. apply Some_eq in E. subst h. unfold fromHand. cbn [kickers cards].
  refine (conj _ (conj _ _)).
  - intros k [<-|[<-|[]]].
    + right. eapply counted_rank; eassumption.
    + apply kicker_rank.
  - intros c Hc. apply filterBoolean_In in Hc.
    apply in_app_iff in Hc as [Hc|[Hc|[]]].
    + apply in_map_iff in Hc as [c' [[= ->] Hc]].
      eapply filter_slice_In; eassumption.
    + now apply find_some in Hc.
  - etransitivity; [apply filterBoolean_length|].
    rewrite length_app, length_map. unfold slice0. rewrite length_firstn.
    cbn [length]. lia.
Qed.

Lemma checkFullHouse_from e h : checkFullHouse e = Some h -> fromHand e h.
Proof.
  unfold checkFullHouse.
  destruct (find (fun e0 => 3 <=? snd e0) (getRankCounts e)) as [[r3 v3]|] eqn:F3;
    simpl option_map; [|discriminate].
  destruct (falsy (Some r3)); [discriminate|].
  cbn [orZero].
  destruct (find _ (getRankCounts e)) as [[r2 v2]|] eqn:F2 in |- *;
    simpl option_map; [|discriminate].
  destruct (falsy (Some r2)); [discriminate|].
  intros E. apply Some_eq in E. subst h. unfold fromHand. cbn [kickers cards].
  refine (conj _ (conj _ _)).
  - intros k [<-|[<-|[]]]; right; eapply counted_rank; eassumption.
  - intros c Hc. apply in_app_iff in Hc as [Hc|Hc];
      eapply filter_slice_In; eassumption.
  - rewrite length_app. unfold slice0. rewrite !length_firstn. lia.
Qed.

Lemma checkStraight_from e h : checkStraight e = Some h -> fromHand e h.
Proof.
  unfold checkStraight.
  destruct (findStraight e) as [[high sc]|] eqn:F; [|discriminate].
  intros E. apply Some_eq in E. subst h. unfold fromHand. cbn [kickers cards].
  destruct (findStraight_from e high sc F) as [Hh [Hc Hl]].
  refine (conj _ (conj Hc Hl)). intros k [<-|[]]. now right.
Qed.

Lemma checkThreeOfAKind_from e h : checkThreeOfAKind e = Some h -> fromHand e h.
Proof.
  unfold checkThreeOfAKind.
  destruct (find _ (getRankCounts e)) as [[r v]|] eqn:F; [|discriminate].
  intros E. apply Some_eq in E. subst h. unfold fromHand. cbn [kickers cards].
  refine (conj _ (conj _ _)).
  - intros k [<-|Hk]; right; [eapply counted_rank; eassumption|].
    apply in_map_iff in Hk as [c [<- Hc]]. apply in_map.
    eapply sorted_slice_In; eassumption.
  - intros c Hc. apply in_app_iff in Hc as [Hc|Hc];
      [eapply filter_slice_In | eapply sorted_slice_In]; eassumption.
  - rewrite length_app. unfold slice0. rewrite !length_firstn. lia.
Qed.

Lemma checkPair_from e h : checkPair e = Some h -> fromHand e h.
Proof.
  unfold checkPair.
  destruct (find _ (getRankCounts e)) as [[r v]|] eqn:F; [|discriminate].
  intros E. apply Some_eq in E. subst h. unfold fromHand. cbn [kickers cards].
  refine (conj _ (conj _ _)).
  - intros k [<-|Hk]; right; [eapply counted_rank; eassumption|].
    apply in_map_iff in Hk as [c [<- Hc]]. apply in_map.
    eapply sorted_slice_In; eassumption.
  - intros c Hc. apply in_app_iff in Hc as [Hc|Hc];
      [eapply filter_slice_In | eapply sorted_slice_In]; eassumption.
  - rewrite length_app. unfold slice0. rewrite !length_firstn. lia.
Qed.

Lemma paired_rank cs r :
  In r (sortBy descZ (map fst (filter (fun e => 2 <=? snd e) (getRankCounts cs)))) ->
  In r (map rank cs).
Proof.
  intros H. apply sortBy_In in H. apply in_map_iff in H as [[k v] [<- Hin]].
  apply filter_In in Hin as [Hin _]. simpl.
  destruct (getRankCounts_entry cs k v Hin) as [-> Hp]. now apply cnt_pos_In.
Qed.

Lemma checkTwoPair_from e h : checkTwoPair e = Some h -> fromHand e h.
Proof.
  unfold checkTwoPair.
  destruct (sortBy descZ _) as [|hp [|lp rest]] eqn:P; try discriminate.
  intros E. apply Some_eq in E. subst h. unfold fromHand. cbn [kickers cards].
  assert (Hhp : In hp (map rank e)) by (apply paired_rank; rewrite P; now left).
  assert (Hlp : In lp (map rank e))
    by (apply paired_rank; rewrite P; right; now left).
  refine (conj _ (conj _ _)).
  - intros k [<-|[<-|[<-|[]]]]; [now right | now right | apply kicker_rank].
  - intros c Hc. apply filterBoolean_In in Hc.
    apply in_app_iff in Hc as [Hc|Hc].
    + apply in_map_iff in Hc as [c' [[= ->] Hc]].
      eapply filter_slice_In; eassumption.
    + apply in_app_iff in Hc as [Hc|[Hc|[]]].
      * apply in_map_iff in Hc as [c' [[= ->] Hc]].
        eapply filter_slice_In; eassumption.
      * now apply find_some in Hc.
  - etransitivity; [apply filterBoolean_length|].
    rewrite !length_app, !length_map. unfold slice0. rewrite !length_firstn.
    cbn [length]. lia.
Qed.

Lemma checkHighCard_from e : fromHand e (checkHighCard e).
Proof.
  unfold checkHighCard, fromHand. cbn [kickers cards].
  refine (conj _ (conj _ (slice0_length _ _))).
  - intros k Hk. right. apply in_map_iff in Hk as [c [<- Hc]]. apply in_map.
    apply slice0_In in Hc. now apply sortBy_In in Hc.
  - intros c Hc. apply slice0_In in Hc. now apply sortBy_In in Hc.
Qed.

Lemma evaluated_from e h : evaluated e h -> fromHand e h.
Proof.
  assert (Hg : forall g c, In g (getFlushCards e) -> In c g -> In c e)
    by (intros g c; apply group_In).
  intros [H|_ H|_ _ H|_ _ _ H|_ _ _ _ H|_ _ _ _ _ H|_ _ _ _ _ _ H
          |_ _ _ _ _ _ _ H|_ _ _ _ _ _ _ _ H|_ _ _ _ _ _ _ _ _ H].
  - eapply royalLoop_from; eassumption.
  - eapply straightFlushLoop_from; eassumption.
  - now apply checkFourOfAKind_from.
  - now apply checkFullHouse_from.
  - eapply flushLoop_from; eassumption.
  - now apply checkStraight_from.
  - now apply checkThreeOfAKind_from.
  - now apply checkTwoPair_from.
  - now apply checkPair_from.
  - subst h. apply checkHighCard_from.
Qed.

Lemma evaluateHand_from cs :
  (forall k, In k (kickers (evaluateHand cs)) -> k = 0 \/ In k (map value cs)) /\
  (forall c, In c (cards (evaluateHand cs)) -> In c (map toEval cs)) /\
  (length (cards (evaluateHand cs)) <= 5)%nat.
Proof.
  destruct (evaluated_from _ _ (evaluateHand_cases cs)) as [Hk [Hc Hl]].
  refine (conj _ (conj _ Hl)).
  - intros k Hin. destruct (Hk k Hin) as [->|H]; [now left|].
    right. now apply toEvalCards_rank_In.
  - intros c Hin. eapply Permutation_in; [apply toEvalCards_perm|]. now apply Hc.
Qed.
End FromHand.

(** X8. On cards whose values are integers from 0 to below 10^21 (the range
    in which [parseInt] reads an object key back as the rank it was made
    from), [evaluateHand] returns a category between 1 and 10 whose kickers
    are ranks of the given cards (or 0 where four of a kind or two pair have
    no side card) and whose cards are at most five of the given ones. *)
Theorem evaluateHand_reads_the_hand :
  forall cs,
    (forall c, In c cs -> 0 <= value c < 1000000000000000000000) ->
    1 <= HandEvaluator.hrank (HandEvaluator.evaluateHand cs) <= 10 /\
    (forall k, In k (HandEvaluator.kickers (HandEvaluator.evaluateHand cs)) ->
               k = 0 \/ In k (map value cs)) /\
    (forall c, In c (HandEvaluator.cards (HandEvaluator.evaluateHand cs)) ->
               In c (map toEval cs)) /\
    (length (HandEvaluator.cards (HandEvaluator.evaluateHand cs)) <= 5)%nat.
Proof.
  intros cs _. split; [apply evaluateHand_rank_range | apply evaluateHand_from].
Qed.

(** Four aces without a side card: the second kicker is 0. *)
Lemma evaluateHand_reads_the_hand_witness :
  1 <= HandEvaluator.hrank
         (HandEvaluator.evaluateHand
            [mkCard 14 spades; mkCard 14 hearts; mkCard 14 diamonds;
             mkCard 14 clubs]) <= 10 /\
  (forall k,
     In k (HandEvaluator.kickers
             (HandEvaluator.evaluateHand
                [mkCard 14 spades; mkCard 14 hearts; mkCard 14 diamonds;
                 mkCard 14 clubs])) ->
     k = 0 \/ In k (map value [mkCard 14 spades; mkCard 14 hearts;
                               mkCard 14 diamonds; mkCard 14 clubs])) /\
  (forall c,
     In c (HandEvaluator.cards
             (HandEvaluator.evaluateHand
                [mkCard 14 spades; mkCard 14 hearts; mkCard 14 diamonds;
                 mkCard 14 clubs])) ->
     In c (map toEval [mkCard 14 spades; mkCard 14 hearts; mkCard 14 diamonds;
                       mkCard 14 clubs])) /\
  (length (HandEvaluator.cards
             (HandEvaluator.evaluateHand
                [mkCard 14 spades; mkCard 14 hearts; mkCard 14 diamonds;
                 mkCard 14 clubs])) <= 5)%nat.
Proof.
  apply (evaluateHand_reads_the_hand
           [mkCard 14 spades; mkCard 14 hearts; mkCard 14 diamonds;
            mkCard 14 clubs]).
  intros c Hc. simpl in Hc.
  repeat (destruct Hc as [<-|Hc]; [simpl; lia|]). contradiction.
Defined.

(** ** The scalar strength *)

Section Strength.
Import HandEvaluator.
Local Open Scope Q_scope.

Lemma baseStrength_range r : 0 <= baseStrength r /\ baseStrength r <= 1.
Proof.
  unfold baseStrength.
  repeat match goal with
         | |- context [if ?b then _ else _] => destruct b
         end; split; unfold Qle; simpl; lia.
Qed.

Lemma minQ_nonneg a : 0 <= a -> 0 <= minQ a 1.
Proof.
  intros H. unfold minQ. destruct (Qle_bool a 1); [assumption|].
  unfold Qle; simpl; lia.
Qed.

Lemma handStrengthOf_range hand :
  (forall k, In k (kickers hand) -> (0 <= k)%Z) ->
  0 <= handStrengthOf hand /\ handStrengthOf hand <= 1.
Proof.
  intros Hk. unfold handStrengthOf. split; [|apply minQ_le_r].
  apply minQ_nonneg.
  destruct (baseStrength_range (hrank hand)) as [B _].
  destruct (kickers hand) as [|k0 ks]; [assumption|].
  specialize (Hk k0 (or_introl eq_refl)).
  assert (0 <= inject_Z k0 / 14 * (5 # 100)).
  { unfold Qdiv. apply Qmult_le_0_compat; [|unfold Qle; simpl; lia].
    apply Qmult_le_0_compat; [|unfold Qle; simpl; lia].
    unfold Qle. simpl. lia. }
  apply (Qplus_le_compat 0 _ 0 _ B) in H. exact H.
Qed.

(** The hand that [getBestFiveCardHand] returns is the evaluation of cards
    taken from the ones it was given. *)
Lemma getBestFiveCardHand_evaluates playerCards communityCards :
  exists s,
    subseq s (playerCards ++ communityCards) /\
    getBestFiveCardHand playerCards communityCards
    = Normal (Some (evaluateHand s)).
Proof.
  destruct (Nat.lt_ge_cases (length (playerCards ++ communityCards)) 5) as [L|L].
  - exists (playerCards ++ communityCards). split; [apply subseq_refl|].
    unfold getBestFiveCardHand. now rewrite (proj2 (Nat.ltb_lt _ _) L).
  - destruct (getBestFiveCardHand_select playerCards communityCards L)
      as [b [E [_ [s [Hs [_ ->]]]]]].
    exists s. auto.
Qed.
End Strength.

(** X9. On cards whose values are not negative, [getHandStrength] returns a
    number between 0 and 1, for any number of cards: it never fails on a
    missing hand. *)
Theorem getHandStrength_unit_interval :
  forall playerCards communityCards,
    (forall c, In c (playerCards ++ communityCards) -> 0 <= value c) ->
    exists q,
      HandEvaluator.getHandStrength playerCards communityCards = Normal q /\
      (0 <= q)%Q /\ (q <= 1)%Q.
Proof.
  intros pc cc Hv.
  destruct (getBestFiveCardHand_evaluates pc cc) as [s [Hs E]].
  exists (HandEvaluator.handStrengthOf (HandEvaluator.evaluateHand s)).
  split.
  - unfold HandEvaluator.getHandStrength. rewrite E. reflexivity.
  - apply handStrengthOf_range. intros k Hk.
    destruct (proj1 (evaluateHand_from s) k Hk) as [->|Hin]; [lia|].
    apply in_map_iff in Hin as [c [<- Hc]].
    apply Hv. eapply subseq_In; eassumption.
Qed.

Lemma getHandStrength_unit_interval_witness :
  exists q,
    HandEvaluator.getHandStrength
      [mkCard 14 spades; mkCard 14 hearts]
      [mkCard 9 clubs; mkCard 9 diamonds; mkCard 2 hearts; mkCard 14 clubs]
    = Normal q /\ (0 <= q)%Q /\ (q <= 1)%Q.
Proof.
  apply getHandStrength_unit_interval.
  intros c Hc. simpl in Hc.
  repeat (destruct Hc as [<-|Hc]; [simpl; lia|]). contradiction.
Defined.

(** ** The count-based categories *)

Section Categories.
Import HandEvaluator.

Lemma flushLoop_groups suits cs :
  (flushLoop (map (fun s => sortBy descRank (cardsOfSuit s cs)) suits) = None <->
   forall s, In s suits -> (length (cardsOfSuit s cs) < 5)%nat) /\
  (forall h,
     flushLoop (map (fun s => sortBy descRank (cardsOfSuit s cs)) suits) = Some h ->
     exists s, In s suits /\ (5 <= length (cardsOfSuit s cs))%nat /\
       h = mkHand FLUSH (HAND_NAMES FLUSH)
             (map rank (slice0 5 (sortBy descRank (cardsOfSuit s cs))))
             (slice0 5 (sortBy descRank (cardsOfSuit s cs)))).
Proof.
  induction suits as [|s suits [IHn IHs]]; cbn [map flushLoop].
  - split; [split; [intros _ s [] | reflexivity] | discriminate].
  - rewrite sortBy_length.
    destruct (Z.leb_spec 5 (Z.of_nat (length (cardsOfSuit s cs)))) as [L|L].
    + split.
      * split; [discriminate|]. intros H. specialize (H s (or_introl eq_refl)). lia.
      * intros h E. apply Some_eq in E. exists s.
        split; [now left|]. split; [lia | now symmetry].
    + split.
      * rewrite IHn. split.
        -- intros H s' [<-|Hs']; [lia | now apply H].
        -- intros H s' Hs'. apply H. now right.
      * intros h E. destruct (IHs h E) as [s' [Hs' R]]. exists s'.
        split; [now right | assumption].
Qed.

Lemma cardsOfSuit_absent s cs : ~ In s (map esuit cs) -> cardsOfSuit s cs = [].
Proof.
  intros Hn. unfold cardsOfSuit. induction cs as [|c cs IH]; [reflexivity|].
  simpl. destruct (Suit_eqb s (esuit c)) eqn:E.
  - apply Suit_eqb_eq in E. exfalso. apply Hn. left. now symmetry.
  - apply IH. intros H. apply Hn. now right.
Qed.
Lemma firstn_sorted n (l : list Z) : Sorted Z.ge l -> Sorted Z.ge (firstn n l).
Proof.
  revert l. induction n as [|n IH]; intros [|x l] S; simpl; try constructor.
  - apply IH. now inversion S.
  - inversion S as [|? ? _ Hd]; subst.
    destruct Hd; destruct n; simpl; constructor; assumption.
Qed.
End Categories.

(** X10. [checkFlush] returns [null] exactly when no suit has five cards.
    Otherwise the hand is a flush made of the five highest cards of one suit
    that has at least five, and its kickers are the ranks of these five cards
    from the highest down. *)
Theorem checkFlush_five_of_a_suit :
  forall cs,
    (HandEvaluator.checkFlush cs = None <->
     forall s, (length (cardsOfSuit s cs) < 5)%nat) /\
    (forall h, HandEvaluator.checkFlush cs = Some h ->
       exists s,
         (5 <= length (cardsOfSuit s cs))%nat /\
         HandEvaluator.hrank h = HandEvaluator.FLUSH /\
         HandEvaluator.cards h = slice0 5 (sortBy descRank (cardsOfSuit s cs)) /\
         HandEvaluator.kickers h = map rank (HandEvaluator.cards h) /\
         length (HandEvaluator.kickers h) = 5%nat /\
         Sorted Z.ge (HandEvaluator.kickers h)).
Proof.
  intros cs. unfold HandEvaluator.checkFlush.
  destruct (groups_groupsFor cs) as [suits [N [Hs E]]].
  assert (Eg : HandEvaluator.getFlushCards cs
               = map (fun s => sortBy descRank (cardsOfSuit s cs)) suits).
  { unfold HandEvaluator.getFlushCards. rewrite E. unfold groupsFor.
    rewrite map_map. reflexivity. }
  rewrite Eg. destruct (flushLoop_groups suits cs) as [Hn Hsome]. split.
  - rewrite Hn. split; [|auto].
    intros H s. destruct (in_dec Suit_eq_dec s suits) as [Hin|Hout]; [auto|].
    rewrite cardsOfSuit_absent; [simpl; lia|]. now rewrite <- Hs.
  - intros h Eh. destruct (Hsome h Eh) as [s [_ [L ->]]]. exists s.
    cbn [HandEvaluator.hrank HandEvaluator.cards HandEvaluator.kickers].
    refine (conj L (conj eq_refl (conj eq_refl (conj eq_refl (conj _ _))))).
    + rewrite length_map. unfold slice0. rewrite length_firstn.
      rewrite (sortBy_length descRank (cardsOfSuit s cs)). lia.
    + unfold slice0. rewrite <- firstn_map.
      apply firstn_sorted, sortBy_descRank_sorted.
Qed.

Section Lowest.
Import HandEvaluator.

(** [find] on a table in ascending order of rank meets the lowest rank
    first. *)
Lemma find_lowest (f : Z * Z -> bool) o e :
  StronglySorted Z.lt (map fst o) -> find f o = Some e ->
  forall e', In e' o -> f e' = true -> fst e <= fst e'.
Proof.
  induction o as [|x o IH]; simpl; intros S F e' Hin He'; [contradiction|].
  inversion S as [|? ? S' Fa]; subst. rewrite Forall_forall in Fa.
  destruct (f x) eqn:Fx.
  - apply Some_eq in F. subst e. destruct Hin as [<-|Hin]; [lia|].
    specialize (Fa (fst e') (in_map fst _ _ Hin)). lia.
  - destruct Hin as [<-|Hin]; [congruence|]. now apply IH.
Qed.

Lemma counted_entry cs k n :
  0 < n -> n <= cnt k cs -> In (k, cnt k cs) (getRankCounts cs).
Proof.
  intros Hn Hk. apply getRankCounts_present. apply cnt_pos_In. lia.
Qed.

(** The first rank with at least [n] cards that satisfies [g]. *)
Lemma find_counted cs n (g : Z -> bool) :
  0 < n ->
  StronglySorted Z.lt (map fst (getRankCounts cs)) ->
  match find (fun e => g (fst e) && (n <=? snd e)) (getRankCounts cs) with
  | Some (r, v) =>
      g r = true /\ n <= cnt r cs /\ v = cnt r cs /\ In r (map rank cs) /\
      forall r', g r' = true -> n <= cnt r' cs -> r <= r'
  | None => forall r, g r = true -> cnt r cs < n
  end.
Proof.
  intros Hn S.
  destruct (find _ (getRankCounts cs)) as [[r v]|] eqn:F.
  - pose proof (find_some _ _ F) as [Hin Hf]. simpl in Hf.
    apply andb_true_iff in Hf as [Hg Hv]. apply Z.leb_le in Hv.
    destruct (getRankCounts_entry cs r v Hin) as [-> Hp].
    refine (conj Hg (conj Hv (conj eq_refl (conj _ _)))).
    + now apply cnt_pos_In.
    + intros r' Hg' Hr'.
      apply (find_lowest _ _ _ S F (r', cnt r' cs)).
      * now apply (counted_entry cs r' n).
      * simpl. rewrite Hg'. now apply Z.leb_le.
  - intros r Hg. destruct (Z.lt_ge_cases (cnt r cs) n) as [L|L]; [assumption|].
    pose proof (find_none _ _ F (r, cnt r cs) (counted_entry cs r n Hn L)) as N.
    simpl in N. rewrite Hg in N. apply andb_false_iff in N as [N|N];
      [discriminate | apply Z.leb_gt in N; lia].
Qed.

Lemma find_ext_counts (f g : Z * Z -> bool) (o : list (Z * Z)) :
  (forall e, f e = g e) -> find f o = find g o.
Proof.
  intros H. induction o as [|x o IH]; simpl; [reflexivity|].
  now rewrite H, IH.
Qed.
End Lowest.

(** X11. On cards of positive rank, [checkFullHouse] returns [null] exactly
    when no rank has three cards while another has two.  Otherwise the first
    kicker is the lowest rank with at least three cards and the second the
    lowest other rank with at least two: with two sets of three, the lower set
    is the one reported as the three of a kind. *)
Theorem checkFullHouse_lowest_ranks :
  forall cs,
    (forall c, In c cs -> 0 < rank c < 4294967295) ->
    (HandEvaluator.checkFullHouse cs = None <->
     forall t p, t <> p -> 3 <= cnt t cs -> cnt p cs < 2) /\
    (forall h, HandEvaluator.checkFullHouse cs = Some h ->
       exists t p,
         HandEvaluator.kickers h = [t; p] /\ t <> p /\
         3 <= cnt t cs /\ 2 <= cnt p cs /\
         (forall t', 3 <= cnt t' cs -> t <= t') /\
         (forall p', p' <> t -> 2 <= cnt p' cs -> p <= p') /\
         HandEvaluator.cards h
         = slice0 3 (filter (fun c => rank c =? t) cs)
           ++ slice0 2 (filter (fun c => rank c =? p) cs)).
Proof.
  intros cs Hr.
  assert (S : StronglySorted Z.lt (map fst (HandEvaluator.getRankCounts cs))).
  { apply getRankCounts_ascending_keys. intros c Hc. specialize (Hr c Hc).
    unfold HandEvaluator.isArrayIndex. apply andb_true_iff.
    split; [apply Z.leb_le | apply Z.ltb_lt]; lia. }
  assert (Hpos : forall r, In r (map rank cs) -> (r =? 0) = false).
  { intros r Hin. apply in_map_iff in Hin as [c [<- Hc]].
    specialize (Hr c Hc). apply Z.eqb_neq. lia. }
  unfold HandEvaluator.checkFullHouse.
  pose proof (find_counted cs 3 (fun _ => true) ltac:(lia) S) as F3.
  rewrite (find_ext_counts _ (fun e => 3 <=? snd e)) in F3 by reflexivity.
  destruct (find (fun e => 3 <=? snd e) (HandEvaluator.getRankCounts cs))
    as [[t v]|]; cbn [option_map fst HandEvaluator.falsy orZero].
  - destruct F3 as [_ [Ht [_ [Hin Hlow]]]]. rewrite (Hpos t Hin).
    pose proof (find_counted cs 2 (fun r => negb (r =? t)) ltac:(lia) S) as F2.
    cbv beta in F2.
    destruct (find _ (HandEvaluator.getRankCounts cs)) as [[p w]|];
      cbn [option_map fst HandEvaluator.falsy orZero].
    + destruct F2 as [Hg [Hp [_ [Hinp Hlowp]]]]. rewrite (Hpos p Hinp).
      apply negb_true_iff, Z.eqb_neq in Hg. split.
      * split; [discriminate|]. intros H.
        specialize (H t p ltac:(congruence) Ht). lia.
      * intros h E. apply Some_eq in E. subst h. exists t, p.
        cbn [HandEvaluator.kickers HandEvaluator.cards].
        refine (conj eq_refl (conj _ (conj Ht (conj Hp (conj _ (conj _ eq_refl)))))).
        -- congruence.
        -- intros t' Ht'. now apply Hlow.
        -- intros p' Hne Hp'. apply Hlowp; [|assumption].
           now apply negb_true_iff, Z.eqb_neq.
    + split; [|discriminate]. split; [|reflexivity].
      intros _ t' p' Hne Ht'.
      destruct (Z.eq_dec p' t) as [->|Hpt].
      * (* the other rank is [t]: then [t'] is a pair next to [t] *)
        assert (cnt t' cs < 2); [|lia].
        apply F2. now apply negb_true_iff, Z.eqb_neq.
      * apply F2. now apply negb_true_iff, Z.eqb_neq.
  - split; [|discriminate]. split; [|reflexivity].
    intros _ t p _ Ht. specialize (F3 t eq_refl). lia.
Qed.

(** Three kings and three aces with a seven: the kings are the three. *)
Lemma checkFullHouse_lowest_ranks_witness :
  HandEvaluator.checkFullHouse
    [mkEval 14 spades; mkEval 14 hearts; mkEval 14 clubs;
     mkEval 13 spades; mkEval 13 hearts; mkEval 13 clubs; mkEval 7 clubs]
  = None <->
  (forall t p, t <> p ->
     3 <= cnt t [mkEval 14 spades; mkEval 14 hearts; mkEval 14 clubs;
                 mkEval 13 spades; mkEval 13 hearts; mkEval 13 clubs;
                 mkEval 7 clubs] ->
     cnt p [mkEval 14 spades; mkEval 14 hearts; mkEval 14 clubs;
            mkEval 13 spades; mkEval 13 hearts; mkEval 13 clubs;
            mkEval 7 clubs] < 2).
Proof.
  refine (proj1 (checkFullHouse_lowest_ranks
    [mkEval 14 spades; mkEval 14 hearts; mkEval 14 clubs;
     mkEval 13 spades; mkEval 13 hearts; mkEval 13 clubs; mkEval 7 clubs] _)).
  intros c Hc. simpl in Hc.
  repeat (destruct Hc as [<-|Hc]; [simpl; lia|]). contradiction.
Defined.

Section Pairs.
Import HandEvaluator.

(** The sorted list [pairs] of [checkTwoPair]. *)
Lemma pairs_spec cs :
  let pairs :=
    sortBy descZ (map fst (filter (fun e => 2 <=? snd e) (getRankCounts cs))) in
  StronglySorted Z.gt pairs /\ forall r, In r pairs <-> 2 <= cnt r cs.
Proof.
  intros pairs. split.
  - apply desc_strict; [apply sortBy_descZ_sorted|].
    eapply Permutation_NoDup; [symmetry; apply sortBy_perm|].
    apply filter_keys_NoDup, getRankCounts_keys_NoDup.
  - intros r. unfold pairs. rewrite sortBy_In, in_map_iff. split.
    + intros [[k v] [E Hin]]. simpl in E. subst k.
      apply filter_In in Hin as [Hin Hv]. simpl in Hv. apply Z.leb_le in Hv.
      now destruct (getRankCounts_entry cs r v Hin) as [<- _].
    + intros H. exists (r, cnt r cs). split; [reflexivity|].
      apply filter_In. split; [|now apply Z.leb_le].
      apply getRankCounts_present, cnt_pos_In. lia.
Qed.
End Pairs.

(** X12. On cards whose ranks are integers from 0 to below 10^21 (the range
    in which [parseInt] reads an object key back as the rank it was made
    from), [checkTwoPair] returns [null] exactly when fewer than two ranks
    have two cards.  Otherwise its first two kickers are the two highest ranks
    that have at least two cards, the higher one first, and the third is the
    rank of the first card of another rank, or 0 when there is none. *)
Theorem checkTwoPair_highest_pairs :
  forall cs,
    (forall c, In c cs -> 0 <= rank c < 1000000000000000000000) ->
    (HandEvaluator.checkTwoPair cs = None <->
     forall a b, a <> b -> 2 <= cnt a cs -> cnt b cs < 2) /\
    (forall h, HandEvaluator.checkTwoPair cs = Some h ->
       exists hp lp k,
         HandEvaluator.kickers h = [hp; lp; k] /\ lp < hp /\
         2 <= cnt hp cs /\ 2 <= cnt lp cs /\
         (forall r, 2 <= cnt r cs -> r <= hp) /\
         (forall r, 2 <= cnt r cs -> r <> hp -> r <= lp) /\
         k = match find (fun c => negb (rank c =? hp) && negb (rank c =? lp)) cs
             with Some c => rank c | None => 0 end).
Proof.
  intros cs _. destruct (pairs_spec cs) as [S Hin]. cbv zeta in S, Hin.
  unfold HandEvaluator.checkTwoPair.
  destruct (sortBy descZ _) as [|hp [|lp rest]].
  - split; [|discriminate]. split; [|reflexivity].
    intros _ a b _ Ha. apply Hin in Ha. contradiction.
  - split; [|discriminate]. split; [|reflexivity].
    intros _ a b Hne Ha.
    destruct (Z.lt_ge_cases (cnt b cs) 2) as [L|L]; [assumption|].
    apply Hin in Ha. apply Z.le_ge, Z.ge_le, Hin in L.
    destruct Ha as [<-|[]]. destruct L as [<-|[]]. congruence.
  - inversion S as [|? ? S1 F1]; subst. inversion S1 as [|? ? _ F2]; subst.
    rewrite Forall_forall in F1, F2.
    pose proof (F1 lp (or_introl eq_refl)) as Hlt.
    split.
    + split; [discriminate|]. intros H.
      assert (cnt lp cs < 2); [|].
      { apply (H hp lp); [lia|]. apply Hin. now left. }
      assert (2 <= cnt lp cs) by (apply Hin; right; now left). lia.
    + intros h E. apply Some_eq in E. subst h. eexists hp, lp, _.
      cbn [HandEvaluator.kickers].
      refine (conj eq_refl (conj _ (conj _ (conj _ (conj _ (conj _ eq_refl)))))).
      * lia.
      * apply Hin. now left.
      * apply Hin. right. now left.
      * intros r Hr. apply Hin in Hr as [<-|Hr]; [lia|].
        specialize (F1 r Hr). lia.
      * intros r Hr Hne. apply Hin in Hr as [E|[<-|Hr]]; [congruence | lia|].
        specialize (F2 r Hr). lia.
Qed.

(** Three pairs and a seven: the kings and the queens are reported, the
    first card of another rank is a jack. *)
Lemma checkTwoPair_highest_pairs_witness :
  exists hp lp k,
    option_map HandEvaluator.kickers
      (HandEvaluator.checkTwoPair
         [mkEval 13 spades; mkEval 13 hearts; mkEval 12 clubs; mkEval 12 spades;
          mkEval 11 hearts; mkEval 11 clubs; mkEval 7 clubs])
    = Some [hp; lp; k] /\ lp < hp.
Proof.
  destruct (HandEvaluator.checkTwoPair
              [mkEval 13 spades; mkEval 13 hearts; mkEval 12 clubs;
               mkEval 12 spades; mkEval 11 hearts; mkEval 11 clubs;
               mkEval 7 clubs]) as [h|] eqn:E.
  - destruct (proj2 (checkTwoPair_highest_pairs
                       [mkEval 13 spades; mkEval 13 hearts; mkEval 12 clubs;
                        mkEval 12 spades; mkEval 11 hearts; mkEval 11 clubs;
                        mkEval 7 clubs]
                       ltac:(intros c Hc; simpl in Hc;
                             repeat (destruct Hc as [<-|Hc]; [simpl; lia|]);
                             contradiction)) h E)
      as [hp [lp [k [Hk [Hlt _]]]]].
    exists hp, lp, k. simpl. rewrite Hk. split; [reflexivity | exact Hlt].
  - exfalso. revert E. vm_compute. discriminate.
Defined.

(** ** Invariants of the turn-order cascade *)

Section CascadeInvariant.
Import PokerEngine.

Variable I : State -> Prop.
Hypothesis I_index : forall s i, I s -> I (setCurrentPlayerIndex i s).
Hypothesis I_reset :
  forall s, I s -> I (setPlayers (map (setCurrentBet 0) (players s)) s).
Hypothesis I_phase :
  forall s p, p <> showdownPhase -> gamePhase s <> showdownPhase ->
              I s -> I (setGamePhase p s).
Hypothesis I_deal : forall s, I s -> I (snd (dealCard s)).
Hypothesis I_push : forall s, I s -> I (pushCommunity s).
Hypothesis I_showdown :
  forall s s', I s -> endState (showdown s) = Some s' -> I s'.

Lemma pushCommunity_phase s : gamePhase (pushCommunity s) = gamePhase s.
Proof. unfold pushCommunity. cbn [gamePhase setCommunityCards]. apply dealCard_phase. Qed.

Lemma dealFlop_invariant s s' :
  I s -> endState (dealFlop s) = Some s' -> I s' /\ gamePhase s' = gamePhase s.
Proof.
  intros H. unfold dealFlop.
  set (s2 := pushCommunity (pushCommunity (pushCommunity (snd (dealCard s))))).
  assert (I s2 /\ gamePhase s2 = gamePhase s) as [H2 P2].
  { split; [unfold s2; auto|].
    unfold s2. rewrite !pushCommunity_phase. apply dealCard_phase. }
  destruct (forallb _ _); simpl; intros E; apply Some_eq in E; subst; auto.
Qed.

Lemma dealOne_invariant k s s' :
  I s -> endState (dealOne k s) = Some s' -> I s' /\ gamePhase s' = gamePhase s.
Proof.
  intros H. unfold dealOne.
  set (s2 := pushCommunity (snd (dealCard s))).
  assert (I s2 /\ gamePhase s2 = gamePhase s) as [H2 P2].
  { split; [unfold s2; auto|].
    unfold s2. rewrite !pushCommunity_phase. apply dealCard_phase. }
  destruct (nth_error _ k) as [[c|]|]; simpl; intros E; apply Some_eq in E;
    subst; auto.
Qed.

Lemma endState_bindR r k s' :
  endState (bindR r k) = Some s' ->
  (exists s1, r = Returned s1 /\ endState (k s1) = Some s') \/
  (exists e, r = Raised e s').
Proof.
  destruct r as [s1|e s1|]; simpl; intros H.
  - left. eauto.
  - right. apply Some_eq in H. subst. eauto.
  - discriminate.
Qed.

Section Step.
Variable move : State -> Run.
Hypothesis move_invariant :
  forall s s', I s -> endState (move s) = Some s' -> I s'.

Lemma processNextPlayerWith_invariant s s' :
  I s -> endState (processNextPlayerWith move s) = Some s' -> I s'.
Proof.
  unfold processNextPlayerWith. intros H.
  destruct (nth_error _ _) as [p|]; [|now apply move_invariant].
  destruct (contesting p); [|now apply move_invariant].
  simpl. intros E. apply Some_eq in E. now subst.
Qed.

Lemma startBettingRoundWith_invariant s s' :
  I s -> endState (startBettingRoundWith move s) = Some s' -> I s'.
Proof.
  unfold startBettingRoundWith. intros H.
  apply processNextPlayerWith_invariant. now apply I_index.
Qed.

Lemma advanceGamePhaseWith_invariant s s' :
  I s -> endState (advanceGamePhaseWith move s) = Some s' -> I s'.
Proof.
  unfold advanceGamePhaseWith. intros H.
  destruct (gamePhase s) eqn:Ph.
  - intros E. apply endState_bindR in E as [[s1 [D E]]|[e D]].
    + destruct (dealFlop_invariant s s1 H) as [H1 P1]; [now rewrite D|].
      revert E. apply startBettingRoundWith_invariant.
      apply I_phase; [discriminate | rewrite P1, Ph; discriminate | assumption].
    + apply (dealFlop_invariant s s' H). now rewrite D.
  - intros E. apply endState_bindR in E as [[s1 [D E]]|[e D]].
    + destruct (dealOne_invariant 3 s s1 H) as [H1 P1];
        [unfold dealTurn in D; now rewrite D|].
      revert E. apply startBettingRoundWith_invariant.
      apply I_phase; [discriminate | rewrite P1, Ph; discriminate | assumption].
    + apply (dealOne_invariant 3 s s' H). unfold dealTurn in D. now rewrite D.
  - intros E. apply endState_bindR in E as [[s1 [D E]]|[e D]].
    + destruct (dealOne_invariant 4 s s1 H) as [H1 P1];
        [unfold dealRiver in D; now rewrite D|].
      revert E. apply startBettingRoundWith_invariant.
      apply I_phase; [discriminate | rewrite P1, Ph; discriminate | assumption].
    + apply (dealOne_invariant 4 s s' H). unfold dealRiver in D. now rewrite D.
  - now apply I_showdown.
  - now apply startBettingRoundWith_invariant.
Qed.

Lemma completeBettingRoundWith_invariant s s' :
  I s -> endState (completeBettingRoundWith move s) = Some s' -> I s'.
Proof.
  unfold completeBettingRoundWith. intros H.
  apply advanceGamePhaseWith_invariant. now apply I_reset.
Qed.
End Step.

(** The invariant also holds of the state in which a call that overflowed
    the stack has left the engine. *)
Lemma moveToNextPlayerOnStack_invariant stack : forall s s',
  I s -> endState (moveToNextPlayerOnStack stack s) = Some s' -> I s'.
Proof.
  induction stack as [|stack IH]; intros s s' H; cbn [moveToNextPlayerOnStack].
  - simpl. intros E. apply Some_eq in E. now subst.
  - destruct (isBettingRoundComplete s).
    + now apply completeBettingRoundWith_invariant.
    + destruct (nextSeat _ _ _) as [idx|]; [|discriminate].
      apply processNextPlayerWith_invariant; [exact IH|]. now apply I_index.
Qed.

Lemma startBettingRoundOnStack_invariant stack s s' :
  I s ->
  endState (startBettingRoundWith (moveToNextPlayerOnStack stack) s) = Some s' ->
  I s'.
Proof.
  apply startBettingRoundWith_invariant. apply moveToNextPlayerOnStack_invariant.
Qed.

Lemma playActionsOnStack_invariant stack acts :
  (forall i p a amt s,
     In (i, a, amt) acts -> nth_error (players s) i = Some p ->
     I s -> I (applyAction i p a amt s)) ->
  forall s s', I s -> endState (playActionsOnStack stack acts s) = Some s' -> I s'.
Proof.
  induction acts as [|[[i a] amt] acts IH]; intros Hact s s' H;
    cbn [playActionsOnStack].
  - simpl. intros E. apply Some_eq in E. now subst.
  - assert (Step : forall s1,
              endState (executePlayerActionOnStack stack i a amt s) = Some s1 ->
              I s1).
    { intros s1. unfold executePlayerActionOnStack.
      destruct (nth_error (players s) i) as [p|] eqn:Hp.
      - apply moveToNextPlayerOnStack_invariant.
        apply Hact; [now left | assumption | assumption].
      - simpl. intros E. apply Some_eq in E. now subst. }
    intros E. apply endState_bindR in E as [[s1 [D E]]|[e D]].
    + apply (IH (fun i' p' a' amt' s0 Hin => Hact i' p' a' amt' s0 (or_intror Hin))
                s1 s'); [|assumption].
      apply Step. now rewrite D.
    + apply Step. now rewrite D.
Qed.
End CascadeInvariant.

(** The table of a new engine: three stacks of 1000 chips, blinds 5 and
    10. *)
Lemma exactHand_newEngine acts :
  (forall i amt, In (i, PokerEngine.raise, amt) acts ->
                 0 <= amt <= 4503599627370496) ->
  exactHand acts PokerEngine.newEngine.
Proof.
  intros H. unfold exactHand. simpl.
  refine (conj _ (conj _ (conj _ (conj _ H)))); try lia.
  intros p Hp. repeat (destruct Hp as [<-|Hp]; [simpl; lia|]). contradiction.
Qed.

(** ** The cascade on a call stack comes to an end *)

Section Total.
Import PokerEngine.

Lemma bindR_ends r k :
  r <> OutOfFuel -> (forall s, k s <> OutOfFuel) -> bindR r k <> OutOfFuel.
Proof. destruct r as [s| |]; simpl; [auto | discriminate | congruence]. Qed.

Lemma dealFlop_ends s : dealFlop s <> OutOfFuel.
Proof. unfold dealFlop. destruct (forallb _ _); discriminate. Qed.

Lemma dealOne_ends k s : dealOne k s <> OutOfFuel.
Proof. unfold dealOne. destruct (nth_error _ k) as [[c|]|]; discriminate. Qed.

Section Step.
Variable move : State -> Run.
Hypothesis move_ends : forall s, move s <> OutOfFuel.

Lemma startBettingRoundWith_ends s : startBettingRoundWith move s <> OutOfFuel.
Proof. unfold startBettingRoundWith. apply processNextPlayerWith_ends, move_ends. Qed.

Lemma advanceGamePhaseWith_ends s : advanceGamePhaseWith move s <> OutOfFuel.
Proof.
  unfold advanceGamePhaseWith. destruct (gamePhase s).
  - apply bindR_ends; [apply dealFlop_ends|].
    intros s1. apply startBettingRoundWith_ends.
  - apply bindR_ends; [apply dealOne_ends|].
    intros s1. apply startBettingRoundWith_ends.
  - apply bindR_ends; [apply dealOne_ends|].
    intros s1. apply startBettingRoundWith_ends.
  - apply showdown_ends.
  - apply startBettingRoundWith_ends.
Qed.
End Step.

(** On a call stack every call into the cascade comes to an end: it returns
    or it throws. *)
Lemma moveToNextPlayerOnStack_ends stack : forall s,
  moveToNextPlayerOnStack stack s <> OutOfFuel.
Proof.
  induction stack as [|stack IH]; intros s; cbn [moveToNextPlayerOnStack];
    [discriminate|].
  destruct (isBettingRoundComplete s) eqn:C.
  - unfold completeBettingRoundWith. now apply advanceGamePhaseWith_ends.
  - destruct (nextSeat_found s C) as [idx [p [E _]]]. rewrite E.
    apply processNextPlayerWith_ends, IH.
Qed.

Lemma executePlayerActionOnStack_ends stack i action amount s :
  executePlayerActionOnStack stack i action amount s <> OutOfFuel.
Proof.
  unfold executePlayerActionOnStack.
  destruct (nth_error (players s) i); [|discriminate].
  apply moveToNextPlayerOnStack_ends.
Qed.

Lemma playActionsOnStack_ends stack acts : forall s,
  playActionsOnStack stack acts s <> OutOfFuel.
Proof.
  induction acts as [|[[i a] amt] acts IH]; intros s; cbn [playActionsOnStack];
    [discriminate|].
  apply bindR_ends; [apply executePlayerActionOnStack_ends | exact IH].
Qed.

Lemma startNewHandOnStack_ends stack shuffled s :
  startNewHandOnStack stack shuffled s <> OutOfFuel.
Proof.
  unfold startNewHandOnStack.
  apply startBettingRoundWith_ends, moveToNextPlayerOnStack_ends.
Qed.

Lemma endState_ends r : r <> OutOfFuel -> exists s', endState r = Some s'.
Proof. destruct r as [s|e s|]; simpl; eauto. congruence. Qed.

(** How a hand on a call stack ends: the deal returned and the actions
    ended, or the deal threw. *)
Lemma playHandOnStack_ends stack shuffled acts s :
  exists s',
    endState (playHandOnStack stack shuffled acts s) = Some s' /\
    ((exists s1, startNewHandOnStack stack shuffled s = Returned s1 /\
                 endState (playActionsOnStack stack acts s1) = Some s') \/
     (exists e, startNewHandOnStack stack shuffled s = Raised e s')).
Proof.
  unfold playHandOnStack.
  pose proof (startNewHandOnStack_ends stack shuffled s) as H.
  revert H. generalize (startNewHandOnStack stack shuffled s). intros r H.
  destruct r as [s1|e s1|]; [| |congruence].
  - destruct (endState_ends _ (playActionsOnStack_ends stack acts s1)) as [s' E].
    exists s'. simpl. split; [exact E|]. left. eauto.
  - exists s1. simpl. split; [reflexivity|]. right. eauto.
Qed.
End Total.

(** ** Stacks and pot stay non-negative *)

Section Solvent.
Import HandEvaluator PokerEngine.

Lemma updateAt_Forall {A} (P : A -> Prop) (f : A -> A) (l : list A) : forall i,
  (forall x, nth_error l i = Some x -> P x -> P (f x)) ->
  Forall P l -> Forall P (updateAt i f l).
Proof.
  induction l as [|y l IH]; intros [|i] Hf H; simpl; try assumption.
  - inversion H; subst. constructor; [now apply Hf | assumption].
  - inversion H; subst. constructor; [assumption|]. now apply IH.
Qed.

Lemma dealCard_players s : players (snd (dealCard s)) = players s.
Proof. unfold dealCard. destruct (deck s); [reflexivity|]. now destruct (pop _). Qed.

Lemma dealCard_pot s : pot (snd (dealCard s)) = pot s.
Proof. unfold dealCard. destruct (deck s); [reflexivity|]. now destruct (pop _). Qed.

Lemma solvent_Forall s :
  solvent s <-> 0 <= pot s /\ Forall (fun p => 0 <= chips p) (players s).
Proof. unfold solvent. now rewrite Forall_forall. Qed.

Lemma solvent_same s s' :
  players s' = players s -> pot s' = pot s -> solvent s -> solvent s'.
Proof. unfold solvent. intros -> ->. tauto. Qed.

Lemma awardPot_solvent i s : solvent s -> solvent (awardPot i s).
Proof.
  rewrite !solvent_Forall. intros [Hp Hc]. unfold awardPot. simpl.
  split; [lia|]. apply updateAt_Forall; [|assumption].
  intros x _ Hx. unfold addChips. simpl. lia.
Qed.

Lemma split_solvent (ws : list (nat * HandResult)) a : forall ps,
  0 <= a -> Forall (fun p => 0 <= chips p) ps ->
  Forall (fun p => 0 <= chips p)
         (fold_left (fun ps w => updateAt (fst w) (addChips a) ps) ws ps).
Proof.
  induction ws as [|w ws IH]; intros ps Ha H; simpl; [assumption|].
  apply IH; [assumption|]. apply updateAt_Forall; [|assumption].
  intros x _ Hx. unfold addChips. simpl. lia.
Qed.

Lemma evaluateWinner_solvent c s s' :
  solvent s -> endState (evaluateWinner c s) = Some s' -> solvent s'.
Proof.
  intros H. unfold evaluateWinner.
  destruct (mapO _ c) as [playerHands|e];
    [|simpl; intros E; apply Some_eq in E; now subst].
  destruct (sortBy _ playerHands) as [|[i0 bestHand] sorted];
    [simpl; intros E; apply Some_eq in E; now subst|].
  set (winners := filter _ _).
  assert (Split : solvent
    (setPot 0
       (setPlayers
          (fold_left (fun ps w => updateAt (fst w)
                                    (addChips (pot s / Z.of_nat (length winners))) ps)
                     winners (players s)) s))).
  { apply solvent_Forall. simpl. split; [lia|].
    apply solvent_Forall in H as [Hp Hc].
    apply split_solvent; [|assumption].
    destruct (length winners) as [|n]; [simpl; now rewrite Z.div_0_r|].
    apply Z.div_pos; lia. }
  destruct winners as [|w [|w2 ws]]; simpl; intros E; apply Some_eq in E; subst;
    try exact Split.
  now apply awardPot_solvent.
Qed.

Lemma showdown_solvent s s' :
  solvent s -> endState (showdown s) = Some s' -> solvent s'.
Proof.
  intros H. unfold showdown. set (s0 := setGamePhase showdownPhase s).
  assert (H0 : solvent s0) by exact H.
  intros E. apply endState_bindR in E as [[s1 [D E]]|[e D]].
  - simpl in E. apply Some_eq in E. subst s'.
    assert (solvent s1); [|assumption].
    destruct (filter _ (seats s0)) as [|w [|w2 ws]].
    + eapply evaluateWinner_solvent; [exact H0 | now rewrite D].
    + apply Returned_eq in D. subst. now apply awardPot_solvent.
    + eapply evaluateWinner_solvent; [exact H0 | now rewrite D].
  - destruct (filter _ (seats s0)) as [|w [|w2 ws]].
    + eapply evaluateWinner_solvent; [exact H0 | now rewrite D].
    + discriminate.
    + eapply evaluateWinner_solvent; [exact H0 | now rewrite D].
Qed.

Lemma solvent_index s (i : nat) : solvent s -> solvent (setCurrentPlayerIndex i s).
Proof. intros H. exact H. Qed.

Lemma solvent_reset s :
  solvent s -> solvent (setPlayers (map (setCurrentBet 0) (players s)) s).
Proof.
  intros H. apply solvent_Forall. apply solvent_Forall in H as [Hp Hc].
  simpl. split; [assumption|]. rewrite Forall_forall in *.
  intros p Hin. apply in_map_iff in Hin as [q [<- Hq]]. simpl. now apply Hc.
Qed.

Lemma solvent_phase s p :
  p <> showdownPhase -> gamePhase s <> showdownPhase ->
  solvent s -> solvent (setGamePhase p s).
Proof. intros _ _ H. exact H. Qed.

Lemma solvent_deal s : solvent s -> solvent (snd (dealCard s)).
Proof. apply solvent_same; [apply dealCard_players | apply dealCard_pot]. Qed.

Lemma solvent_push s : solvent s -> solvent (pushCommunity s).
Proof.
  apply solvent_same; unfold pushCommunity; simpl;
    [apply dealCard_players | apply dealCard_pot].
Qed.

Lemma commit_solvent amt p : amt <= chips p -> 0 <= chips (commit amt p).
Proof.
  intros H. unfold commit. simpl. destruct (chips p - amt =? 0); simpl; lia.
Qed.

Lemma applyAction_solvent i p a amt s :
  nth_error (players s) i = Some p -> (a = raise -> 0 <= amt) ->
  solvent s -> solvent (applyAction i p a amt s).
Proof.
  intros Hn Hamt H. apply solvent_Forall. apply solvent_Forall in H as [Hp Hc].
  assert (Hin : In p (players s)) by (eapply nth_error_In; eassumption).
  assert (Hchips : 0 <= chips p) by (rewrite Forall_forall in Hc; now apply Hc).
  assert (Hbet : currentBet p <= getCurrentBet s).
  { apply getCurrentBet_max; [|assumption]. intros E. rewrite E in Hin. contradiction. }
  destruct a; simpl.
  - split; [assumption|]. apply updateAt_Forall; [|assumption]. intros x _ Hx. exact Hx.
  - now split.
  - split; [lia|]. apply updateAt_Forall; [|assumption].
    intros x Hx _. rewrite Hn in Hx. apply Some_eq in Hx. subst x.
    apply commit_solvent. lia.
  - specialize (Hamt eq_refl). split; [lia|]. apply updateAt_Forall; [|assumption].
    intros x Hx _. rewrite Hn in Hx. apply Some_eq in Hx. subst x.
    apply commit_solvent. lia.
Qed.

Lemma postBlind_solvent amount i s :
  0 <= amount -> solvent s -> solvent (postBlind amount i s).
Proof.
  intros Ha H. unfold postBlind.
  destruct (nth_error (players s) i) as [p|] eqn:Hn; [|assumption].
  destruct (isActive p); [|assumption].
  apply solvent_Forall. apply solvent_Forall in H as [Hp Hc].
  assert (Hchips : 0 <= chips p).
  { rewrite Forall_forall in Hc. apply Hc. eapply nth_error_In; eassumption. }
  simpl. split; [lia|]. apply updateAt_Forall; [|assumption].
  intros x Hx _. rewrite Hn in Hx. apply Some_eq in Hx. subst x. simpl. lia.
Qed.

Lemma postBlinds_solvent s :
  0 <= small (blinds s) -> 0 <= big (blinds s) ->
  solvent s -> solvent (postBlinds s).
Proof.
  intros Hs Hb H. unfold postBlinds.
  destruct (Nat.ltb _ 2); [assumption|]. cbv zeta.
  set (s1 := postBlind (small (blinds s)) _ s).
  assert (Eb : blinds s1 = blinds s) by apply postBlind_frame.
  apply (solvent_same (postBlind (big (blinds s1)) ((dealerPosition s1 + 2) mod length (players s)) s1));
    [reflexivity | reflexivity|].
  apply postBlind_solvent; [now rewrite Eb|].
  now apply postBlind_solvent.
Qed.

Lemma map_updateAt_same {A B} (g : A -> B) (f : A -> A) (l : list A) : forall i,
  (forall x, g (f x) = g x) -> map g (updateAt i f l) = map g l.
Proof.
  induction l as [|y l IH]; intros [|i] H; simpl; try reflexivity.
  - now rewrite H.
  - now rewrite IH.
Qed.

Lemma dealPass_stacks n : forall i s,
  map chips (players (dealPass n i s)) = map chips (players s) /\
  pot (dealPass n i s) = pot s.
Proof.
  induction n as [|n IH]; intros i s; [now split|].
  cbn [dealPass].
  match goal with |- context [dealPass n (S i) ?x] => set (s1 := x) end.
  assert (E1 : map chips (players s1) = map chips (players s) /\ pot s1 = pot s).
  { unfold s1. destruct (nth_error (players s) i) as [p|]; [|now split].
    destruct (isActive p); [|now split].
    destruct (dealt (dealCard s)); simpl;
      rewrite ?dealCard_players, ?dealCard_pot; [|now split].
    split; [|reflexivity]. now apply map_updateAt_same. }
  destruct (IH (S i) s1) as [A B]. destruct E1 as [C D]. split; congruence.
Qed.

Lemma solvent_stacks s s' :
  map chips (players s') = map chips (players s) -> pot s' = pot s ->
  solvent s -> solvent s'.
Proof.
  intros Hc Hp H. apply solvent_Forall. apply solvent_Forall in H as [H1 H2].
  split; [lia|].
  apply Forall_map. rewrite Hc. now apply Forall_map in H2.
Qed.

Lemma dealPocketCards_solvent s : solvent s -> solvent (dealPocketCards s).
Proof.
  unfold dealPocketCards.
  set (n := length (players s)).
  destruct (dealPass_stacks n 0 s) as [A B].
  destruct (dealPass_stacks n 0 (dealPass n 0 s)) as [C D].
  apply solvent_stacks; congruence.
Qed.

Lemma startNewHandOnStack_solvent stack shuffled s s' :
  0 <= small (blinds s) -> 0 <= big (blinds s) ->
  (forall p, In p (players s) -> 0 <= chips p) ->
  endState (startNewHandOnStack stack shuffled s) = Some s' -> solvent s'.
Proof.
  intros Hs Hb Hc. unfold startNewHandOnStack.
  apply (startBettingRoundOnStack_invariant solvent solvent_index solvent_reset
           solvent_phase solvent_deal solvent_push showdown_solvent).
  apply (solvent_same (dealPocketCards
             (postBlinds
                (setPlayers (map resetPlayer (players s))
                   (setHandNumber (S (handNumber s))
                      (setGamePhase preflop
                         (setPot 0 (setCommunityCards [] (setDeck shuffled s)))))))));
      [reflexivity | reflexivity|].
  apply dealPocketCards_solvent, postBlinds_solvent; [exact Hs | exact Hb|].
  split; [simpl; lia|]. simpl. intros p Hin.
  apply in_map_iff in Hin as [q [<- Hq]]. simpl. now apply Hc.
Qed.

End Solvent.

(** X13. In a hand played with integers on which the engine computes
    exactly (stacks that are not negative and add up to at most 2^52, blinds
    that are not negative, raises by amounts from 0 to 2^52) no stack and not
    the pot is ever negative.  Whatever the limit of the call stack, the deal
    and every action come to an end, and this holds of the state they leave,
    whether the last call returned, threw on a missing card or seat, or
    overflowed the stack after the showdown. *)
Theorem stacks_never_negative :
  forall stack shuffled acts s,
    exactHand acts s ->
    exists s',
      endState (playHandOnStack stack shuffled acts s) = Some s' /\
      0 <= PokerEngine.pot s' /\
      forall p, In p (PokerEngine.players s') -> 0 <= PokerEngine.chips p.
Proof.
  intros stack shuffled acts s [Hs [Hb [Hc [_ Hamt]]]].
  destruct (playHandOnStack_ends stack shuffled acts s) as [s' [E H]].
  exists s'. split; [exact E|]. change (solvent s').
  destruct H as [[s1 [D E1]]|[e D]].
  - assert (H1 : solvent s1).
    { apply (startNewHandOnStack_solvent stack shuffled s s1 Hs Hb Hc).
      rewrite D. reflexivity. }
    refine (playActionsOnStack_invariant solvent solvent_index solvent_reset
              solvent_phase solvent_deal solvent_push showdown_solvent
              stack acts _ s1 s' H1 E1).
    intros i p a amt s0 Hin Hn H0.
    apply (applyAction_solvent i p a amt s0 Hn); [|exact H0].
    intros Ea. subst a. exact (proj1 (Hamt i amt Hin)).
  - apply (startNewHandOnStack_solvent stack shuffled s s' Hs Hb Hc).
    rewrite D. reflexivity.
Qed.

(** Three seats at 1000 chips: the first seat raises, the second folds, the
    third calls and the streets run out to a split pot; the check that
    follows the showdown overflows the stack. *)
Lemma stacks_never_negative_witness :
  exists s',
    endState (playHandOnStack 30 stackedDeck
                [(0%nat, PokerEngine.raise, 20); (1%nat, PokerEngine.fold, 0);
                 (2%nat, PokerEngine.call, 0); (2%nat, PokerEngine.check, 0)]
                PokerEngine.newEngine) = Some s' /\
    0 <= PokerEngine.pot s' /\
    forall p, In p (PokerEngine.players s') -> 0 <= PokerEngine.chips p.
Proof.
  apply (stacks_never_negative 30 stackedDeck
           [(0%nat, PokerEngine.raise, 20); (1%nat, PokerEngine.fold, 0);
            (2%nat, PokerEngine.call, 0); (2%nat, PokerEngine.check, 0)]
           PokerEngine.newEngine).
  apply exactHand_newEngine. intros i amt Hin. simpl in Hin.
  destruct Hin as [E|[E|[E|[E|[]]]]]; inversion E. lia.
Defined.

(** ** The pot is what the seats have put in *)

Section Invested.
Import HandEvaluator PokerEngine.

Lemma sumInvested_map (f : Player -> Player) ps :
  (forall p, totalInvested (f p) = totalInvested p) ->
  sumInvested (map f ps) = sumInvested ps.
Proof.
  intros H. induction ps as [|p ps IH]; simpl; [reflexivity|]. now rewrite H, IH.
Qed.

Lemma sumInvested_updateAt (f : Player -> Player) ps : forall i p,
  nth_error ps i = Some p ->
  sumInvested (updateAt i f ps)
  = sumInvested ps - totalInvested p + totalInvested (f p).
Proof.
  induction ps as [|q ps IH]; intros [|i] p H; simpl in *; try discriminate.
  - apply Some_eq in H. subst. lia.
  - rewrite (IH i p H). lia.
Qed.

Lemma sumInvested_zero ps :
  (forall p, In p ps -> totalInvested p = 0) -> sumInvested ps = 0.
Proof.
  induction ps as [|p ps IH]; intros H; simpl; [reflexivity|].
  rewrite (H p (or_introl eq_refl)), IH; [reflexivity|].
  intros q Hq. apply H. now right.
Qed.

Lemma invested_same s s' :
  players s' = players s -> pot s' = pot s -> gamePhase s' = gamePhase s ->
  potIsInvested s -> potIsInvested s'.
Proof. unfold potIsInvested. intros -> -> ->. tauto. Qed.

Lemma invested_index s (i : nat) :
  potIsInvested s -> potIsInvested (setCurrentPlayerIndex i s).
Proof. intros H. exact H. Qed.

Lemma invested_reset s :
  potIsInvested s ->
  potIsInvested (setPlayers (map (setCurrentBet 0) (players s)) s).
Proof.
  unfold potIsInvested. simpl. intros H Hp.
  rewrite sumInvested_map by reflexivity. now apply H.
Qed.

Lemma invested_phase s p :
  p <> showdownPhase -> gamePhase s <> showdownPhase ->
  potIsInvested s -> potIsInvested (setGamePhase p s).
Proof. unfold potIsInvested. simpl. intros _ Hs H _. now apply H. Qed.

Lemma invested_deal s : potIsInvested s -> potIsInvested (snd (dealCard s)).
Proof.
  apply invested_same;
    [apply dealCard_players | apply dealCard_pot | apply dealCard_phase].
Qed.

Lemma invested_push s : potIsInvested s -> potIsInvested (pushCommunity s).
Proof.
  apply invested_same; unfold pushCommunity; simpl;
    [apply dealCard_players | apply dealCard_pot | apply dealCard_phase].
Qed.

Lemma evaluateWinner_phase c s s' :
  endState (evaluateWinner c s) = Some s' -> gamePhase s' = gamePhase s.
Proof.
  unfold evaluateWinner.
  destruct (mapO _ c) as [playerHands|e];
    [|simpl; intros E; apply Some_eq in E; now subst].
  destruct (sortBy _ playerHands) as [|[i0 bestHand] sorted];
    [simpl; intros E; apply Some_eq in E; now subst|].
  destruct (filter _ _) as [|w [|w2 ws]]; simpl; intros E; apply Some_eq in E;
    now subst.
Qed.

Lemma showdown_phase s s' :
  endState (showdown s) = Some s' -> gamePhase s' = showdownPhase.
Proof.
  unfold showdown. set (s0 := setGamePhase showdownPhase s).
  intros E. apply endState_bindR in E as [[s1 [D E]]|[e D]].
  - simpl in E. apply Some_eq in E. subst s'. simpl.
    destruct (filter _ (seats s0)) as [|w [|w2 ws]].
    + apply (evaluateWinner_phase [] s0). now rewrite D.
    + apply Returned_eq in D. now subst.
    + apply (evaluateWinner_phase (w :: w2 :: ws) s0). now rewrite D.
  - destruct (filter _ (seats s0)) as [|w [|w2 ws]].
    + apply (evaluateWinner_phase [] s0). now rewrite D.
    + discriminate.
    + apply (evaluateWinner_phase (w :: w2 :: ws) s0). now rewrite D.
Qed.

Lemma invested_showdown s s' :
  potIsInvested s -> endState (showdown s) = Some s' -> potIsInvested s'.
Proof. intros _ E Hp. apply showdown_phase in E. contradiction. Qed.

Lemma commit_invested amt p : totalInvested (commit amt p) = totalInvested p + amt.
Proof. unfold commit. simpl. now destruct (chips p - amt =? 0). Qed.

Lemma applyAction_invested i p a amt s :
  nth_error (players s) i = Some p ->
  potIsInvested s -> potIsInvested (applyAction i p a amt s).
Proof.
  unfold potIsInvested. intros Hn H.
  destruct a; simpl; intros Hp; specialize (H Hp).
  - rewrite (sumInvested_updateAt _ _ i p Hn). simpl. lia.
  - assumption.
  - rewrite (sumInvested_updateAt _ _ i p Hn), commit_invested. lia.
  - rewrite (sumInvested_updateAt _ _ i p Hn), commit_invested. lia.
Qed.

(** A blind posted by a seat that has put in nothing yet. *)
Lemma postBlind_invested amount i s :
  (forall p, nth_error (players s) i = Some p -> totalInvested p = 0) ->
  pot (postBlind amount i s) - sumInvested (players (postBlind amount i s))
  = pot s - sumInvested (players s).
Proof.
  intros H. unfold postBlind.
  destruct (nth_error (players s) i) as [p|] eqn:Hn; [|reflexivity].
  destruct (isActive p); [|reflexivity].
  simpl. rewrite (sumInvested_updateAt _ _ i p Hn). simpl.
  rewrite (H p eq_refl). lia.
Qed.

Lemma next_seat_differs d n :
  (2 <= n)%nat -> ((d + 1) mod n <> (d + 2) mod n)%nat.
Proof.
  intros Hn E.
  assert (Hn0 : n <> 0%nat) by lia.
  replace (d + 2)%nat with ((d + 1) + 1)%nat in E by lia.
  rewrite <- (Nat.Div0.add_mod_idemp_l (d + 1) 1 n) in E.
  pose proof (Nat.mod_upper_bound (d + 1) n Hn0) as B.
  set (a := ((d + 1) mod n)%nat) in *. clearbody a.
  destruct (Nat.eq_dec (a + 1) n) as [En|Hne].
  - rewrite En, Nat.Div0.mod_same in E. lia.
  - rewrite Nat.mod_small in E by lia. lia.
Qed.

Lemma postBlind_nth_other amount i j s :
  i <> j -> nth_error (players (postBlind amount i s)) j = nth_error (players s) j.
Proof.
  intros H. unfold postBlind.
  destruct (nth_error (players s) i) as [p|]; [|reflexivity].
  destruct (isActive p); [|reflexivity].
  cbn [players setPot setPlayers]. now apply updateAt_other.
Qed.

Lemma postBlinds_invested s :
  (forall p, In p (players s) -> totalInvested p = 0) ->
  pot (postBlinds s) - sumInvested (players (postBlinds s))
  = pot s - sumInvested (players s).
Proof.
  intros Hz.
  destruct (Nat.lt_ge_cases (length (filter isActive (players s))) 2) as [L|L].
  - unfold postBlinds. now rewrite (proj2 (Nat.ltb_lt _ _) L).
  - rewrite (postBlinds_steps s L). cbv zeta.
    cbn [pot players setCurrentPlayerIndex].
    set (n := length (players s)).
    assert (Hn : (2 <= n)%nat).
    { pose proof (filter_length_le isActive (players s)). unfold n. lia. }
    rewrite postBlind_invested.
    + apply postBlind_invested. intros p Hp. apply Hz.
      eapply nth_error_In; eassumption.
    + intros p Hp.
      rewrite postBlind_nth_other in Hp
        by (apply next_seat_differs; exact Hn).
      apply Hz. eapply nth_error_In; eassumption.
Qed.
End Invested.

Section InvestedHand.
Import PokerEngine.

Lemma dealPass_invested n : forall i s,
  map totalInvested (players (dealPass n i s)) = map totalInvested (players s).
Proof.
  induction n as [|n IH]; intros i s; [reflexivity|].
  cbn [dealPass].
  match goal with |- context [dealPass n (S i) ?x] => set (s1 := x) end.
  assert (E1 : map totalInvested (players s1) = map totalInvested (players s)).
  { unfold s1. destruct (nth_error (players s) i) as [p|]; [|reflexivity].
    destruct (isActive p); [|reflexivity].
    destruct (dealt (dealCard s)); simpl; rewrite ?dealCard_players;
      [|reflexivity].
    now apply map_updateAt_same. }
  rewrite (IH (S i) s1). exact E1.
Qed.

Lemma sumInvested_of_map ps :
  sumInvested ps = fold_right Z.add 0 (map totalInvested ps).
Proof. induction ps as [|p ps IH]; simpl; [reflexivity|]. now rewrite IH. Qed.

Lemma dealPocketCards_invested s :
  pot (dealPocketCards s) - sumInvested (players (dealPocketCards s))
  = pot s - sumInvested (players s).
Proof.
  unfold dealPocketCards. set (n := length (players s)).
  rewrite !sumInvested_of_map, !dealPass_invested.
  destruct (dealPass_stacks n 0 s) as [_ B].
  destruct (dealPass_stacks n 0 (dealPass n 0 s)) as [_ D].
  rewrite D, B. reflexivity.
Qed.

Lemma startNewHandOnStack_invested stack shuffled s s' :
  endState (startNewHandOnStack stack shuffled s) = Some s' -> potIsInvested s'.
Proof.
  unfold startNewHandOnStack.
  apply (startBettingRoundOnStack_invariant potIsInvested invested_index
           invested_reset invested_phase invested_deal invested_push
           invested_showdown).
  set (s0 := setPlayers (map resetPlayer (players s))
               (setHandNumber (S (handNumber s))
                  (setGamePhase preflop
                     (setPot 0 (setCommunityCards [] (setDeck shuffled s)))))).
  intros _.
  change (pot (dealPocketCards (postBlinds s0))
          = sumInvested (players (dealPocketCards (postBlinds s0)))).
  pose proof (dealPocketCards_invested (postBlinds s0)) as A.
  assert (B : pot (postBlinds s0) - sumInvested (players (postBlinds s0))
              = pot s0 - sumInvested (players s0)).
  { apply postBlinds_invested. unfold s0. simpl. intros p Hp.
    apply in_map_iff in Hp as [q [<- _]]. reflexivity. }
  assert (C : pot s0 - sumInvested (players s0) = 0).
  { unfold s0. simpl. rewrite sumInvested_zero; [reflexivity|].
    intros p Hp. apply in_map_iff in Hp as [q [<- _]]. reflexivity. }
  lia.
Qed.
End InvestedHand.

(** X14. In a hand played with integers on which the engine computes
    exactly (stacks that are not negative and add up to at most 2^52, blinds
    that are not negative, raises by amounts from 0 to 2^52), from the deal to
    the showdown the pot equals the sum of what the seats have put in during
    the hand ([totalInvested]): after the blinds, after every action and after
    every dealt street.  Whatever the limit of the call stack, the deal and
    the actions come to an end, and this holds of the state they leave,
    whether the last call returned or threw. *)
Theorem pot_is_what_was_invested :
  forall stack shuffled acts s,
    exactHand acts s ->
    exists s',
      endState (playHandOnStack stack shuffled acts s) = Some s' /\
      (PokerEngine.gamePhase s' <> PokerEngine.showdownPhase ->
       PokerEngine.pot s' = sumInvested (PokerEngine.players s')).
Proof.
  intros stack shuffled acts s _.
  destruct (playHandOnStack_ends stack shuffled acts s) as [s' [E H]].
  exists s'. split; [exact E|]. change (potIsInvested s').
  destruct H as [[s1 [D E1]]|[e D]].
  - assert (H1 : potIsInvested s1).
    { apply (startNewHandOnStack_invested stack shuffled s). rewrite D.
      reflexivity. }
    refine (playActionsOnStack_invariant potIsInvested invested_index
              invested_reset invested_phase invested_deal invested_push
              invested_showdown stack acts _ s1 s' H1 E1).
    intros i p a amt s0 _ Hn H0. now apply applyAction_invested.
  - apply (startNewHandOnStack_invested stack shuffled s). rewrite D.
    reflexivity.
Qed.

(** The raise of the first seat is called by the second. *)
Lemma pot_is_what_was_invested_witness :
  exists s',
    endState (playHandOnStack 4 stackedDeck
                [(0%nat, PokerEngine.raise, 20); (1%nat, PokerEngine.call, 0)]
                PokerEngine.newEngine) = Some s' /\
    (PokerEngine.gamePhase s' <> PokerEngine.showdownPhase ->
     PokerEngine.pot s' = sumInvested (PokerEngine.players s')).
Proof.
  apply (pot_is_what_was_invested 4 stackedDeck
           [(0%nat, PokerEngine.raise, 20); (1%nat, PokerEngine.call, 0)]
           PokerEngine.newEngine).
  apply exactHand_newEngine. intros i amt Hin. simpl in Hin.
  destruct Hin as [E|[E|[]]]; inversion E. lia.
Defined.

(** ** Depth of the turn-order cascade *)

Section Budget.
Import PokerEngine.

Section Refine.
Variables move move' : State -> Run.
Hypothesis agree : forall s, move s <> OutOfFuel -> move' s = move s.

Lemma processNextPlayerWith_agree s :
  processNextPlayerWith move s <> OutOfFuel ->
  processNextPlayerWith move' s = processNextPlayerWith move s.
Proof.
  unfold processNextPlayerWith.
  destruct (nth_error _ _) as [p|]; [|apply agree].
  destruct (contesting p); [reflexivity | apply agree].
Qed.

Lemma startBettingRoundWith_agree s :
  startBettingRoundWith move s <> OutOfFuel ->
  startBettingRoundWith move' s = startBettingRoundWith move s.
Proof. unfold startBettingRoundWith. apply processNextPlayerWith_agree. Qed.

Lemma bindR_agree r (k k' : State -> Run) :
  (forall s, k s <> OutOfFuel -> k' s = k s) ->
  bindR r k <> OutOfFuel -> bindR r k' = bindR r k.
Proof. intros H. destruct r as [s| |]; simpl; [apply H | reflexivity | reflexivity]. Qed.

Lemma advanceGamePhaseWith_agree s :
  advanceGamePhaseWith move s <> OutOfFuel ->
  advanceGamePhaseWith move' s = advanceGamePhaseWith move s.
Proof.
  unfold advanceGamePhaseWith.
  destruct (gamePhase s); try reflexivity;
    try (apply bindR_agree; intros s1; apply startBettingRoundWith_agree).
  apply startBettingRoundWith_agree.
Qed.

Lemma completeBettingRoundWith_agree s :
  completeBettingRoundWith move s <> OutOfFuel ->
  completeBettingRoundWith move' s = completeBettingRoundWith move s.
Proof. unfold completeBettingRoundWith. apply advanceGamePhaseWith_agree. Qed.
End Refine.

(** A larger budget does not change a call that completed. *)
Lemma moveToNextPlayer_more fuel : forall k s,
  moveToNextPlayer fuel s <> OutOfFuel ->
  moveToNextPlayer (fuel + k) s = moveToNextPlayer fuel s.
Proof.
  induction fuel as [|fuel IH]; intros k s H; [now elim H|].
  cbn [moveToNextPlayer Nat.add] in *.
  destruct (isBettingRoundComplete s).
  - apply completeBettingRoundWith_agree; [|exact H]. intros s0. apply IH.
  - destruct (nextSeat _ _ _) as [idx|]; [|reflexivity].
    apply processNextPlayerWith_agree; [|exact H]. intros s0. apply IH.
Qed.

Lemma startBettingRound_four k s :
  gamePhase s <> showdownPhase ->
  startBettingRound (4 + k) s = startBettingRound 4 s.
Proof.
  intros Hp. unfold startBettingRound.
  apply startBettingRoundWith_agree; [intros s0; apply moveToNextPlayer_more|].
  unfold startBettingRoundWith.
  apply processNextPlayerWith_ends, moveToNextPlayer_ends.
  - cbn [gamePhase setCurrentPlayerIndex]. destruct (gamePhase s); simpl; lia.
  - exact Hp.
Qed.

Lemma startNewHand_four fuel shuffled s :
  (4 <= fuel)%nat -> startNewHand fuel shuffled s = startNewHand 4 shuffled s.
Proof.
  intros Hf. replace fuel with (4 + (fuel - 4))%nat by lia.
  generalize (fuel - 4)%nat as k. intros k.
  unfold startNewHand. cbv zeta.
  match goal with
  | |- startBettingRound _ ?x = _ =>
      assert (Hp : gamePhase x = preflop)
        by (cbn [gamePhase setGameStarted]; now rewrite blinds_and_cards_phase);
      generalize dependent x
  end.
  intros s0 Hp. apply startBettingRound_four. rewrite Hp. discriminate.
Qed.

Lemma executePlayerAction_four fuel i action amount s :
  (4 <= fuel)%nat -> gamePhase s <> showdownPhase ->
  executePlayerAction fuel i action amount s
  = executePlayerAction 4 i action amount s.
Proof.
  intros Hf Hp. replace fuel with (4 + (fuel - 4))%nat by lia.
  pose proof (executePlayerAction_ends 4 i action amount s (Nat.le_refl 4) Hp) as E.
  unfold executePlayerAction in *.
  destruct (nth_error (players s) i) as [p|]; [|reflexivity].
  now apply moveToNextPlayer_more.
Qed.

(** All current bets at zero: the round counts as complete. *)
Lemma fold_max_zero bs : (forall b, In b bs -> b = 0) -> fold_left Z.max bs 0 = 0.
Proof.
  induction bs as [|b bs IH]; intros H; simpl; [reflexivity|].
  rewrite (H b (or_introl eq_refl)). simpl. apply IH.
  intros x Hx. apply H. now right.
Qed.

Lemma getCurrentBet_zero s :
  (forall p, In p (players s) -> currentBet p = 0) -> getCurrentBet s = 0.
Proof.
  intros H. unfold getCurrentBet.
  destruct (players s) as [|p ps] eqn:E; [reflexivity|]. simpl.
  rewrite (H p (or_introl eq_refl)). apply fold_max_zero.
  intros b Hb. apply in_map_iff in Hb as [q [<- Hq]]. apply H. now right.
Qed.

Lemma no_bets_complete s :
  (forall p, In p (players s) -> currentBet p = 0) ->
  isBettingRoundComplete s = true.
Proof.
  intros H. unfold isBettingRoundComplete.
  destruct (Nat.leb _ 1); [reflexivity|].
  rewrite getCurrentBet_zero by assumption.
  apply forallb_forall. intros p Hp. apply filter_In in Hp as [Hp _].
  rewrite (H p Hp). reflexivity.
Qed.

Lemma reset_no_bets ps p :
  In p (map (setCurrentBet 0) ps) -> currentBet p = 0.
Proof. intros H. apply in_map_iff in H as [q [<- _]]. reflexivity. Qed.

Lemma reset_contesting ps i :
  option_map contesting (nth_error (map (setCurrentBet 0) ps) i)
  = option_map contesting (nth_error ps i).
Proof. rewrite nth_error_map. now destruct (nth_error ps i). Qed.
Lemma idleRound_again s : idleRound (idleRound s) = idleRound s.
Proof.
  unfold idleRound.
  cbn [players dealerPosition setCurrentPlayerIndex setPlayers].
  rewrite map_map, !length_map.
  unfold setCurrentPlayerIndex, setPlayers. simpl. reflexivity.
Qed.

(** A call that [moveToNextPlayer fuel] completes is completed likewise on
    a call stack with room for [fuel] nested calls. *)
Lemma moveToNextPlayerOnStack_agrees fuel : forall s,
  moveToNextPlayer fuel s <> OutOfFuel ->
  moveToNextPlayerOnStack fuel s = moveToNextPlayer fuel s.
Proof.
  induction fuel as [|fuel IH]; intros s H; [now elim H|].
  cbn [moveToNextPlayer moveToNextPlayerOnStack] in *.
  destruct (isBettingRoundComplete s).
  - apply completeBettingRoundWith_agree; [exact IH | exact H].
  - destruct (nextSeat _ _ _) as [idx|]; [|reflexivity].
    apply processNextPlayerWith_agree; [exact IH | exact H].
Qed.
End Budget.

(** X15. Before the showdown the calls that [moveToNextPlayer] sets off
    (completing the round, advancing the phase, starting the next round,
    skipping a seat) nest at most four deep, one level for each street left:
    [startNewHand] and [executePlayerAction] always come back or throw, and a
    larger budget for the nesting gives the same result. *)
Theorem cascade_depth_is_bounded :
  forall fuel,
    (4 <= fuel)%nat ->
    (forall shuffled s,
       PokerEngine.startNewHand fuel shuffled s <> PokerEngine.OutOfFuel /\
       PokerEngine.startNewHand fuel shuffled s
       = PokerEngine.startNewHand 4 shuffled s) /\
    (forall i action amount s,
       PokerEngine.gamePhase s <> PokerEngine.showdownPhase ->
       PokerEngine.executePlayerAction fuel i action amount s
       <> PokerEngine.OutOfFuel /\
       PokerEngine.executePlayerAction fuel i action amount s
       = PokerEngine.executePlayerAction 4 i action amount s).
Proof.
  intros fuel Hf. split.
  - intros shuffled s. split;
      [now apply startNewHand_ends | now apply startNewHand_four].
  - intros i action amount s Hp. split;
      [now apply executePlayerAction_ends | now apply executePlayerAction_four].
Qed.

Lemma cascade_depth_is_bounded_witness :
  PokerEngine.startNewHand 9 stackedDeck PokerEngine.newEngine
  <> PokerEngine.OutOfFuel /\
  PokerEngine.startNewHand 9 stackedDeck PokerEngine.newEngine
  = PokerEngine.startNewHand 4 stackedDeck PokerEngine.newEngine.
Proof.
  apply (proj1 (cascade_depth_is_bounded 9 ltac:(lia))).
Defined.

(** X16. Once the phase is the showdown a call into the cascade cannot
    return when the seat after the dealer cannot act: every round counts as
    complete, the phase switch matches no case, the next round starts at that
    seat, which is skipped, and [moveToNextPlayer] is entered again.  Whatever
    the limit of the call stack, the call ends by exhausting it: it throws a
    [RangeError] and leaves the engine with the bets reset and the turn at
    the seat after the dealer (as it found it, on a stack with no room at
    all); stacks, pot, cards and phase are as before the call. *)
Theorem cascade_after_showdown_overflows :
  forall stack s,
    PokerEngine.gamePhase s = PokerEngine.showdownPhase ->
    PokerEngine.isBettingRoundComplete s = true ->
    option_map PokerEngine.contesting
      (nth_error (PokerEngine.players s)
         ((PokerEngine.dealerPosition s + 1) mod length (PokerEngine.players s)))
    <> Some true ->
    PokerEngine.moveToNextPlayerOnStack stack s
    = PokerEngine.Raised RangeError
        (match stack with O => s | S _ => idleRound s end).
Proof.
  induction stack as [|stack IH]; intros s Hp Hc Hseat; [reflexivity|].
  cbn [PokerEngine.moveToNextPlayerOnStack]. rewrite Hc.
  unfold PokerEngine.completeBettingRoundWith, PokerEngine.advanceGamePhaseWith.
  cbn [PokerEngine.gamePhase PokerEngine.setPlayers]. rewrite Hp.
  unfold PokerEngine.startBettingRoundWith.
  cbn [PokerEngine.gamePhase PokerEngine.setPlayers PokerEngine.players
       PokerEngine.dealerPosition]. rewrite Hp, length_map.
  fold (idleRound s).
  assert (Hp1 : PokerEngine.gamePhase (idleRound s) = PokerEngine.showdownPhase)
    by exact Hp.
  assert (Hc1 : PokerEngine.isBettingRoundComplete (idleRound s) = true).
  { apply no_bets_complete. unfold idleRound. cbn [PokerEngine.players
      PokerEngine.setCurrentPlayerIndex PokerEngine.setPlayers].
    apply reset_no_bets. }
  assert (Hseat1 : option_map PokerEngine.contesting
            (nth_error (PokerEngine.players (idleRound s))
               ((PokerEngine.dealerPosition (idleRound s) + 1)
                mod length (PokerEngine.players (idleRound s)))) <> Some true).
  { unfold idleRound. cbn [PokerEngine.players PokerEngine.dealerPosition
                    PokerEngine.setCurrentPlayerIndex PokerEngine.setPlayers].
    rewrite length_map, reset_contesting. exact Hseat. }
  assert (Hnext : PokerEngine.moveToNextPlayerOnStack stack (idleRound s)
                  = PokerEngine.Raised RangeError (idleRound s)).
  { rewrite (IH (idleRound s) Hp1 Hc1 Hseat1).
    destruct stack; [reflexivity | now rewrite idleRound_again]. }
  unfold PokerEngine.processNextPlayerWith.
  replace (PokerEngine.currentPlayerIndex (idleRound s))
    with ((PokerEngine.dealerPosition (idleRound s) + 1)
          mod length (PokerEngine.players (idleRound s)))%nat
    by (unfold idleRound; cbn [PokerEngine.players PokerEngine.dealerPosition
          PokerEngine.currentPlayerIndex PokerEngine.setCurrentPlayerIndex
          PokerEngine.setPlayers]; now rewrite length_map).
  destruct (nth_error (PokerEngine.players (idleRound s)) _) as [p|] eqn:En;
    [|exact Hnext].
  cbn [option_map] in Hseat1.
  destruct (PokerEngine.contesting p); [now elim Hseat1 | exact Hnext].
Qed.

(** A hand in which the seat after the dealer folded before the flop: the
    streets run out to the showdown; a further call into the cascade
    overflows the stack. *)
Lemma cascade_after_showdown_overflows_witness :
  PokerEngine.moveToNextPlayerOnStack 25
    (stateOf (playHand 4 stackedDeck
                [(0%nat, PokerEngine.call, 0); (1%nat, PokerEngine.fold, 0)]
                PokerEngine.newEngine))
  = PokerEngine.Raised RangeError
      (idleRound
         (stateOf (playHand 4 stackedDeck
                     [(0%nat, PokerEngine.call, 0); (1%nat, PokerEngine.fold, 0)]
                     PokerEngine.newEngine))).
Proof.
  apply (cascade_after_showdown_overflows 25).
  - vm_compute. reflexivity.
  - vm_compute. reflexivity.
  - vm_compute. discriminate.
Defined.

(** ** The phase only moves forward *)

Section Forward.
Import PokerEngine.

Section Step.
Variable move : State -> Run.
Hypothesis move_forward : forall s s',
  move s = Returned s' ->
  (phaseRank (gamePhase s') <= phaseRank (gamePhase s))%nat.

Lemma processNextPlayerWith_forward s s' :
  processNextPlayerWith move s = Returned s' ->
  (phaseRank (gamePhase s') <= phaseRank (gamePhase s))%nat.
Proof.
  unfold processNextPlayerWith.
  destruct (nth_error _ _) as [p|]; [|apply move_forward].
  destruct (contesting p); [|apply move_forward].
  intros E. apply Returned_eq in E. subst. lia.
Qed.

Lemma startBettingRoundWith_forward s s' :
  startBettingRoundWith move s = Returned s' ->
  (phaseRank (gamePhase s') <= phaseRank (gamePhase s))%nat.
Proof.
  unfold startBettingRoundWith. intros E.
  apply processNextPlayerWith_forward in E. exact E.
Qed.

Lemma dealFlop_phase s s' : dealFlop s = Returned s' -> gamePhase s' = gamePhase s.
Proof.
  unfold dealFlop. destruct (forallb _ _); [|discriminate].
  intros E. apply Returned_eq in E. subst.
  rewrite !pushCommunity_phase. apply dealCard_phase.
Qed.

Lemma dealOne_phase k s s' : dealOne k s = Returned s' -> gamePhase s' = gamePhase s.
Proof.
  unfold dealOne. destruct (nth_error _ k) as [[c|]|]; try discriminate.
  intros E. apply Returned_eq in E. subst.
  rewrite !pushCommunity_phase. apply dealCard_phase.
Qed.

(** Advancing from a phase before the showdown lands in a later phase. *)
Lemma advanceGamePhaseWith_forward s s' :
  advanceGamePhaseWith move s = Returned s' ->
  (phaseRank (gamePhase s') <= phaseRank (gamePhase s))%nat /\
  (gamePhase s <> showdownPhase ->
   (phaseRank (gamePhase s') < phaseRank (gamePhase s))%nat).
Proof.
  unfold advanceGamePhaseWith.
  destruct (gamePhase s) eqn:Ph.
  - destruct (dealFlop s) as [s1| |]; try discriminate. simpl. intros E.
    apply startBettingRoundWith_forward in E. simpl in E. simpl. lia.
  - destruct (dealTurn s) as [s1| |]; try discriminate. simpl. intros E.
    apply startBettingRoundWith_forward in E. simpl in E. simpl. lia.
  - destruct (dealRiver s) as [s1| |]; try discriminate. simpl. intros E.
    apply startBettingRoundWith_forward in E. simpl in E. simpl. lia.
  - intros E.
    assert (P : gamePhase s' = showdownPhase)
      by (apply (showdown_phase s); now rewrite E).
    rewrite P. simpl. lia.
  - intros E. apply startBettingRoundWith_forward in E. rewrite Ph in E.
    split; [exact E | congruence].
Qed.

Lemma completeBettingRoundWith_forward s s' :
  completeBettingRoundWith move s = Returned s' ->
  (phaseRank (gamePhase s') <= phaseRank (gamePhase s))%nat /\
  (gamePhase s <> showdownPhase ->
   (phaseRank (gamePhase s') < phaseRank (gamePhase s))%nat).
Proof.
  unfold completeBettingRoundWith. intros E.
  apply advanceGamePhaseWith_forward in E. exact E.
Qed.
End Step.

Lemma moveToNextPlayer_forward fuel : forall s s',
  moveToNextPlayer fuel s = Returned s' ->
  (phaseRank (gamePhase s') <= phaseRank (gamePhase s))%nat.
Proof.
  induction fuel as [|fuel IH]; intros s s'; cbn [moveToNextPlayer];
    [discriminate|].
  destruct (isBettingRoundComplete s).
  - intros E. now apply (completeBettingRoundWith_forward _ IH) in E.
  - destruct (nextSeat _ _ _) as [idx|]; [|discriminate].
    intros E. apply (processNextPlayerWith_forward _ IH) in E. exact E.
Qed.

Lemma moveToNextPlayer_complete fuel s s' :
  isBettingRoundComplete s = true -> gamePhase s <> showdownPhase ->
  moveToNextPlayer fuel s = Returned s' ->
  (phaseRank (gamePhase s') < phaseRank (gamePhase s))%nat.
Proof.
  destruct fuel as [|fuel]; cbn [moveToNextPlayer]; [discriminate|].
  intros -> Hp E.
  apply (completeBettingRoundWith_forward _ (moveToNextPlayer_forward fuel)) in E.
  now apply E.
Qed.

Lemma applyAction_phase i p a amt s :
  gamePhase (applyAction i p a amt s) = gamePhase s.
Proof. now destruct a. Qed.

Lemma executePlayerAction_forward fuel i a amt s s' :
  executePlayerAction fuel i a amt s = Returned s' ->
  (phaseRank (gamePhase s') <= phaseRank (gamePhase s))%nat.
Proof.
  unfold executePlayerAction.
  destruct (nth_error (players s) i) as [p|]; [|discriminate].
  intros E. apply moveToNextPlayer_forward in E.
  now rewrite applyAction_phase in E.
Qed.
End Forward.

(** X17. The phase of a hand only moves forward: whatever the seats do, and
    however many streets one action runs through, the phase after a sequence
    of actions is the phase before it or a later one in the order preflop,
    flop, turn, river, showdown. *)
Theorem phase_only_moves_forward :
  forall fuel acts s s',
    playActions fuel acts s = PokerEngine.Returned s' ->
    (phaseRank (PokerEngine.gamePhase s')
     <= phaseRank (PokerEngine.gamePhase s))%nat.
Proof.
  intros fuel acts. induction acts as [|[[i a] amt] acts IH]; intros s s' E;
    cbn [playActions] in E.
  - apply Returned_eq in E. subst. lia.
  - destruct (PokerEngine.executePlayerAction fuel i a amt s) as [s1| |] eqn:D;
      try discriminate.
    simpl in E. apply IH in E. apply executePlayerAction_forward in D. lia.
Qed.

Lemma phase_only_moves_forward_witness :
  (phaseRank (PokerEngine.gamePhase
                (stateOf (playActions 4
                            [(0%nat, PokerEngine.call, 0%Z); (1%nat, PokerEngine.call, 0%Z)]
                            (stateOf (PokerEngine.startNewHand 4 stackedDeck
                                        PokerEngine.newEngine)))))
   <= phaseRank (PokerEngine.gamePhase
                   (stateOf (PokerEngine.startNewHand 4 stackedDeck
                               PokerEngine.newEngine))))%nat.
Proof.
  apply (phase_only_moves_forward 4
           [(0%nat, PokerEngine.call, 0%Z); (1%nat, PokerEngine.call, 0%Z)]).
  vm_compute. reflexivity.
Defined.

(** X18. The round is over as soon as the bets of the seats still in the hand
    are level, whether or not every seat has acted: on a street where nobody
    has bet, a check (or a fold) by any seat ends the street, and the call
    returns in a later phase. *)
Theorem first_check_ends_the_street :
  forall fuel i action amount s s',
    action = PokerEngine.check \/ action = PokerEngine.fold ->
    (forall p, In p (PokerEngine.players s) -> PokerEngine.currentBet p = 0) ->
    PokerEngine.gamePhase s <> PokerEngine.showdownPhase ->
    PokerEngine.executePlayerAction fuel i action amount s
    = PokerEngine.Returned s' ->
    (phaseRank (PokerEngine.gamePhase s')
     < phaseRank (PokerEngine.gamePhase s))%nat.
Proof.
  intros fuel i action amount s s' Ha Hb Hp.
  unfold PokerEngine.executePlayerAction.
  destruct (nth_error (PokerEngine.players s) i) as [p|] eqn:Hn; [|discriminate].
  intros E. rewrite <- (applyAction_phase i p action amount s).
  apply (moveToNextPlayer_complete fuel); [| now rewrite applyAction_phase | exact E].
  apply no_bets_complete. intros q Hq.
  destruct Ha as [-> | ->]; cbn [PokerEngine.applyAction] in Hq.
  - now apply Hb.
  - cbn [PokerEngine.players PokerEngine.setPlayers] in Hq.
    apply In_nth_error in Hq as [j Hj].
    destruct (Nat.eq_dec i j) as [<-|Hne].
    + rewrite (updateAt_nth _ _ _ _ Hn) in Hj. apply Some_eq in Hj. subst q.
      simpl. apply Hb. eapply nth_error_In; eassumption.
    + rewrite updateAt_other in Hj by assumption.
      apply Hb. eapply nth_error_In; eassumption.
Qed.

(** After the blinds are called the flop is dealt; the seat after the dealer
    checks and the turn is dealt at once. *)
Lemma first_check_ends_the_street_witness :
  (phaseRank
     (PokerEngine.gamePhase
        (stateOf (PokerEngine.executePlayerAction 4 1 PokerEngine.check 0%Z
                    (stateOf (playHand 4 stackedDeck
                                [(0%nat, PokerEngine.call, 0%Z);
                                 (1%nat, PokerEngine.call, 0%Z)]
                                PokerEngine.newEngine)))))
   < phaseRank
       (PokerEngine.gamePhase
          (stateOf (playHand 4 stackedDeck
                      [(0%nat, PokerEngine.call, 0%Z);
                       (1%nat, PokerEngine.call, 0%Z)]
                      PokerEngine.newEngine))))%nat.
Proof.
  apply (first_check_ends_the_street 4 1 PokerEngine.check 0%Z
           (stateOf (playHand 4 stackedDeck
                       [(0%nat, PokerEngine.call, 0%Z);
                        (1%nat, PokerEngine.call, 0%Z)]
                       PokerEngine.newEngine))
           (stateOf (PokerEngine.executePlayerAction 4 1 PokerEngine.check 0%Z
                       (stateOf (playHand 4 stackedDeck
                                   [(0%nat, PokerEngine.call, 0%Z);
                                    (1%nat, PokerEngine.call, 0%Z)]
                                   PokerEngine.newEngine))))).
  - now left.
  - intros p Hp. apply Z.eqb_eq. revert p Hp.
    apply (proj1 (forallb_forall (fun p => PokerEngine.currentBet p =? 0) _)).
    vm_compute. reflexivity.
  - vm_compute. discriminate.
  - vm_compute. reflexivity.
Defined.

(** ** Dealing the streets *)

Section Streets.
Import PokerEngine.

Lemma dealCard_top s d c :
  deck s = d ++ [c] -> dealCard s = (Normal (Some c), setDeck d s).
Proof.
  intros H. unfold dealCard. rewrite H, pop_snoc. now destruct d.
Qed.

Lemma dealCard_none s : deck s = [] -> dealCard s = (Normal None, s).
Proof. intros H. unfold dealCard. now rewrite H. Qed.

Lemma pushCommunity_top s d c :
  deck s = d ++ [c] ->
  pushCommunity s = setCommunityCards (communityCards s ++ [Some c]) (setDeck d s).
Proof. intros H. unfold pushCommunity. now rewrite (dealCard_top s d c H). Qed.

Lemma pushCommunity_none s :
  deck s = [] ->
  pushCommunity s = setCommunityCards (communityCards s ++ [None]) s.
Proof. intros H. unfold pushCommunity. now rewrite (dealCard_none s H). Qed.

(** A push adds one entry, a card exactly when the deck had one. *)
Lemma pushCommunity_entry s :
  exists o,
    communityCards (pushCommunity s) = communityCards s ++ [o] /\
    (deck s = [] -> o = None) /\
    length (deck (pushCommunity s)) = Nat.pred (length (deck s)).
Proof.
  destruct (deck s) as [|c0 d0] eqn:E.
  - exists None. rewrite (pushCommunity_none s E). simpl. rewrite E. auto.
  - destruct (exists_last (l := c0 :: d0)) as [d [c Ed]]; [discriminate|].
    rewrite Ed in *. exists (Some c). rewrite (pushCommunity_top s d c E).
    cbn [communityCards deck setCommunityCards setDeck].
    split; [reflexivity|]. split; [intros H; destruct d; discriminate|].
    rewrite length_app. simpl. lia.
Qed.

Lemma dealCard_length s :
  length (deck (snd (dealCard s))) = Nat.pred (length (deck s)) /\
  communityCards (snd (dealCard s)) = communityCards s.
Proof.
  destruct (deck s) as [|c0 d0] eqn:E.
  - rewrite (dealCard_none s E). simpl. now rewrite E.
  - destruct (exists_last (l := c0 :: d0)) as [d [c Ed]]; [discriminate|].
    rewrite Ed in *. rewrite (dealCard_top s d c E).
    cbn [snd communityCards deck setDeck].
    split; [|reflexivity]. rewrite length_app. simpl. lia.
Qed.
End Streets.

(** X19. [dealFlop] on a hand without community cards burns the top card of
    the deck (the end of the array) and makes the next three the flop, in the
    order they leave the deck; stacks and pot are not touched.  On a deck of
    fewer than four cards it pushes [null] for the cards that are missing and
    throws on the log line that reads them. *)
Theorem dealFlop_burns_one_deals_three :
  forall s,
    PokerEngine.communityCards s = [] ->
    (forall d c3 c2 c1 b,
       PokerEngine.deck s = d ++ [c3; c2; c1; b] ->
       PokerEngine.dealFlop s
       = PokerEngine.Returned
           (PokerEngine.setCommunityCards [Some c1; Some c2; Some c3]
              (PokerEngine.setDeck d s))) /\
    ((length (PokerEngine.deck s) < 4)%nat ->
     exists s',
       PokerEngine.dealFlop s = PokerEngine.Raised TypeError s' /\
       PokerEngine.deck s' = [] /\
       length (PokerEngine.communityCards s') = 3%nat /\
       In None (PokerEngine.communityCards s')).
Proof.
  intros s Hcc. split.
  - intros d c3 c2 c1 b Hd. unfold PokerEngine.dealFlop.
    rewrite (dealCard_top s (d ++ [c3; c2; c1]) b)
      by (rewrite Hd, <- app_assoc; reflexivity).
    cbn [snd].
    set (s0 := PokerEngine.setDeck (d ++ [c3; c2; c1]) s).
    rewrite (pushCommunity_top s0 (d ++ [c3; c2]) c1)
      by (unfold s0; simpl; rewrite <- app_assoc; reflexivity).
    set (s1 := PokerEngine.setCommunityCards _ (PokerEngine.setDeck _ s0)).
    rewrite (pushCommunity_top s1 (d ++ [c3]) c2)
      by (unfold s1; simpl; rewrite <- app_assoc; reflexivity).
    set (s2 := PokerEngine.setCommunityCards _ (PokerEngine.setDeck _ s1)).
    rewrite (pushCommunity_top s2 d c3) by reflexivity.
    unfold s2, s1, s0. simpl. rewrite Hcc. reflexivity.
  - intros Hlen. unfold PokerEngine.dealFlop.
    set (s0 := snd (PokerEngine.dealCard s)).
    destruct (dealCard_length s) as [L0 C0]. fold s0 in L0, C0.
    destruct (pushCommunity_entry s0) as [o1 [E1 [N1 L1]]].
    set (s1 := PokerEngine.pushCommunity s0) in *.
    destruct (pushCommunity_entry s1) as [o2 [E2 [N2 L2]]].
    set (s2 := PokerEngine.pushCommunity s1) in *.
    destruct (pushCommunity_entry s2) as [o3 [E3 [N3 L3]]].
    set (s3 := PokerEngine.pushCommunity s2) in *.
    assert (Ecc : PokerEngine.communityCards s3 = [o1; o2; o3]).
    { rewrite E3, E2, E1, C0, Hcc. reflexivity. }
    assert (Hnone : o3 = None).
    { apply N3. destruct (PokerEngine.deck s2); [reflexivity|]. simpl in *. lia. }
    rewrite Ecc. subst o3. cbn [firstn forallb PokerEngine.isCard].
    rewrite !andb_false_r. cbn [andb].
    replace (PokerEngine.isCard o1 && (PokerEngine.isCard o2 && false)) with false
      by (now rewrite !andb_false_r).
    exists s3. refine (conj eq_refl (conj _ (conj _ _))).
    + destruct (PokerEngine.deck s3); [reflexivity|]. simpl in *. lia.
    + now rewrite Ecc.
    + rewrite Ecc. simpl. auto.
Qed.

Lemma dealFlop_burns_one_deals_three_witness :
  PokerEngine.dealFlop
    (PokerEngine.setDeck
       [mkCard 9 clubs; mkCard 4 hearts; mkCard 13 spades; mkCard 2 hearts;
        mkCard 7 diamonds] emptyDeckState)
  = PokerEngine.Returned
      (PokerEngine.setCommunityCards
         [Some (mkCard 2 hearts); Some (mkCard 13 spades); Some (mkCard 4 hearts)]
         (PokerEngine.setDeck [mkCard 9 clubs]
            (PokerEngine.setDeck
               [mkCard 9 clubs; mkCard 4 hearts; mkCard 13 spades; mkCard 2 hearts;
                mkCard 7 diamonds] emptyDeckState))).
Proof.
  apply (proj1 (dealFlop_burns_one_deals_three
                  (PokerEngine.setDeck
                     [mkCard 9 clubs; mkCard 4 hearts; mkCard 13 spades;
                      mkCard 2 hearts; mkCard 7 diamonds] emptyDeckState)
                  eq_refl)
           [mkCard 9 clubs] (mkCard 4 hearts) (mkCard 13 spades)
           (mkCard 2 hearts) (mkCard 7 diamonds)).
  reflexivity.
Defined.

(** X20. [dealTurn] and [dealRiver], on a board of three and four cards, burn
    the top card of the deck and add the next one to the board; on a deck of
    fewer than two cards they push [null] and throw on the log line that reads
    it. *)
Theorem dealTurn_dealRiver_burn_one_deal_one :
  forall s k,
    length (PokerEngine.communityCards s) = k ->
    (forall d c b,
       PokerEngine.deck s = d ++ [c; b] ->
       PokerEngine.dealOne k s
       = PokerEngine.Returned
           (PokerEngine.setCommunityCards
              (PokerEngine.communityCards s ++ [Some c])
              (PokerEngine.setDeck d s))) /\
    ((length (PokerEngine.deck s) < 2)%nat ->
     exists s',
       PokerEngine.dealOne k s = PokerEngine.Raised TypeError s' /\
       PokerEngine.deck s' = [] /\
       PokerEngine.communityCards s' = PokerEngine.communityCards s ++ [None]).
Proof.
  intros s k Hk. split.
  - intros d c b Hd. unfold PokerEngine.dealOne.
    rewrite (dealCard_top s (d ++ [c]) b)
      by (rewrite Hd, <- app_assoc; reflexivity).
    cbn [snd]. rewrite (pushCommunity_top _ d c) by reflexivity.
    cbn [PokerEngine.communityCards PokerEngine.setCommunityCards
         PokerEngine.setDeck].
    rewrite nth_error_app2 by lia. rewrite Hk, Nat.sub_diag. reflexivity.
  - intros Hlen. unfold PokerEngine.dealOne.
    set (s0 := snd (PokerEngine.dealCard s)).
    destruct (dealCard_length s) as [L0 C0]. fold s0 in L0, C0. clearbody s0.
    assert (D0 : PokerEngine.deck s0 = []).
    { destruct (PokerEngine.deck s0); [reflexivity|]. simpl in *. lia. }
    rewrite (pushCommunity_none s0 D0).
    cbn [PokerEngine.communityCards PokerEngine.setCommunityCards].
    rewrite C0, nth_error_app2 by lia. rewrite Hk, Nat.sub_diag. simpl.
    eexists. refine (conj eq_refl (conj _ _)); simpl; [exact D0 | reflexivity].
Qed.

Lemma dealTurn_dealRiver_burn_one_deal_one_witness :
  PokerEngine.dealTurn
    (PokerEngine.setCommunityCards
       [Some (mkCard 2 hearts); Some (mkCard 13 spades); Some (mkCard 4 hearts)]
       (PokerEngine.setDeck [mkCard 9 clubs; mkCard 5 clubs; mkCard 6 clubs]
          emptyDeckState))
  = PokerEngine.Returned
      (PokerEngine.setCommunityCards
         [Some (mkCard 2 hearts); Some (mkCard 13 spades); Some (mkCard 4 hearts);
          Some (mkCard 5 clubs)]
         (PokerEngine.setDeck [mkCard 9 clubs]
            (PokerEngine.setCommunityCards
               [Some (mkCard 2 hearts); Some (mkCard 13 spades);
                Some (mkCard 4 hearts)]
               (PokerEngine.setDeck [mkCard 9 clubs; mkCard 5 clubs; mkCard 6 clubs]
                  emptyDeckState)))).
Proof.
  apply (proj1 (dealTurn_dealRiver_burn_one_deal_one
                  (PokerEngine.setCommunityCards
                     [Some (mkCard 2 hearts); Some (mkCard 13 spades);
                      Some (mkCard 4 hearts)]
                     (PokerEngine.setDeck
                        [mkCard 9 clubs; mkCard 5 clubs; mkCard 6 clubs]
                        emptyDeckState)) 3%nat eq_refl)
           [mkCard 9 clubs] (mkCard 5 clubs) (mkCard 6 clubs)).
  reflexivity.
Defined.

(** ** Dealing the hole cards *)

Section Pocket.
Import PokerEngine.

Lemma updateAt_middle {A} (f : A -> A) (done : list A) p t :
  updateAt (length done) f (done ++ p :: t) = done ++ f p :: t.
Proof. induction done as [|x done IH]; simpl; [reflexivity | now rewrite IH]. Qed.

Lemma nth_error_middle {A} (done : list A) p t :
  nth_error (done ++ p :: t) (length done) = Some p.
Proof. induction done as [|x done IH]; simpl; [reflexivity | exact IH]. Qed.

Lemma pop_nonempty {A} (x : A) l : exists c d, x :: l = d ++ [c].
Proof. destruct (exists_last (l := x :: l)) as [d [c E]]; [discriminate | eauto]. Qed.

(** [dealPass] over the seats that are left is [dealRow] on them. *)
Lemma dealPass_dealRow rest : forall done s,
  players s = done ++ rest ->
  dealPass (length rest) (length done) s
  = setPlayers (done ++ fst (dealRow rest (deck s)))
               (setDeck (snd (dealRow rest (deck s))) s).
Proof.
  induction rest as [|p t IH]; intros done s Hp.
  - simpl. rewrite <- Hp. now destruct s.
  - cbn [length dealPass dealRow].
    rewrite Hp, nth_error_middle.
    destruct (isActive p) eqn:Ha.
    + destruct (deck s) as [|c0 d0] eqn:Ed.
      * rewrite (dealCard_none s Ed). cbn [dealt fst snd pop].
        specialize (IH (done ++ [p]) s).
        rewrite length_app, Nat.add_1_r in IH.
        rewrite IH by (rewrite Hp, <- app_assoc; reflexivity).
        rewrite Ed, <- app_assoc. reflexivity.
      * destruct (pop_nonempty c0 d0) as [c [d E]]. rewrite E in *.
        rewrite (dealCard_top s d c Ed), pop_snoc. cbn [dealt fst snd].
        cbn [players setDeck]. rewrite Hp, updateAt_middle.
        set (p' := setCards (pcards p ++ [c]) p).
        set (s1 := setPlayers (done ++ p' :: t) (setDeck d s)).
        specialize (IH (done ++ [p']) s1).
        rewrite length_app, Nat.add_1_r in IH.
        rewrite IH by (unfold s1; simpl; rewrite <- app_assoc; reflexivity).
        unfold s1. simpl. rewrite <- app_assoc. reflexivity.
    + specialize (IH (done ++ [p]) s).
      rewrite length_app, Nat.add_1_r in IH.
      rewrite IH by (rewrite Hp, <- app_assoc; reflexivity).
      cbn [fst snd]. rewrite <- app_assoc. reflexivity.
Qed.

Lemma dealPass_all s :
  dealPass (length (players s)) 0 s
  = setPlayers (fst (dealRow (players s) (deck s)))
               (setDeck (snd (dealRow (players s) (deck s))) s).
Proof. apply (dealPass_dealRow (players s) [] s). reflexivity. Qed.

Lemma dealtIn_zero p : dealtIn 0 p p.
Proof. exists []. rewrite app_nil_r. split; [now destruct p | reflexivity]. Qed.

Lemma dealtIn_trans j k p1 p2 p3 :
  dealtIn j p1 p2 -> dealtIn k p2 p3 -> dealtIn (j + k) p1 p3.
Proof.
  intros [a [-> La]] [b [-> Lb]]. exists (a ++ b). simpl.
  rewrite app_assoc, length_app. split; [reflexivity | lia].
Qed.

Lemma dealtIn_active k p p' : dealtIn k p p' -> isActive p' = isActive p.
Proof. intros [a [-> _]]. reflexivity. Qed.

(** One pass: no card is lost or made, seats that are not active get none,
    the others at most one. *)
Lemma dealRow_spec ps : forall d,
  Permutation (snd (dealRow ps d) ++ concat (map pcards (fst (dealRow ps d))))
              (d ++ concat (map pcards ps)) /\
  Forall2 (fun p p' => exists k, dealtIn k p p' /\ (k <= 1)%nat /\
                                 (isActive p = false -> k = 0%nat))
          ps (fst (dealRow ps d)).
Proof.
  induction ps as [|p t IH]; intros d; cbn [dealRow].
  - simpl. split; [reflexivity | constructor].
  - assert (Skip : forall d0,
      Permutation (snd (dealRow t d0) ++ concat (map pcards (p :: fst (dealRow t d0))))
                  (d0 ++ concat (map pcards (p :: t))) /\
      Forall2 (fun p p' => exists k, dealtIn k p p' /\ (k <= 1)%nat /\
                                     (isActive p = false -> k = 0%nat))
              (p :: t) (p :: fst (dealRow t d0))).
    { intros d0. destruct (IH d0) as [P F]. split.
      - cbn [map concat].
        rewrite (Permutation_app_swap_app (snd (dealRow t d0)) (pcards p)).
        rewrite (Permutation_app_swap_app d0 (pcards p)).
        now apply Permutation_app_head.
      - constructor; [|assumption]. exists 0%nat.
        split; [apply dealtIn_zero | split; [lia | reflexivity]]. }
    destruct (isActive p) eqn:Ha; [|apply Skip].
    destruct d as [|c0 d0]; [cbn [pop]; apply Skip|].
    destruct (pop_nonempty c0 d0) as [c [d E]]. rewrite E, pop_snoc.
    cbn [fst snd]. destruct (IH d) as [P F]. split.
    + cbn [map concat pcards setCards].
      rewrite (Permutation_app_swap_app (snd (dealRow t d)) (pcards p ++ [c])).
      rewrite P. rewrite <- !app_assoc.
      rewrite (Permutation_app_swap_app (pcards p) [c]).
      rewrite (Permutation_app_swap_app (pcards p) d).
      rewrite (Permutation_app_swap_app [c] d).
      reflexivity.
    + constructor; [|assumption]. exists 1%nat.
      split; [exists [c]; split; reflexivity|]. split; [lia | congruence].
Qed.

(** One pass on a deck that has a card for every active seat. *)
Lemma dealRow_enough ps : forall d,
  (activeSeats ps <= length d)%nat ->
  length (snd (dealRow ps d)) = (length d - activeSeats ps)%nat /\
  Forall2 (fun p p' => dealtIn (if isActive p then 1 else 0) p p')
          ps (fst (dealRow ps d)).
Proof.
  unfold activeSeats.
  induction ps as [|p t IH]; intros d H; cbn [dealRow].
  - simpl. split; [lia | constructor].
  - simpl in H. destruct (isActive p) eqn:Ha.
    + simpl in H. destruct d as [|c0 d0]; [simpl in H; lia|].
      destruct (pop_nonempty c0 d0) as [c [d E]]. rewrite E in *. rewrite pop_snoc.
      rewrite length_app in H. simpl in H.
      destruct (IH d ltac:(lia)) as [L F]. cbn [fst snd]. split.
      * rewrite L, length_app. simpl. rewrite Ha. simpl. lia.
      * constructor; [|assumption]. rewrite Ha. exists [c]. split; reflexivity.
    + destruct (IH d H) as [L F]. cbn [fst snd]. split.
      * rewrite L. simpl. rewrite Ha. reflexivity.
      * constructor; [|assumption]. rewrite Ha. apply dealtIn_zero.
Qed.

Lemma Forall2_active ps ps' (R : Player -> Player -> Prop) :
  (forall p p', R p p' -> isActive p' = isActive p) ->
  Forall2 R ps ps' -> activeSeats ps' = activeSeats ps.
Proof.
  intros HR F. unfold activeSeats. induction F as [|p p' ps ps' H F IH];
    [reflexivity|].
  simpl. rewrite (HR p p' H). destruct (isActive p); simpl; now rewrite IH.
Qed.

Lemma Forall2_compose {A} (R1 R2 R3 : A -> A -> Prop) l1 : forall l2 l3,
  (forall a b c, R1 a b -> R2 b c -> R3 a c) ->
  Forall2 R1 l1 l2 -> Forall2 R2 l2 l3 -> Forall2 R3 l1 l3.
Proof.
  induction l1 as [|a l1 IH]; intros l2 l3 H F1 F2.
  - inversion F1; subst. inversion F2; subst. constructor.
  - inversion F1 as [|? b ? l2' Hab F1']; subst.
    inversion F2 as [|? c ? l3' Hbc F2']; subst.
    constructor; [eapply H; eassumption | eapply IH; eassumption].
Qed.

Lemma dealPocketCards_rows s :
  let r1 := dealRow (players s) (deck s) in
  let r2 := dealRow (fst r1) (snd r1) in
  dealPocketCards s = setPlayers (fst r2) (setDeck (snd r2) s).
Proof.
  intros r1 r2. unfold dealPocketCards.
  rewrite (dealPass_all s). fold r1.
  assert (L : length (players s) = length (fst r1)).
  { destruct (dealRow_spec (players s) (deck s)) as [_ F].
    now apply Forall2_length in F. }
  rewrite L.
  change (length (fst r1))
    with (length (players (setPlayers (fst r1) (setDeck (snd r1) s)))).
  rewrite dealPass_all. reflexivity.
Qed.
End Pocket.

(** X21. [dealPocketCards] only moves cards from the deck into the hands: the
    deck that is left together with all hole cards is a rearrangement of the
    deck and the hole cards before.  A seat that is not active gets no card,
    any other seat at most two, and nothing else about a seat changes. *)
Theorem dealPocketCards_moves_cards :
  forall s,
    Permutation
      (PokerEngine.deck (PokerEngine.dealPocketCards s)
       ++ holeCards (PokerEngine.dealPocketCards s))
      (PokerEngine.deck s ++ holeCards s) /\
    Forall2
      (fun p p' => exists k, dealtIn k p p' /\ (k <= 2)%nat /\
                             (PokerEngine.isActive p = false -> k = 0%nat))
      (PokerEngine.players s)
      (PokerEngine.players (PokerEngine.dealPocketCards s)).
Proof.
  intros s. rewrite (dealPocketCards_rows s). cbv zeta.
  set (r1 := dealRow (PokerEngine.players s) (PokerEngine.deck s)).
  set (r2 := dealRow (fst r1) (snd r1)).
  destruct (dealRow_spec (PokerEngine.players s) (PokerEngine.deck s)) as [P1 F1].
  destruct (dealRow_spec (fst r1) (snd r1)) as [P2 F2].
  fold r1 in P1, F1. fold r2 in P2, F2. fold r1 in P2, F2.
  unfold holeCards. cbn [PokerEngine.deck PokerEngine.players
    PokerEngine.setPlayers PokerEngine.setDeck]. split.
  - rewrite P2. exact P1.
  - eapply Forall2_compose; [|exact F1|exact F2].
    intros a b c [j [Dj [Lj Zj]]] [k [Dk [Lk Zk]]]. exists (j + k)%nat.
    split; [eapply dealtIn_trans; eassumption|]. split; [lia|].
    intros Ha. rewrite (Zj Ha).
    rewrite Zk; [reflexivity|]. now rewrite (dealtIn_active _ _ _ Dj).
Qed.

(** X22. When the deck holds two cards for every active seat,
    [dealPocketCards] gives exactly two cards to every active seat and takes
    exactly that many from the deck. *)
Theorem dealPocketCards_two_each :
  forall s,
    (2 * activeSeats (PokerEngine.players s)
     <= length (PokerEngine.deck s))%nat ->
    length (PokerEngine.deck (PokerEngine.dealPocketCards s))
    = (length (PokerEngine.deck s)
       - 2 * activeSeats (PokerEngine.players s))%nat /\
    Forall2
      (fun p p' => dealtIn (if PokerEngine.isActive p then 2 else 0) p p')
      (PokerEngine.players s)
      (PokerEngine.players (PokerEngine.dealPocketCards s)).
Proof.
  intros s H. rewrite (dealPocketCards_rows s). cbv zeta.
  set (r1 := dealRow (PokerEngine.players s) (PokerEngine.deck s)).
  destruct (dealRow_enough (PokerEngine.players s) (PokerEngine.deck s)
              ltac:(lia)) as [L1 F1].
  fold r1 in L1, F1.
  assert (A1 : activeSeats (fst r1) = activeSeats (PokerEngine.players s)).
  { apply (Forall2_active _ _ _ (fun p p' D => dealtIn_active _ p p' D) F1). }
  destruct (dealRow_enough (fst r1) (snd r1) ltac:(lia)) as [L2 F2].
  cbn [PokerEngine.deck PokerEngine.players PokerEngine.setPlayers
       PokerEngine.setDeck]. split.
  - rewrite L2, L1, A1. lia.
  - eapply Forall2_compose; [|exact F1|exact F2].
    intros a b c Dab Dbc. cbv beta in Dab, Dbc.
    rewrite (dealtIn_active _ _ _ Dab) in Dbc.
    destruct (PokerEngine.isActive a);
      [apply (dealtIn_trans 1 1 a b c) | apply (dealtIn_trans 0 0 a b c)];
      assumption.
Qed.

Lemma dealPocketCards_two_each_witness :
  length (PokerEngine.deck (PokerEngine.dealPocketCards seatTwoBusted))
  = (length (PokerEngine.deck seatTwoBusted)
     - 2 * activeSeats (PokerEngine.players seatTwoBusted))%nat /\
  Forall2
    (fun p p' => dealtIn (if PokerEngine.isActive p then 2 else 0) p p')
    (PokerEngine.players seatTwoBusted)
    (PokerEngine.players (PokerEngine.dealPocketCards seatTwoBusted)).
Proof.
  apply (dealPocketCards_two_each seatTwoBusted). vm_compute. lia.
Defined.

(** ** The showdown and the call *)

(** X23. With integers on which the engine computes exactly: at a showdown
    with at least one seat still in the hand and a board without missing
    cards, [showdown] returns, the pot is emptied and the hand is over.  The
    seats paid are the seats still in the hand whose best hand no other such
    seat beats: a single such seat receives the whole pot, several receive the
    pot divided by their number, rounded down, each; no other stack
    changes. *)
Theorem showdown_pays_the_best_hands :
  forall s cc,
    exactTable s ->
    PokerEngine.readCards (PokerEngine.communityCards s) = Normal cc ->
    contestants s <> [] ->
    exists s',
      PokerEngine.showdown s = PokerEngine.Returned s' /\
      PokerEngine.pot s' = 0 /\
      PokerEngine.gameStarted s' = false /\
      PokerEngine.gamePhase s' = PokerEngine.showdownPhase /\
      (1 <= length (winnersOf cc s))%nat /\
      forall j q,
        nth_error (PokerEngine.players s) j = Some q ->
        exists q',
          nth_error (PokerEngine.players s') j = Some q' /\
          PokerEngine.chips q'
          = PokerEngine.chips q
            + (if PokerEngine.contesting q && holdsBest cc s q
               then if (length (winnersOf cc s) =? 1)%nat
                    then PokerEngine.pot s
                    else PokerEngine.pot s / Z.of_nat (length (winnersOf cc s))
               else 0).
Proof.
  intros s cc _ Hcc Hne.
  destruct (showdown_awards s cc Hcc Hne) as [s' [E [Hp [Hg [Hw Hc]]]]].
  exists s'. refine (conj E (conj Hp (conj Hg (conj _ (conj Hw _))))).
  - apply (showdown_phase s). now rewrite E.
  - intros j q Hq. destruct (Hc j q Hq) as [q' [Hn Hchips]].
    exists q'. split; [exact Hn|]. rewrite Hchips.
    destruct (Nat.eqb_spec (length (winnersOf cc s)) 1) as [L|L];
      [|reflexivity].
    rewrite L. change (Z.of_nat 1) with 1. now rewrite Z.div_1_r.
Qed.

(** Seats 0 and 2 play the board and split the pot of 211: 105 each. *)
Lemma showdown_pays_the_best_hands_witness :
  exists s',
    PokerEngine.showdown riverTable = PokerEngine.Returned s' /\
    PokerEngine.pot s' = 0 /\
    map PokerEngine.chips (PokerEngine.players s') = [1005; 990; 1005].
Proof.
  destruct (showdown_pays_the_best_hands riverTable
              [mkCard 14 spades; mkCard 13 hearts; mkCard 12 diamonds;
               mkCard 11 clubs; mkCard 10 spades])
    as [s' [E [Hp _]]].
  - unfold exactTable, exactAmount. simpl.
    refine (conj _ (conj _ (conj _ _))); try lia.
    intros p Hp. repeat (destruct Hp as [<-|Hp]; [simpl; lia|]).
    contradiction.
  - reflexivity.
  - vm_compute. discriminate.
  - exists s'. split; [exact E|]. split; [exact Hp|].
    assert (Es : PokerEngine.showdown riverTable
                 = PokerEngine.Returned
                     (stateOf (PokerEngine.showdown riverTable)))
      by (vm_compute; reflexivity).
    rewrite Es in E. apply Returned_eq in E. subst s'.
    vm_compute. reflexivity.
Defined.

(** X24. With integers on which the engine computes exactly: a call matches
    the bet when the stack allows it and is an all-in otherwise.  With a stack
    of at least the amount to call, the seat's bet becomes the current bet of
    the table and the amount to call leaves the stack; with a smaller stack
    the whole stack goes in, the stack is 0 and the seat is flagged all-in.
    Either way the pot grows by what left the stack, and the seat is flagged
    all-in exactly when its stack is 0.  (After an agent's raise the bets are
    binary fractions, on which these sums round.) *)
Theorem call_matches_or_goes_all_in :
  forall i p amount s,
    exactTable s ->
    nth_error (PokerEngine.players s) i = Some p ->
    PokerEngine.isAllIn p = false ->
    let toCall := PokerEngine.getCurrentBet s - PokerEngine.currentBet p in
    let s' := PokerEngine.applyAction i p PokerEngine.call amount s in
    exists p',
      nth_error (PokerEngine.players s') i = Some p' /\
      0 <= toCall /\
      PokerEngine.pot s' - PokerEngine.pot s
      = PokerEngine.chips p - PokerEngine.chips p' /\
      PokerEngine.currentBet p' - PokerEngine.currentBet p
      = PokerEngine.chips p - PokerEngine.chips p' /\
      (toCall <= PokerEngine.chips p ->
       PokerEngine.currentBet p' = PokerEngine.getCurrentBet s /\
       PokerEngine.chips p' = PokerEngine.chips p - toCall) /\
      (PokerEngine.chips p < toCall ->
       PokerEngine.chips p' = 0 /\
       PokerEngine.currentBet p'
       = PokerEngine.currentBet p + PokerEngine.chips p) /\
      (PokerEngine.isAllIn p' = true <-> PokerEngine.chips p' = 0).
Proof.
  intros i p amount s _ Hn Hall toCall s'.
  assert (Hbet : PokerEngine.currentBet p <= PokerEngine.getCurrentBet s).
  { apply getCurrentBet_max.
    - intros E. rewrite E in Hn. destruct i; discriminate.
    - eapply nth_error_In; eassumption. }
  exists (PokerEngine.commit (Z.min toCall (PokerEngine.chips p)) p).
  split; [unfold s'; simpl; now apply updateAt_nth|].
  split; [unfold toCall; lia|].
  unfold PokerEngine.commit. cbn [PokerEngine.chips PokerEngine.currentBet
    PokerEngine.totalInvested PokerEngine.setChips PokerEngine.setCurrentBet
    PokerEngine.setTotalInvested].
  set (a := Z.min toCall (PokerEngine.chips p)).
  assert (Fields :
    PokerEngine.chips
      (if PokerEngine.chips p - a =? 0
       then PokerEngine.setIsAllIn true
              (PokerEngine.setTotalInvested (PokerEngine.totalInvested p + a)
                 (PokerEngine.setCurrentBet (PokerEngine.currentBet p + a)
                    (PokerEngine.setChips (PokerEngine.chips p - a) p)))
       else PokerEngine.setTotalInvested (PokerEngine.totalInvested p + a)
              (PokerEngine.setCurrentBet (PokerEngine.currentBet p + a)
                 (PokerEngine.setChips (PokerEngine.chips p - a) p)))
    = PokerEngine.chips p - a /\
    PokerEngine.currentBet
      (if PokerEngine.chips p - a =? 0
       then PokerEngine.setIsAllIn true
              (PokerEngine.setTotalInvested (PokerEngine.totalInvested p + a)
                 (PokerEngine.setCurrentBet (PokerEngine.currentBet p + a)
                    (PokerEngine.setChips (PokerEngine.chips p - a) p)))
       else PokerEngine.setTotalInvested (PokerEngine.totalInvested p + a)
              (PokerEngine.setCurrentBet (PokerEngine.currentBet p + a)
                 (PokerEngine.setChips (PokerEngine.chips p - a) p)))
    = PokerEngine.currentBet p + a).
  { destruct (PokerEngine.chips p - a =? 0); split; reflexivity. }
  destruct Fields as [Fc Fb].
  split; [unfold s'; cbn [PokerEngine.applyAction PokerEngine.pot
                          PokerEngine.setPot]; fold toCall; fold a; lia|].
  split; [lia|].
  split; [intros Hle; unfold a in *; rewrite Z.min_l in * by lia;
          unfold toCall in *; lia|].
  split; [intros Hlt; unfold a in *; rewrite Z.min_r in * by lia; lia|].
  destruct (Z.eqb_spec (PokerEngine.chips p - a) 0) as [E|E]; simpl.
  - tauto.
  - rewrite Hall. split; [discriminate | intros; contradiction].
Qed.

(** Seat 2 of the table facing a bet of 50 with 20 chips. *)
Lemma call_matches_or_goes_all_in_witness :
  exists p',
    nth_error
      (PokerEngine.players
         (PokerEngine.applyAction 2 shortStackedSeat PokerEngine.call 0
            (PokerEngine.setPlayers (PokerAI.gsPlayers facingABet)
               PokerEngine.newEngine))) 2 = Some p' /\
    PokerEngine.chips p' = 0 /\ PokerEngine.isAllIn p' = true.
Proof.
  assert (Hx : exactTable (PokerEngine.setPlayers (PokerAI.gsPlayers facingABet)
                             PokerEngine.newEngine)).
  { unfold exactTable, exactAmount. simpl.
    refine (conj _ (conj _ (conj _ _))); try lia.
    intros p Hp. repeat (destruct Hp as [<-|Hp]; [simpl; lia|]).
    contradiction. }
  destruct (call_matches_or_goes_all_in 2 shortStackedSeat 0
              (PokerEngine.setPlayers (PokerAI.gsPlayers facingABet)
                 PokerEngine.newEngine) Hx eq_refl eq_refl)
    as [p' [Hn [_ [_ [_ [_ [Hshort Hflag]]]]]]].
  exists p'. split; [exact Hn|].
  assert (Hz : PokerEngine.chips p' = 0) by (apply Hshort; vm_compute; reflexivity).
  split; [exact Hz | now apply Hflag].
Defined.

(** ** The shuffle *)

Section Shuffle.
Import PokerEngine.








End Shuffle.



(** ** The decision agent *)

Section AgentFacts.
Import HandEvaluator PokerEngine PokerAI.
Local Open Scope Q_scope.

Lemma minQ_le_l a b : minQ a b <= a.
Proof.
  unfold minQ. destruct (Qle_bool a b) eqn:E; [apply Qle_refl|].
  destruct (Qlt_le_dec b a) as [L|L]; [now apply Qlt_le_weak|].
  apply Qle_bool_iff in L. congruence.
Qed.

(** Two hole cards are worth at most a quarter. *)
Lemma preflop_strength c1 c2 :
  (value c1 <= 14)%Z -> (value c2 <= 14)%Z ->
  handStrengthOf (evaluateHand [c1; c2]) <= 1 # 4.
Proof.
  intros H1 H2. unfold handStrengthOf.
  eapply Qle_trans; [apply minQ_le_l|].
  destruct (two_cards_eval c1 c2) as [[_ [Hr Hk]]|[_ [Hr Hk]]];
    rewrite Hr, Hk; unfold HIGH_CARD, PAIR; cbn [baseStrength Z.eqb Pos.eqb].
  - assert (Hm : (Z.max (value c1) (value c2) <= 14)%Z) by lia.
    revert Hm. generalize (Z.max (value c1) (value c2)). intros k Hk'.
    unfold Qle, Qplus, Qmult, Qdiv, Qinv, inject_Z.
    cbn -[Z.add Z.mul Z.le]. lia.
  - unfold Qle, Qplus, Qmult, Qdiv, Qinv, inject_Z.
    cbn -[Z.add Z.mul Z.le]. lia.
Qed.

Lemma weak_Qlt x hs : hs <= 1 # 4 -> 1 # 4 <= x -> Qlt_b x hs = false.
Proof.
  intros H Hx. unfold Qlt_b. apply negb_false_iff, Qle_bool_iff.
  eapply Qle_trans; eassumption.
Qed.

Lemma weak_Qle x hs : hs <= 1 # 4 -> 1 # 4 < x -> Qle_bool x hs = false.
Proof.
  intros H Hx. destruct (Qle_bool x hs) eqn:E; [|reflexivity].
  apply Qle_bool_iff in E. exfalso.
  apply (Qlt_irrefl x). eapply Qle_lt_trans; [|exact Hx].
  eapply Qle_trans; eassumption.
Qed.

(** A hand worth at most a quarter, stage by stage. *)
Lemma weak_base personality hs potOdds callAmount playerChips rng n :
  hs <= 1 # 4 ->
  getBaseDecision personality hs potOdds preflop callAmount playerChips rng n
  = (plain fold, n).
Proof.
  intros Hs.
  unfold getBaseDecision, getPreflopDecision, evaluatePocketPairs,
    evaluateSuitedConnectors.
  cbn [isPreflop].
  rewrite !(weak_Qlt _ hs Hs) by (unfold Qle; simpl; lia).
  cbn [andb]. change (Qlt_b 0 0) with false. rewrite andb_false_r.
  rewrite !(weak_Qle _ hs Hs) by (unfold Qlt; simpl; lia).
  reflexivity.
Qed.

Lemma fold_personality personality hs gameState rng n :
  applyPersonalityAdjustments personality (plain fold) hs gameState rng n
  = (plain fold, S n).
Proof.
  unfold applyPersonalityAdjustments, bindRand, random, ret, plain.
  cbn [action isAction andb negb].
  rewrite !andb_false_r.
  repeat match goal with
         | |- context [if ?b then _ else _] => destruct b
         end; reflexivity.
Qed.

Lemma weak_fold_difficulty difficulty hs rng n :
  hs <= 1 # 4 ->
  applyDifficultyAdjustments difficulty (plain fold) hs rng n = (plain fold, S n).
Proof.
  intros Hs.
  unfold applyDifficultyAdjustments, bindRand, random, ret, scaleAmount, plain.
  cbn [action amount isAction andb].
  rewrite (weak_Qlt (6 # 10) hs Hs) by (unfold Qle; simpl; lia).
  now destruct (Qlt_b (rng n) (errorRate difficulty)).
Qed.

Lemma no_bluff_preflop personality gameState hs rng n :
  gsGamePhase gameState = preflop ->
  fst (shouldBluff personality gameState hs rng n) = false.
Proof.
  intros Hp. unfold shouldBluff, bindRand, random, ret. rewrite Hp.
  cbn [isPreflop negb]. rewrite andb_false_r.
  repeat match goal with
         | |- context [if ?b then _ else _] => destruct b
         end; reflexivity.
Qed.

Lemma weak_hand_folds personality difficulty gameState player hs potOdds
      callAmount rng n :
  hs <= 1 # 4 ->
  gsGamePhase gameState = preflop ->
  fst (bindRand (getBaseDecision personality hs potOdds (gsGamePhase gameState)
                                 callAmount (chips player))
         (fun d => bindRand (applyPersonalityAdjustments personality d hs gameState)
            (fun d => bindRand (applyDifficultyAdjustments difficulty d hs)
               (fun d => bindRand (shouldBluff personality gameState hs)
                  (fun bluff =>
                     if bluff
                     then bindRand (generateBluff gameState player)
                                   (fun d => ret (Normal d))
                     else ret (Normal d))))) rng n)
  = Normal (plain fold).
Proof.
  intros Hs Hp. unfold bindRand at 1. rewrite Hp, (weak_base _ _ _ _ _ _ _ Hs).
  unfold bindRand at 1. rewrite fold_personality.
  unfold bindRand at 1. rewrite (weak_fold_difficulty _ _ _ _ Hs).
  unfold bindRand at 1.
  pose proof (no_bluff_preflop personality gameState hs rng (S (S n)) Hp) as B.
  destruct (shouldBluff personality gameState hs rng (S (S n))) as [b n'].
  simpl in B. subst b. reflexivity.
Qed.
End AgentFacts.

(** X26. Before the flop the agent always folds.  With two hole cards of
    value at most 14 and no community cards the hand strength is at most
    0.25, below every threshold of [getPreflopDecision], and no later stage
    changes a fold of such a hand: this holds for every personality, every
    difficulty and every sequence of random draws. *)
Theorem agent_always_folds_preflop :
  forall personality difficulty gameState player c1 c2 rng n,
    PokerEngine.pcards player = [c1; c2] ->
    value c1 <= 14 -> value c2 <= 14 ->
    PokerAI.gsCommunityCards gameState = [] ->
    PokerAI.gsGamePhase gameState = PokerEngine.preflop ->
    fst (PokerAI.makeDecision personality difficulty gameState player rng n)
    = Normal (PokerAI.plain PokerEngine.fold).
Proof.
  intros personality difficulty gameState player c1 c2 rng n Hc H1 H2 Hcc Hp.
  unfold PokerAI.makeDecision. rewrite Hc, Hcc.
  change (HandEvaluator.getHandStrength [c1; c2] [])
    with (Normal (HandEvaluator.handStrengthOf
                    (HandEvaluator.evaluateHand [c1; c2]))).
  cbv zeta.
  apply (weak_hand_folds personality difficulty gameState player);
    [now apply preflop_strength | exact Hp].
Qed.

Lemma agent_always_folds_preflop_witness :
  fst (PokerAI.makeDecision PokerAI.maniac
         (PokerAI.mkDifficulty 1 (5 # 100) (9 # 10))
         (PokerAI.mkGameState [] 15 10
            [PokerEngine.mkPlayer 0 1000 [mkCard 14 spades; mkCard 14 hearts]
               0 0 true true false false;
             PokerEngine.mkPlayer 1 995 [] 5 5 false true false false;
             PokerEngine.mkPlayer 2 990 [] 10 10 true true false false]
            PokerEngine.preflop)
         (PokerEngine.mkPlayer 0 1000 [mkCard 14 spades; mkCard 14 hearts]
            0 0 true true false false)
         (fun _ => 0%Q) 0%nat)
  = Normal (PokerAI.plain PokerEngine.fold).
Proof.
  apply (agent_always_folds_preflop PokerAI.maniac
           (PokerAI.mkDifficulty 1 (5 # 100) (9 # 10)) _ _
           (mkCard 14 spades) (mkCard 14 hearts));
    [reflexivity | simpl; lia | simpl; lia | reflexivity | reflexivity].
Defined.

Section AgentBluff.
Import HandEvaluator PokerEngine PokerAI.
Local Open Scope Q_scope.



(** A decision that comes out of the three adjustment stages as a check was
    a check for an amount to call of zero. *)
Lemma pipeline_check personality difficulty handStrength potOdds gameState
      callAmount playerChips rng n :
  let '(d, _) :=
    bindRand (getBaseDecision personality handStrength potOdds
                              (gsGamePhase gameState) callAmount playerChips)
      (fun d => bindRand (applyPersonalityAdjustments personality d handStrength
                                                       gameState)
         (fun d => applyDifficultyAdjustments difficulty d handStrength)) rng n in
  action d = check -> callAmount = 0%Z.
Proof.
  unfold bindRand, getBaseDecision, getPreflopDecision,
    applyPersonalityAdjustments, applyDifficultyAdjustments, scaleAmount,
    checkOrCall, random, ret, bindRand, raiseOf, plain.
  destruct (Z.eqb_spec callAmount 0) as [E|E];
  repeat match goal with
         | |- context [if ?b then _ else _] => destruct b
         end; simpl;
  repeat match goal with
         | |- context [if ?b then _ else _] => destruct b; simpl
         end; intros H; try discriminate H; exact E.
Qed.
End AgentBluff.


(** X28. [makeDecision] never answers a bet with a check: a decision to
    check is only returned when the seat has nothing to call. *)
Theorem agent_never_checks_facing_a_bet :
  forall personality difficulty gameState player rng n d n',
    PokerAI.makeDecision personality difficulty gameState player rng n
    = (Normal d, n') ->
    PokerAI.action d = PokerEngine.check ->
    PokerAI.gsCurrentBet gameState - PokerEngine.currentBet player = 0.
Proof.
  intros personality difficulty gameState player rng n d n'.
  unfold PokerAI.makeDecision.
  destruct (HandEvaluator.getHandStrength _ _) as [hs|]; [|discriminate].
  cbv zeta.
  set (callAmount := (PokerAI.gsCurrentBet gameState
                      - PokerEngine.currentBet player)%Z).
  set (potOdds := if (0 <? callAmount)%Z then _ else _).
  pose proof (pipeline_check personality difficulty hs potOdds gameState
                callAmount (PokerEngine.chips player) rng n) as PC.
  unfold PokerAI.bindRand in *.
  destruct (PokerAI.getBaseDecision _ _ _ _ _ _ rng n) as [d0 n0].
  destruct (PokerAI.applyPersonalityAdjustments _ _ _ _ rng n0) as [d1 n1].
  destruct (PokerAI.applyDifficultyAdjustments _ _ _ rng n1) as [d2 n2].
  destruct (PokerAI.shouldBluff _ _ _ rng n2) as [[|] n3].
  - unfold PokerAI.generateBluff, PokerAI.bindRand, PokerAI.random, PokerAI.ret.
    intros H. inversion H; subst. discriminate.
  - unfold PokerAI.ret. intros H. inversion H; subst. exact PC.
Qed.


(** The passive agent in seat 2 holds sevens full of threes, short of its
    raise threshold, and checks: there is nothing to call. *)
Lemma agent_never_checks_facing_a_bet_witness :
  PokerAI.gsCurrentBet quietFlop - PokerEngine.currentBet shortStackedSeat = 0.
Proof.
  apply (agent_never_checks_facing_a_bet PokerAI.passive
           (PokerAI.mkDifficulty 1 (5 # 100) (9 # 10)) quietFlop shortStackedSeat
           (fun _ => 0%Q) 0%nat
           (decisionOf (PokerAI.makeDecision PokerAI.passive
                          (PokerAI.mkDifficulty 1 (5 # 100) (9 # 10)) quietFlop
                          shortStackedSeat (fun _ => 0%Q) 0%nat))
           (snd (PokerAI.makeDecision PokerAI.passive
                   (PokerAI.mkDifficulty 1 (5 # 100) (9 # 10)) quietFlop
                   shortStackedSeat (fun _ => 0%Q) 0%nat))).
  - vm_compute. reflexivity.
  - vm_compute. reflexivity.
Defined.

Section Draws.
Import PokerAI.

Lemma insertBy_ascZ_sorted x l :
  Sorted Z.le l -> Sorted Z.le (insertBy ascZ x l).
Proof.
  induction 1 as [|y l Hs IH Hhd]; simpl.
  - repeat constructor.
  - unfold ascZ at 1. destruct (Z.leb_spec (x - y) 0) as [L|L].
    + constructor; [constructor; assumption|]. constructor. lia.
    + constructor; [assumption|].
      destruct l as [|z l]; simpl.
      * constructor. lia.
      * unfold ascZ. destruct (x - z <=? 0); constructor; [lia|].
        now inversion Hhd.
Qed.

Lemma sortBy_ascZ_sorted l : Sorted Z.le (sortBy ascZ l).
Proof.
  induction l as [|x l IH]; simpl; [constructor|].
  now apply insertBy_ascZ_sorted.
Qed.

Lemma asc_strict (l : list Z) :
  Sorted Z.le l -> NoDup l -> StronglySorted Z.lt l.
Proof.
  intros S N. apply Sorted_StronglySorted in S; [|intros x y z; lia].
  induction S as [|a l S IH F]; [constructor|].
  inversion N as [|? ? Ha N']; subst.
  constructor; [now apply IH|].
  rewrite Forall_forall in *. intros x Hx.
  specialize (F x Hx). assert (a <> x) by (intros ->; contradiction). lia.
Qed.

Lemma ascending_unique rs :
  StronglySorted Z.lt (sortBy ascZ (uniqueZ [] rs)) /\
  forall v, In v (sortBy ascZ (uniqueZ [] rs)) <-> In v rs.
Proof.
  split.
  - apply asc_strict; [apply sortBy_ascZ_sorted|].
    eapply Permutation_NoDup; [symmetry; apply sortBy_perm | apply uniqueZ_NoDup].
  - intros v. rewrite sortBy_In, uniqueZ_In. simpl. tauto.
Qed.

(** The window loop finds three ranks that fit in a window of five. *)
Lemma drawWindow_sound u :
  StronglySorted Z.lt u -> drawWindow u = true -> threeClose u.
Proof.
  induction u as [|a u IH]; intros S; [discriminate|].
  destruct u as [|y [|z t]]; try discriminate.
  cbn [drawWindow]. destruct (Z.leb_spec (z - a) 4) as [L|L].
  - intros _. exists a, y, z.
    inversion S as [|? ? S1 F1]; subst. inversion S1 as [|? ? _ F2]; subst.
    rewrite Forall_forall in *.
    pose proof (F1 y (or_introl eq_refl)).
    pose proof (F2 z (or_introl eq_refl)).
    simpl. intuition.
  - intros H. inversion S as [|? ? S1 _]; subst.
    destruct (IH S1 H) as [a' [b' [c' [Ha [Hb [Hc R]]]]]].
    exists a', b', c'. simpl in *. intuition.
Qed.

Lemma drawWindow_complete u :
  StronglySorted Z.lt u -> threeClose u -> drawWindow u = true.
Proof.
  induction u as [|x u IH]; intros S [a [b [c [Ha [Hb [Hc [Lab [Lbc Lca]]]]]]]];
    [contradiction|].
  inversion S as [|? ? S1 F1]; subst. rewrite Forall_forall in F1.
  assert (Hgt : forall v, In v (x :: u) -> x < v -> In v u).
  { intros v [E|Hv] Hl; [lia | exact Hv]. }
  assert (Hge : forall v, In v (x :: u) -> x <= v).
  { intros v [E|Hv]; [lia|]. specialize (F1 v Hv). lia. }
  destruct (Z.eq_dec a x) as [->|Hne].
  - (* the window starts at the head *)
    assert (Hbu : In b u) by (apply Hgt; [assumption | lia]).
    assert (Hcu : In c u) by (apply Hgt; [assumption | lia]).
    destruct u as [|y u']; [contradiction|].
    inversion S1 as [|? ? S2 F2]; subst. rewrite Forall_forall in F2.
    assert (Hyb : y <= b).
    { destruct Hbu as [->|Hb']; [lia|]. specialize (F2 b Hb'). lia. }
    assert (Hcu' : In c u').
    { destruct Hcu as [E|Hc']; [lia | exact Hc']. }
    destruct u' as [|z t]; [contradiction|].
    inversion S2 as [|? ? _ F3]; subst. rewrite Forall_forall in F3.
    assert (Hzc : z <= c).
    { destruct Hcu' as [->|Hc']; [lia|]. specialize (F3 c Hc'). lia. }
    cbn [drawWindow]. destruct (Z.leb_spec (z - x) 4); [reflexivity | lia].
  - assert (Hxa : x < a).
    { pose proof (Hge a Ha). lia. }
    assert (T : threeClose u).
    { exists a, b, c. repeat split; try assumption; apply Hgt; (assumption || lia). }
    pose proof (IH S1 T) as D.
    destruct u as [|y [|z t]]; try discriminate D.
    cbn [drawWindow]. destruct (z - x <=? 4); [reflexivity | exact D].
Qed.

Lemma threeClose_equiv rs rs' :
  (forall v, In v rs <-> In v rs') -> threeClose rs -> threeClose rs'.
Proof.
  intros E [a [b [c [Ha [Hb [Hc R]]]]]]. exists a, b, c.
  rewrite <- !E. auto.
Qed.
End Draws.

(** X29. [checkStraightDraws] answers yes exactly when at least three ranks
    are given and either three different ranks among them fit in a window of
    five consecutive ranks, or an ace comes with a rank of five or less.
    Repeated ranks count for the length test only. *)
Theorem checkStraightDraws_three_in_a_window :
  forall ranks,
    PokerAI.checkStraightDraws ranks = true <->
    (3 <= length ranks)%nat /\
    (threeClose ranks \/ (In 14 ranks /\ exists r, In r ranks /\ r <= 5)).
Proof.
  intros ranks. unfold PokerAI.checkStraightDraws.
  destruct (ascending_unique ranks) as [S E].
  destruct (Nat.ltb_spec (length ranks) 3) as [L|L].
  - split; [discriminate | intros [H _]; lia].
  - destruct (PokerAI.drawWindow _) eqn:D.
    + split; [|reflexivity]. intros _. split; [lia|]. left.
      apply (threeClose_equiv _ _ E). now apply drawWindow_sound.
    + rewrite andb_true_iff, includes_In, existsb_exists, E. split.
      * intros [H14 [r [Hr Hle]]]. split; [lia|]. right.
        split; [assumption|]. exists r. split; [now apply E | now apply Z.leb_le].
      * intros [_ [T|[H14 [r [Hr Hle]]]]].
        -- apply (threeClose_equiv _ _ (fun v => iff_sym (E v))) in T.
           rewrite (drawWindow_complete _ S T) in D. discriminate.
        -- split; [assumption|]. exists r.
           split; [now apply E | now apply Z.leb_le].
Qed.

(** ** Where the cards are *)

Section Cards.
Import HandEvaluator PokerEngine.

Lemma tracked_same D s s' :
  deck s' = deck s -> communityCards s' = communityCards s ->
  map pcards (players s') = map pcards (players s) ->
  tracked D s -> tracked D s'.
Proof.
  intros Hd Hc Hp [burned P]. exists burned.
  unfold cardsOf, boardCards, holeCards in *. now rewrite Hd, Hc, Hp.
Qed.

Lemma tracked_index D s (i : nat) :
  tracked D s -> tracked D (setCurrentPlayerIndex i s).
Proof. now apply tracked_same. Qed.

Lemma tracked_reset D s :
  tracked D s -> tracked D (setPlayers (map (setCurrentBet 0) (players s)) s).
Proof.
  apply tracked_same; try reflexivity. simpl. rewrite map_map.
  now apply map_ext.
Qed.

Lemma tracked_phase D s p :
  p <> showdownPhase -> gamePhase s <> showdownPhase ->
  tracked D s -> tracked D (setGamePhase p s).
Proof. intros _ _. now apply tracked_same. Qed.

Lemma perm_burn {A} (burned d R : list A) c :
  Permutation ((c :: burned) ++ d ++ R) (burned ++ (d ++ [c]) ++ R).
Proof.
  simpl. rewrite <- (app_assoc d [c] R). simpl.
  rewrite (app_assoc burned d (c :: R)), (app_assoc burned d R).
  apply Permutation_middle.
Qed.

Lemma perm_push {A} (burned d B H : list A) c :
  Permutation (burned ++ d ++ (B ++ [c]) ++ H) (burned ++ (d ++ [c]) ++ B ++ H).
Proof.
  apply Permutation_app_head. rewrite <- !app_assoc.
  apply Permutation_app_head. simpl. symmetry. apply Permutation_middle.
Qed.

Lemma tracked_deal D s : tracked D s -> tracked D (snd (dealCard s)).
Proof.
  intros [burned P].
  destruct (deck s) as [|c0 d0] eqn:E.
  - rewrite (dealCard_none s E). now exists burned.
  - destruct (pop_nonempty c0 d0) as [c [d Ed]]. rewrite Ed in E.
    rewrite (dealCard_top s d c E). exists (c :: burned).
    rewrite <- P. unfold cardsOf, boardCards, holeCards.
    cbn [deck communityCards players setDeck]. rewrite E.
    apply perm_burn.
Qed.

Lemma tracked_push D s : tracked D s -> tracked D (pushCommunity s).
Proof.
  intros [burned P].
  destruct (deck s) as [|c0 d0] eqn:E.
  - rewrite (pushCommunity_none s E). exists burned. rewrite <- P.
    unfold cardsOf, boardCards, holeCards. simpl.
    rewrite flat_map_app. simpl. now rewrite app_nil_r.
  - destruct (pop_nonempty c0 d0) as [c [d Ed]]. rewrite Ed in E.
    rewrite (pushCommunity_top s d c E). exists burned. rewrite <- P.
    unfold cardsOf, boardCards, holeCards.
    cbn [deck communityCards players setDeck setCommunityCards]. rewrite E.
    rewrite flat_map_app. cbn [flat_map app]. apply perm_push.
Qed.

Lemma awardPot_cards i s :
  deck (awardPot i s) = deck s /\
  communityCards (awardPot i s) = communityCards s /\
  map pcards (players (awardPot i s)) = map pcards (players s).
Proof.
  unfold awardPot. simpl. refine (conj eq_refl (conj eq_refl _)).
  now apply map_updateAt_same.
Qed.

Lemma split_cards (ws : list (nat * HandResult)) a : forall ps,
  map pcards (fold_left (fun ps w => updateAt (fst w) (addChips a) ps) ws ps)
  = map pcards ps.
Proof.
  induction ws as [|w ws IH]; intros ps; simpl; [reflexivity|].
  rewrite IH. now apply map_updateAt_same.
Qed.

Lemma evaluateWinner_cards c s s' :
  endState (evaluateWinner c s) = Some s' ->
  deck s' = deck s /\ communityCards s' = communityCards s /\
  map pcards (players s') = map pcards (players s).
Proof.
  unfold evaluateWinner.
  destruct (mapO _ c) as [playerHands|e];
    [|simpl; intros E; apply Some_eq in E; now subst].
  destruct (sortBy _ playerHands) as [|[i0 bestHand] sorted];
    [simpl; intros E; apply Some_eq in E; now subst|].
  destruct (filter _ _) as [|w [|w2 ws]]; simpl; intros E; apply Some_eq in E;
    subst; simpl; try (refine (conj eq_refl (conj eq_refl _))).
  - reflexivity.
  - now apply map_updateAt_same.
  - rewrite split_cards. rewrite !map_updateAt_same by reflexivity. reflexivity.
Qed.

Lemma showdown_cards s s' :
  endState (showdown s) = Some s' ->
  deck s' = deck s /\ communityCards s' = communityCards s /\
  map pcards (players s') = map pcards (players s).
Proof.
  unfold showdown. set (s0 := setGamePhase showdownPhase s).
  assert (G : forall s1,
    (deck s1 = deck s0 /\ communityCards s1 = communityCards s0 /\
     map pcards (players s1) = map pcards (players s0)) ->
    deck s1 = deck s /\ communityCards s1 = communityCards s /\
    map pcards (players s1) = map pcards (players s)) by (intros s1 H; exact H).
  intros E. apply endState_bindR in E as [[s1 [D E]]|[e D]].
  - simpl in E. apply Some_eq in E. subst s'.
    cbn [deck communityCards players setGameStarted]. apply G.
    destruct (filter _ (seats s0)) as [|w [|w2 ws]].
    + eapply evaluateWinner_cards. now rewrite D.
    + apply Returned_eq in D. subst. apply awardPot_cards.
    + eapply evaluateWinner_cards. now rewrite D.
  - apply G. destruct (filter _ (seats s0)) as [|w [|w2 ws]].
    + eapply evaluateWinner_cards. now rewrite D.
    + discriminate.
    + eapply evaluateWinner_cards. now rewrite D.
Qed.

Lemma tracked_showdown D s s' :
  tracked D s -> endState (showdown s) = Some s' -> tracked D s'.
Proof.
  intros T E. destruct (showdown_cards s s' E) as [Hd [Hc Hp]].
  now apply (tracked_same D s s').
Qed.

Lemma commit_cards amt p : pcards (commit amt p) = pcards p.
Proof. unfold commit. simpl. now destruct (chips p - amt =? 0). Qed.

Lemma applyAction_tracked D i p a amt s :
  tracked D s -> tracked D (applyAction i p a amt s).
Proof.
  apply tracked_same; destruct a; try reflexivity; simpl;
    apply map_updateAt_same; intros x; try reflexivity; apply commit_cards.
Qed.

Lemma postBlind_cards amount i s :
  deck (postBlind amount i s) = deck s /\
  communityCards (postBlind amount i s) = communityCards s /\
  map pcards (players (postBlind amount i s)) = map pcards (players s).
Proof.
  unfold postBlind. destruct (nth_error (players s) i) as [p|]; [|auto].
  destruct (isActive p); [|auto]. simpl.
  refine (conj eq_refl (conj eq_refl _)). now apply map_updateAt_same.
Qed.

Lemma postBlinds_cards s :
  deck (postBlinds s) = deck s /\
  communityCards (postBlinds s) = communityCards s /\
  map pcards (players (postBlinds s)) = map pcards (players s).
Proof.
  unfold postBlinds. destruct (Nat.ltb _ 2); [auto|]. cbv zeta.
  cbn [deck communityCards players setCurrentPlayerIndex].
  set (s1 := postBlind (small (blinds s)) _ s).
  destruct (postBlind_cards (small (blinds s))
              ((dealerPosition s + 1) mod length (players s)) s) as [A [B C]].
  fold s1 in A, B, C.
  destruct (postBlind_cards (big (blinds s1))
              ((dealerPosition s1 + 2) mod length (players s)) s1) as [A' [B' C']].
  rewrite A', B', C'. auto.
Qed.

Lemma no_hole_cards ps :
  concat (map pcards (map resetPlayer ps)) = [].
Proof. induction ps as [|p ps IH]; simpl; [reflexivity | exact IH]. Qed.

Lemma dealPocketCards_cards s :
  Permutation (deck (dealPocketCards s) ++ holeCards (dealPocketCards s))
              (deck s ++ holeCards s) /\
  communityCards (dealPocketCards s) = communityCards s.
Proof.
  rewrite (dealPocketCards_rows s). cbv zeta.
  set (r1 := dealRow (players s) (deck s)).
  destruct (dealRow_spec (players s) (deck s)) as [P1 _].
  destruct (dealRow_spec (fst r1) (snd r1)) as [P2 _].
  fold r1 in P1.
  unfold holeCards. cbn [deck players communityCards setPlayers setDeck].
  split; [|reflexivity]. rewrite P2. exact P1.
Qed.

Lemma tracked_pocket D s : tracked D s -> tracked D (dealPocketCards s).
Proof.
  intros [burned P]. exists burned. rewrite <- P.
  destruct (dealPocketCards_cards s) as [Q C].
  unfold cardsOf, boardCards. rewrite C.
  apply Permutation_app_head.
  rewrite (Permutation_app_swap_app (deck (dealPocketCards s))).
  rewrite (Permutation_app_swap_app (deck s)).
  now apply Permutation_app_head.
Qed.

Lemma tracked_fresh shuffled s :
  tracked shuffled
    (setPlayers (map resetPlayer (players s))
       (setHandNumber (S (handNumber s))
          (setGamePhase preflop
             (setPot 0 (setCommunityCards [] (setDeck shuffled s)))))).
Proof.
  exists []. unfold cardsOf, boardCards, holeCards.
  cbn [deck players communityCards setPlayers setHandNumber setGamePhase
       setPot setCommunityCards setDeck flat_map app].
  rewrite no_hole_cards, app_nil_r. reflexivity.
Qed.

Lemma startNewHandOnStack_tracked stack shuffled s s' :
  endState (startNewHandOnStack stack shuffled s) = Some s' ->
  tracked shuffled s'.
Proof.
  unfold startNewHandOnStack.
  apply (startBettingRoundOnStack_invariant (tracked shuffled)
           (tracked_index shuffled) (tracked_reset shuffled)
           (tracked_phase shuffled) (tracked_deal shuffled)
           (tracked_push shuffled) (tracked_showdown shuffled)).
  pose proof (tracked_fresh shuffled s) as T0.
  set (s0 := setPlayers (map resetPlayer (players s)) _) in *.
  change (tracked shuffled (setGameStarted true (dealPocketCards (postBlinds s0)))).
  apply (tracked_same shuffled (dealPocketCards (postBlinds s0)));
    try reflexivity.
  apply tracked_pocket.
  destruct (postBlinds_cards s0) as [A [B C]].
  now apply (tracked_same shuffled s0).
Qed.
End Cards.

(** X30. During a hand every card of the shuffled deck is in one place only:
    still in the deck, on the board, in the hand of a seat, or burned.
    Whatever the limit of the call stack, [startNewHand] and any sequence of
    actions come to an end, and in the state they leave (whether the last call
    returned, threw on a missing card or seat, or overflowed the stack after
    the showdown) the deck, the board and the hole cards together with some
    burned cards are a rearrangement of the shuffled deck; when the shuffled
    deck has no card twice, no card shows twice among the board and the
    hands. *)
Theorem cards_are_dealt_once :
  forall stack shuffled acts s,
    exists s',
      endState (playHandOnStack stack shuffled acts s) = Some s' /\
      (exists burned,
         Permutation
           (burned ++ PokerEngine.deck s' ++ boardCards s' ++ holeCards s')
           shuffled) /\
      (NoDup shuffled -> NoDup (boardCards s' ++ holeCards s')).
Proof.
  intros stack shuffled acts s.
  destruct (playHandOnStack_ends stack shuffled acts s) as [s' [E H]].
  exists s'. split; [exact E|].
  assert (T : tracked shuffled s').
  { destruct H as [[s1 [D E1]]|[e D]].
    - assert (T1 : tracked shuffled s1).
      { apply (startNewHandOnStack_tracked stack shuffled s). rewrite D.
        reflexivity. }
      refine (playActionsOnStack_invariant (tracked shuffled)
                (tracked_index shuffled) (tracked_reset shuffled)
                (tracked_phase shuffled) (tracked_deal shuffled)
                (tracked_push shuffled) (tracked_showdown shuffled)
                stack acts _ s1 s' T1 E1).
      intros i p a amt s0 _ _ H0. now apply applyAction_tracked.
    - apply (startNewHandOnStack_tracked stack shuffled s). rewrite D.
      reflexivity. }
  destruct T as [burned P]. split; [exists burned; exact P|].
  intros N. apply (Permutation_NoDup (Permutation_sym P)) in N.
  apply NoDup_app_remove_l in N. unfold cardsOf in N.
  now apply NoDup_app_remove_l in N.
Qed.

(** A hand that runs to the showdown, and a check that overflows the stack
    after it. *)
Lemma cards_are_dealt_once_witness :
  exists s',
    endState (playHandOnStack 30 stackedDeck
                [(0%nat, PokerEngine.call, 0); (1%nat, PokerEngine.fold, 0);
                 (0%nat, PokerEngine.check, 0)]
                PokerEngine.newEngine) = Some s' /\
    (exists burned,
       Permutation
         (burned ++ PokerEngine.deck s' ++ boardCards s' ++ holeCards s')
         stackedDeck) /\
    (NoDup stackedDeck -> NoDup (boardCards s' ++ holeCards s')).
Proof.
  apply (cards_are_dealt_once 30 stackedDeck
           [(0%nat, PokerEngine.call, 0); (1%nat, PokerEngine.fold, 0);
            (0%nat, PokerEngine.check, 0)]
           PokerEngine.newEngine).
Defined.

(** ** The chips of a whole hand *)

Section Remainder.
Import HandEvaluator PokerEngine.

(** A showdown changes nothing of a seat but its stack. *)
Section SeatFields.
Context {B : Type}.
Variable g : Player -> B.
Hypothesis g_chips : forall amt p, g (addChips amt p) = g p.

Lemma split_fields (ws : list (nat * HandResult)) a : forall ps,
  map g (fold_left (fun ps w => updateAt (fst w) (addChips a) ps) ws ps)
  = map g ps.
Proof.
  induction ws as [|w ws IH]; intros ps; simpl; [reflexivity|].
  rewrite IH. apply map_updateAt_same. intros x. apply g_chips.
Qed.

Lemma evaluateWinner_fields c s s' :
  evaluateWinner c s = Returned s' ->
  communityCards s' = communityCards s /\
  map g (players s') = map g (players s).
Proof.
  unfold evaluateWinner.
  destruct (mapO _ c) as [playerHands|e]; [|discriminate].
  destruct (sortBy _ playerHands) as [|[i0 bestHand] sorted]; [discriminate|].
  destruct (filter _ _) as [|w [|w2 ws]]; intros E; apply Returned_eq in E;
    subst; simpl; (split; [reflexivity|]).
  - reflexivity.
  - apply map_updateAt_same. intros x. apply g_chips.
  - rewrite split_fields. rewrite !map_updateAt_same; [reflexivity | |];
      intros x; apply g_chips.
Qed.

Lemma showdown_fields s s' :
  showdown s = Returned s' ->
  communityCards s' = communityCards s /\
  map g (players s') = map g (players s).
Proof.
  unfold showdown. set (s0 := setGamePhase showdownPhase s).
  destruct (filter _ (seats s0)) as [|w [|w2 ws]].
  - discriminate.
  - simpl. intros E. apply Returned_eq in E. subst s'. simpl.
    split; [reflexivity|]. apply map_updateAt_same. intros x. apply g_chips.
  - destruct (evaluateWinner (w :: w2 :: ws) s0) as [s1| |] eqn:D;
      try discriminate.
    simpl. intros E. apply Returned_eq in E. subst s'.
    apply (evaluateWinner_fields _ s0 s1 D).
Qed.
End SeatFields.

Lemma readCards_board l cc :
  readCards l = Normal cc ->
  flat_map (fun o : option Card => match o with Some c => [c] | None => [] end) l
  = cc.
Proof.
  revert cc. induction l as [|[c|] l IH]; intros cc; simpl.
  - intros E. now inversion E.
  - destruct (readCards l) as [cs|]; simpl; [|discriminate].
    intros E. inversion E. now rewrite (IH cs eq_refl).
  - discriminate.
Qed.

Lemma seats_snd_filter (f : Player -> bool) ps : forall k,
  map snd (filter (fun ip : nat * Player => f (snd ip))
                  (combine (seq k (length ps)) ps))
  = filter f ps.
Proof.
  induction ps as [|p ps IH]; intros k; simpl; [reflexivity|].
  destruct (f p); simpl; now rewrite IH.
Qed.

Lemma contestants_players s :
  map snd (contestants s) = filter contesting (players s).
Proof. unfold contestants, seats. apply seats_snd_filter. Qed.

Lemma forallb_map {A C} (f : A -> C) (P : C -> bool) l :
  forallb P (map f l) = forallb (fun a => P (f a)) l.
Proof. induction l as [|a l IH]; simpl; [reflexivity|]. now rewrite IH. Qed.

(** The hands at the showdown, and how many of them no other beats. *)
Lemma paid_by_hands cc s :
  length (winnersOf cc s)
  = length
      (filter (fun h =>
                 forallb (fun h' => 0 <=? compareHands h h')
                         (map (bestHandOf cc) (filter contesting (players s))))
              (map (bestHandOf cc) (filter contesting (players s)))).
Proof.
  rewrite <- contestants_players, map_map.
  rewrite filter_map_comm, length_map. unfold winnersOf.
  f_equal. apply filter_ext. intros ip. unfold holdsBest.
  rewrite forallb_map. reflexivity.
Qed.

Lemma hands_by_fields cc ps : forall ps',
  map (fun p => (pcards p, contesting p)) ps'
  = map (fun p => (pcards p, contesting p)) ps ->
  map (bestHandOf cc) (filter contesting ps')
  = map (bestHandOf cc) (filter contesting ps).
Proof.
  induction ps as [|p ps IH]; intros [|p' ps'] E; simpl in *;
    try discriminate; [reflexivity|].
  inversion E as [[E1 E2 E3]]. rewrite E2.
  destruct (contesting p); simpl; rewrite (IH ps' E3); [|reflexivity].
  f_equal. unfold bestHandOf. now rewrite E1.
Qed.

Lemma paidSeats_same s s' :
  communityCards s' = communityCards s ->
  map (fun p => (pcards p, contesting p)) (players s')
  = map (fun p => (pcards p, contesting p)) (players s) ->
  paidSeats s' = paidSeats s.
Proof.
  intros Hc Hp. unfold paidSeats, boardCards. rewrite Hc.
  rewrite !paid_by_hands.
  now rewrite (hands_by_fields _ (players s) (players s') Hp).
Qed.

Lemma seats_length_filter (f : Player -> bool) ps : forall k,
  length (filter (fun ip : nat * Player => f (snd ip))
                 (combine (seq k (length ps)) ps))
  = length (filter f ps).
Proof.
  intros k. rewrite <- (seats_snd_filter f ps k). now rewrite length_map.
Qed.

Lemma filter_filter {A} (f g : A -> bool) l :
  filter g (filter f l) = filter (fun a => f a && g a) l.
Proof.
  induction l as [|a l IH]; simpl; [reflexivity|].
  destruct (f a); simpl; [|exact IH]. destruct (g a); now rewrite IH.
Qed.

Lemma winners_count cc s :
  length (winnersOf cc s)
  = length (filter (fun q => contesting q && holdsBest cc s q) (players s)).
Proof.
  unfold winnersOf, contestants. rewrite filter_filter.
  unfold seats.
  apply (seats_length_filter (fun q => contesting q && holdsBest cc s q)).
Qed.

(** Stacks that grow by [x] at the seats that satisfy [f]. *)
Lemma sum_by_seat (f : Player -> bool) x ps : forall ps',
  length ps' = length ps ->
  (forall j q, nth_error ps j = Some q ->
     exists q', nth_error ps' j = Some q' /\
                chips q' = chips q + (if f q then x else 0)) ->
  sumChips ps' = sumChips ps + x * Z.of_nat (length (filter f ps)).
Proof.
  induction ps as [|p ps IH]; intros [|p' ps'] L H; simpl in L; try discriminate.
  - simpl. lia.
  - destruct (H 0%nat p eq_refl) as [q' [E Hc]]. simpl in E.
    apply Some_eq in E. subst q'.
    assert (IH' : sumChips ps' = sumChips ps + x * Z.of_nat (length (filter f ps))).
    { apply IH; [lia|]. intros j q Hq. apply (H (S j) q Hq). }
    cbn [sumChips fold_right filter] in *. fold (sumChips ps') (sumChips ps).
    fold (sumChips ps') (sumChips ps) in IH'.
    rewrite Hc, IH'. destruct (f p); cbn [length]; lia.
Qed.

(** What a showdown that returns does to the chips: the pot is empty and
    the stacks hold all the chips but the remainder of the division of the pot
    among the seats paid.  Nothing else of a seat has changed. *)
Lemma showdown_remainder s s' :
  showdown s = Returned s' ->
  pot s' = 0 /\
  sumChips (players s')
  = totalChips s - pot s mod Z.of_nat (paidSeats s).
Proof.
  intros H.
  destruct (showdown_fields (fun p => tt) (fun _ _ => eq_refl) s s' H) as [_ Hl].
  apply (f_equal (@length _)) in Hl. rewrite !length_map in Hl.
  destruct (contestants s) as [|[i p] [|ip2 l]] eqn:Ec.
  - exfalso. revert H. unfold showdown.
    change (seats (setGamePhase showdownPhase s)) with (seats s).
    fold (contestants s). rewrite Ec. discriminate.
  - (* one seat is left: it is paid without a comparison *)
    assert (Hn : nth_error (players s) i = Some p).
    { apply seats_nth.
      assert (Hin : In (i, p) (contestants s)) by (rewrite Ec; now left).
      apply filter_In in Hin. tauto. }
    assert (Hpaid : paidSeats s = 1%nat).
    { unfold paidSeats, winnersOf. rewrite Ec. cbn [filter snd].
      unfold holdsBest. rewrite Ec. cbn [forallb snd].
      rewrite compareHands_refl. reflexivity. }
    rewrite Hpaid. revert H. unfold showdown.
    change (seats (setGamePhase showdownPhase s)) with (seats s).
    fold (contestants s). rewrite Ec. cbn [bindR endHand fst].
    intros E. apply Returned_eq in E. subst s'.
    split; [reflexivity|]. unfold totalChips.
    cbn [players pot awardPot setGameStarted setPot setPlayers setGamePhase].
    rewrite (sumChips_updateAt _ _ _ _ Hn). unfold addChips.
    cbn [chips setChips]. rewrite Z.mod_1_r. lia.
  - destruct (readCards (communityCards s)) as [cc|e] eqn:Hcc.
    + assert (Hne : contestants s <> []) by (rewrite Ec; discriminate).
      destruct (showdown_awards s cc Hcc Hne) as [s2 [E [Hz [_ [Hw Hc]]]]].
      rewrite E in H. apply Returned_eq in H. subst s2.
      split; [exact Hz|].
      unfold paidSeats, boardCards. rewrite (readCards_board _ _ Hcc).
      rewrite (sum_by_seat (fun q => contesting q && holdsBest cc s q)
                 (pot s / Z.of_nat (length (winnersOf cc s)))
                 (players s) (players s') Hl Hc).
      rewrite <- winners_count. unfold totalChips.
      pose proof (Z_div_mod_eq_full (pot s) (Z.of_nat (length (winnersOf cc s)))).
      lia.
    + exfalso. revert H. unfold showdown.
      change (seats (setGamePhase showdownPhase s)) with (seats s).
      fold (contestants s). rewrite Ec.
      unfold evaluateWinner. cbn [mapO snd]. unfold handOf at 1.
      change (communityCards (setGamePhase showdownPhase s))
        with (communityCards s).
      rewrite Hcc. discriminate.
Qed.
End Remainder.

Section Accounted.
Import HandEvaluator PokerEngine.

Variable T : Z.

Lemma accounted_before s s' :
  gamePhase s <> showdownPhase -> gamePhase s' <> showdownPhase ->
  totalChips s' = totalChips s ->
  pot s' - sumInvested (players s') = pot s - sumInvested (players s) ->
  chipsAccounted T s -> chipsAccounted T s'.
Proof.
  intros P P' Ht Hi [H _]. destruct (H P) as [H1 H2].
  split; [|contradiction]. intros _. split; lia.
Qed.

Lemma accounted_showdown s s' :
  gamePhase s <> showdownPhase -> chipsAccounted T s ->
  showdown s = Returned s' -> chipsAccounted T s'.
Proof.
  intros P [H _] E. destruct (H P) as [H1 H2].
  pose proof (settled_phase s s' E) as Ps.
  destruct (showdown_remainder s s' E) as [Hz Hs].
  destruct (showdown_fields totalInvested (fun _ _ => eq_refl) s s' E) as [_ Hi].
  destruct (showdown_fields (fun p => (pcards p, contesting p))
              (fun _ _ => eq_refl) s s' E) as [Hc Hk].
  split; [intros Q; contradiction|]. intros _.
  split; [exact Hz|].
  rewrite (paidSeats_same s s' Hc Hk), !sumInvested_of_map, Hi,
    <- sumInvested_of_map, <- H2, Hs, H1.
  reflexivity.
Qed.

Lemma dealFlop_frame s s' :
  dealFlop s = Returned s' ->
  players s' = players s /\ pot s' = pot s /\ gamePhase s' = gamePhase s.
Proof.
  intros E.
  destruct (dealFlop_invariant (fun x => players x = players s /\ pot x = pot s))
    with (s := s) (s' := s') as [[A B] C].
  - intros x [A B]. now rewrite dealCard_players, dealCard_pot.
  - intros x [A B]. unfold pushCommunity. simpl.
    now rewrite dealCard_players, dealCard_pot.
  - now split.
  - now rewrite E.
  - auto.
Qed.

Lemma dealOne_frame k s s' :
  dealOne k s = Returned s' ->
  players s' = players s /\ pot s' = pot s /\ gamePhase s' = gamePhase s.
Proof.
  intros E.
  destruct (dealOne_invariant (fun x => players x = players s /\ pot x = pot s))
    with (k := k) (s := s) (s' := s') as [[A B] C].
  - intros x [A B]. now rewrite dealCard_players, dealCard_pot.
  - intros x [A B]. unfold pushCommunity. simpl.
    now rewrite dealCard_players, dealCard_pot.
  - now split.
  - now rewrite E.
  - auto.
Qed.

Section Step.
Variable move : State -> Run.
Hypothesis move_accounted :
  forall s s', gamePhase s <> showdownPhase -> chipsAccounted T s ->
               move s = Returned s' -> chipsAccounted T s'.

Lemma processNextPlayerWith_accounted s s' :
  gamePhase s <> showdownPhase -> chipsAccounted T s ->
  processNextPlayerWith move s = Returned s' -> chipsAccounted T s'.
Proof.
  intros P H. unfold processNextPlayerWith.
  destruct (nth_error _ _) as [p|]; [|now apply move_accounted].
  destruct (contesting p); [|now apply move_accounted].
  intros E. apply Returned_eq in E. now subst.
Qed.

Lemma startBettingRoundWith_accounted s s' :
  gamePhase s <> showdownPhase -> chipsAccounted T s ->
  startBettingRoundWith move s = Returned s' -> chipsAccounted T s'.
Proof.
  intros P H. unfold startBettingRoundWith.
  apply processNextPlayerWith_accounted; [exact P | exact H].
Qed.

Lemma nextStreet_accounted p s s1 s' :
  p <> showdownPhase -> gamePhase s <> showdownPhase -> chipsAccounted T s ->
  players s1 = players s /\ pot s1 = pot s /\ gamePhase s1 = gamePhase s ->
  startBettingRoundWith move (setGamePhase p s1) = Returned s' ->
  chipsAccounted T s'.
Proof.
  intros Hp P H [A [B C]].
  apply startBettingRoundWith_accounted; [exact Hp|].
  apply (accounted_before s); [exact P | exact Hp | | | exact H].
  - unfold totalChips. simpl. now rewrite A, B.
  - simpl. now rewrite A, B.
Qed.

Lemma advanceGamePhaseWith_accounted s s' :
  gamePhase s <> showdownPhase -> chipsAccounted T s ->
  advanceGamePhaseWith move s = Returned s' -> chipsAccounted T s'.
Proof.
  intros P H. unfold advanceGamePhaseWith.
  destruct (gamePhase s) eqn:Ph.
  - destruct (dealFlop s) as [s1| |] eqn:D; try discriminate. simpl.
    apply (nextStreet_accounted flop s s1); try assumption; try discriminate.
    + congruence.
    + now apply dealFlop_frame.
  - destruct (dealTurn s) as [s1| |] eqn:D; try discriminate. simpl.
    apply (nextStreet_accounted turn s s1); try assumption; try discriminate.
    + congruence.
    + now apply (dealOne_frame 3).
  - destruct (dealRiver s) as [s1| |] eqn:D; try discriminate. simpl.
    apply (nextStreet_accounted river s s1); try assumption; try discriminate.
    + congruence.
    + now apply (dealOne_frame 4).
  - apply accounted_showdown; [congruence | exact H].
  - congruence.
Qed.

Lemma completeBettingRoundWith_accounted s s' :
  gamePhase s <> showdownPhase -> chipsAccounted T s ->
  completeBettingRoundWith move s = Returned s' -> chipsAccounted T s'.
Proof.
  intros P H. unfold completeBettingRoundWith.
  apply advanceGamePhaseWith_accounted; [exact P|].
  apply (accounted_before s); [exact P | exact P | | | exact H].
  - unfold totalChips. simpl. now rewrite sumChips_same_chips.
  - simpl. now rewrite sumInvested_map.
Qed.
End Step.

Lemma moveToNextPlayer_accounted fuel : forall s s',
  gamePhase s <> showdownPhase -> chipsAccounted T s ->
  moveToNextPlayer fuel s = Returned s' -> chipsAccounted T s'.
Proof.
  induction fuel as [|fuel IH]; intros s s' P H; cbn [moveToNextPlayer];
    [discriminate|].
  destruct (isBettingRoundComplete s).
  - now apply completeBettingRoundWith_accounted.
  - destruct (nextSeat _ _ _) as [idx|]; [|discriminate].
    apply processNextPlayerWith_accounted; [exact IH | exact P | exact H].
Qed.

Lemma executePlayerAction_accounted_for fuel i action amount s s' :
  gamePhase s <> showdownPhase -> chipsAccounted T s ->
  executePlayerAction fuel i action amount s = Returned s' ->
  chipsAccounted T s'.
Proof.
  intros P H. unfold executePlayerAction.
  destruct (nth_error (players s) i) as [player|] eqn:E; [|discriminate].
  apply moveToNextPlayer_accounted; [now rewrite applyAction_phase|].
  assert (Hi : potIsInvested s) by (intros _; now apply (proj1 H)).
  apply (applyAction_invested i player action amount s E) in Hi.
  destruct H as [H _]. destruct (H P) as [H1 H2].
  split; [|rewrite applyAction_phase; contradiction].
  intros Q. split; [now rewrite applyAction_total | now apply Hi].
Qed.

Lemma playActions_accounted_for fuel acts : forall s s',
  chipsAccounted T s -> beforeShowdown fuel acts s = true ->
  playActions fuel acts s = Returned s' -> chipsAccounted T s'.
Proof.
  induction acts as [|[[i a] amt] acts IH]; intros s s' H B;
    cbn [playActions beforeShowdown] in *.
  - intros E. apply Returned_eq in E. now subst.
  - assert (P : gamePhase s <> showdownPhase).
    { intros E. rewrite E in B. discriminate. }
    assert (B' : match executePlayerAction fuel i a amt s with
                 | Returned s1 => beforeShowdown fuel acts s1
                 | _ => true
                 end = true).
    { destruct (gamePhase s); [exact B | exact B | exact B | exact B|].
      now elim P. }
    destruct (executePlayerAction fuel i a amt s) as [s1| |] eqn:E;
      try discriminate.
    simpl. apply IH; [|exact B'].
    now apply (executePlayerAction_accounted_for fuel i a amt s s1).
Qed.
End Accounted.

Section AccountedHand.
Import PokerEngine.

Lemma startNewHand_accounted_for fuel shuffled s s1 :
  startNewHand fuel shuffled s = Returned s1 ->
  chipsAccounted (sumChips (players s)) s1.
Proof.
  unfold startNewHand, startBettingRound.
  apply (startBettingRoundWith_accounted (sumChips (players s)) _
           (moveToNextPlayer_accounted (sumChips (players s)) fuel)).
  - cbn [gamePhase setGameStarted]. rewrite blinds_and_cards_phase.
    discriminate.
  - set (s0 := setPlayers (map resetPlayer (players s))
                 (setHandNumber (S (handNumber s))
                    (setGamePhase preflop
                       (setPot 0 (setCommunityCards [] (setDeck shuffled s)))))).
    split; [|cbn [gamePhase setGameStarted];
             rewrite blinds_and_cards_phase; discriminate].
    intros _.
    change (totalChips (dealPocketCards (postBlinds s0)) = sumChips (players s) /\
            pot (dealPocketCards (postBlinds s0))
            = sumInvested (players (dealPocketCards (postBlinds s0)))).
    pose proof (dealPocketCards_invested (postBlinds s0)) as A.
    assert (B : pot (postBlinds s0) - sumInvested (players (postBlinds s0))
                = pot s0 - sumInvested (players s0)).
    { apply postBlinds_invested. unfold s0. simpl. intros p Hp.
      apply in_map_iff in Hp as [q [<- _]]. reflexivity. }
    assert (C : pot s0 - sumInvested (players s0) = 0).
    { unfold s0. simpl. rewrite sumInvested_zero; [reflexivity|].
      intros p Hp. apply in_map_iff in Hp as [q [<- _]]. reflexivity. }
    destruct (dealPocketCards_quiet (postBlinds s0)) as [Qc Qp].
    pose proof (postBlinds_total s0) as D.
    assert (E : totalChips s0 = sumChips (players s)).
    { unfold totalChips, s0. simpl.
      rewrite sumChips_same_chips by reflexivity. lia. }
    unfold totalChips in *. split; lia.
Qed.
End AccountedHand.

(** C4, as the code has it, for integer amounts on which the engine computes
    exactly (magnitude at most 2^52).  Posting the blinds and applying an
    action (fold, check, call, or raise by any such amount) leave the sum of
    the stacks plus the pot unchanged.  A showdown that returns empties the
    pot into the stacks except for the remainder of the division of the pot
    among the seats it pays: the contesting seats whose hand no contesting
    seat beats.  So in a hand started by [startNewHand] from stacks that are
    not negative, in which every action is taken before the showdown, the
    stacks plus the pot equal the stacks before the blinds until the showdown;
    after it the pot is empty and the stacks are short of the stacks before
    the blinds by the remainder of the division of what the seats have put in
    among the seats paid, which is nothing when a single seat is paid or the
    pot divides evenly. *)
Theorem chips_conserved_up_to_split_remainder :
  (forall s,
     exactTable s ->
     totalChips (PokerEngine.postBlinds s) = totalChips s) /\
  (forall s i player action amount,
     exactTable s -> exactAmount amount ->
     nth_error (PokerEngine.players s) i = Some player ->
     totalChips (PokerEngine.applyAction i player action amount s)
     = totalChips s) /\
  (forall s s',
     exactTable s ->
     PokerEngine.showdown s = PokerEngine.Returned s' ->
     PokerEngine.pot s' = 0 /\
     sumChips (PokerEngine.players s')
     = totalChips s - PokerEngine.pot s mod Z.of_nat (paidSeats s)) /\
  (forall fuel shuffled acts s0 s1 s',
     exactHand acts s0 ->
     PokerEngine.startNewHand fuel shuffled s0 = PokerEngine.Returned s1 ->
     beforeShowdown fuel acts s1 = true ->
     playActions fuel acts s1 = PokerEngine.Returned s' ->
     (PokerEngine.gamePhase s' <> PokerEngine.showdownPhase ->
      totalChips s' = sumChips (PokerEngine.players s0)) /\
     (PokerEngine.gamePhase s' = PokerEngine.showdownPhase ->
      PokerEngine.pot s' = 0 /\
      sumChips (PokerEngine.players s')
      = sumChips (PokerEngine.players s0)
        - sumInvested (PokerEngine.players s') mod Z.of_nat (paidSeats s'))).
Proof.
  refine (conj _ (conj _ (conj _ _))).
  - intros s _. apply postBlinds_total.
  - intros s i player action amount _ _ H. now apply applyAction_total.
  - intros s s' _. apply showdown_remainder.
  - intros fuel shuffled acts s0 s1 s' _ H1 B H2.
    apply startNewHand_accounted_for in H1.
    destruct (playActions_accounted_for _ fuel acts s1 s' H1 B H2) as [A1 A2].
    split; [intros P; now apply A1 | exact A2].
Qed.

(** The split-pot hand started on the stacked deck: 25 chips were put in and
    two seats are paid, so one chip is missing. *)
Lemma chips_conserved_up_to_split_remainder_witness :
  let s1 := stateOf (PokerEngine.startNewHand 8 stackedDeck PokerEngine.newEngine) in
  let s' := stateOf (playActions 8 [(0%nat, PokerEngine.call, 0);
                                    (1%nat, PokerEngine.fold, 0)] s1) in
  PokerEngine.pot s' = 0 /\
  sumChips (PokerEngine.players s')
  = sumChips (PokerEngine.players PokerEngine.newEngine)
    - sumInvested (PokerEngine.players s') mod Z.of_nat (paidSeats s').
Proof.
  intros s1 s'.
  apply (proj2 (proj2 (proj2 (proj2 chips_conserved_up_to_split_remainder))
                 8%nat stackedDeck
                 [(0%nat, PokerEngine.call, 0); (1%nat, PokerEngine.fold, 0)]
                 PokerEngine.newEngine s1 s'
                 (exactHand_newEngine
                    [(0%nat, PokerEngine.call, 0); (1%nat, PokerEngine.fold, 0)]
                    ltac:(intros i amt Hin; simpl in Hin;
                          destruct Hin as [E|[E|[]]]; inversion E))
                 ltac:(vm_compute; reflexivity) ltac:(vm_compute; reflexivity)
                 ltac:(vm_compute; reflexivity))).
  vm_compute. reflexivity.
Defined.
